(** * Task scheduling, task tracking and report generation

    A shallow embedding of JavaScript classes of the repository:

    - [TaskScheduler] (src/enterprise-platform/app.js, lines 3805-4070):
      priority queues, the dispatch loop, agent selection, the retry path
      and the statistics;
    - [TaskTracker] and [ReportGenerator] (src/unnamed/part_003): the audit
      trail of a task, the aggregate metrics and the reports;
    - [ResourcePool], [LogCollector] and the agent selection of
      [WorkflowEngine] (src/enterprise-platform/app.js, lines 4178-4208,
      3129-3244 and 3728-3738).

    Conventions of the embedding.

    - JavaScript objects that are shared and mutated (the scheduler's task
      objects) live in an object store [heap]; queues, the running map and
      the result lists hold references into it, as the source holds
      references to the same object.
    - A [Date] is kept as its instant (milliseconds since the epoch, a [Z]).
      Where the source stores [new Date().toISOString()] and later reads it
      back with [new Date(s).getTime()], the embedding stores the instant.
    - The clock and the values drawn by [Math.random()] are explicit
      arguments. Where a method reads the clock several times while it
      builds one record, the reads are given one reading; readings that the
      source compares with each other, or that are taken on two sides of a
      suspension, are separate arguments.
    - Code between two [await]s runs without interruption. The scheduler is
      a transition system whose events are these stretches of code:
      [start()] after [stop()] begins a further call of [scheduleLoop], and
      the calls under way take turns at their suspensions.
    - A finite JavaScript number is kept as an exact integer or rational:
      counters, instants and their differences are integers, a quotient is
      the exact rational. The sums of the resource pool, whose amounts are
      not bounded, are rounded as binary64 rounds them.
    - A plain object used as a dictionary is the list of its own properties
      in the order of their creation, read in the order in which JavaScript
      enumerates them.
    - Calls to the log collector and to [console] have no effect on the
      state that is modelled and are left out. *)

From Stdlib Require Import ZArith QArith Qround Qabs Lia.
From stdpp Require Import gmap strings list fin_maps pretty sorting.

Local Open Scope string_scope.
Local Open Scope list_scope.
Local Open Scope Z_scope.

(** ** JavaScript idioms *)

(** [x || d] for an optional string: [undefined] and [""] are falsy. *)
Definition str_or (x : option string) (d : string) : string :=
  match x with
  | Some s => if String.eqb s "" then d else s
  | None => d
  end.

(** [x || d] for an optional number: [undefined] and [0] are falsy. *)
Definition num_or (x : option Z) (d : Z) : Z :=
  match x with
  | Some n => if n =? 0 then d else n
  | None => d
  end.

(** [xs.includes(x)] on an array of strings. *)
Definition includes (xs : list string) (x : string) : bool :=
  existsb (String.eqb x) xs.

(** *** Plain objects *)

(** The value of a decimal digit. *)
Definition digit (a : Ascii.ascii) : option N :=
  let n := Ascii.N_of_ascii a in
  if ((48 <=? n) && (n <=? 57))%N then Some (n - 48)%N else None.

(** The number a string of decimal digits denotes. *)
Fixpoint numeral (s : string) (acc : N) : option N :=
  match s with
  | EmptyString => Some acc
  | String a s' =>
      match digit a with
      | Some d => numeral s' (10 * acc + d)%N
      | None => None
      end
  end.

(** A property key that is an array index: the decimal numeral, without
    leading zero, of an integer below [2 ^ 32 - 1]. *)
Definition arrayIndex (key : string) : option N :=
  match numeral key 0 with
  | Some n =>
      if (n <? 4294967295)%N && String.eqb (pretty n) key then Some n else None
  | None => None
  end.

Definition isIndex (key : string) : bool :=
  match arrayIndex key with Some _ => true | None => false end.

(** [o[key] = v] for an object [v], on a plain object [o] given by its own
    properties in the order of their creation. A property that exists keeps
    its place. Under the key [__proto__] the assignment reaches the setter
    that [Object.prototype] has under this name, which replaces the
    prototype of [o] and creates no property. *)
Definition assign {A} (key : string) (v : A) (o : list (string * A))
  : list (string * A) :=
  if String.eqb key "__proto__" then o
  else if existsb (λ e, String.eqb e.1 key) o
       then map (λ e, if String.eqb e.1 key then (key, v) else e) o
       else o ++ [(key, v)].

(** The order of two properties whose keys are the array indices [a.1] and
    [b.1]. *)
Definition byIndex {A} (a b : N * A) : Prop := (a.1 ≤ b.1)%N.

#[global] Instance byIndex_dec {A} : RelDecision (@byIndex A) :=
  λ a b, decide (a.1 ≤ b.1)%N.

(** The own properties of [o] in the order in which [Object.keys],
    [Object.entries], [for ... in] and [JSON.stringify] visit them: the
    array indices first, ascending, then the other keys in the order of
    their creation. *)
Definition ownEntries {A} (o : list (string * A)) : list (string * A) :=
  let indexed := omap (λ e, (λ n : N, (n, e)) <$> arrayIndex e.1) o in
  (merge_sort byIndex indexed).*2 ++ List.filter (λ e, negb (isIndex e.1)) o.

(** A JavaScript number as far as the tracker and the reports need it: a
    finite value, kept as an exact rational, or one of the three values a
    division by zero produces. *)
Inductive number := NaN | PosInfinity | NegInfinity | Finite (q : Q).

(** [a / b] *)
Definition divide (a b : Q) : number :=
  if Qeq_bool b 0 then
    if Qeq_bool a 0 then NaN
    else if Qle_bool 0 a then PosInfinity else NegInfinity
  else Finite (a / b).

(** [x * c] for a positive constant [c]. *)
Definition scale (x : number) (c : Q) : number :=
  match x with
  | Finite q => Finite (q * c)
  | other => other
  end.

(** [x > c] and [x < c]; every comparison with [NaN] is false. *)
Definition greater (x : number) (c : Q) : bool :=
  match x with
  | NaN => false
  | PosInfinity => true
  | NegInfinity => false
  | Finite q => negb (Qle_bool q c)
  end.

Definition less (x : number) (c : Q) : bool :=
  match x with
  | NaN => false
  | PosInfinity => false
  | NegInfinity => true
  | Finite q => negb (Qle_bool c q)
  end.

(** What the reports take from the JavaScript runtime: the rendering of
    numbers and of dates in the locale of the host. *)
Record Runtime := {
  (** [x.toFixed(digits)] *)
  toFixed : nat → number → string;
  (** [String(parseFloat(s))] *)
  parseFloat : string → string;
  (** [Math.floor(Math.log(x) / Math.log(1024))] *)
  logFloor : Q → Z;
  (** [new Date(t).toLocaleTimeString()] *)
  toLocaleTimeString : Z → string;
  (** [new Date(t).toLocaleString()] *)
  toLocaleString : option Z → string
}.

Module TaskScheduler.

(** *** Data *)

Inductive TaskStatus := queued | running | completed | failed | retrying.

(** The value [runTask] resolves with (its [status] is the constant
    ['success']). *)
Record RunResult := {
  data : string;
  executionTime : Q;
  processedAt : Z
}.

(** A task object.  A task handed in by a caller leaves the fields that the
    scheduler manages unset; [scheduleTask] copies every field of its
    argument (the object spread) and then overrides [id], [scheduledAt],
    [attempts], [maxAttempts] and [status]. *)
Record Task := {
  id : option string;
  name : option string;
  priority : option string;
  requiredCapabilities : option (list string);
  maxAttempts : option Z;
  attempts : Z;
  status : TaskStatus;
  scheduledAt : option Z;
  startTime : option Z;
  endTime : option Z;
  assignedAgent : option string;
  result : option RunResult;
  error : option string
}.

(** An entry of [window.platform.agents]. [currentTasks] is only ever read
    through its length. *)
Record Agent := {
  agent_id : string;
  agent_status : string;
  currentTasks : option nat;
  capabilities : option (list string)
}.

Record Config := {
  maxConcurrentTasks : Z;
  maxTasksPerAgent : Z;
  retryAttempts : Z;
  retryDelay : Z
}.

(** The scheduler object. [heap] is the store of task objects, a reference
    is an index into it. [runningTasks] is the [Map] from task id to task,
    in insertion order. [timers] are the pending [setTimeout] callbacks of
    the retry path: the instant at which the callback is due and the task
    it captured. *)
Record Scheduler := {
  heap : list Task;
  queues : gmap string (list nat);
  runningTasks : list (option string * nat);
  completedTasks : list nat;
  failedTasks : list nat;
  timers : list (Z * nat);
  schedulerConfig : Config;
  isRunning : bool
}.

Definition constructor : Scheduler := {|
  heap := [];
  queues := ∅;
  runningTasks := [];
  completedTasks := [];
  failedTasks := [];
  timers := [];
  schedulerConfig := {| maxConcurrentTasks := 50; maxTasksPerAgent := 5;
                        retryAttempts := 3; retryDelay := 1000 |};
  isRunning := false
|}.

(** Field updates. *)
Definition set_heap (h : list Task) (s : Scheduler) : Scheduler :=
  {| heap := h; queues := queues s; runningTasks := runningTasks s;
     completedTasks := completedTasks s; failedTasks := failedTasks s;
     timers := timers s; schedulerConfig := schedulerConfig s;
     isRunning := isRunning s |}.

Definition set_queues (q : gmap string (list nat)) (s : Scheduler) : Scheduler :=
  {| heap := heap s; queues := q; runningTasks := runningTasks s;
     completedTasks := completedTasks s; failedTasks := failedTasks s;
     timers := timers s; schedulerConfig := schedulerConfig s;
     isRunning := isRunning s |}.

Definition set_runningTasks (r : list (option string * nat)) (s : Scheduler) : Scheduler :=
  {| heap := heap s; queues := queues s; runningTasks := r;
     completedTasks := completedTasks s; failedTasks := failedTasks s;
     timers := timers s; schedulerConfig := schedulerConfig s;
     isRunning := isRunning s |}.

Definition set_completedTasks (c : list nat) (s : Scheduler) : Scheduler :=
  {| heap := heap s; queues := queues s; runningTasks := runningTasks s;
     completedTasks := c; failedTasks := failedTasks s;
     timers := timers s; schedulerConfig := schedulerConfig s;
     isRunning := isRunning s |}.

Definition set_failedTasks (f : list nat) (s : Scheduler) : Scheduler :=
  {| heap := heap s; queues := queues s; runningTasks := runningTasks s;
     completedTasks := completedTasks s; failedTasks := f;
     timers := timers s; schedulerConfig := schedulerConfig s;
     isRunning := isRunning s |}.

Definition set_timers (t : list (Z * nat)) (s : Scheduler) : Scheduler :=
  {| heap := heap s; queues := queues s; runningTasks := runningTasks s;
     completedTasks := completedTasks s; failedTasks := failedTasks s;
     timers := t; schedulerConfig := schedulerConfig s;
     isRunning := isRunning s |}.

Definition set_isRunning (b : bool) (s : Scheduler) : Scheduler :=
  {| heap := heap s; queues := queues s; runningTasks := runningTasks s;
     completedTasks := completedTasks s; failedTasks := failedTasks s;
     timers := timers s; schedulerConfig := schedulerConfig s;
     isRunning := b |}.

(** Mutation of the task object at reference [l]. *)
Definition update (l : nat) (f : Task → Task) (s : Scheduler) : Scheduler :=
  match heap s !! l with
  | Some t => set_heap (<[l := f t]> (heap s)) s
  | None => s
  end.

(** [Map.prototype.set]: an existing key keeps its place. *)
Fixpoint map_set (k : option string) (v : nat) (m : list (option string * nat))
  : list (option string * nat) :=
  match m with
  | [] => [(k, v)]
  | (k', v') :: m' =>
      if decide (k = k') then (k, v) :: m' else (k', v') :: map_set k v m'
  end.

(** [Map.prototype.delete]. *)
Fixpoint map_delete (k : option string) (m : list (option string * nat))
  : list (option string * nat) :=
  match m with
  | [] => []
  | (k', v') :: m' =>
      if decide (k = k') then m' else (k', v') :: map_delete k m'
  end.

(** *** selectAgent (app.js 3934-3955) *)

(** [agent.currentTasks?.length || 0] *)
Definition load (a : Agent) : Z :=
  match currentTasks a with
  | Some n => Z.of_nat n
  | None => 0
  end.

(** [task.requiredCapabilities?.every(cap => agent.capabilities?.includes(cap))]
    where [undefined] counts as false. *)
Definition everyCapability (task : Task) (agent : Agent) : bool :=
  match requiredCapabilities task with
  | Some caps =>
      forallb (fun cap => match capabilities agent with
                          | Some cs => includes cs cap
                          | None => false
                          end) caps
  | None => false
  end.

(** The predicate of the [filter] call. The last conjunct is the source's
    [... || true]. *)
Definition available (cfg : Config) (task : Task) (agent : Agent) : bool :=
  let isReady := String.eqb (agent_status agent) "ready" in
  let hasCapacity := load agent <? maxTasksPerAgent cfg in
  let hasRequiredCapabilities := everyCapability task agent || true in
  isReady && hasCapacity && hasRequiredCapabilities.

(** [Array.prototype.sort] with the comparator [loadA - loadB]. The sort is
    stable, so its result is the one of a stable insertion sort. *)
Fixpoint insert_by_load (a : Agent) (l : list Agent) : list Agent :=
  match l with
  | [] => [a]
  | b :: l' => if load a <=? load b then a :: b :: l' else b :: insert_by_load a l'
  end.

Definition sort_by_load (l : list Agent) : list Agent :=
  foldr insert_by_load [] l.

Definition selectAgent (cfg : Config) (agents : list Agent) (task : Task) : option Agent :=
  let availableAgents := List.filter (available cfg task) agents in
  match availableAgents with
  | [] => None
  | _ => head (sort_by_load availableAgents)
  end.

(** *** Mutation of single fields of a task *)

Definition set_status (v : TaskStatus) (t : Task) : Task :=
  {| id := id t; name := name t; priority := priority t;
     requiredCapabilities := requiredCapabilities t;
     maxAttempts := maxAttempts t; attempts := attempts t; status := v;
     scheduledAt := scheduledAt t; startTime := startTime t;
     endTime := endTime t; assignedAgent := assignedAgent t;
     result := result t; error := error t |}.

Definition set_attempts (v : Z) (t : Task) : Task :=
  {| id := id t; name := name t; priority := priority t;
     requiredCapabilities := requiredCapabilities t;
     maxAttempts := maxAttempts t; attempts := v; status := status t;
     scheduledAt := scheduledAt t; startTime := startTime t;
     endTime := endTime t; assignedAgent := assignedAgent t;
     result := result t; error := error t |}.

Definition set_startTime (v : option Z) (t : Task) : Task :=
  {| id := id t; name := name t; priority := priority t;
     requiredCapabilities := requiredCapabilities t;
     maxAttempts := maxAttempts t; attempts := attempts t; status := status t;
     scheduledAt := scheduledAt t; startTime := v;
     endTime := endTime t; assignedAgent := assignedAgent t;
     result := result t; error := error t |}.

Definition set_endTime (v : option Z) (t : Task) : Task :=
  {| id := id t; name := name t; priority := priority t;
     requiredCapabilities := requiredCapabilities t;
     maxAttempts := maxAttempts t; attempts := attempts t; status := status t;
     scheduledAt := scheduledAt t; startTime := startTime t;
     endTime := v; assignedAgent := assignedAgent t;
     result := result t; error := error t |}.

Definition set_assignedAgent (v : option string) (t : Task) : Task :=
  {| id := id t; name := name t; priority := priority t;
     requiredCapabilities := requiredCapabilities t;
     maxAttempts := maxAttempts t; attempts := attempts t; status := status t;
     scheduledAt := scheduledAt t; startTime := startTime t;
     endTime := endTime t; assignedAgent := v;
     result := result t; error := error t |}.

Definition set_result (v : option RunResult) (t : Task) : Task :=
  {| id := id t; name := name t; priority := priority t;
     requiredCapabilities := requiredCapabilities t;
     maxAttempts := maxAttempts t; attempts := attempts t; status := status t;
     scheduledAt := scheduledAt t; startTime := startTime t;
     endTime := endTime t; assignedAgent := assignedAgent t;
     result := v; error := error t |}.

Definition set_error (v : option string) (t : Task) : Task :=
  {| id := id t; name := name t; priority := priority t;
     requiredCapabilities := requiredCapabilities t;
     maxAttempts := maxAttempts t; attempts := attempts t; status := status t;
     scheduledAt := scheduledAt t; startTime := startTime t;
     endTime := endTime t; assignedAgent := assignedAgent t;
     result := result t; error := v |}.

(** *** scheduleTask (app.js 3835-3861) *)

(** [task] is the argument as the callee reads it: the caller's object, or,
    on the retry path, the current content of the failed task object.
    [now] is the clock, [fresh] the value of [generateTaskId()]. The result
    is the new state and the reference of the new object [scheduledTask]. *)
Definition scheduleTask (task : Task) (now : Z) (fresh : string) (s : Scheduler)
  : Scheduler * nat :=
  let priority := str_or (TaskScheduler.priority task) "medium" in
  let s :=
    if decide (is_Some (queues s !! priority)) then s
    else set_queues (<[priority := []]> (queues s)) s in
  let scheduledTask :=
    {| id := Some (str_or (id task) fresh);
       name := name task;
       priority := TaskScheduler.priority task;
       requiredCapabilities := requiredCapabilities task;
       maxAttempts :=
         Some (num_or (maxAttempts task) (retryAttempts (schedulerConfig s)));
       attempts := 0;
       status := queued;
       scheduledAt := Some now;
       startTime := startTime task;
       endTime := endTime task;
       assignedAgent := assignedAgent task;
       result := result task;
       error := error task |} in
  let l := length (heap s) in
  let s := set_heap (heap s ++ [scheduledTask]) s in
  let s := set_queues (alter (λ q, q ++ [l]) priority (queues s)) s in
  (s, l).

(** *** canExecuteMoreTasks (app.js 3889-3891) *)

Definition canExecuteMoreTasks (s : Scheduler) : bool :=
  Z.of_nat (length (runningTasks s)) <? maxConcurrentTasks (schedulerConfig s).

(** *** handleTaskFailure (app.js 3977-4007) *)

(** [task.attempts < task.maxAttempts]; a comparison with [undefined] is
    false. *)
Definition canRetry (t : Task) : bool :=
  match maxAttempts t with
  | Some m => attempts t <? m
  | None => false
  end.

Definition handleTaskFailure (l : nat) (message : string) (now : Z) (s : Scheduler)
  : Scheduler :=
  match heap s !! l with
  | None => s
  | Some task0 =>
      let task :=
        set_endTime (Some now)
          (set_error (Some message)
             (set_status failed (set_attempts (attempts task0 + 1) task0))) in
      let s := set_heap (<[l := task]> (heap s)) s in
      let s := set_runningTasks (map_delete (id task) (runningTasks s)) s in
      if canRetry task then
        set_timers
          (timers s ++ [(now + retryDelay (schedulerConfig s) * attempts task, l)]) s
      else
        set_failedTasks (failedTasks s ++ [l]) s
  end.

(** The callback that [handleTaskFailure] hands to [setTimeout]:
    [task.status = 'retrying'; this.scheduleTask(task)]. *)
Definition retry (l : nat) (now : Z) (fresh : string) (s : Scheduler) : Scheduler :=
  let s := update l (set_status retrying) s in
  match heap s !! l with
  | Some task => fst (scheduleTask task now fresh s)
  | None => s
  end.

(** *** executeTask (app.js 3893-3932) *)

Definition noAgentMessage : string := "没有可用的智能体".
Definition runFailedMessage : string := "任务执行失败".
Definition timeoutMessage : string := "任务执行超时".

(** Up to [await this.selectAgent(task)]: the task is marked running and
    entered in the running map, and the agent is chosen. *)
Definition executeTask_enter (agents : list Agent) (l : nat) (now : Z) (s : Scheduler)
  : Scheduler * option Agent :=
  let s := update l (λ t, set_startTime (Some now) (set_status running t)) s in
  match heap s !! l with
  | None => (s, None)
  | Some task =>
      let s := set_runningTasks (map_set (id task) l (runningTasks s)) s in
      (s, selectAgent (schedulerConfig s) agents task)
  end.

(** [task.assignedAgent = agent.id], after which [runTask] is called. *)
Definition executeTask_assign (l : nat) (agent : Agent) (s : Scheduler) : Scheduler :=
  update l (set_assignedAgent (Some (agent_id agent))) s.

(** The resolved value of [runTask]; [task.name] is printed by a template
    literal. *)
Definition runTask_value (task : Task) (executionTime : Q) (now : Z) : RunResult :=
  {| data := "任务 " +:+ default "undefined" (name task) +:+ " 执行结果";
     executionTime := executionTime;
     processedAt := now |}.

(** After [runTask] resolved: [resolved] is the clock as the timer callback
    of [runTask] read it for [processedAt], [now] the clock when
    [executeTask] goes on. *)
Definition executeTask_completed (l : nat) (executionTime : Q) (resolved now : Z)
  (s : Scheduler) : Scheduler :=
  match heap s !! l with
  | None => s
  | Some task0 =>
      let task :=
        set_result (Some (runTask_value task0 executionTime resolved))
          (set_endTime (Some now) (set_status completed task0)) in
      let s := set_heap (<[l := task]> (heap s)) s in
      let s := set_runningTasks (map_delete (id task) (runningTasks s)) s in
      set_completedTasks (completedTasks s ++ [l]) s
  end.

(** *** checkRunningTasks (app.js 4009-4021) *)

Definition timeout : Z := 300000.

Definition checkRunningTasks (now : Z) (s : Scheduler) : Scheduler :=
  fold_left
    (λ s entry,
       match heap s !! entry.2 with
       | Some task =>
           match startTime task with
           | Some started =>
               if now - started >? timeout
               then handleTaskFailure entry.2 timeoutMessage now s
               else s
           | None => s
           end
       | None => s
       end)
    (runningTasks s) s.

(** *** processQueues (app.js 3876-3887) *)

Definition priorityOrder : list string := ["critical"; "high"; "medium"; "low"].

(** [this.queues.get(priority) || []] *)
Definition queue_of (priority : string) (s : Scheduler) : list nat :=
  default [] (queues s !! priority).

(** [queue.shift()] on the array stored under [priority]. *)
Definition shift (priority : string) (s : Scheduler) : Scheduler :=
  set_queues (alter (drop 1) priority (queues s)) s.

(** What the environment decides about one call of [executeTask]: the clock
    when it is entered, the [executionTime] drawn by [runTask], whether the
    draw [Math.random() > 0.1] succeeds, the clock when the timer callback
    of [runTask] runs, and the clock when [executeTask] goes on after
    [runTask] has settled. *)
Record Run := {
  enteredAt : Z;
  drawnTime : Q;
  succeeds : bool;
  resolvedAt : Z;
  settledAt : Z
}.

(** [executeTask] run from its call to its return, with nothing else
    scheduled in between. *)
Definition executeTask (agents : list Agent) (run : Run) (l : nat) (s : Scheduler)
  : Scheduler :=
  match executeTask_enter agents l (enteredAt run) s with
  | (s, None) => handleTaskFailure l noAgentMessage (enteredAt run) s
  | (s, Some agent) =>
      let s := executeTask_assign l agent s in
      if succeeds run
      then executeTask_completed l (drawnTime run) (resolvedAt run) (settledAt run) s
      else handleTaskFailure l runFailedMessage (settledAt run) s
  end.

(** The [while] loop of [processQueues] for one priority. The second
    component lists the tasks in the order in which they were shifted and
    executed; it is not part of the program state. *)
Fixpoint drain (fuel : nat) (agents : list Agent) (world : nat → Run)
  (priority : string) (s : Scheduler) : Scheduler * list nat :=
  match fuel with
  | O => (s, [])
  | S fuel =>
      match queue_of priority s with
      | task :: _ =>
          if canExecuteMoreTasks s then
            let r := drain fuel agents world priority
                       (executeTask agents (world task) task (shift priority s)) in
            (r.1, task :: r.2)
          else (s, [])
      | [] => (s, [])
      end
  end.

(** One call of [processQueues] with nothing else scheduled in between:
    no queue grows during the call, so the length of a queue on entry of
    its loop is enough fuel. *)
Definition processQueues (agents : list Agent) (world : nat → Run) (s : Scheduler)
  : Scheduler * list nat :=
  foldl
    (λ acc priority,
       let r := drain (length (queue_of priority acc.1)) agents world priority acc.1 in
       (r.1, acc.2 ++ r.2))
    (s, []) priorityOrder.

(** The retry callbacks that are due at [now], in the order of their
    registration. *)
Definition fireDue (now : Z) (fresh : string) (s : Scheduler) : Scheduler :=
  let due := List.filter (λ e : Z * nat, e.1 <=? now) (timers s) in
  let s := set_timers (List.filter (λ e : Z * nat, negb (e.1 <=? now)) (timers s)) s in
  fold_left (λ s e, retry e.2 now fresh s) due s.

(** One iteration of [scheduleLoop] (app.js 3863-3874): [processQueues],
    [checkRunningTasks] at [checkedAt], and the retry callbacks that fire
    until [sleep(1000)] returns at [wokenAt]. *)
Definition scheduleLoop_iteration (agents : list Agent) (world : nat → Run)
  (checkedAt wokenAt : Z) (fresh : string) (s : Scheduler) : Scheduler :=
  fireDue wokenAt fresh (checkRunningTasks checkedAt (processQueues agents world s).1).

(** *** The scheduler as a transition system *)

(** Where a call of [scheduleLoop] stands while it is suspended at an
    [await]. [start()] begins a new call whenever [isRunning] is false, also
    while an earlier call is still suspended, so several calls can be under
    way at once.

    [Polling rest]: [executeTask] has returned; the loop is about to test
    the [while] condition of [processQueues] for the head of [rest].
    [Selecting]: [executeTask] suspended at [await this.selectAgent(task)],
    the choice already made. [Executing]: suspended at
    [await this.runTask(task, agent)]. [Checking]: [processQueues] has
    returned. [Timing now]: in [checkRunningTasks], which has read the clock
    as [now]. [Sleeping]: at [await this.sleep(1000)]. [Ended]: the [while]
    test of [scheduleLoop] has found [isRunning] false. *)
Inductive Pc :=
  | Polling (rest : list string)
  | Selecting (rest : list string) (task : nat) (agent : option Agent)
  | Executing (rest : list string) (task : nat) (agent : Agent) (drawn : Q)
  | Checking
  | Timing (now : Z)
  | Sleeping
  | Ended.

(** The scheduler and the calls of [scheduleLoop] under way, in the order
    in which [start()] began them. *)
Record Machine := {
  sched : Scheduler;
  loops : list Pc
}.

(** The [for] and [while] tests of [processQueues] from the head of [rest]
    on, which run without suspension: the first priority whose queue holds
    a task while [canExecuteMoreTasks()] holds, with the priorities from it
    on and the head of its queue. *)
Fixpoint scan (rest : list string) (s : Scheduler)
  : option (string * list string * nat) :=
  match rest with
  | [] => None
  | priority :: rest' =>
      match queue_of priority s with
      | task :: _ =>
          if canExecuteMoreTasks s then Some (priority, rest', task)
          else scan rest' s
      | [] => scan rest' s
      end
  end.

(** [processQueues] from the [while] test for the head of [rest] up to its
    next suspension: at [await this.selectAgent(task)] for the task it has
    shifted, or at its return. *)
Definition proceed (agents : list Agent) (now : Z) (rest : list string)
  (s : Scheduler) : Scheduler * Pc :=
  match scan rest s with
  | Some (priority, rest', task) =>
      let r := executeTask_enter agents task now (shift priority s) in
      (r.1, Selecting (priority :: rest') task r.2)
  | None => (s, Checking)
  end.

(** A suspended loop is resumed and runs up to its next suspension.
    [agents] is the registry and [now] the clock as the loop reads them,
    [drawn] the [executionTime] that [runTask] draws; a loop that waits for
    [runTask] is resumed by the timer callback of [runTask], which draws
    [succeeds], [Math.random() > 0.1], and reads the clock as [resolved]. *)
Definition resume (agents : list Agent) (now resolved : Z) (drawn : Q)
  (succeeds : bool) (c : Pc) (s : Scheduler) : option (Scheduler * Pc) :=
  match c with
  | Polling rest => Some (proceed agents now rest s)
  | Selecting rest task None =>
      Some (handleTaskFailure task noAgentMessage now s, Polling rest)
  | Selecting rest task (Some agent) =>
      Some (executeTask_assign task agent s, Executing rest task agent drawn)
  | Executing rest task agent executionTime =>
      Some (if succeeds then executeTask_completed task executionTime resolved now s
            else handleTaskFailure task runFailedMessage now s,
            Polling rest)
  | Checking => Some (s, Timing now)
  | Timing _ => Some (s, Sleeping)
  | Sleeping =>
      Some (if isRunning s then proceed agents now priorityOrder s else (s, Ended))
  | Ended => None
  end.

(** What can happen next. [Submit]: a caller calls [scheduleTask]. [Fire]:
    the pending retry callback number [k] runs. [Start] and [Stop]: a
    caller calls [start()] or [stop()]. [Resume]: the loop number [i] is
    resumed. [TimeOut]: the loop number [i], in [checkRunningTasks], hands
    the entry number [k] of the running map to [handleTaskFailure], which
    reads the clock as [now]. *)
Inductive Event :=
  | Submit (task : Task) (now : Z) (fresh : string)
  | Fire (k : nat) (now : Z) (fresh : string)
  | Start (agents : list Agent) (now : Z)
  | Stop
  | Resume (i : nat) (agents : list Agent) (now resolved : Z) (drawn : Q)
      (succeeds : bool)
  | TimeOut (i : nat) (k : nat) (now : Z).

(** The state after an event, when the event can happen. Every stretch of
    code between two suspensions is one event; callers and callbacks may
    come in between any two of them, and the clock is not constrained.
    [checkRunningTasks] is suspended after each task it fails: it may fail
    any entry of the running map that has run for longer than [timeout],
    one entry an event, in any order, which covers every order in which the
    source visits the map. *)
Definition fire (e : Event) (m : Machine) : option Machine :=
  match e with
  | Submit task now fresh =>
      Some {| sched := (scheduleTask task now fresh (sched m)).1; loops := loops m |}
  | Fire k now fresh =>
      match timers (sched m) !! k with
      | Some (_, l) =>
          Some {| sched := retry l now fresh
                             (set_timers (delete k (timers (sched m))) (sched m));
                  loops := loops m |}
      | None => None
      end
  | Start agents now =>
      if isRunning (sched m) then Some m
      else
        let r := proceed agents now priorityOrder (set_isRunning true (sched m)) in
        Some {| sched := r.1; loops := loops m ++ [r.2] |}
  | Stop => Some {| sched := set_isRunning false (sched m); loops := loops m |}
  | Resume i agents now resolved drawn succeeds =>
      match loops m !! i with
      | Some c =>
          match resume agents now resolved drawn succeeds c (sched m) with
          | Some r => Some {| sched := r.1; loops := <[i := r.2]> (loops m) |}
          | None => None
          end
      | None => None
      end
  | TimeOut i k now' =>
      match loops m !! i, runningTasks (sched m) !! k with
      | Some (Timing now), Some (_, l) =>
          match heap (sched m) !! l ≫= startTime with
          | Some started =>
              if now - started >? timeout
              then Some {| sched := handleTaskFailure l timeoutMessage now' (sched m);
                           loops := loops m |}
              else None
          | None => None
          end
      | _, _ => None
      end
  end.

(** A sequence of events. *)
Fixpoint run (events : list Event) (m : Machine) : option Machine :=
  match events with
  | [] => Some m
  | e :: events =>
      match fire e m with
      | Some m' => run events m'
      | None => None
      end
  end.

Definition step (m m' : Machine) : Prop := ∃ e, fire e m = Some m'.

(** A scheduler as constructed, with the configuration [cfg]. *)
Definition initial (cfg : Config) : Machine :=
  {| sched := {| heap := []; queues := ∅; runningTasks := [];
                 completedTasks := []; failedTasks := []; timers := [];
                 schedulerConfig := cfg; isRunning := false |};
     loops := [] |}.

Inductive reachable (cfg : Config) : Machine → Prop :=
  | reachable_initial : reachable cfg (initial cfg)
  | reachable_step m m' : reachable cfg m → step m m' → reachable cfg m'.

(** The number of task objects whose status is [running]. *)
Definition isRunningStatus (t : Task) : bool :=
  match status t with running => true | _ => false end.

Definition runningCount (s : Scheduler) : nat :=
  length (List.filter isRunningStatus (heap s)).

(** *** Statistics (app.js 4045-4069) *)

(** [new Date(task.endTime).getTime() - new Date(task.startTime).getTime()];
    the difference is [NaN], here [None], when one of the two is missing. *)
Definition executionTimeOf (t : Task) : option Z :=
  match endTime t, startTime t with
  | Some ended, Some started => Some (ended - started)
  | _, _ => None
  end.

(** [sum + executionTime]; a sum with [NaN] is [NaN]. *)
Definition addTime (sum executionTime : option Z) : option Z :=
  match sum, executionTime with
  | Some a, Some b => Some (a + b)
  | _, _ => None
  end.

(** [this.completedTasks.slice(-100)] is taken by [drop]. *)
Definition getAverageExecutionTime (s : Scheduler) : number :=
  let recentTasks :=
    drop (length (completedTasks s) - 100)%nat (completedTasks s) in
  match recentTasks with
  | [] => Finite 0
  | _ =>
      let totalTime :=
        fold_left (λ sum task, addTime sum (heap s !! task ≫= executionTimeOf))
          recentTasks (Some 0) in
      match totalTime with
      | Some totalTime =>
          divide (inject_Z totalTime) (inject_Z (Z.of_nat (length recentTasks)))
      | None => NaN
      end
  end.

Module TaskStats.
Record t := {
  total : Z;
  completed : Z;
  failed : Z;
  successRate : number;
  averageExecutionTime : number
}.
End TaskStats.

Definition getTaskStats (s : Scheduler) : TaskStats.t :=
  let completed := Z.of_nat (length (completedTasks s)) in
  let failed := Z.of_nat (length (failedTasks s)) in
  let total := completed + failed in
  {| TaskStats.total := total;
     TaskStats.completed := completed;
     TaskStats.failed := failed;
     TaskStats.successRate :=
       if total >? 0
       then scale (divide (inject_Z completed) (inject_Z total)) 100
       else Finite 100;
     TaskStats.averageExecutionTime := getAverageExecutionTime s |}.

End TaskScheduler.

(** ** The records of src/unnamed/part_003 *)

Module Phase.
Record t := {
  type : string;
  description : string;
  status : string;
  timestamp : Z;
  duration : option Z;
  data_agent : option string;
  agent : string
}.
End Phase.

Module ErrorRecord.
Record t := {
  timestamp : Z;
  message : string;
  stack : option string;
  agent : string;
  phase : string
}.
End ErrorRecord.

Module SensorData.
Record t := {
  calls : Z;
  totalDataSize : Q;
  totalProcessingTime : Z
}.
End SensorData.

Module TaskMetrics.
Record t := {
  dataProcessingTime : Z;
  apiCalls : Z;
  cacheHits : Z;
  accuracy : option Q
}.
End TaskMetrics.

(** The task object of [createTaskTracker]. The tracker reaches a task only
    through [activeTasks], and a task that has left [activeTasks] is not
    written again, so tasks are kept as values. *)
Module Task.
Record t := {
  id : string;
  description : string;
  priority : string;
  status : string;
  createdAt : Z;
  startTime : option Z;
  endTime : option Z;
  duration : option Z;
  phases : list Phase.t;
  agentsInvolved : list string;
  sensorDataUsed : gmap string SensorData.t;
  results : option string;
  errors : list ErrorRecord.t;
  metrics : TaskMetrics.t
}.
End Task.

Module PerformanceMetrics.
Record t := {
  totalTasks : Z;
  successfulTasks : Z;
  failedTasks : Z;
  averageExecutionTime : number;
  agentUtilization : gmap string Z
}.
End PerformanceMetrics.

(** *** The report objects *)

Module ExecutionSummary.
Record t := {
  status : string;
  duration : string;
  agentsInvolved : Z;
  phasesCompleted : Z;
  errorsEncountered : Z;
  dataProcessed : string
}.
End ExecutionSummary.

Module TimelineEntry.
Record t := {
  timestamp : string;
  relativeTime : string;
  phase : string;
  description : string;
  status : string;
  agent : string
}.
End TimelineEntry.

Module AgentStats.
Record t := {
  phasesHandled : Z;
  errorsGenerated : Z;
  successRate : string;
  averageProcessingTime : string
}.
End AgentStats.

Module DataUsage.
Record t := {
  calls : Z;
  totalDataSize : string;
  averageProcessingTime : string;
  efficiency : string
}.
End DataUsage.

(** [details] is an array of messages in one recommendation and a string in
    the others. *)
Inductive Details := Items (l : list string) | Text (s : string).

Module Recommendation.
Record t := {
  type : string;
  priority : string;
  description : string;
  details : Details
}.
End Recommendation.

Module Metadata.
Record t := {
  generatedAt : Z;
  taskDuration : string;
  successRate : string
}.
End Metadata.

Module TaskReport.
Record t := {
  taskId : string;
  title : string;
  executionSummary : ExecutionSummary.t;
  timeline : list TimelineEntry.t;
  agentPerformance : list (string * AgentStats.t);
  dataUsage : gmap string DataUsage.t;
  results : option string;
  recommendations : list Recommendation.t;
  metadata : Metadata.t
}.
End TaskReport.

Module SystemHealth.
Record t := {
  score : Z;
  status : string;
  issues : list string
}.
End SystemHealth.

Module AgentStatus.
Record t := {
  name : string;
  tasksHandled : Z;
  status : string;
  utilizationRate : string
}.
End AgentStatus.

Module Activity.
Record t := {
  taskId : string;
  description : string;
  status : string;
  duration : string;
  completedAt : string
}.
End Activity.

Module SystemRecommendation.
Record t := {
  priority : string;
  category : string;
  description : string;
  actions : list string
}.
End SystemRecommendation.

Module Overview.
Record t := {
  activeTasks : Z;
  completedTasks : Z;
  totalTasks : Z;
  systemUptime : string;
  successRate : string
}.
End Overview.

Module SystemReport.
Record t := {
  title : string;
  overview : Overview.t;
  agentStatus : list AgentStatus.t;
  recentActivity : list Activity.t;
  systemHealth : SystemHealth.t;
  recommendations : list SystemRecommendation.t;
  timestamp : Z
}.
End SystemReport.

(** The argument of [generateSystemStatusReport]; the tracker never sets
    [systemStartTime]. *)
Module SystemData.
Record t := {
  activeTasks : list Task.t;
  completedTasks : list Task.t;
  performanceMetrics : PerformanceMetrics.t;
  timestamp : Z;
  systemStartTime : option Z
}.
End SystemData.

(** An element of the result of [analyzeErrorPatterns]. *)
Module ErrorPattern.
Record t := {
  pattern : string;
  frequency : Z
}.
End ErrorPattern.

(** ** ReportGenerator (src/unnamed/part_003, lines 293-579) *)

Module ReportGenerator.
Section WithRuntime.
Context (rt : Runtime).

(** *** Helpers (part_003 530-578) *)

(** [ms] is a difference of instants, an integer, or [null]; [!ms] holds
    for [null] and for [0]. *)
Definition formatDuration (ms : option Z) : string :=
  match ms with
  | None => "N/A"
  | Some ms =>
      if ms =? 0 then "N/A"
      else
        let seconds := ms / 1000 in
        let minutes := seconds / 60 in
        let hours := minutes / 60 in
        if hours >? 0 then
          pretty hours +:+ "小时" +:+ pretty (Z.rem minutes 60) +:+ "分钟"
        else if minutes >? 0 then
          pretty minutes +:+ "分钟" +:+ pretty (Z.rem seconds 60) +:+ "秒"
        else
          pretty seconds +:+ "秒"
  end.

Definition sizes : list string := ["B"; "KB"; "MB"; "GB"].

(** [sizes[i]], printed by string concatenation. *)
Definition sizeUnit (i : Z) : string :=
  if i <? 0 then "undefined" else nth (Z.to_nat i) sizes "undefined".

Definition formatDataSize (bytes : Q) : string :=
  if Qeq_bool bytes 0 then "0 B"
  else
    let k := 1024%Q in
    let i := logFloor rt bytes in
    parseFloat rt (toFixed rt 1 (Finite (bytes / Qpower k i)))
      +:+ " " +:+ sizeUnit i.

Definition formatRelativeTime (ms : Z) : string :=
  "+" +:+ formatDuration (Some ms).

Definition calculateSuccessRate (task : Task.t) : string :=
  let totalPhases := Z.of_nat (length (Task.phases task)) in
  let errorPhases :=
    Z.of_nat (length (List.filter (λ p, String.eqb (Phase.status p) "error")
                        (Task.phases task))) in
  toFixed rt 1
    (scale (divide (inject_Z (totalPhases - errorPhases)) (inject_Z totalPhases)) 100)
    +:+ "%".

Definition calculateAverageProcessingTime (phases : list Phase.t) : string :=
  match phases with
  | [] => "N/A"
  | _ =>
      let totalTime :=
        fold_left (λ sum phase, sum + num_or (Phase.duration phase) 0) phases 0 in
      toFixed rt 1 (divide (inject_Z totalTime) (inject_Z (Z.of_nat (length phases))))
        +:+ "ms"
  end.

Definition calculateDataEfficiency (data : SensorData.t) : string :=
  let efficiency :=
    divide (SensorData.totalDataSize data)
           (inject_Z (SensorData.totalProcessingTime data)) in
  toFixed rt 2 efficiency +:+ " KB/ms".

(** [Object.values(o).reduce((sum, x) => sum + f(x), 0)] *)
Definition sumZ {A} (f : A → Z) (o : gmap string A) : Z :=
  map_fold (λ _ x sum, sum + f x) 0 o.

Definition sumQ {A} (f : A → Q) (o : gmap string A) : Q :=
  map_fold (λ _ x sum, Qplus sum (f x)) 0%Q o.

Definition calculateUtilizationRate (agentTasks : option Z)
  (allUtilization : gmap string Z) : string :=
  let totalTasks := sumZ (λ count, count) allUtilization in
  if totalTasks >? 0 then
    toFixed rt 1
      (scale (match agentTasks with
              | Some n => divide (inject_Z n) (inject_Z totalTasks)
              | None => NaN
              end) 100) +:+ "%"
  else "0%".

(** *** The task report (part_003 303-423) *)

Definition generateExecutionSummary (task : Task.t) : ExecutionSummary.t :=
  {| ExecutionSummary.status := Task.status task;
     ExecutionSummary.duration := formatDuration (Task.duration task);
     ExecutionSummary.agentsInvolved := Z.of_nat (length (Task.agentsInvolved task));
     ExecutionSummary.phasesCompleted := Z.of_nat (length (Task.phases task));
     ExecutionSummary.errorsEncountered := Z.of_nat (length (Task.errors task));
     ExecutionSummary.dataProcessed :=
       formatDataSize (sumQ SensorData.totalDataSize (Task.sensorDataUsed task)) |}.

Definition generateTimeline (task : Task.t) : list TimelineEntry.t :=
  map (λ phase,
         {| TimelineEntry.timestamp := toLocaleTimeString rt (Phase.timestamp phase);
            TimelineEntry.relativeTime :=
              formatRelativeTime (Phase.timestamp phase - Task.createdAt task);
            TimelineEntry.phase := Phase.type phase;
            TimelineEntry.description := Phase.description phase;
            TimelineEntry.status := Phase.status phase;
            TimelineEntry.agent := Phase.agent phase |})
      (Task.phases task).

(** The object that [analyzeAgentPerformance] stores under [agent]. *)
Definition agentStatsOf (task : Task.t) (agent : string) : AgentStats.t :=
  let agentPhases :=
    List.filter (λ phase, String.eqb (Phase.agent phase) agent) (Task.phases task) in
  let agentErrors :=
    List.filter (λ error, String.eqb (ErrorRecord.agent error) agent)
      (Task.errors task) in
  let handled := Z.of_nat (length agentPhases) in
  let generated := Z.of_nat (length agentErrors) in
  {| AgentStats.phasesHandled := handled;
     AgentStats.errorsGenerated := generated;
     AgentStats.successRate :=
       if handled >? 0 then
         toFixed rt 1
           (scale (divide (inject_Z (handled - generated)) (inject_Z handled)) 100)
           +:+ "%"
       else "N/A";
     AgentStats.averageProcessingTime :=
       calculateAverageProcessingTime agentPhases |}.

(** The plain object [agentStats], as the entries that a reader of the
    report finds in it. *)
Definition analyzeAgentPerformance (task : Task.t) : list (string * AgentStats.t) :=
  ownEntries
    (fold_left (λ agentStats agent, assign agent (agentStatsOf task agent) agentStats)
       (Task.agentsInvolved task) []).

Definition analyzeSensorDataUsage (task : Task.t) : gmap string DataUsage.t :=
  (λ data,
     {| DataUsage.calls := SensorData.calls data;
        DataUsage.totalDataSize := formatDataSize (SensorData.totalDataSize data);
        DataUsage.averageProcessingTime :=
          toFixed rt 1
            (divide (inject_Z (SensorData.totalProcessingTime data))
                    (inject_Z (SensorData.calls data))) +:+ "ms";
        DataUsage.efficiency := calculateDataEfficiency data |})
  <$> Task.sensorDataUsed task.

(** [task.duration > 30000]; [null > 30000] is false. *)
Definition longRunning (task : Task.t) : bool :=
  match Task.duration task with
  | Some d => d >? 30000
  | None => false
  end.

Definition generateRecommendations (task : Task.t) : list Recommendation.t :=
  let recommendations := [] in
  let recommendations :=
    if Z.of_nat (length (Task.errors task)) >? 0 then
      recommendations ++
        [{| Recommendation.type := "error_prevention";
            Recommendation.priority := "high";
            Recommendation.description := "检测到错误，建议增强错误处理机制";
            Recommendation.details := Items (map ErrorRecord.message (Task.errors task)) |}]
    else recommendations in
  let recommendations :=
    if longRunning task then
      recommendations ++
        [{| Recommendation.type := "performance_optimization";
            Recommendation.priority := "medium";
            Recommendation.description := "任务执行时间较长，建议优化处理流程";
            Recommendation.details := Text "考虑并行处理或缓存优化" |}]
    else recommendations in
  let totalDataCalls := sumZ SensorData.calls (Task.sensorDataUsed task) in
  if totalDataCalls >? 10 then
    recommendations ++
      [{| Recommendation.type := "data_optimization";
          Recommendation.priority := "low";
          Recommendation.description := "数据调用频率较高，建议启用更智能的缓存策略";
          Recommendation.details := Text "可以减少API调用次数并提升响应速度" |}]
  else recommendations.

(** [now] is the clock read by [new Date()] for [metadata.generatedAt]. *)
Definition generateTaskReport (now : Z) (task : Task.t) : TaskReport.t :=
  {| TaskReport.taskId := Task.id task;
     TaskReport.title := "任务执行报告 - " +:+ Task.description task;
     TaskReport.executionSummary := generateExecutionSummary task;
     TaskReport.timeline := generateTimeline task;
     TaskReport.agentPerformance := analyzeAgentPerformance task;
     TaskReport.dataUsage := analyzeSensorDataUsage task;
     TaskReport.results := Task.results task;
     TaskReport.recommendations := generateRecommendations task;
     TaskReport.metadata :=
       {| Metadata.generatedAt := now;
          Metadata.taskDuration := formatDuration (Task.duration task);
          Metadata.successRate :=
            if Z.of_nat (length (Task.errors task)) =? 0 then "100%"
            else calculateSuccessRate task |} |}.

(** *** The system status report (part_003 426-528) *)

Definition assessSystemHealth (systemData : SystemData.t) : SystemHealth.t :=
  let metrics := SystemData.performanceMetrics systemData in
  let successRate :=
    divide (inject_Z (PerformanceMetrics.successfulTasks metrics))
           (inject_Z (PerformanceMetrics.totalTasks metrics)) in
  let errorRate :=
    divide (inject_Z (PerformanceMetrics.failedTasks metrics))
           (inject_Z (PerformanceMetrics.totalTasks metrics)) in
  let healthScore := 100 in
  let issues : list string := [] in
  let '(healthScore, issues) :=
    if greater errorRate (1 # 10)
    then (healthScore - 30, issues ++ ["错误率较高"])
    else (healthScore, issues) in
  let '(healthScore, issues) :=
    if greater (PerformanceMetrics.averageExecutionTime metrics) 20000
    then (healthScore - 20, issues ++ ["平均执行时间过长"])
    else (healthScore, issues) in
  let '(healthScore, issues) :=
    if less successRate (9 # 10)
    then (healthScore - 25, issues ++ ["成功率偏低"])
    else (healthScore, issues) in
  {| SystemHealth.score := Z.max healthScore 0;
     SystemHealth.status :=
       if healthScore >? 80 then "excellent"
       else if healthScore >? 60 then "good" else "poor";
     SystemHealth.issues :=
       if Z.of_nat (length issues) >? 0 then issues else ["系统运行正常"] |}.

Definition generateSystemRecommendations (systemData : SystemData.t)
  : list SystemRecommendation.t :=
  let recommendations := [] in
  let health := assessSystemHealth systemData in
  let recommendations :=
    if SystemHealth.score health <? 80 then
      recommendations ++
        [{| SystemRecommendation.priority := "high";
            SystemRecommendation.category := "system_optimization";
            SystemRecommendation.description := "系统健康分数偏低，建议进行全面优化";
            SystemRecommendation.actions := SystemHealth.issues health |}]
    else recommendations in
  if Z.of_nat (length (SystemData.activeTasks systemData)) >? 10 then
    recommendations ++
      [{| SystemRecommendation.priority := "medium";
          SystemRecommendation.category := "load_management";
          SystemRecommendation.description := "当前活跃任务较多，建议启用负载均衡";
          SystemRecommendation.actions := ["增加任务队列管理"; "优化任务调度算法"] |}]
  else recommendations.

Definition generateAgentStatusSummary (utilization : gmap string Z)
  : list AgentStatus.t :=
  let agents := ["traffic"; "weather"; "parking"; "security"] in
  map (λ agent,
         {| AgentStatus.name := agent;
            AgentStatus.tasksHandled := num_or (utilization !! agent) 0;
            AgentStatus.status :=
              match utilization !! agent with
              | Some n => if n >? 0 then "active" else "standby"
              | None => "standby"
              end;
            AgentStatus.utilizationRate :=
              calculateUtilizationRate (utilization !! agent) utilization |})
      agents.

Definition generateRecentActivitySummary (recentTasks : list Task.t)
  : list Activity.t :=
  map (λ task,
         {| Activity.taskId := Task.id task;
            Activity.description :=
              String.substring 0 50 (Task.description task) +:+ "...";
            Activity.status := Task.status task;
            Activity.duration := formatDuration (Task.duration task);
            Activity.completedAt := toLocaleString rt (Task.endTime task) |})
      recentTasks.

(** [a.slice(-n)] *)
Definition lastN {A} (n : nat) (a : list A) : list A :=
  drop (length a - n)%nat a.

(** [now] and [now'] are the two reads of [Date.now()] in [systemUptime],
    in the order of evaluation. *)
Definition generateSystemStatusReport (now now' : Z) (systemData : SystemData.t)
  : SystemReport.t :=
  let metrics := SystemData.performanceMetrics systemData in
  {| SystemReport.title := "智慧城市系统状态报告";
     SystemReport.overview :=
       {| Overview.activeTasks := Z.of_nat (length (SystemData.activeTasks systemData));
          Overview.completedTasks :=
            Z.of_nat (length (SystemData.completedTasks systemData));
          Overview.totalTasks := PerformanceMetrics.totalTasks metrics;
          Overview.systemUptime :=
            formatDuration
              (Some (now - num_or (SystemData.systemStartTime systemData) now'));
          Overview.successRate :=
            toFixed rt 1
              (scale (divide (inject_Z (PerformanceMetrics.successfulTasks metrics))
                             (inject_Z (PerformanceMetrics.totalTasks metrics))) 100)
              +:+ "%" |};
     SystemReport.agentStatus :=
       generateAgentStatusSummary (PerformanceMetrics.agentUtilization metrics);
     SystemReport.recentActivity :=
       generateRecentActivitySummary (lastN 10 (SystemData.completedTasks systemData));
     SystemReport.systemHealth := assessSystemHealth systemData;
     SystemReport.recommendations := generateSystemRecommendations systemData;
     SystemReport.timestamp := SystemData.timestamp systemData |}.

End WithRuntime.
End ReportGenerator.

(** ** TaskTracker (src/unnamed/part_003, lines 6-290) *)

Module TaskTracker.

Record Tracker := {
  activeTasks : gmap string Task.t;
  completedTasks : list Task.t;
  taskHistory : list (Task.t * Z);
  performanceMetrics : PerformanceMetrics.t
}.

Definition constructor : Tracker := {|
  activeTasks := ∅;
  completedTasks := [];
  taskHistory := [];
  performanceMetrics :=
    {| PerformanceMetrics.totalTasks := 0;
       PerformanceMetrics.successfulTasks := 0;
       PerformanceMetrics.failedTasks := 0;
       PerformanceMetrics.averageExecutionTime := Finite 0;
       PerformanceMetrics.agentUtilization :=
         <["traffic" := 0]> (<["weather" := 0]> (<["parking" := 0]>
           (<["security" := 0]> ∅))) |}
|}.

Definition set_activeTasks (a : gmap string Task.t) (tr : Tracker) : Tracker :=
  {| activeTasks := a; completedTasks := completedTasks tr;
     taskHistory := taskHistory tr; performanceMetrics := performanceMetrics tr |}.

(** Mutation of the task object stored under [taskId]. *)
Definition modify (taskId : string) (f : Task.t → Task.t) (tr : Tracker) : Tracker :=
  set_activeTasks (alter f taskId (activeTasks tr)) tr.

Definition set_status (v : string) (t : Task.t) : Task.t :=
  {| Task.id := Task.id t; Task.description := Task.description t;
     Task.priority := Task.priority t; Task.status := v;
     Task.createdAt := Task.createdAt t; Task.startTime := Task.startTime t;
     Task.endTime := Task.endTime t; Task.duration := Task.duration t;
     Task.phases := Task.phases t; Task.agentsInvolved := Task.agentsInvolved t;
     Task.sensorDataUsed := Task.sensorDataUsed t; Task.results := Task.results t;
     Task.errors := Task.errors t; Task.metrics := Task.metrics t |}.

Definition set_startTime (v : option Z) (t : Task.t) : Task.t :=
  {| Task.id := Task.id t; Task.description := Task.description t;
     Task.priority := Task.priority t; Task.status := Task.status t;
     Task.createdAt := Task.createdAt t; Task.startTime := v;
     Task.endTime := Task.endTime t; Task.duration := Task.duration t;
     Task.phases := Task.phases t; Task.agentsInvolved := Task.agentsInvolved t;
     Task.sensorDataUsed := Task.sensorDataUsed t; Task.results := Task.results t;
     Task.errors := Task.errors t; Task.metrics := Task.metrics t |}.

Definition set_endTime (v : option Z) (t : Task.t) : Task.t :=
  {| Task.id := Task.id t; Task.description := Task.description t;
     Task.priority := Task.priority t; Task.status := Task.status t;
     Task.createdAt := Task.createdAt t; Task.startTime := Task.startTime t;
     Task.endTime := v; Task.duration := Task.duration t;
     Task.phases := Task.phases t; Task.agentsInvolved := Task.agentsInvolved t;
     Task.sensorDataUsed := Task.sensorDataUsed t; Task.results := Task.results t;
     Task.errors := Task.errors t; Task.metrics := Task.metrics t |}.

Definition set_duration (v : option Z) (t : Task.t) : Task.t :=
  {| Task.id := Task.id t; Task.description := Task.description t;
     Task.priority := Task.priority t; Task.status := Task.status t;
     Task.createdAt := Task.createdAt t; Task.startTime := Task.startTime t;
     Task.endTime := Task.endTime t; Task.duration := v;
     Task.phases := Task.phases t; Task.agentsInvolved := Task.agentsInvolved t;
     Task.sensorDataUsed := Task.sensorDataUsed t; Task.results := Task.results t;
     Task.errors := Task.errors t; Task.metrics := Task.metrics t |}.

Definition set_phases (v : list Phase.t) (t : Task.t) : Task.t :=
  {| Task.id := Task.id t; Task.description := Task.description t;
     Task.priority := Task.priority t; Task.status := Task.status t;
     Task.createdAt := Task.createdAt t; Task.startTime := Task.startTime t;
     Task.endTime := Task.endTime t; Task.duration := Task.duration t;
     Task.phases := v; Task.agentsInvolved := Task.agentsInvolved t;
     Task.sensorDataUsed := Task.sensorDataUsed t; Task.results := Task.results t;
     Task.errors := Task.errors t; Task.metrics := Task.metrics t |}.

Definition set_agentsInvolved (v : list string) (t : Task.t) : Task.t :=
  {| Task.id := Task.id t; Task.description := Task.description t;
     Task.priority := Task.priority t; Task.status := Task.status t;
     Task.createdAt := Task.createdAt t; Task.startTime := Task.startTime t;
     Task.endTime := Task.endTime t; Task.duration := Task.duration t;
     Task.phases := Task.phases t; Task.agentsInvolved := v;
     Task.sensorDataUsed := Task.sensorDataUsed t; Task.results := Task.results t;
     Task.errors := Task.errors t; Task.metrics := Task.metrics t |}.

Definition set_sensorDataUsed (v : gmap string SensorData.t) (t : Task.t) : Task.t :=
  {| Task.id := Task.id t; Task.description := Task.description t;
     Task.priority := Task.priority t; Task.status := Task.status t;
     Task.createdAt := Task.createdAt t; Task.startTime := Task.startTime t;
     Task.endTime := Task.endTime t; Task.duration := Task.duration t;
     Task.phases := Task.phases t; Task.agentsInvolved := Task.agentsInvolved t;
     Task.sensorDataUsed := v; Task.results := Task.results t;
     Task.errors := Task.errors t; Task.metrics := Task.metrics t |}.

Definition set_errors (v : list ErrorRecord.t) (t : Task.t) : Task.t :=
  {| Task.id := Task.id t; Task.description := Task.description t;
     Task.priority := Task.priority t; Task.status := Task.status t;
     Task.createdAt := Task.createdAt t; Task.startTime := Task.startTime t;
     Task.endTime := Task.endTime t; Task.duration := Task.duration t;
     Task.phases := Task.phases t; Task.agentsInvolved := Task.agentsInvolved t;
     Task.sensorDataUsed := Task.sensorDataUsed t; Task.results := Task.results t;
     Task.errors := v; Task.metrics := Task.metrics t |}.

Definition set_metrics (v : TaskMetrics.t) (t : Task.t) : Task.t :=
  {| Task.id := Task.id t; Task.description := Task.description t;
     Task.priority := Task.priority t; Task.status := Task.status t;
     Task.createdAt := Task.createdAt t; Task.startTime := Task.startTime t;
     Task.endTime := Task.endTime t; Task.duration := Task.duration t;
     Task.phases := Task.phases t; Task.agentsInvolved := Task.agentsInvolved t;
     Task.sensorDataUsed := Task.sensorDataUsed t; Task.results := Task.results t;
     Task.errors := Task.errors t; Task.metrics := v |}.

(** *** addTaskPhase (part_003 60-85) *)

(** [agent] is [data.agent], the one field of [data] the method reads. The
    defaults of [status] and [data] are supplied by the callers. *)
Definition addTaskPhase (taskId phaseType description status : string)
  (agent : option string) (now : Z) (tr : Tracker) : Tracker :=
  match activeTasks tr !! taskId with
  | None => tr
  | Some _ =>
      let phase :=
        {| Phase.type := phaseType;
           Phase.description := description;
           Phase.status := status;
           Phase.timestamp := now;
           Phase.duration := None;
           Phase.data_agent := agent;
           Phase.agent := str_or agent "system" |} in
      let tr := modify taskId (λ task, set_phases (Task.phases task ++ [phase]) task) tr in
      match agent with
      | Some a =>
          modify taskId
            (λ task,
               if negb (String.eqb a "") && negb (includes (Task.agentsInvolved task) a)
               then set_agentsInvolved (Task.agentsInvolved task ++ [a]) task
               else task) tr
      | None => tr
      end
  end.

(** *** createTaskTracker (part_003 29-57) *)

(** [priority] is the third argument, [None] when the caller passes
    [undefined]. *)
Definition createTaskTracker (taskId description : string)
  (priority : option string) (now : Z) (tr : Tracker) : Tracker * Task.t :=
  let task :=
    {| Task.id := taskId;
       Task.description := description;
       Task.priority := default "medium" priority;
       Task.status := "created";
       Task.createdAt := now;
       Task.startTime := None;
       Task.endTime := None;
       Task.duration := None;
       Task.phases := [];
       Task.agentsInvolved := [];
       Task.sensorDataUsed := ∅;
       Task.results := None;
       Task.errors := [];
       Task.metrics :=
         {| TaskMetrics.dataProcessingTime := 0; TaskMetrics.apiCalls := 0;
            TaskMetrics.cacheHits := 0; TaskMetrics.accuracy := None |} |} in
  let tr := set_activeTasks (<[taskId := task]> (activeTasks tr)) tr in
  let tr := addTaskPhase taskId "initialization" "任务初始化" "info" None now tr in
  (tr, default task (activeTasks tr !! taskId)).

(** *** updatePerformanceMetrics (part_003 183-202) *)

Definition updatePerformanceMetrics (task : Task.t) (tr : Tracker) : Tracker :=
  let m := performanceMetrics tr in
  let totalTasks := PerformanceMetrics.totalTasks m + 1 in
  let successfulTasks :=
    if String.eqb (Task.status task) "completed"
    then PerformanceMetrics.successfulTasks m + 1
    else PerformanceMetrics.successfulTasks m in
  let failedTasks :=
    if String.eqb (Task.status task) "completed" then PerformanceMetrics.failedTasks m
    else if String.eqb (Task.status task) "failed"
         then PerformanceMetrics.failedTasks m + 1
         else PerformanceMetrics.failedTasks m in
  let totalDuration :=
    fold_left (λ sum t, sum + num_or (Task.duration t) 0) (completedTasks tr) 0 in
  let averageExecutionTime :=
    divide (inject_Z totalDuration)
           (inject_Z (Z.of_nat (length (completedTasks tr)))) in
  let agentUtilization :=
    fold_left
      (λ u agent, match u !! agent with
                  | Some n => <[agent := n + 1]> u
                  | None => u
                  end)
      (Task.agentsInvolved task) (PerformanceMetrics.agentUtilization m) in
  {| activeTasks := activeTasks tr;
     completedTasks := completedTasks tr;
     taskHistory := taskHistory tr;
     performanceMetrics :=
       {| PerformanceMetrics.totalTasks := totalTasks;
          PerformanceMetrics.successfulTasks := successfulTasks;
          PerformanceMetrics.failedTasks := failedTasks;
          PerformanceMetrics.averageExecutionTime := averageExecutionTime;
          PerformanceMetrics.agentUtilization := agentUtilization |} |}.

(** *** completeTask (part_003 160-180) *)

Definition completeTask (rt : Runtime) (taskId : string) (now : Z) (tr : Tracker)
  : Tracker * option TaskReport.t :=
  match activeTasks tr !! taskId with
  | None => (tr, None)
  | Some task =>
      let tr :=
        {| activeTasks := delete taskId (activeTasks tr);
           completedTasks := completedTasks tr ++ [task];
           taskHistory := taskHistory tr ++ [(task, now)];
           performanceMetrics := performanceMetrics tr |} in
      let tr := updatePerformanceMetrics task tr in
      (tr, Some (ReportGenerator.generateTaskReport rt now task))
  end.

(** *** updateTaskStatus (part_003 88-114) *)

(** [!task.startTime] *)
Definition unset (x : option Z) : bool :=
  match x with
  | Some n => n =? 0
  | None => true
  end.

Definition updateTaskStatus (rt : Runtime) (taskId status : string)
  (agent : option string) (now : Z) (tr : Tracker) : Tracker :=
  match activeTasks tr !! taskId with
  | None => tr
  | Some task =>
      let previousStatus := Task.status task in
      let tr := modify taskId (set_status status) tr in
      let tr :=
        addTaskPhase taskId "status_change"
          ("状态变更: " +:+ previousStatus +:+ " → " +:+ status) status agent now tr in
      if String.eqb status "running" then
        modify taskId
          (λ task, if unset (Task.startTime task)
                   then set_startTime (Some now) task else task) tr
      else if String.eqb status "completed" || String.eqb status "failed" then
        let tr :=
          modify taskId
            (λ task,
               set_duration
                 (Some (now - num_or (Task.startTime task) (Task.createdAt task)))
                 (set_endTime (Some now) task)) tr in
        (completeTask rt taskId now tr).1
      else tr
  end.

(** *** recordSensorDataUsage (part_003 117-138) *)

Definition recordSensorDataUsage (taskId sensorType : string) (dataSize : Q)
  (processingTime : Z) (tr : Tracker) : Tracker :=
  match activeTasks tr !! taskId with
  | None => tr
  | Some _ =>
      modify taskId
        (λ task,
           let used :=
             match Task.sensorDataUsed task !! sensorType with
             | Some _ => Task.sensorDataUsed task
             | None =>
                 <[sensorType := {| SensorData.calls := 0;
                                    SensorData.totalDataSize := 0%Q;
                                    SensorData.totalProcessingTime := 0 |}]>
                   (Task.sensorDataUsed task)
             end in
           let used :=
             alter (λ d, {| SensorData.calls := SensorData.calls d + 1;
                            SensorData.totalDataSize :=
                              Qplus (SensorData.totalDataSize d) dataSize;
                            SensorData.totalProcessingTime :=
                              SensorData.totalProcessingTime d + processingTime |})
                   sensorType used in
           let m := Task.metrics task in
           set_metrics
             {| TaskMetrics.dataProcessingTime :=
                  TaskMetrics.dataProcessingTime m + processingTime;
                TaskMetrics.apiCalls := TaskMetrics.apiCalls m + 1;
                TaskMetrics.cacheHits := TaskMetrics.cacheHits m;
                TaskMetrics.accuracy := TaskMetrics.accuracy m |}
             (set_sensorDataUsed used task)) tr
  end.

(** *** recordError (part_003 141-157) *)

(** [message] is [error.message || error], [stack] is [error.stack]. *)
Definition recordError (taskId message : string) (stack : option string)
  (agent : string) (now : Z) (tr : Tracker) : Tracker :=
  match activeTasks tr !! taskId with
  | None => tr
  | Some task =>
      let errorRecord :=
        {| ErrorRecord.timestamp := now;
           ErrorRecord.message := message;
           ErrorRecord.stack := stack;
           ErrorRecord.agent := agent;
           ErrorRecord.phase :=
             match last (Task.phases task) with
             | Some p => Phase.type p
             | None => "unknown"
             end |} in
      let tr := modify taskId (λ task, set_errors (Task.errors task ++ [errorRecord]) task) tr in
      addTaskPhase taskId "error" ("错误: " +:+ message) "error" (Some agent) now tr
  end.

(** *** Queries (part_003 205-228) *)

Definition getTaskStatus (taskId : string) (tr : Tracker) : option Task.t :=
  match activeTasks tr !! taskId with
  | Some task => Some task
  | None => List.find (λ task, String.eqb (Task.id task) taskId) (completedTasks tr)
  end.

Definition getActiveTasks (tr : Tracker) : list Task.t :=
  (map_to_list (activeTasks tr)).*2.

(** The clock is read three times: [stamp] by [new Date()] for
    [timestamp], when the argument is built, then [now] and [now'] by the
    two calls of [Date.now()] in the report generator. *)
Definition generateSystemStatusReport (rt : Runtime) (stamp now now' : Z)
  (tr : Tracker) : SystemReport.t :=
  ReportGenerator.generateSystemStatusReport rt now now'
    {| SystemData.activeTasks := getActiveTasks tr;
       SystemData.completedTasks := completedTasks tr;
       SystemData.performanceMetrics := performanceMetrics tr;
       SystemData.timestamp := stamp;
       SystemData.systemStartTime := None |}.

(** *** The periodic monitor (part_003 231-289) *)

Definition cleanupOldTasks (now : Z) (tr : Tracker) : Tracker :=
  let oneWeekAgo := now - 7 * 24 * 60 * 60 * 1000 in
  {| activeTasks := activeTasks tr;
     completedTasks :=
       List.filter
         (λ task, num_or (Task.endTime task) (Task.createdAt task) >? oneWeekAgo)
         (completedTasks tr);
     taskHistory :=
       List.filter (λ entry : Task.t * Z, entry.2 >? oneWeekAgo) (taskHistory tr);
     performanceMetrics := performanceMetrics tr |}.

(** The two figures [analyzePerformancePatterns] computes over the last 20
    completed tasks and prints: the success rate and the average time.
    Nothing is computed when fewer than 5 tasks have completed. *)
Definition recentSuccessRate (tr : Tracker) : number :=
  let recentTasks := ReportGenerator.lastN 20 (completedTasks tr) in
  divide
    (inject_Z (Z.of_nat (length (List.filter
       (λ t, String.eqb (Task.status t) "completed") recentTasks))))
    (inject_Z (Z.of_nat (length recentTasks))).

Definition analyzePerformancePatterns (tr : Tracker) : option (number * number) :=
  if Z.of_nat (length (completedTasks tr)) <? 5 then None
  else
    let recentTasks := ReportGenerator.lastN 20 (completedTasks tr) in
    let avgTime :=
      divide
        (inject_Z (fold_left (λ sum t, sum + num_or (Task.duration t) 0) recentTasks 0))
        (inject_Z (Z.of_nat (length recentTasks))) in
    Some (recentSuccessRate tr, avgTime).

(** *** Calls of the public methods *)

Inductive Call :=
  | CreateTaskTracker (taskId description : string) (priority : option string) (now : Z)
  | AddTaskPhase (taskId phaseType description status : string)
      (agent : option string) (now : Z)
  | UpdateTaskStatus (taskId status : string) (agent : option string) (now : Z)
  | RecordSensorDataUsage (taskId sensorType : string) (dataSize : Q)
      (processingTime : Z)
  | RecordError (taskId message : string) (stack : option string) (agent : string)
      (now : Z)
  | CompleteTask (taskId : string) (now : Z)
  | CleanupOldTasks (now : Z).

Definition call (rt : Runtime) (c : Call) (tr : Tracker) : Tracker :=
  match c with
  | CreateTaskTracker taskId description priority now =>
      (createTaskTracker taskId description priority now tr).1
  | AddTaskPhase taskId phaseType description status agent now =>
      addTaskPhase taskId phaseType description status agent now tr
  | UpdateTaskStatus taskId status agent now =>
      updateTaskStatus rt taskId status agent now tr
  | RecordSensorDataUsage taskId sensorType dataSize processingTime =>
      recordSensorDataUsage taskId sensorType dataSize processingTime tr
  | RecordError taskId message stack agent now =>
      recordError taskId message stack agent now tr
  | CompleteTask taskId now => (completeTask rt taskId now tr).1
  | CleanupOldTasks now => cleanupOldTasks now tr
  end.

Definition run (rt : Runtime) (calls : list Call) (tr : Tracker) : Tracker :=
  fold_left (λ tr c, call rt c tr) calls tr.

(** Every task the tracker holds. *)
Definition tracked (tr : Tracker) : list Task.t :=
  getActiveTasks tr ++ completedTasks tr.

(** *** analyzeErrorPatterns (part_003 276-289) *)

(** [`${error.agent}:${error.phase}`] *)
Definition patternKey (error : ErrorRecord.t) : string :=
  ErrorRecord.agent error +:+ ":" +:+ ErrorRecord.phase error.

(** [errorCounts[key] = (errorCounts[key] || 0) + 1] on the object
    [errorCounts], kept as its entries in the order of their creation, the
    order in which [Object.entries] lists keys that are not array
    indices. *)
Fixpoint countUp (key : string) (errorCounts : list (string * Z))
  : list (string * Z) :=
  match errorCounts with
  | [] => [(key, 1)]
  | (k, count) :: rest =>
      if decide (key = k) then (k, count + 1) :: rest
      else (k, count) :: countUp key rest
  end.

Definition analyzeErrorPatterns (tasks : list Task.t) : list ErrorPattern.t :=
  let errorCounts :=
    fold_left
      (λ errorCounts task,
         fold_left (λ errorCounts error, countUp (patternKey error) errorCounts)
           (Task.errors task) errorCounts)
      tasks [] in
  map (λ entry : string * Z,
         {| ErrorPattern.pattern := entry.1; ErrorPattern.frequency := entry.2 |})
    (List.filter (λ entry : string * Z, 2 <=? entry.2) errorCounts).

End TaskTracker.

(** * Other classes of src/enterprise-platform/app.js *)

(** ** ResourcePool (src/enterprise-platform/app.js, lines 4178-4208) *)

Module ResourcePool.

(** The numbers of the pool. The amount of an allocation is an integer, one
    that binary64 holds, as every integer up to [2 ^ 53] in absolute value
    is: a caller has no other to pass. A sum of such numbers is an integer
    again, rounded as a binary64 number is, or an infinity, or [NaN]. *)
Inductive Sum := Int (z : Z) | Infinite (negative : bool) | NotANumber.

(** The integer [z] as binary64 holds it: [z] itself up to [2 ^ 53];
    beyond, the nearest multiple of the power of two that leaves 53
    significant bits, the even one of two that are equally near, and an
    infinity from [2 ^ 1024] on. *)
Definition roundToDouble (z : Z) : Sum :=
  if Z.abs z <=? 2 ^ 53 then Int z
  else
    let unit := 2 ^ (Z.log2 (Z.abs z) - 52) in
    let q := Z.abs z / unit in
    let r := Z.abs z mod unit in
    let q := if (2 * r >? unit) || ((2 * r =? unit) && Z.odd q) then q + 1 else q in
    if q * unit >=? 2 ^ 1024 then Infinite (z <? 0)
    else Int (Z.sgn z * (q * unit)).

(** [a + b] *)
Definition add (a b : Sum) : Sum :=
  match a, b with
  | Int x, Int y => roundToDouble (x + y)
  | NotANumber, _ | _, NotANumber => NotANumber
  | Infinite s, Int _ | Int _, Infinite s => Infinite s
  | Infinite s, Infinite s' => if Bool.eqb s s' then Infinite s else NotANumber
  end.

(** An entry of [allocations]. *)
Record Allocation := {
  type : string;
  amount : Z;
  allocatedAt : Z
}.

(** [allocations] is a JavaScript [Map]: the entries in the order of their
    first insertion. *)
Record Pool := {
  allocations : list (string * Allocation)
}.

Definition constructor : Pool := {| allocations := [] |}.

(** The object [limits]. *)
Definition limits : gmap string Z :=
  <["cpu" := 100]> (<["memory" := 1000]> (<["network" := 1000]> ∅)).

(** [Map.prototype.set]: an existing key keeps its place. *)
Fixpoint map_set (k : string) (v : Allocation) (m : list (string * Allocation))
  : list (string * Allocation) :=
  match m with
  | [] => [(k, v)]
  | (k', v') :: m' =>
      if decide (k = k') then (k, v) :: m' else (k', v') :: map_set k v m'
  end.

(** [Map.prototype.delete]. *)
Fixpoint map_delete (k : string) (m : list (string * Allocation))
  : list (string * Allocation) :=
  match m with
  | [] => []
  | (k', v') :: m' => if decide (k = k') then m' else (k', v') :: map_delete k m'
  end.

Definition getCurrentUsage (type : string) (pool : Pool) : Sum :=
  fold_left (λ sum alloc, add sum (Int (amount alloc)))
    (List.filter (λ alloc, String.eqb (ResourcePool.type alloc) type)
       (allocations pool).*2)
    (Int 0).

(** [x > this.limits[type]]; the comparison is false when [limits] has no
    number under [type], and when [x] is [NaN]. *)
Definition exceeds (x : Sum) (limit : option Z) : bool :=
  match limit, x with
  | Some limit, Int x => x >? limit
  | Some _, Infinite negative => negb negative
  | Some _, NotANumber => false
  | None, _ => false
  end.

(** What a call comes to: the pool after the call when it returns ([true],
    for [allocateResource]), or the message of the error it throws. *)
Inductive Outcome :=
  | Returned (pool : Pool)
  | Thrown (message : string).

(** [now] is the reading of [Date.now()]. *)
Definition allocateResource (type : string) (amount : Z) (requestId : string)
  (now : Z) (pool : Pool) : Outcome :=
  let current := getCurrentUsage type pool in
  if exceeds (add current (Int amount)) (limits !! type) then
    Thrown ("资源不足: " +:+ type)
  else
    Returned
      {| allocations :=
           map_set requestId
             {| type := type; amount := amount; allocatedAt := now |}
             (allocations pool) |}.

Definition releaseResource (requestId : string) (pool : Pool) : Pool :=
  {| allocations := map_delete requestId (allocations pool) |}.

(** Calls on a pool. A caller that catches the error of a refused
    allocation goes on with the pool as it was. *)
Inductive Call :=
  | AllocateResource (type : string) (amount : Z) (requestId : string) (now : Z)
  | ReleaseResource (requestId : string).

Definition call (c : Call) (pool : Pool) : Pool :=
  match c with
  | AllocateResource type amount requestId now =>
      match allocateResource type amount requestId now pool with
      | Returned pool' => pool'
      | Thrown _ => pool
      end
  | ReleaseResource requestId => releaseResource requestId pool
  end.

Definition run (calls : list Call) (pool : Pool) : Pool :=
  fold_left (λ pool c, call c pool) calls pool.

End ResourcePool.

(** ** WorkflowEngine.selectOptimalAgent (app.js 3728-3738) *)

Module WorkflowEngine.
Import TaskScheduler.

(** [agents] are the values of [window.platform.agents] in their order;
    [requirements] is not read. The result is the [id] of the first agent
    of the sorted array, [undefined] when there is none. *)
Definition selectOptimalAgent (agents : list Agent) : option string :=
  let availableAgents :=
    List.filter (λ agent, String.eqb (agent_status agent) "ready") agents in
  agent_id <$> head (sort_by_load availableAgents).

End WorkflowEngine.

(** ** LogCollector (app.js 3129-3244) *)

Module LogCollector.

(** A log entry. [timestamp] is the clock value whose ISO string the entry
    carries; [new Date(log.timestamp)] gives it back. *)
Record LogEntry := {
  timestamp : Z;
  level : string;
  message : string;
  metadata : gmap string string
}.

Record Collector := {
  logs : list LogEntry;
  maxLogs : Z
}.

Definition constructor : Collector :=
  {| logs := []; maxLogs := 10000 |}.

(** [log(level, message, metadata)]. [now] is the clock, [sessionId] and
    [userId] what [sessionStorage.getItem('sessionId')] and
    [localStorage.getItem('userId')] return. The calls that follow the
    update of [this.logs] (Elasticsearch, the [logUpdate] event, the
    console) do not write the collector. *)
Definition log (now : Z) (sessionId userId : option string)
  (level message : string) (metadata : gmap string string) (c : Collector)
  : Collector :=
  let logEntry :=
    {| timestamp := now;
       level := level;
       message := message;
       metadata :=
         <["userId" := str_or userId "anonymous"]>
           (<["sessionId" := str_or sessionId "unknown"]>
              (<["source" := "multi-agent-platform"]> metadata)) |} in
  let logs := logs c ++ [logEntry] in
  {| logs := if Z.of_nat (length logs) >? maxLogs c then tail logs else logs;
     maxLogs := maxLogs c |}.

(** A [Date]: a time, or an invalid date. *)
Inductive DateArg := Invalid | At (ms : Z).

(** What a caller passes as start or end time: nothing, a number with an
    integer value, [NaN], a string, or a [Date]. *)
Inductive TimeValue :=
  | NoTime
  | TimeNumber (ms : Z)
  | TimeNaN
  | TimeString (s : string)
  | TimeDate (d : DateArg).

(** The [filters] object; [None] is an absent field. *)
Record Filters := {
  filter_level : option string;
  filter_startTime : TimeValue;
  filter_endTime : TimeValue;
  filter_search : option string
}.

(** [if (x)] for a start or end time: [undefined], [0], [NaN] and [""] are
    falsy, every [Date] is truthy. *)
Definition truthy (x : TimeValue) : bool :=
  match x with
  | NoTime | TimeNaN => false
  | TimeNumber ms => negb (ms =? 0)
  | TimeString s => negb (String.eqb s "")
  | TimeDate _ => true
  end.

(** [if (x)] for an optional string: [undefined] and [""] are falsy. *)
Definition given (x : option string) : option string :=
  match x with
  | Some s => if String.eqb s "" then None else Some s
  | None => None
  end.

(** [haystack.includes(needle)] *)
Definition contains (haystack needle : string) : bool :=
  match String.index 0 needle haystack with
  | Some _ => true
  | None => false
  end.

Section WithLocale.
Variable toLowerCase : string → string.

(** What [new Date(s)] makes of a string. *)
Variable parseDate : string → DateArg.

(** [new Date(x)]; a number beyond 8.64e15 milliseconds is no date. *)
Definition toDate (x : TimeValue) : DateArg :=
  match x with
  | NoTime | TimeNaN => Invalid
  | TimeNumber ms => if Z.abs ms <=? 8640000000000000 then At ms else Invalid
  | TimeString s => parseDate s
  | TimeDate d => d
  end.

(** The bound a start or end time sets, if it is truthy. *)
Definition bound (x : TimeValue) : option DateArg :=
  if truthy x then Some (toDate x) else None.

Definition getLogs (filters : Filters) (c : Collector) : list LogEntry :=
  let filteredLogs := logs c in
  let filteredLogs :=
    match given (filter_level filters) with
    | Some wanted =>
        List.filter (λ log, String.eqb (level log) wanted) filteredLogs
    | None => filteredLogs
    end in
  let filteredLogs :=
    match bound (filter_startTime filters) with
    | Some startTime =>
        List.filter
          (λ log, match startTime with
                  | At t => t <=? timestamp log
                  | Invalid => false
                  end) filteredLogs
    | None => filteredLogs
    end in
  let filteredLogs :=
    match bound (filter_endTime filters) with
    | Some endTime =>
        List.filter
          (λ log, match endTime with
                  | At t => timestamp log <=? t
                  | Invalid => false
                  end) filteredLogs
    | None => filteredLogs
    end in
  let filteredLogs :=
    match given (filter_search filters) with
    | Some search =>
        List.filter
          (λ log, contains (toLowerCase (message log)) (toLowerCase search))
          filteredLogs
    | None => filteredLogs
    end in
  drop (length filteredLogs - 1000)%nat filteredLogs.

End WithLocale.

(** The calls of [log], and a sequence of them. *)
Record Call := {
  call_now : Z;
  call_sessionId : option string;
  call_userId : option string;
  call_level : string;
  call_message : string;
  call_metadata : gmap string string
}.

Definition call (c : Call) : Collector → Collector :=
  log (call_now c) (call_sessionId c) (call_userId c)
      (call_level c) (call_message c) (call_metadata c).

Definition run (calls : list Call) (c : Collector) : Collector :=
  fold_left (λ c k, call k c) calls c.

End LogCollector.

(** ** Definitions used in the statements *)

Module SchedulerSpec.
Import TaskScheduler.

(** The spec's selection rule: the least loaded agent, the first found
    among equals. *)
Fixpoint firstLeastLoaded (l : list Agent) : option Agent :=
  match l with
  | [] => None
  | a :: l' =>
      match firstLeastLoaded l' with
      | Some b => if load a <=? load b then Some a else Some b
      | None => Some a
      end
  end.

(** [a] comes before [b] in [l]. *)
Definition precedes (a b : nat) (l : list nat) : Prop :=
  ∃ l1 l2 l3, l = l1 ++ a :: l2 ++ b :: l3.

(** [pa] comes earlier than [pb] in [priorityOrder]. *)
Definition higher (pa pb : string) : Prop :=
  ∃ i j, priorityOrder !! i = Some pa ∧ priorityOrder !! j = Some pb ∧ (i < j)%nat.

(** A task that has left its queue: [executeTask] was called for it. *)
Definition started (t : Task) : Prop := status t ≠ queued.

(** The task a loop is executing, if any, and the priorities its [for]
    loop still has to visit, the one it is at included. *)
Definition current (c : Pc) : option nat :=
  match c with
  | Selecting _ task _ | Executing _ task _ _ => Some task
  | _ => None
  end.

Definition remaining (c : Pc) : list string :=
  match c with
  | Polling rest | Selecting rest _ _ | Executing rest _ _ _ => rest
  | _ => []
  end.

(** A loop that is not in a pass over the queues. *)
Definition idle (c : Pc) : Prop :=
  match c with
  | Checking | Timing _ | Sleeping | Ended => True
  | _ => False
  end.

(** Some loop is executing the task [l]. *)
Definition executing (m : Machine) (l : nat) : Prop :=
  ∃ c, c ∈ loops m ∧ current c = Some l.

(** Every reference of [refs] points to a task that satisfies [P]. *)
Definition all_at (h : list Task) (P : Task → Prop) (refs : list nat) : Prop :=
  ∀ l, l ∈ refs → ∃ t, h !! l = Some t ∧ P t.

Definition queuedUnder (p : string) (t : Task) : Prop :=
  status t = queued ∧ str_or (priority t) "medium" = p.

(** The references the scheduler holds outside its queues. *)
Definition held (m : Machine) : list nat :=
  omap current (loops m) ++ (runningTasks (sched m)).*2 ++
  (timers (sched m)).*2 ++ completedTasks (sched m) ++ failedTasks (sched m).

(** The invariant of the transition system. *)
Record Inv (cfg : Config) (m : Machine) : Prop := {
  inv_config : schedulerConfig (sched m) = cfg;
  inv_queue : ∀ p, all_at (heap (sched m)) (queuedUnder p) (queue_of p (sched m));
  inv_nodup : ∀ p, NoDup (queue_of p (sched m));
  inv_held : all_at (heap (sched m)) started (held m);
  inv_remaining : ∀ c, c ∈ loops m → remaining c `suffix_of` priorityOrder;
  inv_bound : Z.of_nat (length (runningTasks (sched m))) ≤ maxConcurrentTasks cfg
}.

(** What an event is made of. [Start] is [move_flag] and [move_spawn]
    followed by the first pass of the new loop; every other event is one
    move. *)
Inductive move : Machine → Machine → Prop :=
  | move_submit s ls task now fresh :
      move {| sched := s; loops := ls |}
           {| sched := (scheduleTask task now fresh s).1; loops := ls |}
  | move_retry s ls k due l now fresh :
      timers s !! k = Some (due, l) →
      move {| sched := s; loops := ls |}
           {| sched := retry l now fresh (set_timers (delete k (timers s)) s);
              loops := ls |}
  | move_flag s ls b :
      move {| sched := s; loops := ls |}
           {| sched := set_isRunning b s; loops := ls |}
  | move_spawn s ls :
      move {| sched := s; loops := ls |}
           {| sched := s; loops := ls ++ [Sleeping] |}
  | move_dispatch s ls i c rest priority rest' task agents now :
      ls !! i = Some c →
      c = Polling rest ∨ (c = Sleeping ∧ rest = priorityOrder) →
      scan rest s = Some (priority, rest', task) →
      move {| sched := s; loops := ls |}
           {| sched := (executeTask_enter agents task now (shift priority s)).1;
              loops := <[i := Selecting (priority :: rest') task
                                (executeTask_enter agents task now (shift priority s)).2]>
                         ls |}
  | move_fail s ls i c task message now :
      ls !! i = Some c → current c = Some task →
      move {| sched := s; loops := ls |}
           {| sched := handleTaskFailure task message now s;
              loops := <[i := Polling (remaining c)]> ls |}
  | move_assign s ls i rest task agent drawn :
      ls !! i = Some (Selecting rest task (Some agent)) →
      move {| sched := s; loops := ls |}
           {| sched := executeTask_assign task agent s;
              loops := <[i := Executing rest task agent drawn]> ls |}
  | move_complete s ls i rest task agent drawn resolved now :
      ls !! i = Some (Executing rest task agent drawn) →
      move {| sched := s; loops := ls |}
           {| sched := executeTask_completed task drawn resolved now s;
              loops := <[i := Polling rest]> ls |}
  | move_timeout s ls k key l now :
      runningTasks s !! k = Some (key, l) →
      move {| sched := s; loops := ls |}
           {| sched := handleTaskFailure l timeoutMessage now s; loops := ls |}
  | move_idle s ls i c c' :
      ls !! i = Some c → current c = None → idle c' →
      move {| sched := s; loops := ls |}
           {| sched := s; loops := <[i := c']> ls |}.

(** A move that takes no task out of a queue: no task object is lost, a
    task that has been started stays so, no task object that is queued is
    written, new objects may be appended to queues, and a loop that is in a
    pass afterwards was in a pass before, with the same priorities left to
    visit. *)
Record Quiet (m m' : Machine) : Prop := {
  quiet_length : (length (heap (sched m)) ≤ length (heap (sched m')))%nat;
  quiet_started : ∀ l t, heap (sched m) !! l = Some t → started t →
    ∃ t', heap (sched m') !! l = Some t' ∧ started t';
  quiet_heap : ∀ l t, heap (sched m) !! l = Some t → status t = queued →
    heap (sched m') !! l = Some t;
  quiet_queue : ∀ p, ∃ news,
    queue_of p (sched m') = queue_of p (sched m) ++ news ∧
    Forall (λ l, (length (heap (sched m)) ≤ l)%nat) news;
  quiet_loops : ∀ c', c' ∈ loops m' →
    idle c' ∨ ∃ c, c ∈ loops m ∧ ¬ idle c ∧ remaining c' = remaining c
}.

(** The loop number [i] takes [task] from the head of the queue of
    [priority] and calls [executeTask] for it, up to the choice of the
    agent. *)
Record Dispatch (m m' : Machine) (i : nat) (priority : string) (task : nat)
  : Prop := {
  dispatch_allowed : canExecuteMoreTasks (sched m) = true;
  dispatch_level : priority ∈ priorityOrder;
  dispatch_queue : ∃ queue,
    queue_of priority (sched m) = task :: queue ∧
    ∀ p, queue_of p (sched m') =
         if decide (priority = p) then queue else queue_of p (sched m);
  dispatch_task : ∃ t t',
    heap (sched m) !! task = Some t ∧ status t = queued ∧
    heap (sched m') = <[task := t']> (heap (sched m)) ∧
    status t' = running ∧ is_Some (startTime t') ∧
    (id t', task) ∈ runningTasks (sched m');
  dispatch_loop : ∃ c rest passed rest' agent,
    loops m !! i = Some c ∧
    (c = Polling rest ∨ (c = Sleeping ∧ rest = priorityOrder)) ∧
    rest `suffix_of` priorityOrder ∧
    rest = passed ++ priority :: rest' ∧
    (∀ p, p ∈ passed → queue_of p (sched m) = []) ∧
    loops m' = <[i := Selecting (priority :: rest') task agent]> (loops m)
}.

(** [l] was allocated after the state [m0]. *)
Definition fresh_since (m0 : Machine) (l : nat) : Prop :=
  (length (heap (sched m0)) ≤ l)%nat.

(** What a run from [m0] preserves when no loop of [m0] is in a pass: each
    queue is what is left of it from [m0], from some position on, followed
    by tasks submitted since; a priority that a loop has passed in its pass
    holds no task of [m0]; once a task of [m0] has left the queue of a
    priority, the queues of the higher priorities hold no task of [m0];
    and a task of [m0] that has left its queue has been started. *)
Record Ord (m0 m : Machine) : Prop := {
  ord_heap : (length (heap (sched m0)) ≤ length (heap (sched m)))%nat;
  ord_queue : ∀ p, ∃ k news,
    queue_of p (sched m) = drop k (queue_of p (sched m0)) ++ news ∧
    Forall (fresh_since m0) news;
  ord_passed : ∀ c, c ∈ loops m → idle c ∨
    ∀ p, p ∈ priorityOrder → p ∉ remaining c →
         Forall (fresh_since m0) (queue_of p (sched m));
  ord_higher : ∀ pa pb b, higher pa pb →
    b ∈ queue_of pb (sched m0) → b ∉ queue_of pb (sched m) →
    Forall (fresh_since m0) (queue_of pa (sched m));
  ord_started : ∀ p l, l ∈ queue_of p (sched m0) →
    l ∈ queue_of p (sched m) ∨
    ∃ t, heap (sched m) !! l = Some t ∧ started t
}.

End SchedulerSpec.

(** *** Concrete inputs *)

Module Scenario.
Import TaskScheduler.

(** A task as a caller hands it to [scheduleTask]. *)
Definition request (id : string) (priority : option string)
  (maxAttempts : option Z) (requiredCapabilities : option (list string)) : Task :=
  {| id := Some id; name := Some id; priority := priority;
     requiredCapabilities := requiredCapabilities;
     maxAttempts := maxAttempts; attempts := 0; status := queued;
     scheduledAt := None; startTime := None; endTime := None;
     assignedAgent := None; result := None; error := None |}.

(** A ready agent without load that can only [compute]. *)
Definition worker : Agent :=
  {| agent_id := "dataprocessor-01"; agent_status := "ready";
     currentTasks := Some 0%nat; capabilities := Some ["compute"] |}.

(** Every execution is entered at [5000 l], runs for two seconds and is
    rejected by [runTask]. *)
Definition alwaysFails (l : nat) : Run :=
  {| enteredAt := 5000 * Z.of_nat l; drawnTime := 2000 # 1; succeeds := false;
     resolvedAt := 5000 * Z.of_nat l + 2000;
     settledAt := 5000 * Z.of_nat l + 2000 |}.

(** The execution of the task [0] is rejected, every other one succeeds. *)
Definition firstFails (l : nat) : Run :=
  {| enteredAt := 5000 * Z.of_nat l; drawnTime := 2000 # 1;
     succeeds := negb (l =? 0)%nat;
     resolvedAt := 5000 * Z.of_nat l + 2000;
     settledAt := 5000 * Z.of_nat l + 2001 |}.

(** A fresh scheduler after [scheduleTask({id: 't1', maxAttempts: 3})]. *)
Definition oneTask : Scheduler :=
  (scheduleTask (request "t1" None (Some 3) None) 0 "task_0_a" constructor).1.

(** The [k]-th iteration of [scheduleLoop] with [worker] registered and
    [runTask] always rejecting; [sleep] returns one second after the
    failure. *)
Definition failingIteration (k : nat) (s : Scheduler) : Scheduler :=
  scheduleLoop_iteration [worker] alwaysFails
    (5000 * Z.of_nat k + 2000) (5000 * Z.of_nat k + 3000) "task_0_b" s.

(** [oneTask] after [n] such iterations. *)
Fixpoint failingIterations (n : nat) : Scheduler :=
  match n with
  | O => oneTask
  | S n => failingIteration n (failingIterations n)
  end.

(** The shape of the scheduler after [n] failing iterations: [n] objects
    that failed once and were handed to the retry callback, and a new
    object, with [attempts = 0], waiting in the medium queue. *)
Record Retrying (n : nat) (s : Scheduler) : Prop := {
  retrying_length : length (heap s) = S n;
  retrying_last : ∃ t, heap s !! n = Some t ∧ status t = queued ∧
    attempts t = 0 ∧ maxAttempts t = Some 3 ∧ priority t = None ∧
    id t = Some "t1";
  retrying_before : ∀ l t, (l < n)%nat → heap s !! l = Some t →
    attempts t = 1 ∧ status t = retrying;
  retrying_queues : queues s = {["medium" := [n]]};
  retrying_running : runningTasks s = [];
  retrying_timers : timers s = [];
  retrying_failed : failedTasks s = [];
  retrying_config : schedulerConfig s = schedulerConfig constructor
}.

(** One call of [processQueues] on [oneTask] with no agent registered. *)
Definition withoutAgents : Scheduler :=
  (processQueues [] alwaysFails oneTask).1.

(** A task that requires a capability [worker] does not have. *)
Definition visionTask : Task := request "t2" None None (Some ["vision"]).

(** [scheduleTask({id: 't3', priority: 'urgent'})] on a fresh scheduler. *)
Definition urgentTask : Task := request "t3" (Some "urgent") None None.

Definition urgentSubmitted : Scheduler * nat :=
  scheduleTask urgentTask 0 "task_0_c" constructor.

(** The machine after [events], from [m]. *)
Definition after (events : list Event) (m : Machine) : Machine :=
  default m (run events m).

(** [urgentTask] submitted to a fresh scheduler, which is then started and
    makes one full pass, up to its sleep. *)
Definition urgentThenStart : list Event :=
  [Start [worker] 10; Resume 0 [worker] 20 20 0 true; Resume 0 [worker] 30 30 0 true].

Definition urgentAfterPass : Machine :=
  after urgentThenStart
    {| sched := urgentSubmitted.1; loops := [] |}.

(** A low task submitted before a high one. *)
Definition lowThenHigh : Scheduler :=
  (scheduleTask (request "high" (Some "high") None None) 1 "task_1_a"
     (scheduleTask (request "low" (Some "low") None None) 0 "task_0_a"
        constructor).1).1.

(** A scheduler that was started with nothing queued, has made its first
    pass and sleeps, and to which a low task and then a high task are
    submitted. *)
Definition sleepingThenSubmitted : Machine :=
  after [Start [worker] 0;
         Resume 0 [worker] 1 1 0 true;
         Resume 0 [worker] 2 2 0 true;
         Submit (request "low" (Some "low") None None) 3 "task_3_a";
         Submit (request "high" (Some "high") None None) 4 "task_4_a"]
    (initial (schedulerConfig constructor)).

(** The loop wakes and takes a first task. *)
Definition wakes : list Event := [Resume 0 [worker] 1000 1000 0 true].

(** The next pass of the loop: it wakes and takes a first task, the agent
    is assigned, [runTask] resolves after two seconds, and the loop takes a
    second task. *)
Definition nextPass : list Event :=
  wakes ++
  [Resume 0 [worker] 1001 1001 (2000 # 1) true;
   Resume 0 [worker] 3002 3001 0 true;
   Resume 0 [worker] 3003 3003 0 true].

(** A bound of two running tasks. *)
Definition boundOfTwo : Config :=
  {| maxConcurrentTasks := 2; maxTasksPerAgent := 5;
     retryAttempts := 3; retryDelay := 1000 |}.

(** [n] tasks submitted under one id, and a scheduler that is started [n]
    times, and stopped in between:
    [start(); stop(); start(); ...; stop(); start()]. *)
Definition restarts (n : nat) : list Event :=
  map (λ k, Submit (request "x" None None None) (Z.of_nat k) "task_0_a") (seq 0 n) ++
  match n with
  | O => []
  | S k =>
      Start [worker] 10 ::
      flat_map (λ j, [Stop; Start [worker] (11 + Z.of_nat j)]) (seq 0 k)
  end.

Definition afterRestarts (cfg : Config) (n : nat) : Machine :=
  after (restarts n) (initial cfg).

End Scenario.

Module TrackerSpec.
Import TaskTracker.

(** The audit trail of [t] starts with the initialization phase. *)
Definition initialized (t : Task.t) : Prop :=
  ∃ first rest, Task.phases t = first :: rest ∧ Phase.type first = "initialization".

(** [t'] is [t] at a later point: the same task, its phases extended. *)
Definition extends (t t' : Task.t) : Prop :=
  Task.id t' = Task.id t ∧ Task.phases t `prefix_of` Task.phases t'.

(** A mutation that may only append phases. *)
Definition growing (f : Task.t → Task.t) : Prop := ∀ t, extends t (f t).

(** [c] starts a new task under [taskId], replacing the task that was
    active under this id, if any. *)
Definition creates (c : Call) (taskId : string) : Prop :=
  match c with
  | CreateTaskTracker id _ _ _ => id = taskId
  | _ => False
  end.

(** [c] records an error for the task [taskId]. *)
Definition records (c : Call) (taskId : string) : Prop :=
  match c with
  | RecordError id _ _ _ _ => id = taskId
  | _ => False
  end.

(** A mutation that leaves [errors] as it is, and one that appends one
    record to it. *)
Definition silent (f : Task.t → Task.t) : Prop :=
  ∀ t, Task.errors (f t) = Task.errors t.

Definition appending (f : Task.t → Task.t) : Prop :=
  ∀ t, ∃ e, Task.errors (f t) = Task.errors t ++ [e].

Definition cleans (c : Call) : Prop :=
  match c with
  | CleanupOldTasks _ => True
  | _ => False
  end.

(** The invariant of the tracker: every task it holds is initialized. *)
Definition TInv (tr : Tracker) : Prop :=
  (∀ taskId t, activeTasks tr !! taskId = Some t → initialized t) ∧
  Forall initialized (completedTasks tr).

(** The penalties of [assessSystemHealth] in the words of the spec. *)
Definition penalties (m : PerformanceMetrics.t) : Z :=
  let errorRate :=
    divide (inject_Z (PerformanceMetrics.failedTasks m))
           (inject_Z (PerformanceMetrics.totalTasks m)) in
  let successRate :=
    divide (inject_Z (PerformanceMetrics.successfulTasks m))
           (inject_Z (PerformanceMetrics.totalTasks m)) in
  (if greater errorRate (1 # 10) then 30 else 0) +
  (if greater (PerformanceMetrics.averageExecutionTime m) 20000 then 20 else 0) +
  (if less successRate (9 # 10) then 25 else 0).

(** The cumulative success rate [successfulTasks / totalTasks]. *)
Definition cumulativeSuccessRate (m : PerformanceMetrics.t) : number :=
  divide (inject_Z (PerformanceMetrics.successfulTasks m))
         (inject_Z (PerformanceMetrics.totalTasks m)).


End TrackerSpec.

(** A runtime to evaluate the examples with: numbers are rounded half up,
    times are printed as [HH:MM:SS] in UTC. *)
Module ReferenceRuntime.

Definition pad (width : nat) (s : string) : string :=
  String.concat "" (replicate (width - String.length s) "0") +:+ s.

Definition fixed (digits : nat) (q : Q) : string :=
  let unit := 10 ^ Z.of_nat digits in
  let scaled := Qfloor (Qplus (Qmult (Qabs q) (inject_Z unit)) (1 # 2)) in
  let sign := if negb (Qle_bool 0 q) && (0 <? scaled) then "-" else "" in
  let whole := pretty (scaled / unit) in
  match digits with
  | O => sign +:+ whole
  | _ => sign +:+ whole +:+ "." +:+ pad digits (pretty (scaled mod unit))
  end.

Definition render (digits : nat) (x : number) : string :=
  match x with
  | NaN => "NaN"
  | PosInfinity => "Infinity"
  | NegInfinity => "-Infinity"
  | Finite q => fixed digits q
  end.

(** On the output of [toFixed(1)], [String(parseFloat(s))] removes a
    final [.0]. *)
Definition shorten (s : string) : string :=
  let n := String.length s in
  if String.eqb (String.substring (n - 2) 2 s) ".0"
  then String.substring 0 (n - 2) s else s.

(** The largest [i] between -8 and 8 with [1024 ^ i <= x]. *)
Definition magnitude (x : Q) : Z :=
  fold_left (λ best i, if Qle_bool (Qpower 1024 i) x then i else best)
    (seqZ (-8) 17) (-8).

Definition clock (t : Z) : string :=
  let s := (t / 1000) mod 86400 in
  pad 2 (pretty (s / 3600)) +:+ ":" +:+ pad 2 (pretty (s / 60 mod 60))
    +:+ ":" +:+ pad 2 (pretty (s mod 60)).

Definition runtime : Runtime :=
  {| toFixed := render;
     parseFloat := shorten;
     logFloor := magnitude;
     toLocaleTimeString := clock;
     toLocaleString := λ t, "day " +:+ pretty (default 0 t / 86400000) +:+ ", "
                              +:+ clock (default 0 t) |}.

End ReferenceRuntime.

Module TrackerScenario.
Import TaskTracker.

(** What a caller does for one task: create it, start it one second later,
    and finish it with [outcome] after one more second. *)
Definition lifecycle (outcome : string) (i : nat) : list Call :=
  let taskId := "task_" +:+ pretty i in
  let t := 10000 * Z.of_nat i in
  [CreateTaskTracker taskId "demo" None t;
   UpdateTaskStatus taskId "running" None (t + 1000);
   UpdateTaskStatus taskId outcome None (t + 2000)].

(** 180 tasks that complete, followed by 20 tasks that fail. *)
Definition lateFailures : Tracker :=
  run ReferenceRuntime.runtime
    (flat_map (lifecycle "completed") (seq 0 180) ++
     flat_map (lifecycle "failed") (seq 180 20))
    constructor.

(** A task that completed without error. *)
Definition finished : Task.t :=
  default (createTaskTracker "task_0" "demo" None 0 constructor).2
    (head (completedTasks
             (run ReferenceRuntime.runtime (lifecycle "completed" 0) constructor))).

(** A task right after [createTaskTracker]. *)
Definition created : Task.t :=
  (createTaskTracker "task_0" "demo" None 0 constructor).2.

(** A task with phases of four agents, and an error of one of them. *)
Definition busyCalls : list Call :=
  [CreateTaskTracker "task_0" "demo" None 0;
   AddTaskPhase "task_0" "analysis" "traffic data" "info" (Some "traffic") 10;
   AddTaskPhase "task_0" "analysis" "sensor 10" "info" (Some "10") 20;
   AddTaskPhase "task_0" "analysis" "prototype" "info" (Some "__proto__") 30;
   AddTaskPhase "task_0" "analysis" "sensor 9" "info" (Some "9") 40;
   RecordError "task_0" "timeout" None "traffic" 50].

Definition busy : Tracker := run ReferenceRuntime.runtime busyCalls constructor.

Definition busyTask : Task.t := default created (activeTasks busy !! "task_0").

(** A task the traffic agent works on, completed after two seconds. *)
Definition trafficCalls : list Call :=
  [CreateTaskTracker "task_0" "demo" None 0;
   AddTaskPhase "task_0" "analysis" "traffic data" "info" (Some "traffic") 500;
   AddTaskPhase "task_0" "decision" "signal plan" "info" (Some "traffic") 900;
   UpdateTaskStatus "task_0" "running" None 1000;
   UpdateTaskStatus "task_0" "completed" None 2000].

(** A task that runs. *)
Definition runningCalls : list Call :=
  [CreateTaskTracker "task_0" "demo" None 0;
   UpdateTaskStatus "task_0" "running" None 1000].

(** A task completed at the time 1000 and one completed more than eight
    days later. *)
Definition oldAndNew : Tracker :=
  run ReferenceRuntime.runtime
    [CreateTaskTracker "old" "demo" None 0;
     UpdateTaskStatus "old" "completed" None 1000;
     CreateTaskTracker "new" "demo" None 700000000;
     UpdateTaskStatus "new" "completed" None 700001000]
    constructor.

End TrackerScenario.
(** ** The scheduler's books *)

Module LedgerSpec.
Import TaskScheduler SchedulerSpec.

(** Where the scheduler keeps a task object, by its status. *)
Definition placed (m : Machine) (l : nat) (t : Task) : Prop :=
  match status t with
  | queued => l ∈ queue_of (str_or (priority t) "medium") (sched m)
  | running => executing m l
  | completed => l ∈ completedTasks (sched m)
  | failed => l ∈ (timers (sched m)).*2 ∨ l ∈ failedTasks (sched m)
  | retrying => True
  end.

Definition Placed (m : Machine) : Prop :=
  ∀ l t, heap (sched m) !! l = Some t → placed m l t.

(** [l] is kept in [m'] wherever it is kept in [m]. *)
Record stays (m m' : Machine) (l : nat) : Prop := {
  stays_queue : ∀ p, l ∈ queue_of p (sched m) → l ∈ queue_of p (sched m');
  stays_loop : executing m l → executing m' l;
  stays_completed : l ∈ completedTasks (sched m) → l ∈ completedTasks (sched m');
  stays_failed :
    l ∈ (timers (sched m)).*2 ∨ l ∈ failedTasks (sched m) →
    l ∈ (timers (sched m')).*2 ∨ l ∈ failedTasks (sched m')
}.

(** The fields that are set in [t] are set in [t']. *)
Record grows (t t' : Task) : Prop := {
  grows_startTime : is_Some (startTime t) → is_Some (startTime t');
  grows_endTime : is_Some (endTime t) → is_Some (endTime t');
  grows_result : is_Some (result t) → is_Some (result t');
  grows_assignedAgent : is_Some (assignedAgent t) → is_Some (assignedAgent t')
}.

(** A task that was started, assigned, and ended with a result. *)
Record finished (t : Task) : Prop := {
  finished_startTime : is_Some (startTime t);
  finished_endTime : is_Some (endTime t);
  finished_result : is_Some (result t);
  finished_assignedAgent : is_Some (assignedAgent t)
}.

(** What the task of a loop carries while the loop executes it. *)
Definition entered (c : Pc) (t : Task) : Prop :=
  match c with
  | Selecting _ _ _ => is_Some (startTime t)
  | Executing _ _ _ _ => is_Some (startTime t) ∧ is_Some (assignedAgent t)
  | _ => True
  end.

Record Carried (m : Machine) : Prop := {
  carried_loops : ∀ c l, c ∈ loops m → current c = Some l →
    ∃ t, heap (sched m) !! l = Some t ∧ entered c t;
  carried_completed : all_at (heap (sched m)) finished (completedTasks (sched m))
}.

(** The running map is a [Map]: its keys are distinct. Each entry is a task
    object with status [running], under its id. A task that waits for a
    retry is not running. *)
Record Mapped (s : Scheduler) : Prop := {
  mapped_keys : NoDup (runningTasks s).*1;
  mapped_entry : ∀ key l, (key, l) ∈ runningTasks s →
    ∃ t, heap s !! l = Some t ∧ status t = running ∧ id t = key;
  mapped_timers : ∀ l, l ∈ (timers s).*2 →
    ∃ t, heap s !! l = Some t ∧ status t ≠ running
}.

(** [executeTask] has returned for the task at [l]. *)
Definition ended (h : list Task) (l : nat) : Prop :=
  ∃ t, h !! l = Some t ∧ (status t = completed ∨ status t = failed).

(** A scheduler that has taken a task, has found [worker] for it and has
    executed it to its end within two seconds. *)
Definition oneCompleted : Machine :=
  Scenario.after
    [Submit (Scenario.request "t1" None None None) 0 "task_0_a";
     Start [Scenario.worker] 10;
     Resume 0 [Scenario.worker] 11 11 (2000 # 1) true;
     Resume 0 [Scenario.worker] 2012 2011 0 true]
    (initial (schedulerConfig constructor)).

(** Two tasks submitted to a scheduler that is then started with no agent
    registered: the first task fails and waits for its retry, the second
    is being executed. *)
Definition oneFailedOneRunning : Machine :=
  Scenario.after
    [Submit (Scenario.request "t1" None None None) 0 "task_0_a";
     Submit (Scenario.request "t2" None None None) 1 "task_1_a";
     Start [] 10;
     Resume 0 [] 11 11 0 true;
     Resume 0 [] 12 12 0 true]
    (initial (schedulerConfig constructor)).

(** A scheduler that is started, stopped and started again while the first
    loop waits for [runTask]; the second loop finds the queues empty and
    reads the clock in [checkRunningTasks] more than five minutes after the
    task was started. *)
Definition secondLoopChecks : Machine :=
  Scenario.after
    [Submit (Scenario.request "t1" None None None) 0 "task_0_a";
     Start [Scenario.worker] 10;
     Resume 0 [Scenario.worker] 11 11 (2000 # 1) true;
     Stop;
     Start [Scenario.worker] 12;
     Resume 1 [Scenario.worker] 300011 300011 0 true]
    (initial (schedulerConfig constructor)).

End LedgerSpec.



(** ** Resource allocation *)

Module PoolSpec.
Import ResourcePool.


(** What an allocation adds to the usage of [type]. *)
Definition share (type : string) (alloc : Allocation) : Z :=
  if String.eqb (ResourcePool.type alloc) type then amount alloc else 0.

(** The usage of [type] in exact arithmetic. *)
Definition exactUsage (type : string) (pool : Pool) : Z :=
  fold_left (λ sum alloc, sum + share type alloc) (allocations pool).*2 0.




End PoolSpec.

(** ** Logs *)

Module LogSpec.
Import LogCollector.

(** The entry a call of [log] appends. *)
Definition entryOf (k : Call) : LogEntry :=
  {| timestamp := call_now k;
     level := call_level k;
     message := call_message k;
     metadata :=
       <["userId" := str_or (call_userId k) "anonymous"]>
         (<["sessionId" := str_or (call_sessionId k) "unknown"]>
            (<["source" := "multi-agent-platform"]> (call_metadata k))) |}.

(** [filters = {}] *)
Definition noFilter : Filters :=
  {| filter_level := None; filter_startTime := NoTime;
     filter_endTime := NoTime; filter_search := None |}.

(** [{ startTime, endTime }] *)
Definition between (startTime endTime : TimeValue) : Filters :=
  {| filter_level := None; filter_startTime := startTime;
     filter_endTime := endTime; filter_search := None |}.

(** A collector after three calls of [log], at the times 5, 15 and 25. *)
Definition threeEntries : Collector :=
  run (map (λ now, {| call_now := now; call_sessionId := None;
                      call_userId := None; call_level := "info";
                      call_message := "m"; call_metadata := ∅ |})
           [5; 15; 25])
      constructor.

End LogSpec.

(** ** The tracker, task by task *)

(** What each method of the tracker does to the task it names, as a
    function on the task. *)
Module TaskView.
Import TaskTracker.

(** The phase object [addTaskPhase] builds. *)
Definition phase (phaseType description status : string)
  (agent : option string) (now : Z) : Phase.t :=
  {| Phase.type := phaseType;
     Phase.description := description;
     Phase.status := status;
     Phase.timestamp := now;
     Phase.duration := None;
     Phase.data_agent := agent;
     Phase.agent := str_or agent "system" |}.

(** [agentsInvolved] after a phase of [agent]. *)
Definition involve (agent : option string) (involved : list string) : list string :=
  match agent with
  | Some a =>
      if negb (String.eqb a "") && negb (includes involved a)
      then involved ++ [a] else involved
  | None => involved
  end.

Definition phaseAdded (phaseType description status : string)
  (agent : option string) (now : Z) (task : Task.t) : Task.t :=
  set_agentsInvolved (involve agent (Task.agentsInvolved task))
    (set_phases
       (Task.phases task ++ [phase phaseType description status agent now]) task).

(** The task [createTaskTracker] stores and returns. *)
Definition newTask (taskId description : string) (priority : option string)
  (now : Z) : Task.t :=
  phaseAdded "initialization" "任务初始化" "info" None now
    {| Task.id := taskId;
       Task.description := description;
       Task.priority := default "medium" priority;
       Task.status := "created";
       Task.createdAt := now;
       Task.startTime := None;
       Task.endTime := None;
       Task.duration := None;
       Task.phases := [];
       Task.agentsInvolved := [];
       Task.sensorDataUsed := ∅;
       Task.results := None;
       Task.errors := [];
       Task.metrics :=
         {| TaskMetrics.dataProcessingTime := 0; TaskMetrics.apiCalls := 0;
            TaskMetrics.cacheHits := 0; TaskMetrics.accuracy := None |} |}.

(** The statuses on which [updateTaskStatus] completes the task. *)
Definition finishing (status : string) : bool :=
  String.eqb status "completed" || String.eqb status "failed".

Definition statusUpdated (status : string) (agent : option string) (now : Z)
  (task : Task.t) : Task.t :=
  let previousStatus := Task.status task in
  let task :=
    phaseAdded "status_change"
      ("状态变更: " +:+ previousStatus +:+ " → " +:+ status) status agent now
      (set_status status task) in
  if String.eqb status "running" then
    if unset (Task.startTime task) then set_startTime (Some now) task else task
  else if finishing status then
    set_duration (Some (now - num_or (Task.startTime task) (Task.createdAt task)))
      (set_endTime (Some now) task)
  else task.

Definition sensorUsed (sensorType : string) (dataSize : Q) (processingTime : Z)
  (task : Task.t) : Task.t :=
  let used :=
    match Task.sensorDataUsed task !! sensorType with
    | Some _ => Task.sensorDataUsed task
    | None =>
        <[sensorType := {| SensorData.calls := 0;
                           SensorData.totalDataSize := 0%Q;
                           SensorData.totalProcessingTime := 0 |}]>
          (Task.sensorDataUsed task)
    end in
  let used :=
    alter (λ d, {| SensorData.calls := SensorData.calls d + 1;
                   SensorData.totalDataSize :=
                     Qplus (SensorData.totalDataSize d) dataSize;
                   SensorData.totalProcessingTime :=
                     SensorData.totalProcessingTime d + processingTime |})
          sensorType used in
  let m := Task.metrics task in
  set_metrics
    {| TaskMetrics.dataProcessingTime :=
         TaskMetrics.dataProcessingTime m + processingTime;
       TaskMetrics.apiCalls := TaskMetrics.apiCalls m + 1;
       TaskMetrics.cacheHits := TaskMetrics.cacheHits m;
       TaskMetrics.accuracy := TaskMetrics.accuracy m |}
    (set_sensorDataUsed used task).

Definition errorRecorded (message : string) (stack : option string)
  (agent : string) (now : Z) (task : Task.t) : Task.t :=
  let errorRecord :=
    {| ErrorRecord.timestamp := now;
       ErrorRecord.message := message;
       ErrorRecord.stack := stack;
       ErrorRecord.agent := agent;
       ErrorRecord.phase :=
         match last (Task.phases task) with
         | Some p => Phase.type p
         | None => "unknown"
         end |} in
  phaseAdded "error" ("错误: " +:+ message) "error" (Some agent) now
    (set_errors (Task.errors task ++ [errorRecord]) task).

(** The task a call names, and what the call does to it. [CompleteTask] and
    [CleanupOldTasks] write no task. *)
Definition target (c : Call) : string :=
  match c with
  | CreateTaskTracker taskId _ _ _ | AddTaskPhase taskId _ _ _ _ _
  | UpdateTaskStatus taskId _ _ _ | RecordSensorDataUsage taskId _ _ _
  | RecordError taskId _ _ _ _ | CompleteTask taskId _ => taskId
  | CleanupOldTasks _ => ""
  end.

Definition written (c : Call) (task : Task.t) : Task.t :=
  match c with
  | AddTaskPhase _ phaseType description status agent now =>
      phaseAdded phaseType description status agent now task
  | UpdateTaskStatus _ status agent now => statusUpdated status agent now task
  | RecordSensorDataUsage _ sensorType dataSize processingTime =>
      sensorUsed sensorType dataSize processingTime task
  | RecordError _ message stack agent now =>
      errorRecorded message stack agent now task
  | _ => task
  end.

(** The calls that end with [completeTask], and the clock it reads. *)
Definition completes (c : Call) : option Z :=
  match c with
  | UpdateTaskStatus _ status _ now => if finishing status then Some now else None
  | CompleteTask _ now => Some now
  | _ => None
  end.

End TaskView.

Module TrackerSpec2.
Import TaskTracker TaskView TrackerSpec.

(** The number of elements of [l] that satisfy [f]:
    [l.filter(f).length]. *)
Definition count {A} (f : A → bool) (l : list A) : Z :=
  Z.of_nat (length (List.filter f l)).

Definition phasesOf (agent : string) (t : Task.t) : Z :=
  count (λ phase, String.eqb (Phase.agent phase) agent) (Task.phases t).

Definition errorsOf (agent : string) (t : Task.t) : Z :=
  count (λ error, String.eqb (ErrorRecord.agent error) agent) (Task.errors t).

Definition errorPhases (t : Task.t) : Z :=
  count (λ p, String.eqb (Phase.status p) "error") (Task.phases t).

(** What holds of every task the tracker holds. *)
Record Sound (t : Task.t) : Prop := {
  sound_opening : ∃ first rest, Task.phases t = first :: rest ∧
    Phase.type first = "initialization" ∧ Phase.status first = "info";
  sound_nodup : NoDup (Task.agentsInvolved t);
  sound_named : "" ∉ Task.agentsInvolved t;
  sound_involved : ∀ a, a ∈ Task.agentsInvolved t ↔
    a ≠ "" ∧ ∃ p, p ∈ Task.phases t ∧ Phase.data_agent p = Some a;
  sound_agent : ∀ p, p ∈ Task.phases t →
    Phase.agent p = str_or (Phase.data_agent p) "system";
  sound_errors : ∀ a, a ≠ "" → errorsOf a t ≤ phasesOf a t;
  sound_reported : Z.of_nat (length (Task.errors t)) ≤ errorPhases t
}.

(** Every task of the tracker satisfies [P]. *)
Definition every (P : Task.t → Prop) (tr : Tracker) : Prop :=
  (∀ taskId t, activeTasks tr !! taskId = Some t → P t) ∧
  Forall P (completedTasks tr).

(** The four agents of [performanceMetrics.agentUtilization]. *)
Definition agents : list string := ["traffic"; "weather"; "parking"; "security"].

(** What the metrics keep whatever is called. *)
Record Tallied (tr : Tracker) : Prop := {
  tally_successful : 0 ≤ PerformanceMetrics.successfulTasks (performanceMetrics tr);
  tally_failed : 0 ≤ PerformanceMetrics.failedTasks (performanceMetrics tr);
  tally_total :
    PerformanceMetrics.successfulTasks (performanceMetrics tr) +
    PerformanceMetrics.failedTasks (performanceMetrics tr)
    ≤ PerformanceMetrics.totalTasks (performanceMetrics tr);
  tally_archive :
    Z.of_nat (length (completedTasks tr))
    ≤ PerformanceMetrics.totalTasks (performanceMetrics tr);
  tally_agents : ∀ a, a ∈ agents →
    ∃ n, PerformanceMetrics.agentUtilization (performanceMetrics tr) !! a = Some n ∧
         0 ≤ n ≤ PerformanceMetrics.totalTasks (performanceMetrics tr)
}.

(** The mean of the durations of [tasks], as [updatePerformanceMetrics]
    computes it. *)
Definition meanDuration (tasks : list Task.t) : number :=
  divide
    (inject_Z (fold_left (λ sum t, sum + num_or (Task.duration t) 0) tasks 0))
    (inject_Z (Z.of_nat (length tasks))).

(** What the metrics are as long as [cleanupOldTasks] has not run: counts
    over the archive. *)
Record Exact (tr : Tracker) : Prop := {
  exact_total :
    PerformanceMetrics.totalTasks (performanceMetrics tr)
    = Z.of_nat (length (completedTasks tr));
  exact_history : (taskHistory tr).*1 = completedTasks tr;
  exact_successful :
    PerformanceMetrics.successfulTasks (performanceMetrics tr)
    = count (λ t, String.eqb (Task.status t) "completed") (completedTasks tr);
  exact_failed :
    PerformanceMetrics.failedTasks (performanceMetrics tr)
    = count (λ t, String.eqb (Task.status t) "failed") (completedTasks tr);
  exact_average :
    PerformanceMetrics.averageExecutionTime (performanceMetrics tr)
    = match completedTasks tr with
      | [] => Finite 0
      | tasks => meanDuration tasks
      end;
  exact_agents : ∀ a, a ∈ agents →
    PerformanceMetrics.agentUtilization (performanceMetrics tr) !! a
    = Some (count (λ t, includes (Task.agentsInvolved t) a) (completedTasks tr))
}.

End TrackerSpec2.

(** ** Sensor data and error patterns *)

Module UsageSpec.
Import TaskTracker TaskView TrackerSpec2.

(** The names a plain object inherits from [Object.prototype]. Under such
    a name [task.sensorDataUsed[sensorType]] is not [undefined] before the
    first call, and [recordSensorDataUsage] does not create an entry. *)
Definition inherited : list string :=
  ["constructor"; "hasOwnProperty"; "isPrototypeOf"; "propertyIsEnumerable";
   "toLocaleString"; "toString"; "valueOf"; "__proto__";
   "__defineGetter__"; "__defineSetter__"; "__lookupGetter__"; "__lookupSetter__"].

(** A call that names no sensor type of [inherited]. *)
Definition plain (c : Call) : Prop :=
  match c with
  | RecordSensorDataUsage _ sensorType _ _ => sensorType ∉ inherited
  | _ => True
  end.

(** The metrics of a task agree with its per-sensor records. *)
Record Metered (t : Task.t) : Prop := {
  metered_calls :
    TaskMetrics.apiCalls (Task.metrics t)
    = ReportGenerator.sumZ SensorData.calls (Task.sensorDataUsed t);
  metered_time :
    TaskMetrics.dataProcessingTime (Task.metrics t)
    = ReportGenerator.sumZ SensorData.totalProcessingTime (Task.sensorDataUsed t);
  metered_used : ∀ sensorType data,
    Task.sensorDataUsed t !! sensorType = Some data → 1 ≤ SensorData.calls data
}.

(** The number of errors of [tasks] with the pattern [key]. *)
Definition occurrences (key : string) (tasks : list Task.t) : Z :=
  count (λ error, String.eqb (patternKey error) key)
    (flat_map Task.errors tasks).

End UsageSpec.

(** * Properties *)

(** ** The scheduler *)

Module SchedulerFacts.
Import TaskScheduler SchedulerSpec.

(** *** Agent selection *)

Lemma head_insert_by_load a l :
  head (insert_by_load a l) =
  match head l with
  | Some b => if load a <=? load b then Some a else Some b
  | None => Some a
  end.
Proof. destruct l as [|b l]; simpl; [done|]. by destruct (load a <=? load b). Qed.

Lemma head_sort_by_load l : head (sort_by_load l) = firstLeastLoaded l.
Proof.
  induction l as [|a l IH]; simpl; [done|].
  by rewrite head_insert_by_load, IH.
Qed.

Lemma available_any_task cfg task task' agent :
  available cfg task agent = available cfg task' agent.
Proof. unfold available. by rewrite !orb_true_r. Qed.

Lemma selectAgent_any_task cfg agents task task' :
  selectAgent cfg agents task = selectAgent cfg agents task'.
Proof.
  unfold selectAgent.
  by rewrite (filter_ext _ _ (available_any_task cfg task task')).
Qed.

Lemma selectAgent_firstLeastLoaded cfg agents task :
  selectAgent cfg agents task =
  firstLeastLoaded (List.filter (available cfg task) agents).
Proof.
  unfold selectAgent. rewrite head_sort_by_load.
  by destruct (List.filter _ agents).
Qed.

Lemma firstLeastLoaded_None l : firstLeastLoaded l = None → l = [].
Proof.
  destruct l as [|a l]; simpl; [done|].
  destruct (firstLeastLoaded l); [|done]. by destruct (load a <=? load a0).
Qed.

Lemma firstLeastLoaded_spec l a :
  firstLeastLoaded l = Some a →
  ∃ before after,
    l = before ++ a :: after ∧
    Forall (λ b, load a < load b) before ∧
    Forall (λ b, load a ≤ load b) after.
Proof.
  revert a. induction l as [|x l IH]; intros a; simpl; [done|].
  destruct (firstLeastLoaded l) as [b|] eqn:Hb.
  - destruct (IH b eq_refl) as (before & after & -> & Hlt & Hle).
    destruct (Z.leb_spec (load x) (load b)); intros [= <-].
    + exists [], (before ++ b :: after). split_and!; [done|constructor|].
      apply Forall_app. split.
      * eapply Forall_impl; [exact Hlt|]. simpl. intros; lia.
      * constructor; [done|]. eapply Forall_impl; [exact Hle|]. simpl. intros; lia.
    + exists (x :: before), after. split_and!; [done| |done].
      constructor; [lia|done].
  - intros [= <-]. rewrite (firstLeastLoaded_None l Hb).
    exists [], []. split_and!; [done|constructor|constructor].
Qed.

Lemma available_iff cfg task a :
  available cfg task a = true ↔
  agent_status a = "ready" ∧ load a < maxTasksPerAgent cfg.
Proof.
  unfold available. rewrite orb_true_r, andb_true_r, andb_true_iff.
  by rewrite String.eqb_eq, Z.ltb_lt.
Qed.

(** What [selectAgent] does: it returns an agent exactly when some agent is
    ready and under the load bound, and then the least loaded of these, the
    first one among equals. The capabilities are not looked at. *)
Lemma selectAgent_Some cfg agents task a :
  selectAgent cfg agents task = Some a →
  a ∈ agents ∧ agent_status a = "ready" ∧ load a < maxTasksPerAgent cfg ∧
  ∃ before after,
    List.filter (available cfg task) agents = before ++ a :: after ∧
    Forall (λ b, load a < load b) before ∧
    Forall (λ b, load a ≤ load b) after.
Proof.
  rewrite selectAgent_firstLeastLoaded.
  intros (before & after & Heq & Hlt & Hle)%firstLeastLoaded_spec.
  assert (In a (List.filter (available cfg task) agents)) as Hin.
  { rewrite Heq. apply in_or_app. right. by left. }
  apply filter_In in Hin as [Hin Hav]. apply available_iff in Hav as [? ?].
  split_and!; [by apply list_elem_of_In|done..|]. by exists before, after.
Qed.

Lemma selectAgent_None cfg agents task :
  selectAgent cfg agents task = None ↔
  ∀ a, a ∈ agents → ¬ (agent_status a = "ready" ∧ load a < maxTasksPerAgent cfg).
Proof.
  rewrite selectAgent_firstLeastLoaded. split.
  - intros Hnil%firstLeastLoaded_None a Hin Hav%(available_iff cfg task).
    assert (In a (List.filter (available cfg task) agents)) as Hf.
    { apply filter_In. split; [by apply list_elem_of_In|done]. }
    by rewrite Hnil in Hf.
  - intros Hnone.
    destruct (List.filter (available cfg task) agents) as [|a l] eqn:Hf; [done|].
    assert (In a (List.filter (available cfg task) agents)) as Hin
      by (rewrite Hf; by left).
    apply filter_In in Hin as [Hin Hav]. apply available_iff in Hav.
    exfalso. apply (Hnone a); [by apply list_elem_of_In|done].
Qed.

(** *** What the methods do *)

Lemma queue_of_alter f p p' s :
  queue_of p' (set_queues (alter f p (queues s)) s) =
  if decide (p = p') then
    match queues s !! p with Some q => f q | None => [] end
  else queue_of p' s.
Proof.
  unfold queue_of; simpl. rewrite lookup_alter.
  case_decide; [subst|done]. by destruct (queues s !! p').
Qed.

Lemma scheduleTask_heap task now fresh s :
  ∃ t, heap (scheduleTask task now fresh s).1 = heap s ++ [t] ∧
       (scheduleTask task now fresh s).2 = length (heap s) ∧
       status t = queued ∧ attempts t = 0 ∧
       priority t = priority task ∧ error t = error task ∧
       id t = Some (str_or (id task) fresh) ∧
       maxAttempts t =
         Some (num_or (maxAttempts task) (retryAttempts (schedulerConfig s))).
Proof.
  unfold scheduleTask. eexists. simpl.
  case_decide; simpl; split_and!; reflexivity.
Qed.

Lemma scheduleTask_queue task now fresh s p :
  queue_of p (scheduleTask task now fresh s).1 =
  if decide (str_or (priority task) "medium" = p)
  then queue_of p s ++ [length (heap s)]
  else queue_of p s.
Proof.
  unfold scheduleTask. simpl.
  set (k := str_or (priority task) "medium").
  case_decide as Hk; simpl.
  - destruct Hk as [q Hq]. unfold queue_of; simpl. rewrite lookup_alter.
    case_decide; [subst p|done]. by rewrite Hq.
  - unfold queue_of; simpl. rewrite lookup_alter.
    apply eq_None_not_Some in Hk.
    case_decide; [subst p|].
    + by rewrite lookup_insert_eq, Hk.
    + by rewrite lookup_insert_ne.
Qed.

Lemma scheduleTask_other task now fresh s :
  let s' := (scheduleTask task now fresh s).1 in
  runningTasks s' = runningTasks s ∧ completedTasks s' = completedTasks s ∧
  failedTasks s' = failedTasks s ∧ timers s' = timers s ∧
  schedulerConfig s' = schedulerConfig s ∧ isRunning s' = isRunning s.
Proof. unfold scheduleTask. simpl. by case_decide. Qed.

Lemma all_at_insert h P refs l t' :
  all_at h P refs → P t' → all_at (<[l := t']> h) P refs.
Proof.
  intros H Ht' x Hx. destruct (H x Hx) as (t & Ht & HP).
  destruct (decide (l = x)) as [->|Hne].
  - exists t'. split; [|done].
    apply list_lookup_insert_eq. by eapply lookup_lt_Some.
  - exists t. by rewrite list_lookup_insert_ne.
Qed.

Lemma all_at_alloc h P refs t : all_at h P refs → all_at (h ++ [t]) P refs.
Proof.
  intros H x Hx. destruct (H x Hx) as (t0 & Ht & HP). exists t0.
  split; [|done]. rewrite lookup_app_l; [done|]. by eapply lookup_lt_Some.
Qed.

Lemma all_at_app h P r1 r2 :
  all_at h P (r1 ++ r2) ↔ all_at h P r1 ∧ all_at h P r2.
Proof.
  unfold all_at. split.
  - intros H. split; intros x Hx; apply H, elem_of_app; auto.
  - intros [H1 H2] x [Hx|Hx]%elem_of_app; auto.
Qed.

Lemma all_at_singleton h P l t : h !! l = Some t → P t → all_at h P [l].
Proof. intros ?? x ->%list_elem_of_singleton. eauto. Qed.

Lemma all_at_sublist h P r1 r2 : r1 ⊆ r2 → all_at h P r2 → all_at h P r1.
Proof. intros Hsub H x Hx. apply H, Hsub, Hx. Qed.

Lemma handleTaskFailure_effect l message now s t :
  heap s !! l = Some t →
  let s' := handleTaskFailure l message now s in
  ∃ t', heap s' = <[l := t']> (heap s) ∧
    status t' = failed ∧ id t' = id t ∧ priority t' = priority t ∧
    attempts t' = attempts t + 1 ∧ error t' = Some message ∧
    maxAttempts t' = maxAttempts t ∧
    queues s' = queues s ∧
    runningTasks s' = map_delete (id t) (runningTasks s) ∧
    completedTasks s' = completedTasks s ∧
    schedulerConfig s' = schedulerConfig s ∧
    isRunning s' = isRunning s ∧
    ((canRetry t' = true ∧
      timers s' = timers s ++
        [(now + retryDelay (schedulerConfig s) * (attempts t + 1), l)] ∧
      failedTasks s' = failedTasks s) ∨
     (canRetry t' = false ∧ timers s' = timers s ∧
      failedTasks s' = failedTasks s ++ [l])).
Proof.
  intros Hl. unfold handleTaskFailure. rewrite Hl. simpl.
  exists (set_endTime (Some now)
            (set_error (Some message)
               (set_status failed (set_attempts (attempts t + 1) t)))).
  destruct (canRetry _) eqn:E; simpl; split_and!; try reflexivity.
  - by left.
  - by right.
Qed.

Lemma all_at_mutate h P refs l t0 t' :
  all_at h P refs → h !! l = Some t0 → (P t0 → P t') →
  all_at (<[l := t']> h) P refs.
Proof.
  intros H Hl Himp x Hx. destruct (H x Hx) as (t & Ht & HP).
  destruct (decide (l = x)) as [->|Hne].
  - exists t'. split.
    + apply list_lookup_insert_eq. by eapply lookup_lt_Some.
    + apply Himp. congruence.
  - exists t. by rewrite list_lookup_insert_ne.
Qed.

Lemma lookup_mutate (h : list Task) l l' t0 t' t :
  h !! l = Some t0 → <[l := t']> h !! l' = Some t →
  (l' = l ∧ t = t') ∨ (l' ≠ l ∧ h !! l' = Some t).
Proof.
  intros Hl. destruct (decide (l = l')) as [->|Hne].
  - rewrite list_lookup_insert_eq by (by eapply lookup_lt_Some). naive_solver.
  - rewrite list_lookup_insert_ne by done. naive_solver.
Qed.

Lemma lookup_alloc (h : list Task) t l t' :
  (h ++ [t]) !! l = Some t' →
  (l = length h ∧ t' = t) ∨ (l < length h ∧ h !! l = Some t')%nat.
Proof.
  intros [[? ?]|[? ?]]%lookup_snoc_Some; [right|left]; done.
Qed.

Lemma all_at_insert_notin h P refs l t' :
  all_at h P refs → l ∉ refs → all_at (<[l := t']> h) P refs.
Proof.
  intros H Hn x Hx. destruct (H x Hx) as (t & Ht & HP).
  exists t. rewrite list_lookup_insert_ne; [done|]. by intros ->.
Qed.

Lemma executeTask_completed_effect l drawn resolved now s t :
  heap s !! l = Some t →
  let s' := executeTask_completed l drawn resolved now s in
  ∃ t', heap s' = <[l := t']> (heap s) ∧
    status t' = completed ∧ id t' = id t ∧ priority t' = priority t ∧
    attempts t' = attempts t ∧
    queues s' = queues s ∧
    runningTasks s' = map_delete (id t) (runningTasks s) ∧
    completedTasks s' = completedTasks s ++ [l] ∧
    failedTasks s' = failedTasks s ∧ timers s' = timers s ∧
    schedulerConfig s' = schedulerConfig s ∧
    isRunning s' = isRunning s.
Proof.
  intros Hl. unfold executeTask_completed. rewrite Hl. simpl.
  eexists. split_and!; reflexivity.
Qed.

Lemma executeTask_enter_effect agents l now s t :
  heap s !! l = Some t →
  let r := executeTask_enter agents l now s in
  ∃ t', heap r.1 = <[l := t']> (heap s) ∧
    status t' = running ∧ id t' = id t ∧ priority t' = priority t ∧
    attempts t' = attempts t ∧ error t' = error t ∧
    maxAttempts t' = maxAttempts t ∧ startTime t' = Some now ∧
    queues r.1 = queues s ∧
    runningTasks r.1 = map_set (id t) l (runningTasks s) ∧
    completedTasks r.1 = completedTasks s ∧
    failedTasks r.1 = failedTasks s ∧ timers r.1 = timers s ∧
    schedulerConfig r.1 = schedulerConfig s ∧
    isRunning r.1 = isRunning s ∧
    r.2 = selectAgent (schedulerConfig s) agents t'.
Proof.
  intros Hl. unfold executeTask_enter, update. rewrite Hl. simpl.
  rewrite list_lookup_insert_eq by (by eapply lookup_lt_Some). simpl.
  eexists. split_and!; reflexivity.
Qed.

Lemma map_delete_singleton k l : map_delete k [(k, l)] = [].
Proof. simpl. by rewrite decide_True. Qed.

Lemma queue_of_shift p p' s :
  queue_of p' (shift p s) =
  if decide (p = p') then drop 1 (queue_of p' s) else queue_of p' s.
Proof.
  unfold shift. rewrite queue_of_alter. case_decide; [subst|done].
  unfold queue_of. by destruct (queues s !! p').
Qed.

Lemma checkRunningTasks_idle now s :
  runningTasks s = [] → checkRunningTasks now s = s.
Proof. unfold checkRunningTasks. by intros ->. Qed.

(** *** Events and moves *)

Lemma elem_of_insert_inv {A} (l : list A) i x y :
  y ∈ <[i := x]> l → y = x ∨ y ∈ l.
Proof.
  intros [j Hj]%list_elem_of_lookup_1.
  apply list_lookup_insert_Some in Hj as [(_ & -> & _)|[_ Hj]]; [by left|].
  right. by eapply list_elem_of_lookup_2.
Qed.

Lemma insert_snoc {A} (l : list A) x y : <[length l := y]> (l ++ [x]) = l ++ [y].
Proof. rewrite insert_app_r_alt by lia. by rewrite Nat.sub_diag. Qed.

Lemma scan_Some rest s priority rest' task :
  scan rest s = Some (priority, rest', task) →
  canExecuteMoreTasks s = true ∧
  (∃ queue, queue_of priority s = task :: queue) ∧
  ∃ passed, rest = passed ++ priority :: rest' ∧
            ∀ p, p ∈ passed → queue_of p s = [].
Proof.
  induction rest as [|p rest IH]; [done|]. cbn [scan].
  destruct (queue_of p s) as [|l q] eqn:Hq.
  - intros (Hc & Hh & passed & -> & Hp)%IH. split_and!; [done..|].
    exists (p :: passed). split; [done|].
    intros x [->|Hx]%elem_of_cons; [done|by apply Hp].
  - destruct (canExecuteMoreTasks s) eqn:Hc.
    + intros [= <- <- <-]. split_and!; [done|by exists q|].
      exists []. split; [done|]. by intros x ?%elem_of_nil.
    + intros (Hc' & _)%IH. congruence.
Qed.

Lemma scan_blocked rest s : canExecuteMoreTasks s = false → scan rest s = None.
Proof.
  intros Hc. induction rest as [|p rest IH]; [done|]. cbn [scan].
  rewrite Hc. by destruct (queue_of p s).
Qed.

Lemma proceed_moves agents now rest s ls i c :
  ls !! i = Some c →
  c = Polling rest ∨ (c = Sleeping ∧ rest = priorityOrder) →
  move {| sched := s; loops := ls |}
       {| sched := (proceed agents now rest s).1;
          loops := <[i := (proceed agents now rest s).2]> ls |}.
Proof.
  intros Hi Hc. unfold proceed.
  destruct (scan rest s) as [[[priority rest'] task]|] eqn:Hscan; cbn [fst snd].
  - by eapply move_dispatch.
  - eapply move_idle; [done| |done]. by destruct Hc as [->|[-> _]].
Qed.

Lemma fire_moves e m m' : fire e m = Some m' → rtc move m m'.
Proof.
  destruct m as [s ls]. destruct e as [task now fresh|k now fresh|agents now|
    |i agents now resolved drawn succeeds|i k now']; cbn [fire sched loops].
  - intros [= <-]. apply rtc_once, move_submit.
  - destruct (timers s !! k) as [[due l]|] eqn:Hk; [|done].
    intros [= <-]. apply rtc_once. by eapply move_retry.
  - destruct (isRunning s); intros [= <-]; [done|].
    eapply rtc_l; [apply (move_flag _ _ true)|].
    eapply rtc_l; [apply move_spawn|].
    apply rtc_once.
    rewrite <- (insert_snoc ls Sleeping
                  (proceed agents now priorityOrder (set_isRunning true s)).2).
    apply proceed_moves with Sleeping; [|by right].
    by apply list_lookup_middle.
  - intros [= <-]. apply rtc_once, move_flag.
  - destruct (ls !! i) as [c|] eqn:Hi; [|done].
    destruct c as [rest|rest task [agent|]|rest task agent executionTime| | | |];
      cbn [resume]; intros [= <-]; cbn [fst snd]; apply rtc_once.
    + apply proceed_moves with (Polling rest); [done|by left].
    + by apply move_assign.
    + by apply (move_fail _ _ _ (Selecting rest task None)).
    + destruct succeeds.
      * by eapply move_complete.
      * by apply (move_fail _ _ _ (Executing rest task agent executionTime)).
    + by eapply move_idle.
    + by eapply move_idle.
    + destruct (isRunning s).
      * apply proceed_moves with Sleeping; [done|by right].
      * by eapply move_idle.
  - destruct (ls !! i) as [[| | | |now| |]|]; try done.
    destruct (runningTasks s !! k) as [[key l]|] eqn:Hk; [|done].
    destruct (heap s !! l ≫= startTime) as [started|]; [|done].
    destruct (now - started >? timeout); [|done].
    intros [= <-]. apply rtc_once. by eapply move_timeout.
Qed.

(** *** The invariant of the transition system *)

Lemma elem_of_held m l :
  l ∈ held m ↔
  executing m l ∨ l ∈ (runningTasks (sched m)).*2 ∨ l ∈ (timers (sched m)).*2 ∨
  l ∈ completedTasks (sched m) ∨ l ∈ failedTasks (sched m).
Proof.
  unfold held, executing. rewrite !elem_of_app, list_elem_of_omap. tauto.
Qed.

Lemma elem_of_map_set k v m x : x ∈ (map_set k v m).*2 → x = v ∨ x ∈ m.*2.
Proof.
  induction m as [|[k' v'] m IH]; simpl.
  - intros ->%list_elem_of_singleton. by left.
  - case_decide; simpl.
    + intros [->|Hx]%elem_of_cons; [by left|]. right. by right.
    + intros [->|Hx]%elem_of_cons; [right; by left|].
      destruct (IH Hx) as [->|?]; [by left|]. right. by right.
Qed.

Lemma elem_of_map_delete k m x : x ∈ (map_delete k m).*2 → x ∈ m.*2.
Proof.
  induction m as [|[k' v'] m IH]; simpl; [done|].
  case_decide; simpl.
  - intros Hx. by right.
  - intros [->|Hx]%elem_of_cons; [by left|]. right. by apply IH.
Qed.

Lemma length_map_set k v m : (length (map_set k v m) ≤ S (length m))%nat.
Proof.
  induction m as [|[k' v'] m IH]; simpl; [lia|]. case_decide; simpl; lia.
Qed.

Lemma length_map_delete k m : (length (map_delete k m) ≤ length m)%nat.
Proof.
  induction m as [|[k' v'] m IH]; simpl; [lia|]. case_decide; simpl; lia.
Qed.

Lemma queue_of_queues s s' p : queues s' = queues s → queue_of p s' = queue_of p s.
Proof. unfold queue_of. by intros ->. Qed.

(** A task the scheduler holds outside its queues is written, and the
    references held change by [l] at most. *)
Lemma inv_touch cfg s ls s' ls' l t0 t' :
  Inv cfg {| sched := s; loops := ls |} →
  heap s !! l = Some t0 → started t0 → started t' →
  heap s' = <[l := t']> (heap s) →
  queues s' = queues s →
  schedulerConfig s' = schedulerConfig s →
  (length (runningTasks s') ≤ length (runningTasks s))%nat →
  (∀ x, x ∈ held {| sched := s'; loops := ls' |} →
        x = l ∨ x ∈ held {| sched := s; loops := ls |}) →
  (∀ c, c ∈ ls' → remaining c `suffix_of` priorityOrder) →
  Inv cfg {| sched := s'; loops := ls' |}.
Proof.
  intros [Hcfg Hq Hnd Hh Hrem Hb] Hl Hs0 Hs' Hheap Hqs Hc Hlen Hheld Hrem'.
  cbn [sched loops] in *. constructor; cbn [sched loops].
  - congruence.
  - intros p. rewrite (queue_of_queues s s') by done. rewrite Hheap.
    eapply all_at_mutate; [apply Hq|done|]. intros [Hst _]. by destruct Hs0.
  - intros p. by rewrite (queue_of_queues s s').
  - intros x Hx. rewrite Hheap. destruct (Hheld x Hx) as [->|Hold].
    + exists t'. split; [|done].
      apply list_lookup_insert_eq. by eapply lookup_lt_Some.
    + by apply (all_at_mutate _ _ _ _ t0 t' Hh Hl).
  - done.
  - lia.
Qed.

Lemma inv_scheduleTask cfg s ls task now fresh :
  Inv cfg {| sched := s; loops := ls |} →
  Inv cfg {| sched := (scheduleTask task now fresh s).1; loops := ls |}.
Proof.
  intros [Hcfg Hq Hnd Hh Hrem Hb]. cbn [sched loops] in *.
  destruct (scheduleTask_heap task now fresh s)
    as (t & Hheap & _ & Hst & _ & Hpr & _).
  destruct (scheduleTask_other task now fresh s)
    as (Hr & Hc & Hf & Ht & Hg & _). cbn zeta in *.
  constructor; cbn [sched loops]; rewrite ?Hheap, ?Hr, ?Hg; try done.
  - intros p. rewrite scheduleTask_queue. case_decide as Hp.
    + apply all_at_app. split; [by apply all_at_alloc|].
      eapply all_at_singleton; [apply list_lookup_middle; done|].
      split; [done|]. by rewrite Hpr.
    + by apply all_at_alloc.
  - intros p. rewrite scheduleTask_queue. case_decide as Hp; [|done].
    apply NoDup_app. split_and!; [done| |apply NoDup_singleton].
    intros x Hx ->%list_elem_of_singleton.
    destruct (Hq p _ Hx) as (? & Hlk%lookup_lt_Some & _). lia.
  - apply all_at_alloc. intros x Hx. apply Hh.
    unfold held in *. cbn [sched loops] in *. by rewrite Hr, Hc, Hf, Ht in Hx.
Qed.

Lemma suffix_insert (ls : list Pc) (i : nat) c :
  (∀ x, x ∈ ls → remaining x `suffix_of` priorityOrder) →
  remaining c `suffix_of` priorityOrder →
  ∀ x, x ∈ <[i := c]> ls → remaining x `suffix_of` priorityOrder.
Proof. intros H Hc x [->|Hx]%elem_of_insert_inv; [done|by apply H]. Qed.

Lemma executing_insert s s' ls i c x :
  executing {| sched := s'; loops := <[i := c]> ls |} x →
  current c = Some x ∨ executing {| sched := s; loops := ls |} x.
Proof.
  intros (c' & [->|Hin]%elem_of_insert_inv & Hc); [by left|].
  right. by exists c'.
Qed.

Lemma executing_lookup s ls i c l :
  ls !! i = Some c → current c = Some l →
  executing {| sched := s; loops := ls |} l.
Proof. intros Hi Hc. exists c. split; [by eapply list_elem_of_lookup_2|done]. Qed.

Lemma executeTask_assign_effect l agent s t :
  heap s !! l = Some t →
  let s' := executeTask_assign l agent s in
  ∃ t', heap s' = <[l := t']> (heap s) ∧
    status t' = status t ∧ id t' = id t ∧ priority t' = priority t ∧
    attempts t' = attempts t ∧ maxAttempts t' = maxAttempts t ∧
    queues s' = queues s ∧ runningTasks s' = runningTasks s ∧
    completedTasks s' = completedTasks s ∧ failedTasks s' = failedTasks s ∧
    timers s' = timers s ∧ schedulerConfig s' = schedulerConfig s.
Proof.
  intros Hl. unfold executeTask_assign, update. rewrite Hl. simpl.
  eexists. split_and!; reflexivity.
Qed.

Lemma executeTask_assign_fields l agent s t :
  heap s !! l = Some t →
  ∃ t', heap (executeTask_assign l agent s) = <[l := t']> (heap s) ∧
    status t' = status t ∧ startTime t' = startTime t ∧
    endTime t' = endTime t ∧ result t' = result t ∧
    assignedAgent t' = Some (agent_id agent).
Proof.
  intros Hl. unfold executeTask_assign, update. rewrite Hl.
  eexists. split_and!; reflexivity.
Qed.

Lemma inv_fail cfg s ls ls' l message now :
  Inv cfg {| sched := s; loops := ls |} →
  l ∈ held {| sched := s; loops := ls |} →
  (∀ x, executing {| sched := s; loops := ls' |} x →
        executing {| sched := s; loops := ls |} x) →
  (∀ c, c ∈ ls' → remaining c `suffix_of` priorityOrder) →
  Inv cfg {| sched := handleTaskFailure l message now s; loops := ls' |}.
Proof.
  intros HI Hin Hex Hrem.
  destruct (inv_held _ _ HI l Hin) as (t & Hl & Hst). cbn [sched] in Hl.
  destruct (handleTaskFailure_effect l message now s t Hl)
    as (t' & Hh & Hs' & Hid & _ & _ & _ & _ & Hq & Hr & Hc & Hg & _ & Hcase).
  eapply (inv_touch cfg s ls _ _ l t t');
    [exact HI|exact Hl|done|unfold started; congruence|
                     exact Hh|exact Hq|exact Hg| |
                     |exact Hrem].
  - rewrite Hr. apply length_map_delete.
  - assert (∀ x, x ∈ (timers (handleTaskFailure l message now s)).*2 →
                 x = l ∨ x ∈ (timers s).*2) as Htm.
    { intros x. destruct Hcase as [(_ & -> & _)|(_ & -> & _)]; [|by right].
      rewrite fmap_app, elem_of_app. cbn.
      intros [?| ->%list_elem_of_singleton]; by auto. }
    assert (∀ x, x ∈ failedTasks (handleTaskFailure l message now s) →
                 x = l ∨ x ∈ failedTasks s) as Hfl.
    { intros x. destruct Hcase as [(_ & _ & ->)|(_ & _ & ->)]; [by right|].
      rewrite elem_of_app. intros [?| ->%list_elem_of_singleton]; by auto. }
    intros x. rewrite !elem_of_held. cbn [sched loops]. rewrite Hr, Hc.
    intros [He|[Hx%elem_of_map_delete|[Hx%Htm|[Hx|Hx%Hfl]]]].
    + right. left. by apply Hex.
    + by auto.
    + destruct Hx; by auto.
    + by auto 6.
    + destruct Hx; by auto 6.
Qed.

Lemma inv_loops cfg s ls ls' :
  Inv cfg {| sched := s; loops := ls |} →
  (∀ x, executing {| sched := s; loops := ls' |} x →
        executing {| sched := s; loops := ls |} x) →
  (∀ c, c ∈ ls' → remaining c `suffix_of` priorityOrder) →
  Inv cfg {| sched := s; loops := ls' |}.
Proof.
  intros [Hcfg Hq Hnd Hh Hrem Hb] Hex Hrem'. constructor; try done.
  intros x Hx. apply Hh. revert Hx. rewrite !elem_of_held. cbn [sched loops].
  intros [He|Hx]; [left; by apply Hex|by right].
Qed.

Lemma executing_idle s s' ls i c c' x :
  ls !! i = Some c → current c' = None ∨ current c' = current c →
  executing {| sched := s'; loops := <[i := c']> ls |} x →
  executing {| sched := s; loops := ls |} x.
Proof.
  intros Hi Hc [Hx|Hx]%(executing_insert s); [|done].
  destruct Hc as [Hc|Hc]; [congruence|].
  eapply executing_lookup; [done|congruence].
Qed.

Lemma idle_current c : idle c → current c = None.
Proof. by destruct c. Qed.

Lemma idle_remaining c : idle c → remaining c = [].
Proof. by destruct c. Qed.

Lemma inv_move cfg m m' : Inv cfg m → move m m' → Inv cfg m'.
Proof.
  intros HI Hmove.
  destruct Hmove as [s ls task now fresh|s ls k due l now fresh Hk|s ls b|s ls|
    s ls i c rest priority rest' task agents now Hi Hc Hscan|
    s ls i c task message now Hi Hc|s ls i rest task agent drawn Hi|
    s ls i rest task agent drawn resolved now Hi|s ls k key l now Hk|s ls i c c' Hi Hc Hc'].
  - by apply inv_scheduleTask.
  - assert (l ∈ (timers s).*2) as Hin.
    { apply list_elem_of_fmap. exists (due, l). split; [done|].
      by eapply list_elem_of_lookup_2. }
    destruct (inv_held _ _ HI l) as (t & Hl & Hst);
      [apply elem_of_held; cbn [sched]; by auto|]. cbn [sched] in Hl.
    unfold retry, update. cbn [heap set_timers]. rewrite Hl. cbn [heap set_heap].
    rewrite list_lookup_insert_eq by (by eapply lookup_lt_Some).
    apply inv_scheduleTask.
    eapply (inv_touch cfg s ls _ _ l t (set_status retrying t));
      [exact HI|exact Hl|done|done|reflexivity|reflexivity|reflexivity|done|
       |apply (inv_remaining _ _ HI)].
    intros x. rewrite !elem_of_held. cbn [sched loops].
      cbn [runningTasks timers completedTasks failedTasks set_heap set_timers].
      intros [?|[?|[Hx|?]]]; try by auto 6.
      right. right. right. left.
      apply list_elem_of_fmap in Hx as (e & -> & He).
      apply list_elem_of_fmap. exists e. split; [done|].
      by eapply list_elem_of_delete_inv.
  - by destruct HI.
  - apply (inv_loops cfg s ls); [done| |].
    + intros x (c & [Hc| ->%list_elem_of_singleton]%elem_of_app & Hcur); [|done].
      by exists c.
    + intros c [Hc| ->%list_elem_of_singleton]%elem_of_app;
        [by apply (inv_remaining _ _ HI)|apply suffix_nil].
  - destruct (scan_Some _ _ _ _ _ Hscan) as (Hcan & [queue Hq] & passed & Hrest & _).
    pose proof (inv_queue _ _ HI priority) as Hqueue. cbn [sched] in Hqueue.
    destruct (Hqueue task) as (t & Hl & Hst & Hkey); [rewrite Hq; by left|].
    pose proof (inv_nodup _ _ HI priority) as Hnd. cbn [sched] in Hnd.
    rewrite Hq in Hnd. apply NoDup_cons in Hnd as [Hnotin Hnd].
    assert (heap (shift priority s) !! task = Some t) as Hl' by done.
    destruct (executeTask_enter_effect agents task now _ t Hl')
      as (t' & Hh & Hs' & Hid & Hpr & _ & _ & _ & _ & Hqs & Hr & Hc' & Hf & Htm & Hg & _).
    set (r := executeTask_enter agents task now (shift priority s)) in *.
    assert (∀ p, queue_of p r.1 =
                 if decide (priority = p) then queue else queue_of p s) as Hqueues.
    { intros p. rewrite (queue_of_queues _ _ _ Hqs), queue_of_shift.
      case_decide; [subst p; by rewrite Hq|done]. }
    assert ((priority :: rest') `suffix_of` priorityOrder) as Hsuf'.
    { assert ((priority :: rest') `suffix_of` rest) as Hs1
        by (rewrite Hrest; by apply suffix_app_r).
      destruct Hc as [->|[-> ->]]; [|done].
      etransitivity; [exact Hs1|].
      apply (inv_remaining _ _ HI (Polling rest)). by eapply list_elem_of_lookup_2. }
    destruct HI as [Hcfg Hqu Hnodup Hh' Hrem Hb]. cbn [sched loops] in *.
    constructor; cbn [sched loops].
    + by rewrite Hg.
    + intros p. rewrite Hqueues, Hh. case_decide as Hp.
      * subst p. apply all_at_insert_notin; [|done].
        eapply all_at_sublist; [|apply Hqu].
        rewrite Hq. intros x Hx. by right.
      * apply all_at_insert_notin; [apply Hqu|].
        intros Hin. destruct (Hqu p task Hin) as (t1 & Hl1 & _ & Hkey1). congruence.
    + intros p. rewrite Hqueues. case_decide; [done|apply Hnodup].
    + intros x. rewrite elem_of_held. cbn [sched loops]. rewrite Hh, Hr, Hc', Hf, Htm.
      assert (∃ t1, <[task:=t']> (heap s) !! task = Some t1 ∧ started t1) as Htask.
      { exists t'. split; [|unfold started; congruence].
        apply list_lookup_insert_eq. by eapply lookup_lt_Some. }
      assert (x ∈ held {| sched := s; loops := ls |} →
              ∃ t1, <[task:=t']> (heap s) !! x = Some t1 ∧ started t1) as Hold.
      { intros Hx. eapply (all_at_mutate _ _ _ _ t t' Hh' Hl); [|done].
        intros _. unfold started. congruence. }
      intros [He|[Hx|Hx]].
      * apply (executing_insert s) in He as [[= <-]|He]; [done|].
        apply Hold, elem_of_held. by left.
      * apply elem_of_map_set in Hx as [->|Hx]; [done|].
        apply Hold, elem_of_held. cbn [sched]. by auto.
      * apply Hold, elem_of_held. cbn [sched]. by auto.
    + by apply suffix_insert.
    + rewrite Hr. pose proof (length_map_set (id t) task (runningTasks s)).
      unfold canExecuteMoreTasks in Hcan. apply Z.ltb_lt in Hcan.
      cbn [runningTasks shift set_queues] in *. rewrite Hcfg in Hcan. lia.
  - apply (inv_fail cfg s ls); [done| | |].
    + apply elem_of_held. left. by eapply executing_lookup.
    + intros x. apply (executing_idle _ _ _ _ c); [done|by left].
    + apply suffix_insert; [apply (inv_remaining _ _ HI)|].
      apply (inv_remaining _ _ HI c). by eapply list_elem_of_lookup_2.
  - destruct (inv_held _ _ HI task) as (t & Hl & Hst).
    { apply elem_of_held. left. by eapply executing_lookup. }
    cbn [sched] in Hl.
    destruct (executeTask_assign_effect task agent s t Hl)
      as (t' & Hh & Hs' & _ & _ & _ & _ & Hq & Hr & Hc & Hf & Htm & Hg).
    eapply (inv_touch cfg s ls _ _ task t t');
      [exact HI|exact Hl|done|unfold started; congruence|exact Hh|exact Hq|
       exact Hg|by rewrite Hr| |].
    + intros x. rewrite !elem_of_held. cbn [sched loops]. rewrite Hr, Hc, Hf, Htm.
      intros [He|?]; [|by auto].
      right. left. revert He. apply (executing_idle _ _ _ _ (Selecting rest task (Some agent)));
        [done|by right].
    + apply suffix_insert; [apply (inv_remaining _ _ HI)|].
      apply (inv_remaining _ _ HI (Selecting rest task (Some agent))).
      by eapply list_elem_of_lookup_2.
  - destruct (inv_held _ _ HI task) as (t & Hl & Hst).
    { apply elem_of_held. left. by eapply executing_lookup. }
    cbn [sched] in Hl.
    destruct (executeTask_completed_effect task drawn resolved now s t Hl)
      as (t' & Hh & Hs' & _ & _ & _ & Hq & Hr & Hc & Hf & Htm & Hg & _).
    eapply (inv_touch cfg s ls _ _ task t t');
      [exact HI|exact Hl|done|unfold started; congruence|exact Hh|exact Hq|
       exact Hg|rewrite Hr; apply length_map_delete| |].
    + intros x. rewrite !elem_of_held. cbn [sched loops]. rewrite Hr, Hc, Hf, Htm.
      rewrite elem_of_app, list_elem_of_singleton.
      intros [He|[Hx%elem_of_map_delete|[?|[[?|?]|?]]]]; try by auto 6.
      right. left. revert He.
      apply (executing_idle _ _ _ _ (Executing rest task agent drawn)); [done|by left].
    + apply suffix_insert; [apply (inv_remaining _ _ HI)|].
      apply (inv_remaining _ _ HI (Executing rest task agent drawn)).
      by eapply list_elem_of_lookup_2.
  - apply (inv_fail cfg s ls); [done| |done|apply (inv_remaining _ _ HI)].
    apply elem_of_held. right. left. cbn [sched].
    apply list_elem_of_fmap. exists (key, l). split; [done|].
    by eapply list_elem_of_lookup_2.
  - apply (inv_loops cfg s ls); [done| |].
    + intros x. apply (executing_idle _ _ _ _ c); [done|]. left. by apply idle_current.
    + apply suffix_insert; [apply (inv_remaining _ _ HI)|].
      rewrite idle_remaining by done. apply suffix_nil.
Qed.

Lemma inv_moves cfg m m' : Inv cfg m → rtc move m m' → Inv cfg m'.
Proof. intros HI Hm. induction Hm; [done|]. eauto using inv_move. Qed.

Lemma inv_step cfg m m' : Inv cfg m → step m m' → Inv cfg m'.
Proof. intros HI [e He]. eapply inv_moves; [done|by eapply fire_moves]. Qed.

Lemma inv_initial cfg : 0 ≤ maxConcurrentTasks cfg → Inv cfg (initial cfg).
Proof.
  intros Hmax. constructor; simpl; try done.
  - intros p x. unfold queue_of. simpl. rewrite lookup_empty. by intros ?%elem_of_nil.
  - intros p. unfold queue_of. simpl. rewrite lookup_empty. apply NoDup_nil_2.
  - by intros x ?%elem_of_nil.
  - by intros c ?%elem_of_nil.
Qed.

Lemma reachable_inv cfg m :
  0 ≤ maxConcurrentTasks cfg → reachable cfg m → Inv cfg m.
Proof.
  intros Hmax Hreach. induction Hreach; [by apply inv_initial|].
  by eapply inv_step.
Qed.

Lemma reachable_run cfg events m m' :
  reachable cfg m → run events m = Some m' → reachable cfg m'.
Proof.
  revert m. induction events as [|e events IH]; intros m Hreach; cbn [run].
  - by intros [= <-].
  - destruct (fire e m) as [m1|] eqn:He; [|done].
    apply IH. eapply reachable_step; [done|by exists e].
Qed.

Lemma steps_run events m m' : run events m = Some m' → rtc step m m'.
Proof.
  revert m. induction events as [|e events IH]; intros m; cbn [run].
  - by intros [= <-].
  - destruct (fire e m) as [m1|] eqn:He; [|done].
    intros Hrun. eapply rtc_l; [by exists e|by apply IH].
Qed.

(** *** The running map *)

Lemma handleTaskFailure_running l message now s :
  (length (runningTasks (handleTaskFailure l message now s))
   ≤ length (runningTasks s))%nat.
Proof.
  unfold handleTaskFailure. destruct (heap s !! l) as [t|]; [|done].
  cbn zeta. destruct (canRetry _); cbn; apply length_map_delete.
Qed.

Lemma executeTask_completed_running l drawn resolved now s :
  (length (runningTasks (executeTask_completed l drawn resolved now s))
   ≤ length (runningTasks s))%nat.
Proof.
  unfold executeTask_completed. destruct (heap s !! l) as [t|]; [|done].
  cbn. apply length_map_delete.
Qed.

Lemma update_runningTasks l f s : runningTasks (update l f s) = runningTasks s.
Proof. unfold update. by destruct (heap s !! l). Qed.

Lemma retry_runningTasks l now fresh s :
  runningTasks (retry l now fresh s) = runningTasks s.
Proof.
  unfold retry. destruct (heap (update l (set_status retrying) s) !! l) as [t|].
  - destruct (scheduleTask_other t now fresh (update l (set_status retrying) s))
      as (-> & _). apply update_runningTasks.
  - apply update_runningTasks.
Qed.

Lemma proceed_running agents now rest s :
  let s' := (proceed agents now rest s).1 in
  (length (runningTasks s') ≤ length (runningTasks s))%nat ∨
  (canExecuteMoreTasks s = true ∧
   (length (runningTasks s') ≤ S (length (runningTasks s)))%nat).
Proof.
  unfold proceed. cbn zeta.
  destruct (scan rest s) as [[[priority rest'] task]|] eqn:Hscan; [|by left].
  destruct (scan_Some _ _ _ _ _ Hscan) as (Hcan & _). right. split; [done|].
  cbn [fst]. unfold executeTask_enter.
  destruct (heap (update _ _ _) !! task) as [t|]; cbn [fst].
  - cbn [runningTasks set_runningTasks]. rewrite update_runningTasks.
    apply length_map_set.
  - rewrite update_runningTasks. cbn. lia.
Qed.

Lemma fire_running e m m' :
  fire e m = Some m' →
  (length (runningTasks (sched m')) ≤ length (runningTasks (sched m)))%nat ∨
  (canExecuteMoreTasks (sched m) = true ∧
   (length (runningTasks (sched m')) ≤ S (length (runningTasks (sched m))))%nat).
Proof.
  destruct m as [s ls]. destruct e as [task now fresh|k now fresh|agents now|
    |i agents now resolved drawn succeeds|i k now']; cbn [fire sched loops].
  - intros [= <-]. left. cbn [sched].
    pose proof (scheduleTask_other task now fresh s) as Ho. cbn zeta in Ho.
    destruct Ho as (Ho & _).
    change (length (runningTasks (scheduleTask task now fresh s).1)
            ≤ length (runningTasks s))%nat. by rewrite Ho.
  - destruct (timers s !! k) as [[due l]|]; [|done]. intros [= <-]. left.
    change (length (runningTasks
                      (retry l now fresh (set_timers (delete k (timers s)) s)))
            ≤ length (runningTasks s))%nat.
    by rewrite retry_runningTasks.
  - destruct (isRunning s); intros [= <-]; [by left|]. cbn [sched].
    apply (proceed_running agents now priorityOrder (set_isRunning true s)).
  - intros [= <-]. by left.
  - destruct (ls !! i) as [c|]; [|done].
    destruct c as [rest|rest task [agent|]|rest task agent executionTime| | | |];
      cbn [resume]; intros [= <-]; cbn [sched fst].
    + apply proceed_running.
    + left. unfold executeTask_assign. by rewrite update_runningTasks.
    + left. apply handleTaskFailure_running.
    + left. destruct succeeds;
        [apply executeTask_completed_running|apply handleTaskFailure_running].
    + by left.
    + by left.
    + destruct (isRunning s); [apply proceed_running|by left].
  - destruct (ls !! i) as [[| | | |now| |]|]; try done.
    destruct (runningTasks s !! k) as [[key l]|]; [|done].
    destruct (heap s !! l ≫= startTime) as [started|]; [|done].
    destruct (now - started >? timeout); [|done].
    intros [= <-]. left. apply handleTaskFailure_running.
Qed.

Lemma restarts_run cfg n :
  is_Some (run (Scenario.restarts n) (initial cfg)) →
  reachable cfg (Scenario.afterRestarts cfg n).
Proof.
  intros [m Hm]. unfold Scenario.afterRestarts, Scenario.after. rewrite Hm.
  eapply reachable_run; [apply reachable_initial|exact Hm].
Qed.

(** C6. The running map never holds more entries than [maxConcurrentTasks]:
    it grows only by a task that is shifted while [canExecuteMoreTasks]
    holds, and then by one entry. The number of task objects with status
    [running] is not bounded by it. The map is keyed by the id of the task,
    and [start()] after [stop()] begins a second loop beside the one that
    is suspended. With a bound of two, three tasks submitted under one id
    and [start(); stop(); start(); stop(); start()], three loops are each
    executing a task, the three objects have status [running], and the
    running map has one entry; with the bound of 50 of the constructor, 51
    such tasks and starts leave 51 objects with status [running]. *)
Theorem running_records_exceed_bound :
  (∀ cfg m,
     0 ≤ maxConcurrentTasks cfg → reachable cfg m →
     Z.of_nat (length (runningTasks (sched m)))
     ≤ maxConcurrentTasks (schedulerConfig (sched m)) ∧
     ∀ e m', fire e m = Some m' →
       (length (runningTasks (sched m)) < length (runningTasks (sched m')))%nat →
       canExecuteMoreTasks (sched m) = true ∧
       length (runningTasks (sched m')) = S (length (runningTasks (sched m)))) ∧
  (let m := Scenario.afterRestarts Scenario.boundOfTwo 3 in
   reachable Scenario.boundOfTwo m ∧
   maxConcurrentTasks (schedulerConfig (sched m)) = 2 ∧
   runningCount (sched m) = 3%nat ∧
   omap current (loops m) = [0; 1; 2]%nat ∧
   (∀ l t, heap (sched m) !! l = Some t → status t = running ∧ id t = Some "x") ∧
   runningTasks (sched m) = [(Some "x", 2%nat)]) ∧
  (let m := Scenario.afterRestarts (schedulerConfig constructor) 51 in
   reachable (schedulerConfig constructor) m ∧
   maxConcurrentTasks (schedulerConfig (sched m)) = 50 ∧
   runningCount (sched m) = 51%nat ∧
   length (runningTasks (sched m)) = 1%nat).
Proof.
  split_and!.
  - intros cfg m Hmax Hreach.
    pose proof (reachable_inv cfg m Hmax Hreach) as HI. split.
    + rewrite (inv_config _ _ HI). apply (inv_bound _ _ HI).
    + intros e m' He Hlt. destruct (fire_running e m m' He) as [?|[? ?]]; [lia|].
      split; [done|lia].
  - cbn zeta. split_and!; try (vm_compute; reflexivity).
    + apply restarts_run. vm_compute. by eexists.
    + intros l t Hl.
      assert (l < 3)%nat as Hlt by (apply lookup_lt_Some in Hl; exact Hl).
      destruct l as [|[|[|l]]]; [| | |lia];
        vm_compute in Hl; injection Hl as <-; by split.
  - cbn zeta. split_and!; try (vm_compute; reflexivity).
    apply restarts_run. vm_compute. by eexists.
Qed.

(** *** What a move does to the queues *)

Lemma idle_dec c : idle c ∨ ¬ idle c.
Proof. destruct c; simpl; tauto. Qed.

Lemma loops_same (ls : list Pc) c :
  c ∈ ls → idle c ∨ ∃ c0, c0 ∈ ls ∧ ¬ idle c0 ∧ remaining c = remaining c0.
Proof. intros Hc. destruct (idle_dec c); [by left|right; by exists c]. Qed.

Lemma loops_insert (ls : list Pc) i c c' :
  ls !! i = Some c → idle c' ∨ (¬ idle c ∧ remaining c' = remaining c) →
  ∀ x, x ∈ <[i := c']> ls →
       idle x ∨ ∃ c0, c0 ∈ ls ∧ ¬ idle c0 ∧ remaining x = remaining c0.
Proof.
  intros Hi Hc x [->|Hx]%elem_of_insert_inv.
  - destruct Hc as [?|[? ?]]; [by left|]. right. exists c.
    split_and!; [by eapply list_elem_of_lookup_2|done..].
  - by apply loops_same.
Qed.

Lemma current_busy c l : current c = Some l → ¬ idle c.
Proof. destruct c; simpl; (done || tauto). Qed.

Lemma quiet_touch s ls s' ls' l t0 t' :
  heap s !! l = Some t0 → started t0 → started t' →
  heap s' = <[l := t']> (heap s) → queues s' = queues s →
  (∀ x, x ∈ ls' →
        idle x ∨ ∃ c0, c0 ∈ ls ∧ ¬ idle c0 ∧ remaining x = remaining c0) →
  Quiet {| sched := s; loops := ls |} {| sched := s'; loops := ls' |}.
Proof.
  intros Hl Hs0 Hs' Hheap Hq Hloops. constructor; cbn [sched loops].
  - by rewrite Hheap, length_insert.
  - intros x t Hx Hst. rewrite Hheap. destruct (decide (l = x)) as [->|Hne].
    + exists t'. split; [|done].
      apply list_lookup_insert_eq. by eapply lookup_lt_Some.
    + exists t. by rewrite list_lookup_insert_ne.
  - intros x t Hx Hst. rewrite Hheap, list_lookup_insert_ne; [done|].
    intros ->. apply Hs0. congruence.
  - intros p. exists []. rewrite (queue_of_queues s s') by done.
    by rewrite app_nil_r.
  - done.
Qed.

Lemma quiet_sched s ls s' ls' :
  heap s' = heap s → queues s' = queues s →
  (∀ x, x ∈ ls' →
        idle x ∨ ∃ c0, c0 ∈ ls ∧ ¬ idle c0 ∧ remaining x = remaining c0) →
  Quiet {| sched := s; loops := ls |} {| sched := s'; loops := ls' |}.
Proof.
  intros Hheap Hq Hloops. constructor; cbn [sched loops]; rewrite ?Hheap.
  - done.
  - intros x t Hx Hst. by exists t.
  - done.
  - intros p. exists []. rewrite (queue_of_queues s s') by done.
    by rewrite app_nil_r.
  - done.
Qed.

Lemma quiet_scheduleTask s ls task now fresh :
  Quiet {| sched := s; loops := ls |}
        {| sched := (scheduleTask task now fresh s).1; loops := ls |}.
Proof.
  destruct (scheduleTask_heap task now fresh s) as (t & Hheap & _).
  constructor; cbn [sched loops]; rewrite ?Hheap.
  - rewrite length_app. lia.
  - intros x t0 Hx Hst. exists t0. split; [|done].
    rewrite lookup_app_l; [done|]. by eapply lookup_lt_Some.
  - intros x t0 Hx Hst. rewrite lookup_app_l; [done|]. by eapply lookup_lt_Some.
  - intros p. rewrite scheduleTask_queue. case_decide.
    + exists [length (heap s)]. split; [done|]. by apply Forall_singleton.
    + exists []. by rewrite app_nil_r.
  - apply loops_same.
Qed.

Lemma quiet_trans m1 m2 m3 : Quiet m1 m2 → Quiet m2 m3 → Quiet m1 m3.
Proof.
  intros [Hl1 Hs1 Hh1 Hq1 Hc1] [Hl2 Hs2 Hh2 Hq2 Hc2]. constructor.
  - lia.
  - intros x t Hx Hst. destruct (Hs1 x t Hx Hst) as (t1 & Hx1 & Hst1).
    by apply (Hs2 x t1).
  - intros x t Hx Hst. apply Hh2; [by apply Hh1|done].
  - intros p. destruct (Hq1 p) as (n1 & E1 & Hn1).
    destruct (Hq2 p) as (n2 & E2 & Hn2). exists (n1 ++ n2).
    split; [by rewrite E2, E1, app_assoc|]. apply Forall_app. split; [done|].
    eapply Forall_impl; [exact Hn2|]. simpl. lia.
  - intros c3 Hc3. destruct (Hc2 c3 Hc3) as [?|(c2 & Hin2 & Hbusy & Hrem)]; [by left|].
    destruct (Hc1 c2 Hin2) as [?|(c1 & Hin1 & Hbusy1 & Hrem1)]; [done|].
    right. exists c1. split_and!; [done..|congruence].
Qed.

Lemma elem_of_map_set_intro k v m : (k, v) ∈ map_set k v m.
Proof.
  induction m as [|[k' v'] m IH]; simpl; [by left|].
  case_decide; [by left|by right].
Qed.

Lemma move_frame cfg m m' :
  Inv cfg m → move m m' →
  Quiet m m' ∨ ∃ i priority task, Dispatch m m' i priority task.
Proof.
  intros HI Hmove.
  destruct Hmove as [s ls task now fresh|s ls k due l now fresh Hk|s ls b|s ls|
    s ls i c rest priority rest' task agents now Hi Hc Hscan|
    s ls i c task message now Hi Hc|s ls i rest task agent drawn Hi|
    s ls i rest task agent drawn resolved now Hi|s ls k key l now Hk|s ls i c c' Hi Hc Hc'].
  - left. apply quiet_scheduleTask.
  - left.
    assert (l ∈ (timers s).*2) as Hin.
    { apply list_elem_of_fmap. exists (due, l). split; [done|].
      by eapply list_elem_of_lookup_2. }
    destruct (inv_held _ _ HI l) as (t & Hl & Hst);
      [apply elem_of_held; cbn [sched]; by auto|]. cbn [sched] in Hl.
    unfold retry, update. cbn [heap set_timers]. rewrite Hl. cbn [heap set_heap].
    rewrite list_lookup_insert_eq by (by eapply lookup_lt_Some).
    eapply quiet_trans; [|apply quiet_scheduleTask].
    apply (quiet_touch s ls _ ls l t (set_status retrying t));
      [done|done|done|reflexivity|reflexivity|apply loops_same].
  - left. apply quiet_sched; [done..|apply loops_same].
  - left. apply quiet_sched; [done..|].
    intros x [Hx| ->%list_elem_of_singleton]%elem_of_app;
      [by apply loops_same|by left].
  - right. exists i, priority, task.
    destruct (scan_Some _ _ _ _ _ Hscan) as (Hcan & [queue Hq] & passed & Hrest & Hpassed).
    destruct (inv_queue _ _ HI priority task) as (t & Hl & Hst & Hkey);
      [cbn [sched]; rewrite Hq; by left|]. cbn [sched] in Hl.
    assert (heap (shift priority s) !! task = Some t) as Hl' by done.
    destruct (executeTask_enter_effect agents task now _ t Hl')
      as (t' & Hh & Hs' & Hid & _ & _ & _ & _ & Hstart & Hqs & Hr & _).
    set (r := executeTask_enter agents task now (shift priority s)) in *.
    assert (rest `suffix_of` priorityOrder) as Hsuf.
    { destruct Hc as [->|[-> ->]]; [|done].
      apply (inv_remaining _ _ HI (Polling rest)). by eapply list_elem_of_lookup_2. }
    constructor; cbn [sched loops].
    + done.
    + eapply elem_of_suffix; [|exact Hsuf]. rewrite Hrest.
      apply elem_of_app. right. by left.
    + exists queue. split; [done|]. intros p.
      rewrite (queue_of_queues _ _ _ Hqs), queue_of_shift.
      case_decide; [subst p; by rewrite Hq|done].
    + exists t, t'. split_and!; [done..| |].
      * by rewrite Hstart.
      * rewrite Hr, <- Hid. apply elem_of_map_set_intro.
    + exists c, rest, passed, rest', r.2. by split_and!.
  - left. destruct (inv_held _ _ HI task) as (t & Hl & Hst).
    { apply elem_of_held. left. by eapply executing_lookup. }
    cbn [sched] in Hl.
    destruct (handleTaskFailure_effect task message now s t Hl)
      as (t' & Hh & Hs' & _ & _ & _ & _ & _ & Hq & _).
    apply (quiet_touch s ls _ _ task t t');
      [done|done|unfold started; congruence|done|done|].
    apply (loops_insert ls i c); [done|]. right. split; [|done].
    by eapply current_busy.
  - left. destruct (inv_held _ _ HI task) as (t & Hl & Hst).
    { apply elem_of_held. left. by eapply executing_lookup. }
    cbn [sched] in Hl.
    destruct (executeTask_assign_effect task agent s t Hl)
      as (t' & Hh & Hs' & _ & _ & _ & _ & Hq & _).
    apply (quiet_touch s ls _ _ task t t');
      [done|done|unfold started; congruence|done|done|].
    apply (loops_insert ls i (Selecting rest task (Some agent))); [done|].
    right. by split; [intros []|].
  - left. destruct (inv_held _ _ HI task) as (t & Hl & Hst).
    { apply elem_of_held. left. by eapply executing_lookup. }
    cbn [sched] in Hl.
    destruct (executeTask_completed_effect task drawn resolved now s t Hl)
      as (t' & Hh & Hs' & _ & _ & _ & Hq & _).
    apply (quiet_touch s ls _ _ task t t');
      [done|done|unfold started; congruence|done|done|].
    apply (loops_insert ls i (Executing rest task agent drawn)); [done|].
    right. by split; [intros []|].
  - left. destruct (inv_held _ _ HI l) as (t & Hl & Hst).
    { apply elem_of_held. right. left. cbn [sched].
      apply list_elem_of_fmap. exists (key, l). split; [done|].
      by eapply list_elem_of_lookup_2. }
    cbn [sched] in Hl.
    destruct (handleTaskFailure_effect l timeoutMessage now s t Hl)
      as (t' & Hh & Hs' & _ & _ & _ & _ & _ & Hq & _).
    apply (quiet_touch s ls _ _ l t t');
      [done|done|unfold started; congruence|done|done|apply loops_same].
  - left. apply quiet_sched; [done..|].
    apply (loops_insert ls i c); [done|by left].
Qed.

Lemma steps_moves m m' : rtc step m m' → rtc move m m'.
Proof.
  intros H. induction H as [|m1 m2 m3 [e He] _ IH]; [done|].
  etransitivity; [by eapply fire_moves|done].
Qed.

(** *** Priorities outside the four levels *)

Lemma move_untouched cfg m m' p l t :
  Inv cfg m → move m m' → p ∉ priorityOrder →
  l ∈ queue_of p (sched m) → heap (sched m) !! l = Some t →
  l ∈ queue_of p (sched m') ∧ heap (sched m') !! l = Some t.
Proof.
  intros HI Hmove Hp Hin Hl.
  destruct (inv_queue _ _ HI p l Hin) as (t0 & Hl0 & Hst & Hkey).
  assert (t0 = t) as -> by congruence.
  destruct (move_frame cfg m m' HI Hmove) as [HQ|(i & priority & task & HD)].
  - split; [|by apply (quiet_heap _ _ HQ)].
    destruct (quiet_queue _ _ HQ p) as (news & -> & _).
    apply elem_of_app. by left.
  - destruct (dispatch_queue _ _ _ _ _ HD) as (queue & Hq & Hqs).
    destruct (dispatch_task _ _ _ _ _ HD) as (t1 & t' & Hl1 & _ & Hh & _).
    assert (priority ≠ p) as Hne.
    { intros ->. apply Hp, (dispatch_level _ _ _ _ _ HD). }
    split.
    + rewrite Hqs. by rewrite decide_False.
    + rewrite Hh, list_lookup_insert_ne; [done|]. intros ->.
      destruct (inv_queue _ _ HI priority l) as (t2 & Hl2 & _ & Hkey2);
        [rewrite Hq; by left|].
      congruence.
Qed.

Lemma moves_untouched cfg m m' p l t :
  Inv cfg m → rtc move m m' → p ∉ priorityOrder →
  l ∈ queue_of p (sched m) → heap (sched m) !! l = Some t →
  Inv cfg m' ∧ l ∈ queue_of p (sched m') ∧ heap (sched m') !! l = Some t.
Proof.
  intros HI Hmoves Hp. induction Hmoves as [|m1 m2 m3 Hmove _ IH]; [done|].
  intros Hin Hl.
  destruct (move_untouched cfg m1 m2 p l t HI Hmove Hp Hin Hl) as [Hin2 Hl2].
  apply IH; [by eapply inv_move|done..].
Qed.

(** C5. A task submitted with a priority string outside the four levels is
    appended to the queue keyed by that string; whatever the scheduler does
    afterwards, with any number of loops under way, the task stays in that
    queue, its object is never written (so its status stays [queued] and no
    error is recorded on it), and it is never the task that a loop is
    executing nor a member of the running map, of [completedTasks] or of
    [failedTasks]. *)
Theorem unknown_priority_never_dispatched cfg m task now fresh p m' :
  0 ≤ maxConcurrentTasks cfg →
  reachable cfg m →
  priority task = Some p → p ≠ "" → p ∉ priorityOrder →
  let s0 := (scheduleTask task now fresh (sched m)).1 in
  let l := (scheduleTask task now fresh (sched m)).2 in
  rtc step {| sched := s0; loops := loops m |} m' →
  queue_of p s0 = queue_of p (sched m) ++ [l] ∧
  l ∈ queue_of p (sched m') ∧
  heap (sched m') !! l = heap s0 !! l ∧
  (∃ t, heap (sched m') !! l = Some t ∧ status t = queued ∧ attempts t = 0 ∧
        error t = error task) ∧
  ¬ executing m' l ∧
  (l ∉ (runningTasks (sched m')).*2) ∧
  (l ∉ (timers (sched m')).*2) ∧
  (l ∉ completedTasks (sched m')) ∧
  (l ∉ failedTasks (sched m')).
Proof.
  intros Hcfg Hreach Hprio Hne Hp s0 l Hsteps.
  assert (Inv cfg {| sched := s0; loops := loops m |}) as HI0.
  { apply (reachable_inv cfg _ Hcfg).
    eapply reachable_step; [exact Hreach|]. by exists (Submit task now fresh). }
  assert (str_or (priority task) "medium" = p) as Hkey.
  { rewrite Hprio. simpl. by destruct (String.eqb_spec p ""). }
  destruct (scheduleTask_heap task now fresh (sched m))
    as (t & Hh & Hl & Hst & Hat & _ & Her & _).
  fold s0 in Hh. fold l in Hl.
  assert (queue_of p s0 = queue_of p (sched m) ++ [l]) as Hq0.
  { unfold s0. rewrite scheduleTask_queue, decide_True by done. by rewrite Hl. }
  assert (heap s0 !! l = Some t) as Hl0.
  { rewrite Hh, Hl. by apply list_lookup_middle. }
  destruct (moves_untouched cfg _ m' p l t HI0 (steps_moves _ _ Hsteps) Hp)
    as (HI' & Hin' & Hl');
    [cbn [sched]; rewrite Hq0; apply elem_of_app; right; by left|done|].
  split; [done|]. split; [done|]. split; [congruence|].
  split; [by exists t|].
  assert (l ∉ held m') as Hheld.
  { intros Hin. destruct (inv_held _ _ HI' l Hin) as (t1 & Hl1 & Hs1).
      apply Hs1. congruence. }
  rewrite elem_of_held in Hheld. tauto.
Qed.

Lemma unknown_priority_never_dispatched_witness :
  Scenario.urgentSubmitted.2 ∈ queue_of "urgent" (sched Scenario.urgentAfterPass) ∧
  loops Scenario.urgentAfterPass = [Sleeping].
Proof.
  split; [|reflexivity].
  refine (proj1 (proj2 (unknown_priority_never_dispatched
            (schedulerConfig constructor) (initial (schedulerConfig constructor))
            Scenario.urgentTask 0 "task_0_c" "urgent" Scenario.urgentAfterPass
            _ _ _ _ _ _))).
  - vm_compute. discriminate.
  - apply reachable_initial.
  - reflexivity.
  - discriminate.
  - intros H. repeat (apply elem_of_cons in H as [H|H]; [discriminate H|]).
    by apply elem_of_nil in H.
  - apply (steps_run Scenario.urgentThenStart). reflexivity.
Defined.

(** *** The order of dispatch *)

Lemma dispatch_sub m m' i priority task p x :
  Dispatch m m' i priority task →
  x ∈ queue_of p (sched m') → x ∈ queue_of p (sched m).
Proof.
  intros HD. destruct (dispatch_queue _ _ _ _ _ HD) as (queue & Hq & Hqs).
  rewrite Hqs. case_decide; [subst p|done]. rewrite Hq. by right.
Qed.

Lemma dispatch_taken cfg m m' i priority task p x :
  Inv cfg m → Dispatch m m' i priority task →
  x ∈ queue_of p (sched m) → x ∉ queue_of p (sched m') →
  p = priority ∧ x = task.
Proof.
  intros HI HD Hin Hout.
  destruct (dispatch_queue _ _ _ _ _ HD) as (queue & Hq & Hqs).
  rewrite Hqs in Hout. case_decide as Hp; [subst p|done].
  split; [done|]. rewrite Hq in Hin.
  by apply elem_of_cons in Hin as [->|Hin].
Qed.

Lemma higher_split rest passed priority rest' pa :
  rest `suffix_of` priorityOrder → rest = passed ++ priority :: rest' →
  higher pa priority → pa ∈ passed ∨ pa ∉ rest.
Proof.
  intros [pre Hpre] -> (i & j & Hi & Hj & Hlt).
  assert (NoDup priorityOrder) as Hnd
    by (by apply (bool_decide_unpack (NoDup priorityOrder))).
  assert (j = (length pre + length passed)%nat) as ->.
  { eapply NoDup_lookup; [exact Hnd|exact Hj|]. rewrite Hpre.
    rewrite lookup_app_r by lia.
    replace (length pre + length passed - length pre)%nat with (length passed) by lia.
    by apply list_lookup_middle. }
  rewrite Hpre in Hi, Hnd.
  rewrite app_assoc in Hi. rewrite lookup_app_l in Hi by (rewrite length_app; lia).
  apply list_elem_of_lookup_2 in Hi. apply elem_of_app in Hi as [Hin|Hin]; [|by left].
  right. apply NoDup_app in Hnd as (_ & Hnd & _). by apply Hnd.
Qed.

Lemma ord_initial m0 : Forall idle (loops m0) → Ord m0 m0.
Proof.
  intros Hidle. constructor.
  - done.
  - intros p. exists 0%nat, []. by rewrite app_nil_r.
  - intros c Hc. left. by eapply Forall_forall in Hidle.
  - done.
  - intros p l Hl. by left.
Qed.

Lemma ord_move cfg m0 m m' : Inv cfg m → Ord m0 m → move m m' → Ord m0 m'.
Proof.
  intros HI [Hlen Hqueue Hpassed Hhigher Hstarted] Hmove.
  destruct (move_frame cfg m m' HI Hmove) as [HQ|(i & priority & task & HD)].
  - assert (∀ p, Forall (fresh_since m0) (queue_of p (sched m)) →
                 Forall (fresh_since m0) (queue_of p (sched m'))) as Hgrow.
    { intros p Hp. destruct (quiet_queue _ _ HQ p) as (news & -> & Hnews).
      apply Forall_app. split; [done|].
      eapply Forall_impl; [exact Hnews|]. unfold fresh_since. simpl. lia. }
    assert (∀ p x, x ∈ queue_of p (sched m) → x ∈ queue_of p (sched m')) as Hsub.
    { intros p x Hx. destruct (quiet_queue _ _ HQ p) as (news & -> & _).
      apply elem_of_app. by left. }
    constructor.
    + pose proof (quiet_length _ _ HQ). lia.
    + intros p. destruct (Hqueue p) as (k & news & Hk & Hnews).
      destruct (quiet_queue _ _ HQ p) as (news' & Hk' & Hnews').
      exists k, (news ++ news'). split; [by rewrite Hk', Hk, app_assoc|].
      apply Forall_app. split; [done|].
      eapply Forall_impl; [exact Hnews'|]. unfold fresh_since. simpl. lia.
    + intros c' Hc'.
      destruct (quiet_loops _ _ HQ c' Hc') as [?|(c & Hc & Hbusy & Hrem)]; [by left|].
      right. intros p Hp Hnot. apply Hgrow.
      destruct (Hpassed c Hc) as [?|H]; [done|]. apply H; [done|congruence].
    + intros pa pb b Hab Hb Hout. apply Hgrow, (Hhigher pa pb b); [done..|].
      intros Hin. by apply Hout, Hsub.
    + intros p l Hl. destruct (Hstarted p l Hl) as [Hin|(t & Ht & Hst)].
      * left. by apply Hsub.
      * right. by apply (quiet_started _ _ HQ l t).
  - destruct (dispatch_queue _ _ _ _ _ HD) as (queue & Hq & Hqs).
    destruct (dispatch_task _ _ _ _ _ HD)
      as (t & t' & Hl & Hst & Hh & Hst' & Hstart & Hrun).
    destruct (dispatch_loop _ _ _ _ _ HD)
      as (c & rest & passed & rest' & agent & Hi & Hc & Hsuf & Hrest & Hempty & Hloops).
    assert (∀ p, Forall (fresh_since m0) (queue_of p (sched m)) →
                 Forall (fresh_since m0) (queue_of p (sched m'))) as Hshrink.
    { intros p Hp. apply Forall_forall. intros x Hx.
      eapply Forall_forall; [exact Hp|]. by eapply dispatch_sub. }
    assert (∀ p, p ∈ priorityOrder → p ∉ rest →
                 Forall (fresh_since m0) (queue_of p (sched m))) as Hbefore.
    { intros p Hp Hnot.
      destruct (Hpassed c) as [Hidle|H]; [by eapply list_elem_of_lookup_2| |].
      - destruct Hc as [->|[-> ->]]; [done|]. by destruct Hnot.
      - apply H; [done|]. by destruct Hc as [->|[-> ->]]. }
    constructor.
    + rewrite Hh, length_insert. done.
    + intros p. destruct (Hqueue p) as (k & news & Hk & Hnews).
      rewrite Hqs. case_decide as Hp; [subst p|by exists k, news].
      rewrite Hq in Hk. destruct (drop k (queue_of priority (sched m0))) as [|x d] eqn:Hd.
      * exists k, queue. rewrite Hd. split; [done|].
        simpl in Hk. rewrite <- Hk in Hnews. by apply Forall_cons in Hnews as [_ ?].
      * exists (k + 1)%nat, news. split; [|done].
        rewrite <- drop_drop, Hd. simpl in Hk. simpl. rewrite drop_0. congruence.
    + intros c' Hc'. rewrite Hloops in Hc'.
      apply elem_of_insert_inv in Hc' as [->|Hc'].
      * right. intros p Hp Hnot. cbn [remaining] in Hnot. apply Hshrink.
        destruct (decide (p ∈ passed)) as [Hin|Hout].
        -- rewrite (Hempty p Hin). apply Forall_nil_2.
        -- apply Hbefore; [done|]. rewrite Hrest. intros [?|?]%elem_of_app; done.
      * destruct (Hpassed c' Hc') as [?|H]; [by left|]. right.
        intros p Hp Hnot. by apply Hshrink, H.
    + intros pa pb b Hab Hb Hout. apply Hshrink.
      destruct (decide (b ∈ queue_of pb (sched m))) as [Hin|Hnotin];
        [|by apply (Hhigher pa pb b)].
      destruct (dispatch_taken cfg m m' i priority task pb b HI HD Hin Hout)
        as [-> ->].
      destruct (higher_split rest passed priority rest' pa Hsuf Hrest Hab)
        as [Hpa|Hpa].
      * rewrite (Hempty pa Hpa). apply Forall_nil_2.
      * apply Hbefore; [|done]. destruct Hab as (ia & _ & Hia & _).
        by eapply list_elem_of_lookup_2.
    + intros p l Hin0. destruct (Hstarted p l Hin0) as [Hin|(t1 & Ht1 & Hst1)].
      * destruct (decide (l ∈ queue_of p (sched m'))) as [?|Hout]; [by left|].
        destruct (dispatch_taken cfg m m' i priority task p l HI HD Hin Hout)
          as [-> ->].
        right. exists t'. split; [|unfold started; congruence].
        rewrite Hh. apply list_lookup_insert_eq. by eapply lookup_lt_Some.
      * right. rewrite Hh. destruct (decide (task = l)) as [->|Hne].
        -- exists t'. split; [|unfold started; congruence].
           apply list_lookup_insert_eq. by eapply lookup_lt_Some.
        -- exists t1. by rewrite list_lookup_insert_ne.
Qed.

Lemma ord_moves cfg m0 m m' :
  Inv cfg m → Ord m0 m → rtc move m m' → Inv cfg m' ∧ Ord m0 m'.
Proof.
  intros HI HO Hmoves. induction Hmoves as [|m1 m2 m3 Hmove _ IH]; [done|].
  apply IH; [by eapply inv_move|by eapply ord_move].
Qed.

Lemma precedes_drop (a b : nat) l k :
  NoDup l → precedes a b l → b ∉ drop k l → a ∉ drop k l.
Proof.
  intros Hnd (l1 & l2 & l3 & ->) Hb Ha.
  destruct (decide (k ≤ length l1)%nat) as [Hle|Hgt].
  - apply Hb. rewrite drop_app_le by done. apply elem_of_app. right.
    right. apply elem_of_app. right. by left.
  - rewrite drop_app_ge in Hb, Ha by lia.
    destruct (k - length l1)%nat as [|k'] eqn:Hk; [lia|]. simpl in Hb, Ha.
    apply NoDup_app in Hnd as (_ & _ & Hnd). apply NoDup_cons in Hnd as [Hnotin _].
    apply Hnotin. eapply elem_of_sublist; [exact Ha|apply sublist_drop].
Qed.

Lemma order_kept cfg m0 m pa pb a b :
  Inv cfg m0 → Inv cfg m → Ord m0 m →
  a ∈ queue_of pa (sched m0) → b ∈ queue_of pb (sched m0) →
  higher pa pb ∨ (pa = pb ∧ precedes a b (queue_of pa (sched m0))) →
  (b ∉ queue_of pb (sched m) → a ∉ queue_of pa (sched m)) ∧
  (∀ tb, heap (sched m) !! b = Some tb → started tb →
         ∃ ta, heap (sched m) !! a = Some ta ∧ started ta).
Proof.
  intros HI0 HI HO Ha Hb Horder.
  assert (¬ fresh_since m0 a) as Hold.
  { destruct (inv_queue _ _ HI0 pa a Ha) as (t & Hl%lookup_lt_Some & _).
    unfold fresh_since. lia. }
  assert (b ∉ queue_of pb (sched m) → a ∉ queue_of pa (sched m)) as Hleft.
  { intros Hout Hin. destruct Horder as [Hab|[-> Hprec]].
    - pose proof (ord_higher _ _ HO pa pb b Hab Hb Hout) as Hfresh.
      by eapply Hold, Forall_forall.
    - destruct (ord_queue _ _ HO pb) as (k & news & Hk & Hnews).
      rewrite Hk in Hout, Hin. apply elem_of_app in Hin as [Hin|Hin].
      + revert Hin. apply (precedes_drop a b); [apply (inv_nodup _ _ HI0)|done|].
        intros ?. apply Hout, elem_of_app. by left.
      + by eapply Hold, Forall_forall. }
  split; [done|]. intros tb Htb Hst.
  assert (b ∉ queue_of pb (sched m)) as Hout.
  { intros Hin. destruct (inv_queue _ _ HI pb b Hin) as (t & Ht & Hq & _).
    apply Hst. congruence. }
  destruct (ord_started _ _ HO pa a Ha) as [Hin|?]; [|done].
  by destruct (Hleft Hout).
Qed.

Lemma fire_move e m m' :
  fire e m = Some m' →
  m' = m ∨ move m m' ∨
  move {| sched := set_isRunning true (sched m); loops := loops m ++ [Sleeping] |} m'.
Proof.
  destruct m as [s ls]. destruct e as [task now fresh|k now fresh|agents now|
    |i agents now resolved drawn succeeds|i k now']; cbn [fire sched loops].
  - intros [= <-]. right. left. apply move_submit.
  - destruct (timers s !! k) as [[due l]|] eqn:Hk; [|done].
    intros [= <-]. right. left. by eapply move_retry.
  - destruct (isRunning s); intros [= <-]; [by left|]. right. right.
    rewrite <- (insert_snoc ls Sleeping
                  (proceed agents now priorityOrder (set_isRunning true s)).2).
    apply proceed_moves with Sleeping; [|by right].
    by apply list_lookup_middle.
  - intros [= <-]. right. left. apply move_flag.
  - destruct (ls !! i) as [c|] eqn:Hi; [|done].
    destruct c as [rest|rest task [agent|]|rest task agent executionTime| | | |];
      cbn [resume]; intros [= <-]; cbn [fst snd]; right; left.
    + apply proceed_moves with (Polling rest); [done|by left].
    + by apply move_assign.
    + by apply (move_fail _ _ _ (Selecting rest task None)).
    + destruct succeeds.
      * by eapply move_complete.
      * by apply (move_fail _ _ _ (Executing rest task agent executionTime)).
    + by eapply move_idle.
    + by eapply move_idle.
    + destruct (isRunning s).
      * apply proceed_moves with Sleeping; [done|by right].
      * by eapply move_idle.
  - destruct (ls !! i) as [[| | | |now| |]|]; try done.
    destruct (runningTasks s !! k) as [[key l]|] eqn:Hk; [|done].
    destruct (heap s !! l ≫= startTime) as [started|]; [|done].
    destruct (now - started >? timeout); [|done].
    intros [= <-]. right. left. by eapply move_timeout.
Qed.

(** What a move that takes [l] out of the queue of [p] does. *)
Lemma move_takes cfg m m' p l :
  Inv cfg m → move m m' →
  l ∈ queue_of p (sched m) → l ∉ queue_of p (sched m') →
  canExecuteMoreTasks (sched m) = true ∧ p ∈ priorityOrder ∧
  queue_of p (sched m) = l :: queue_of p (sched m') ∧
  (∀ q, q ≠ p → queue_of q (sched m') = queue_of q (sched m)) ∧
  executing m' l ∧
  ∃ t t', heap (sched m) !! l = Some t ∧ status t = queued ∧
    heap (sched m') = <[l := t']> (heap (sched m)) ∧
    status t' = running ∧ is_Some (startTime t') ∧
    (id t', l) ∈ runningTasks (sched m').
Proof.
  intros HI Hmove Hin Hout.
  destruct (move_frame cfg m m' HI Hmove) as [HQ|(i & priority & task & HD)].
  - destruct Hout. destruct (quiet_queue _ _ HQ p) as (news & -> & _).
    apply elem_of_app. by left.
  - destruct (dispatch_taken cfg m m' i priority task p l HI HD Hin Hout) as [-> ->].
    destruct (dispatch_queue _ _ _ _ _ HD) as (queue & Hq & Hqs).
    destruct (dispatch_loop _ _ _ _ _ HD)
      as (c & rest & passed & rest' & agent & Hi & _ & _ & _ & _ & Hloops).
    split_and!.
    + apply (dispatch_allowed _ _ _ _ _ HD).
    + apply (dispatch_level _ _ _ _ _ HD).
    + by rewrite Hqs, decide_True.
    + intros q Hq'. by rewrite Hqs, decide_False.
    + exists (Selecting (priority :: rest') task agent). split; [|done].
      rewrite Hloops. eapply list_elem_of_lookup_2.
      apply list_lookup_insert_eq. by eapply lookup_lt_Some.
    + apply (dispatch_task _ _ _ _ _ HD).
Qed.

(** C7. Tasks are appended at the tail of the queue of their priority. An
    event that takes a task out of a queue takes the head of the queue of
    one of the four levels, while [canExecuteMoreTasks] holds, and leaves
    every other queue as it is; it is a loop that calls [executeTask] for
    the task: afterwards the loop is executing it, its status is [running],
    its start time is set and it is in the running map. And from a state in
    which no loop is in a pass over the queues, with [a] and [b] queued,
    [a] under a priority that comes earlier in [priorityOrder] than the
    priority of [b], or before [b] in the same queue: whatever happens
    afterwards, with submissions, retries and any number of loops,
    whenever [b] has left its queue, [a] has left its queue, and whenever
    [b] has been started, [a] has been started. As an event starts one
    task at most, [a] is started before [b]. The agents registered play no
    part. *)
Theorem dispatch_order :
  (∀ task now fresh s p,
     queue_of p (scheduleTask task now fresh s).1 =
     if decide (str_or (priority task) "medium" = p)
     then queue_of p s ++ [(scheduleTask task now fresh s).2]
     else queue_of p s) ∧
  (∀ cfg m e m' p l,
     0 ≤ maxConcurrentTasks cfg → reachable cfg m → fire e m = Some m' →
     l ∈ queue_of p (sched m) → l ∉ queue_of p (sched m') →
     canExecuteMoreTasks (sched m) = true ∧ p ∈ priorityOrder ∧
     queue_of p (sched m) = l :: queue_of p (sched m') ∧
     (∀ q, q ≠ p → queue_of q (sched m') = queue_of q (sched m)) ∧
     executing m' l ∧
     ∃ t t', heap (sched m) !! l = Some t ∧ status t = queued ∧
       heap (sched m') = <[l := t']> (heap (sched m)) ∧
       status t' = running ∧ is_Some (startTime t') ∧
       (id t', l) ∈ runningTasks (sched m')) ∧
  (∀ cfg m0 m pa pb a b,
     0 ≤ maxConcurrentTasks cfg → reachable cfg m0 → Forall idle (loops m0) →
     a ∈ queue_of pa (sched m0) → b ∈ queue_of pb (sched m0) →
     higher pa pb ∨ (pa = pb ∧ precedes a b (queue_of pa (sched m0))) →
     rtc step m0 m →
     (b ∉ queue_of pb (sched m) → a ∉ queue_of pa (sched m)) ∧
     (∀ tb, heap (sched m) !! b = Some tb → started tb →
            ∃ ta, heap (sched m) !! a = Some ta ∧ started ta)).
Proof.
  split_and!.
  - intros. rewrite scheduleTask_queue.
    by destruct (scheduleTask_heap task now fresh s) as (? & _ & -> & _).
  - intros cfg m e m' p l Hmax Hreach He Hin Hout.
    pose proof (reachable_inv cfg m Hmax Hreach) as HI.
    destruct (fire_move e m m' He) as [->|[Hmove|Hmove]]; [done| |].
    + by apply (move_takes cfg).
    + destruct m as [s ls].
      apply (move_takes cfg _ _ p l) in Hmove; [done| |done..].
      eapply inv_move; [|apply move_spawn].
      eapply inv_move; [exact HI|apply move_flag].
  - intros cfg m0 m pa pb a b Hmax Hreach Hidle Ha Hb Horder Hsteps.
    pose proof (reachable_inv cfg m0 Hmax Hreach) as HI0.
    destruct (ord_moves cfg m0 m0 m HI0 (ord_initial m0 Hidle)
                (steps_moves _ _ Hsteps)) as [HI HO].
    by apply (order_kept cfg m0 m pa pb a b).
Qed.

Lemma after_run events m :
  is_Some (run events m) → run events m = Some (Scenario.after events m).
Proof. intros [m' Hm']. unfold Scenario.after. by rewrite Hm'. Qed.

Lemma dispatch_order_witness :
  let m0 := Scenario.sleepingThenSubmitted in
  let m1 := Scenario.after Scenario.wakes m0 in
  let m := Scenario.after Scenario.nextPass m0 in
  (loops m0 = [Sleeping] ∧
   status <$> heap (sched m0) = [queued; queued] ∧
   status <$> heap (sched m1) = [queued; running] ∧
   status <$> heap (sched m) = [running; completed]) ∧
  (executing m1 1 ∧
   queue_of "high" (sched m0) = 1%nat :: queue_of "high" (sched m1)) ∧
  (∃ ta, heap (sched m) !! 1%nat = Some ta ∧ started ta).
Proof.
  cbn zeta.
  assert (0 ≤ maxConcurrentTasks (schedulerConfig constructor)) as Hmax
    by (vm_compute; discriminate).
  assert (reachable (schedulerConfig constructor) Scenario.sleepingThenSubmitted)
    as Hreach.
  { eapply reachable_run; [apply reachable_initial|].
    apply after_run. vm_compute. by eexists. }
  split; [by vm_compute|]. split.
  - destruct (proj1 (proj2 dispatch_order) (schedulerConfig constructor)
             Scenario.sleepingThenSubmitted (Resume 0 [Scenario.worker] 1000 1000 0 true)
             (Scenario.after Scenario.wakes Scenario.sleepingThenSubmitted)
             "high" 1%nat Hmax Hreach) as (_ & _ & Hq & _ & He & _).
    + vm_compute. reflexivity.
    + vm_compute. by left.
    + vm_compute. by intros ?%elem_of_nil.
    + by split.
  - destruct (heap (sched (Scenario.after Scenario.nextPass
                             Scenario.sleepingThenSubmitted)) !! 0%nat)
      as [tb|] eqn:Htb; [|by vm_compute in Htb].
    destruct (proj2 (proj2 dispatch_order) (schedulerConfig constructor)
             Scenario.sleepingThenSubmitted
             (Scenario.after Scenario.nextPass Scenario.sleepingThenSubmitted)
             "high" "low" 1%nat 0%nat Hmax Hreach) as [_ Hstarted].
    + vm_compute. repeat constructor.
    + vm_compute. by left.
    + vm_compute. by left.
    + left. exists 1%nat, 3%nat. split_and!; [reflexivity..|lia].
    + apply (steps_run Scenario.nextPass), after_run. vm_compute. by eexists.
    + apply (Hstarted tb); [done|].
      vm_compute in Htb. injection Htb as <-. unfold started. simpl. discriminate.
Defined.

(** *** One call of processQueues *)

Lemma length_delete_set k v m :
  (length (map_delete k (map_set k v m)) ≤ length m)%nat.
Proof.
  induction m as [|[k' v'] m IH]; simpl.
  - by rewrite decide_True.
  - case_decide as Hk; simpl.
    + rewrite decide_True by done. lia.
    + rewrite decide_False by done. simpl. lia.
Qed.

Lemma executeTask_frame agents run l s :
  let s' := executeTask agents run l s in
  queues s' = queues s ∧ schedulerConfig s' = schedulerConfig s ∧
  (length (runningTasks s') ≤ length (runningTasks s))%nat.
Proof.
  unfold executeTask. destruct (heap s !! l) as [t|] eqn:Hl.
  - destruct (executeTask_enter_effect agents l (enteredAt run) s t Hl)
      as (t1 & Hh & _ & Hid & _ & _ & _ & _ & _ & Hqs & Hrs & _ & _ & _ & Hg & Hsel).
    cbn zeta in *.
    destruct (executeTask_enter agents l (enteredAt run) s) as [s1 choice].
    cbn [fst snd] in *.
    assert (heap s1 !! l = Some t1) as Hl1.
    { rewrite Hh. apply list_lookup_insert_eq. by eapply lookup_lt_Some. }
    destruct choice as [agent|].
    + assert (∃ t2, heap (executeTask_assign l agent s1) !! l = Some t2 ∧
                id t2 = id t ∧
                queues (executeTask_assign l agent s1) = queues s ∧
                schedulerConfig (executeTask_assign l agent s1) = schedulerConfig s ∧
                runningTasks (executeTask_assign l agent s1) =
                  map_set (id t) l (runningTasks s)) as (t2 & Hl2 & Hid2 & Hq2 & Hg2 & Hr2).
      { unfold executeTask_assign, update. rewrite Hl1. cbn [heap set_heap].
        eexists. split; [apply list_lookup_insert_eq; by eapply lookup_lt_Some|].
        by split_and!. }
      destruct (succeeds run).
      * destruct (executeTask_completed_effect l (drawnTime run) (resolvedAt run) (settledAt run)
                    _ t2 Hl2) as (t3 & _ & _ & _ & _ & _ & -> & -> & _ & _ & _ & -> & _).
        rewrite Hq2, Hg2, Hr2, Hid2. split_and!; [done..|apply length_delete_set].
      * destruct (handleTaskFailure_effect l runFailedMessage (settledAt run)
                    _ t2 Hl2) as (t3 & _ & _ & _ & _ & _ & _ & _ & -> & -> & _ & -> & _).
        rewrite Hq2, Hg2, Hr2, Hid2. split_and!; [done..|apply length_delete_set].
    + destruct (handleTaskFailure_effect l noAgentMessage (enteredAt run)
                  _ t1 Hl1) as (t3 & _ & _ & _ & _ & _ & _ & _ & -> & -> & _ & -> & _).
      rewrite Hqs, Hg, Hrs, Hid. split_and!; [done..|apply length_delete_set].
  - unfold executeTask_enter, update. rewrite Hl. cbn [fst snd].
    rewrite Hl. unfold handleTaskFailure. by rewrite Hl.
Qed.

Lemma canExecuteMoreTasks_executeTask agents run l p s :
  canExecuteMoreTasks s = true →
  canExecuteMoreTasks (executeTask agents run l (shift p s)) = true.
Proof.
  unfold canExecuteMoreTasks. intros H%Z.ltb_lt. apply Z.ltb_lt.
  destruct (executeTask_frame agents run l (shift p s)) as (_ & -> & Hle).
  cbn [schedulerConfig runningTasks shift set_queues] in *. lia.
Qed.

Lemma queue_of_executeTask agents run l p p' s :
  queue_of p' (executeTask agents run l (shift p s)) =
  if decide (p = p') then drop 1 (queue_of p' s) else queue_of p' s.
Proof.
  destruct (executeTask_frame agents run l (shift p s)) as (Hq & _).
  unfold queue_of at 1. rewrite Hq. apply queue_of_shift.
Qed.

Lemma drain_idle fuel agents world p s :
  canExecuteMoreTasks s = false → drain fuel agents world p s = (s, []).
Proof.
  intros H. destruct fuel; simpl; [done|]. rewrite H.
  by destruct (queue_of p s).
Qed.

Lemma drain_all fuel agents world p s :
  canExecuteMoreTasks s = true →
  (length (queue_of p s) ≤ fuel)%nat →
  let r := drain fuel agents world p s in
  r.2 = queue_of p s ∧ queue_of p r.1 = [] ∧
  (∀ p', p' ≠ p → queue_of p' r.1 = queue_of p' s) ∧
  canExecuteMoreTasks r.1 = true.
Proof.
  revert s. induction fuel as [|fuel IH]; intros s Hcan Hlen; simpl.
  - destruct (queue_of p s); [done|simpl in Hlen; lia].
  - destruct (queue_of p s) as [|task q] eqn:Hq; [done|].
    rewrite Hcan. cbn [fst snd].
    destruct (IH (executeTask agents (world task) task (shift p s))) as (H1 & H2 & H3 & H4).
    + by apply canExecuteMoreTasks_executeTask.
    + rewrite queue_of_executeTask, decide_True, Hq by done. simpl in *.
      rewrite drop_0. lia.
    + rewrite queue_of_executeTask, decide_True, Hq in H1 by done.
      simpl in H1. rewrite drop_0 in H1.
      split_and!; [by rewrite H1|done| |done].
      intros p' Hne. rewrite H3 by done.
      by rewrite queue_of_executeTask, decide_False.
Qed.

Lemma processQueues_log agents world s :
  (processQueues agents world s).2 =
  if canExecuteMoreTasks s
  then queue_of "critical" s ++ queue_of "high" s ++
       queue_of "medium" s ++ queue_of "low" s
  else [].
Proof.
  unfold processQueues, priorityOrder. cbn [foldl fst snd].
  destruct (canExecuteMoreTasks s) eqn:Hcan.
  - destruct (drain_all (length (queue_of "critical" s)) agents world "critical" s)
      as (L1 & _ & Q1 & C1); [done..|].
    set (s1 := (drain _ agents world "critical" s).1) in *.
    destruct (drain_all (length (queue_of "high" s1)) agents world "high" s1)
      as (L2 & _ & Q2 & C2); [done..|].
    set (s2 := (drain _ agents world "high" s1).1) in *.
    destruct (drain_all (length (queue_of "medium" s2)) agents world "medium" s2)
      as (L3 & _ & Q3 & C3); [done..|].
    set (s3 := (drain _ agents world "medium" s2).1) in *.
    destruct (drain_all (length (queue_of "low" s3)) agents world "low" s3)
      as (L4 & _ & Q4 & C4); [done..|].
    rewrite L1, L2, L3, L4.
    rewrite (Q3 "low"), (Q2 "low"), (Q1 "low") by done.
    rewrite (Q2 "medium"), (Q1 "medium") by done.
    rewrite (Q1 "high") by done.
    by rewrite <- !app_assoc.
  - rewrite !(drain_idle _ agents world "critical" s Hcan). cbn [fst snd].
    rewrite !(drain_idle _ agents world "high" s Hcan). cbn [fst snd].
    rewrite !(drain_idle _ agents world "medium" s Hcan). cbn [fst snd].
    by rewrite !(drain_idle _ agents world "low" s Hcan).
Qed.

(** *** The retry path *)

Lemma scheduleTask_queues task now fresh s :
  let p := str_or (priority task) "medium" in
  queues (scheduleTask task now fresh s).1 =
  alter (λ q, q ++ [length (heap s)]) p
    (if decide (is_Some (queues s !! p)) then queues s
     else <[p := []]> (queues s)).
Proof. unfold scheduleTask. simpl. by case_decide. Qed.

Lemma retrying_oneTask : Scenario.Retrying 0 Scenario.oneTask.
Proof.
  constructor; try (vm_compute; reflexivity).
  - eexists. vm_compute. split_and!; reflexivity.
  - intros l t Hl. lia.
Qed.

Lemma retrying_iteration n s :
  Scenario.Retrying n s → Scenario.Retrying (S n) (Scenario.failingIteration n s).
Proof.
  intros [Hlen (t & Hl & Hst & Hat & Hmax & Hpr & Hid) Hbefore Hq Hr Ht Hf Hg].
  unfold Scenario.failingIteration, scheduleLoop_iteration.
  (* processQueues *)
  assert (queue_of "critical" s = [] ∧ queue_of "high" s = [] ∧
          queue_of "medium" s = [n] ∧ queue_of "low" s = []) as (Qc & Qh & Qm & Ql).
  { unfold queue_of. rewrite Hq. split_and!; reflexivity. }
  assert (canExecuteMoreTasks s = true) as Hcan.
  { unfold canExecuteMoreTasks. by rewrite Hr, Hg. }
  unfold processQueues, priorityOrder. cbn [foldl fst snd].
  rewrite Qc. cbn [length drain fst snd]. rewrite Qh. cbn [length drain fst snd].
  rewrite Qm. cbn [length drain fst snd]. rewrite Qm, Hcan. cbn [fst snd drain].
  set (s1 := executeTask [Scenario.worker] (Scenario.alwaysFails n) n (shift "medium" s)).
  (* executeTask *)
  assert (∃ t3, heap s1 = <[n := t3]> (heap s) ∧ status t3 = failed ∧
            attempts t3 = 1 ∧ maxAttempts t3 = Some 3 ∧
            queues s1 = {["medium" := []]} ∧ runningTasks s1 = [] ∧
            timers s1 = [(5000 * Z.of_nat n + 3000, n)] ∧ failedTasks s1 = [] ∧
            schedulerConfig s1 = schedulerConfig constructor ∧
            priority t3 = None ∧ id t3 = Some "t1")
    as (t3 & Hh1 & Hst3 & Hat3 & Hmax3 & Hq1 & Hr1 & Ht1 & Hf1 & Hg1 & Hpr3 & Hid3).
  { unfold s1, executeTask.
    destruct (executeTask_enter_effect [Scenario.worker] n
                (enteredAt (Scenario.alwaysFails n)) (shift "medium" s) t Hl)
      as (t1 & Hh & _ & Hid1 & Hpr1 & Hat1 & _ & Hmax1 & _ & Hqs & Hrs & _ & Hfs & Hts & Hgs & _ & Hsel).
    cbn zeta in *.
    destruct (executeTask_enter _ n _ (shift "medium" s)) as [s2 choice].
    cbn [fst snd] in *.
    rewrite (selectAgent_any_task _ _ t1 Scenario.visionTask) in Hsel.
    cbn [schedulerConfig shift set_queues] in Hsel. rewrite Hg in Hsel.
    assert (choice = Some Scenario.worker) as ->
      by (rewrite Hsel; vm_compute; reflexivity).
    assert (heap s2 !! n = Some t1) as Hl1.
    { rewrite Hh. apply list_lookup_insert_eq. by eapply lookup_lt_Some. }
    destruct (executeTask_assign_effect n Scenario.worker s2 t1 Hl1)
      as (t2 & Hh2 & _ & Hid2 & Hpr2 & Hat2 & Hmax2 & Hqs2 & Hrs2 & _ & Hfs2 & Hts2 & Hgs2).
    cbn zeta in *.
    assert (heap (executeTask_assign n Scenario.worker s2) !! n = Some t2) as Hl2.
    { rewrite Hh2. apply list_lookup_insert_eq. rewrite Hh, length_insert.
      by eapply lookup_lt_Some. }
    change (succeeds (Scenario.alwaysFails n)) with false. cbv iota.
    destruct (handleTaskFailure_effect n runFailedMessage
                (settledAt (Scenario.alwaysFails n)) _ t2 Hl2)
      as (t3 & Hh3 & Hst3 & Hid3 & Hpr3 & Hat3 & _ & Hmax3 & Hqs3 & Hrs3 & _ & Hgs3 & _ & Hcase).
    cbn zeta in *. exists t3.
    assert (canRetry t3 = true) as Hretry.
    { unfold canRetry. rewrite Hmax3, Hmax2, Hmax1, Hmax, Hat3, Hat2, Hat1, Hat.
      reflexivity. }
    destruct Hcase as [(_ & Htm & Hfl)|(Hno & _)]; [|congruence].
    split_and!.
    - rewrite Hh3, Hh2, Hh. cbn [heap shift set_queues].
      by rewrite !list_insert_insert_eq.
    - done.
    - rewrite Hat3, Hat2, Hat1, Hat. reflexivity.
    - congruence.
    - rewrite Hqs3, Hqs2, Hqs. cbn [queues shift set_queues]. rewrite Hq.
      by rewrite alter_singleton_eq.
    - rewrite Hrs3, Hrs2, Hrs. cbn [runningTasks shift set_queues].
      rewrite Hr, Hid2, Hid1. simpl. by rewrite decide_True.
    - rewrite Htm, Hts2, Hts, Hgs2, Hgs. cbn [timers schedulerConfig shift set_queues].
      rewrite Ht, Hg, Hat2, Hat1, Hat. cbn [app].
      change (settledAt (Scenario.alwaysFails n)) with (5000 * Z.of_nat n + 2000).
      change (retryDelay (schedulerConfig constructor)) with 1000.
      do 2 f_equal. lia.
    - rewrite Hfl, Hfs2, Hfs. by cbn [failedTasks shift set_queues].
    - rewrite Hgs3, Hgs2, Hgs. by cbn [schedulerConfig shift set_queues].
    - congruence.
    - congruence. }
  assert (queue_of "low" s1 = []) as Ql1.
  { unfold queue_of. by rewrite Hq1. }
  rewrite Ql1. cbn [length drain fst snd].
  (* checkRunningTasks *)
  rewrite (checkRunningTasks_idle _ _ Hr1).
  (* the retry callback *)
  unfold fireDue. rewrite Ht1. cbn [List.filter fst snd].
  replace (5000 * Z.of_nat n + 3000 <=? 5000 * Z.of_nat n + 3000) with true
    by (symmetry; apply Z.leb_le; lia).
  cbn [negb fold_left snd].
  assert (heap s1 !! n = Some t3) as Hl3.
  { rewrite Hh1. apply list_lookup_insert_eq. by eapply lookup_lt_Some. }
  unfold retry, update. cbn [heap set_timers]. rewrite Hl3. cbn [heap set_heap].
  rewrite list_lookup_insert_eq by (rewrite Hh1, length_insert; by eapply lookup_lt_Some).
  set (s2 := set_heap _ _).
  destruct (scheduleTask_heap (set_status retrying t3)
              (5000 * Z.of_nat n + 3000) "task_0_b" s2)
    as (tn & Hhn & _ & Hstn & Hatn & Hprn & _ & Hidn & Hmaxn).
  destruct (scheduleTask_other (set_status retrying t3)
              (5000 * Z.of_nat n + 3000) "task_0_b" s2)
    as (Hrn & _ & Hfn & Htn & Hgn & _). cbn zeta in *.
  assert (length (heap s2) = S n) as Hlen2.
  { unfold s2. cbn [heap set_heap]. by rewrite Hh1, !length_insert. }
  constructor.
  - rewrite Hhn, length_app, Hlen2. simpl. lia.
  - exists tn. split_and!; try done.
    + rewrite Hhn, <- Hlen2. by apply list_lookup_middle.
    + rewrite Hmaxn. unfold s2. cbn [maxAttempts set_status schedulerConfig set_heap set_timers].
      by rewrite Hmax3.
    + by rewrite Hprn.
    + rewrite Hidn. cbn [id set_status]. by rewrite Hid3.
  - intros l t' Hlt. rewrite Hhn, lookup_app_l by lia.
    unfold s2. cbn [heap set_heap set_timers]. rewrite Hh1, list_insert_insert_eq.
    destruct (decide (l = n)) as [->|Hne].
    + rewrite list_lookup_insert_eq by (by eapply lookup_lt_Some).
      intros [= <-]. by cbn [attempts status set_status].
    + rewrite list_lookup_insert_ne by done. apply Hbefore. lia.
  - rewrite scheduleTask_queues. cbn [priority set_status]. rewrite Hpr3.
    cbn [str_or].
    assert (queues s2 = {["medium" := []]}) as Hq2 by exact Hq1.
    case_decide as Hd.
    + by rewrite Hq2, alter_singleton_eq, Hlen2.
    + exfalso. apply Hd. rewrite Hq2, lookup_singleton_eq. by eexists.
  - by rewrite Hrn.
  - by rewrite Htn.
  - by rewrite Hfn.
  - by rewrite Hgn.
Qed.

Lemma retrying_forever n : Scenario.Retrying n (Scenario.failingIterations n).
Proof.
  induction n as [|n IH]; [apply retrying_oneTask|by apply retrying_iteration].
Qed.

(** C1. A task submitted with [maxAttempts = 3] whose execution always
    fails. After three iterations of the scheduling loop the scheduler holds
    four objects for it, the three executed ones with [attempts = 1] and a
    new one with [attempts = 0] waiting in the queue; [failedTasks] is
    empty. The same holds after any number [n] of iterations: the task is
    queued again with [attempts = 0], no object has more than one attempt,
    and nothing has reached [failedTasks]. *)
Theorem retry_resets_attempts :
  (let s := Scenario.failingIterations 3 in
   attempts <$> heap s = [1; 1; 1; 0] ∧
   status <$> heap s = [retrying; retrying; retrying; queued] ∧
   maxAttempts <$> heap s = [Some 3; Some 3; Some 3; Some 3] ∧
   queue_of "medium" s = [3%nat] ∧
   failedTasks s = [] ∧ timers s = []) ∧
  (∀ n, let s := Scenario.failingIterations n in
     queue_of "medium" s = [n] ∧
     (∃ t, heap s !! n = Some t ∧ status t = queued ∧ attempts t = 0 ∧
           maxAttempts t = Some 3) ∧
     (∀ l t, heap s !! l = Some t → attempts t ≤ 1 ∧ status t ≠ failed) ∧
     failedTasks s = []).
Proof.
  split; [vm_compute; by split_and!|].
  intros n s.
  destruct (retrying_forever n)
    as [Hlen (t & Hl & Hst & Hat & Hmax & _) Hbefore Hq _ _ Hf _].
  fold s in Hlen, Hl, Hbefore, Hq, Hf.
  split_and!; [|by exists t| |done].
  - unfold queue_of. by rewrite Hq.
  - intros l t' Hl'.
    destruct (decide (l = n)) as [->|Hne].
    + assert (t' = t) as -> by congruence. rewrite Hat, Hst. by split.
    + apply lookup_lt_Some in Hl' as Hlt.
      destruct (Hbefore l t') as [-> ->]; [lia|done|]. by split.
Qed.

(** C2, as stated, fails: with no agent registered, the dispatched task is
    not put back at the head of its queue, does not keep the status
    [queued], and its attempts counter does not stay at 0. *)
Lemma no_agent_not_requeued :
  let s := Scenario.withoutAgents in
  head (queue_of "medium" s) ≠ Some 0%nat ∧
  (status <$> heap s !! 0%nat) ≠ Some queued ∧
  (attempts <$> heap s !! 0%nat) ≠ Some 0.
Proof. vm_compute. by split_and!. Qed.

(** C2, amended. When [selectAgent] finds no agent for the task at the head
    of a queue, [executeTask] treats the dispatch as a failed execution: the
    task leaves its queue and no queue is otherwise changed, its status
    becomes [failed], the message is recorded on it and [attempts] grows by
    one; a retry is registered when [attempts] is still below
    [maxAttempts], otherwise the task is appended to [failedTasks]. *)
Theorem no_agent_is_a_failure agents run p s task queue t :
  queue_of p s = task :: queue →
  heap s !! task = Some t →
  selectAgent (schedulerConfig s) agents t = None →
  let s' := executeTask agents run task (shift p s) in
  queue_of p s' = queue ∧
  (∀ p', p' ≠ p → queue_of p' s' = queue_of p' s) ∧
  (∃ t', heap s' !! task = Some t' ∧ status t' = failed ∧
         attempts t' = attempts t + 1 ∧ error t' = Some noAgentMessage ∧
         maxAttempts t' = maxAttempts t ∧
         if canRetry t'
         then timers s' = timers s ++
                [(enteredAt run + retryDelay (schedulerConfig s) * (attempts t + 1),
                  task)] ∧
              failedTasks s' = failedTasks s
         else timers s' = timers s ∧ failedTasks s' = failedTasks s ++ [task]).
Proof.
  intros Hq Hl Hnone s'.
  split; [|split].
  - unfold s'. by rewrite queue_of_executeTask, decide_True, Hq.
  - intros p' Hne. unfold s'. by rewrite queue_of_executeTask, decide_False.
  - unfold s', executeTask.
    destruct (executeTask_enter_effect agents task (enteredAt run) (shift p s) t Hl)
      as (t1 & Hh & _ & _ & _ & Hat & _ & Hmax & _ & _ & _ & _ & Hf & Ht & Hg & _ & Hsel).
    cbn zeta in *.
    destruct (executeTask_enter agents task (enteredAt run) (shift p s))
      as [s1 choice]. cbn [fst snd] in *.
    rewrite (selectAgent_any_task _ _ t1 t) in Hsel.
    cbn [schedulerConfig shift set_queues] in Hsel. rewrite Hnone in Hsel.
    subst choice.
    assert (heap s1 !! task = Some t1) as Hl1.
    { rewrite Hh. apply list_lookup_insert_eq. by eapply lookup_lt_Some. }
    destruct (handleTaskFailure_effect task noAgentMessage (enteredAt run) s1 t1 Hl1)
      as (t2 & Hh2 & Hst2 & _ & _ & Hat2 & Her2 & Hmax2 & _ & _ & _ & _ & _ & Hcase).
    cbn zeta in *. exists t2. split_and!.
    + rewrite Hh2. apply list_lookup_insert_eq. by eapply lookup_lt_Some.
    + done.
    + congruence.
    + done.
    + congruence.
    + rewrite Hg, Ht, Hf, Hat in Hcase.
      cbn [schedulerConfig timers failedTasks shift set_queues] in Hcase.
      by destruct Hcase as [(-> & ? & ?)|(-> & ? & ?)].
Qed.

Lemma no_agent_is_a_failure_witness :
  queue_of "medium"
    (executeTask [] (Scenario.alwaysFails 0) 0%nat (shift "medium" Scenario.oneTask))
  = [].
Proof.
  refine (proj1 (no_agent_is_a_failure [] (Scenario.alwaysFails 0) "medium"
            Scenario.oneTask 0%nat []
            {| id := Some "t1"; name := Some "t1"; priority := None;
               requiredCapabilities := None; maxAttempts := Some 3;
               attempts := 0; status := queued; scheduledAt := Some 0;
               startTime := None; endTime := None; assignedAgent := None;
               result := None; error := None |} _ _ _));
    vm_compute; reflexivity.
Defined.

(** *** Agent selection and capabilities *)

(** C3. [selectAgent] returns the first least loaded agent among those
    that are ready and under the load bound, and returns none exactly when
    there is no such agent; the task plays no part in the choice. So
    [worker], which is ready and has capacity but lacks the capability
    [vision] that the task requires, is selected all the same. *)
Theorem selectAgent_ignores_capabilities :
  (∀ cfg agents task,
     selectAgent cfg agents task =
     firstLeastLoaded
       (List.filter
          (λ a, String.eqb (agent_status a) "ready" &&
                (load a <? maxTasksPerAgent cfg)) agents)) ∧
  (∀ cfg agents task task',
     selectAgent cfg agents task = selectAgent cfg agents task') ∧
  everyCapability Scenario.visionTask Scenario.worker = false ∧
  selectAgent (schedulerConfig constructor) [Scenario.worker] Scenario.visionTask
  = Some Scenario.worker.
Proof.
  split_and!; [|apply selectAgent_any_task|by vm_compute..].
  intros cfg agents task. rewrite selectAgent_firstLeastLoaded. f_equal.
  apply filter_ext. intros a. unfold available.
  by rewrite orb_true_r, andb_true_r.
Qed.

(** *** Submission *)

(** C4, as stated, fails: a task submitted with the priority ['urgent'] is
    accepted and enqueued under ['urgent'], not under ['medium']. *)
Lemma urgent_enqueued_as_urgent :
  let s := Scenario.urgentSubmitted.1 in
  let l := Scenario.urgentSubmitted.2 in
  ("urgent" ∉ priorityOrder) ∧
  queue_of "urgent" s = [l] ∧ queue_of "medium" s = [] ∧
  (status <$> heap s !! l) = Some queued.
Proof.
  vm_compute. split_and!; try done.
  intros H. repeat (apply elem_of_cons in H as [H|H]; [discriminate H|]).
  by apply elem_of_nil in H.
Qed.

(** C4, amended. [scheduleTask] never rejects. The new task object has
    status [queued] and is appended to the tail of the queue keyed by
    [task.priority || 'medium']: the medium queue when the priority is
    absent or empty, the queue named by the priority string otherwise,
    whether or not that string is one of the four levels. No other queue
    changes. *)
Theorem scheduleTask_enqueues task now fresh s :
  let s' := (scheduleTask task now fresh s).1 in
  let l := (scheduleTask task now fresh s).2 in
  let p := str_or (priority task) "medium" in
  queue_of p s' = queue_of p s ++ [l] ∧
  (∀ p', p' ≠ p → queue_of p' s' = queue_of p' s) ∧
  (∃ t, heap s' !! l = Some t ∧ status t = queued ∧ attempts t = 0 ∧
        priority t = priority task) ∧
  (priority task = None ∨ priority task = Some "" → p = "medium") ∧
  (∀ q, priority task = Some q → q ≠ "" → p = q).
Proof.
  intros s' l p.
  destruct (scheduleTask_heap task now fresh s)
    as (t & Hh & Hl & Hst & Hat & Hpr & _).
  fold s' in Hh. fold l in Hl.
  split_and!.
  - unfold s'. by rewrite scheduleTask_queue, decide_True, Hl.
  - intros p' Hne. unfold s'. by rewrite scheduleTask_queue, decide_False.
  - exists t. split_and!; try done. rewrite Hh, Hl. by apply list_lookup_middle.
  - unfold p. by intros [->| ->].
  - unfold p. intros q -> Hq. simpl. by destruct (String.eqb_spec q "").
Qed.

Lemma scheduleTask_enqueues_witness :
  queue_of "urgent" Scenario.urgentSubmitted.1 = [Scenario.urgentSubmitted.2].
Proof.
  exact (proj1 (scheduleTask_enqueues
                  (Scenario.request "t3" (Some "urgent") None None) 0
                  "task_0_c" constructor)).
Defined.

End SchedulerFacts.


(** ** The tracker and the reports *)

Module TrackerFacts.
Import TaskTracker TrackerSpec.

(** *** Mutations of an active task *)

Lemma extends_refl t : extends t t.
Proof. by split. Qed.

Lemma extends_trans t1 t2 t3 : extends t1 t2 → extends t2 t3 → extends t1 t3.
Proof. intros [? ?] [? ?]. split; [congruence|by etrans]. Qed.

Lemma extends_initialized t t' : extends t t' → initialized t → initialized t'.
Proof.
  intros [_ [k Hk]] (first & rest & Hp & Hty). exists first, (rest ++ k).
  by rewrite Hk, Hp.
Qed.

Lemma growing_id : growing (λ t, t).
Proof. intros t. apply extends_refl. Qed.

Lemma growing_compose f g : growing f → growing g → growing (g ∘ f).
Proof. intros Hf Hg t. eapply extends_trans; [apply Hf|apply Hg]. Qed.

Lemma growing_if (b : Task.t → bool) f : growing f → growing (λ t, if b t then f t else t).
Proof. intros Hf t. destruct (b t); [apply Hf|apply extends_refl]. Qed.

Lemma growing_same_phases f :
  (∀ t, Task.id (f t) = Task.id t ∧ Task.phases (f t) = Task.phases t) → growing f.
Proof. intros H t. destruct (H t) as [? Hp]. split; [done|by rewrite Hp]. Qed.

Lemma growing_push phase :
  growing (λ t, set_phases (Task.phases t ++ [phase]) t).
Proof. intros t. split; [done|]. by exists [phase]. Qed.

Lemma silent_id : silent (λ t, t).
Proof. done. Qed.

Lemma silent_compose f g : silent f → silent g → silent (g ∘ f).
Proof. intros Hf Hg t. simpl. by rewrite Hg, Hf. Qed.

Lemma silent_if (b : Task.t → bool) f : silent f → silent (λ t, if b t then f t else t).
Proof. intros Hf t. by destruct (b t). Qed.

Lemma appending_compose f g : appending f → silent g → appending (g ∘ f).
Proof. intros Hf Hg t. simpl. rewrite Hg. apply Hf. Qed.

Lemma modify_modify taskId f g tr :
  modify taskId g (modify taskId f tr) = modify taskId (g ∘ f) tr.
Proof. unfold modify. simpl. by rewrite alter_alter_eq. Qed.

Lemma modify_absent taskId f tr :
  activeTasks tr !! taskId = None → modify taskId f tr = tr.
Proof.
  intros H. unfold modify. rewrite alter_id; [by destruct tr|].
  intros x Hx. congruence.
Qed.

Lemma addTaskPhase_modify taskId phaseType description status agent now tr :
  ∃ f, growing f ∧ silent f ∧
    addTaskPhase taskId phaseType description status agent now tr
    = modify taskId f tr.
Proof.
  unfold addTaskPhase. destruct (activeTasks tr !! taskId) eqn:Hl.
  - destruct agent as [a|].
    + eexists. split_and!; [| |by rewrite modify_modify].
      * apply growing_compose; [apply growing_push|].
        apply (growing_if (λ task, negb (String.eqb a "") &&
                                   negb (includes (Task.agentsInvolved task) a))).
        by apply growing_same_phases.
      * apply silent_compose; [done|].
        by apply (silent_if (λ task, negb (String.eqb a "") &&
                                     negb (includes (Task.agentsInvolved task) a))).
    + eexists. split_and!; [apply growing_push|done|done].
  - exists (λ t, t). split_and!; [apply growing_id|done|]. by rewrite modify_absent.
Qed.

Lemma recordSensorDataUsage_modify taskId sensorType dataSize processingTime tr :
  ∃ f, growing f ∧ silent f ∧
    recordSensorDataUsage taskId sensorType dataSize processingTime tr
    = modify taskId f tr.
Proof.
  unfold recordSensorDataUsage. destruct (activeTasks tr !! taskId) eqn:Hl.
  - eexists. split_and!; [| |done]; [by apply growing_same_phases|done].
  - exists (λ t, t). split_and!; [apply growing_id|done|]. by rewrite modify_absent.
Qed.

Lemma recordError_modify taskId message stack agent now tr :
  ∃ f, growing f ∧ (appending f ∨ activeTasks tr !! taskId = None) ∧
    recordError taskId message stack agent now tr = modify taskId f tr.
Proof.
  unfold recordError. destruct (activeTasks tr !! taskId) eqn:Hl.
  - destruct (addTaskPhase_modify taskId "error" ("错误: " +:+ message) "error"
                (Some agent) now
                (modify taskId
                   (λ task, set_errors (Task.errors task ++
                      [{| ErrorRecord.timestamp := now;
                          ErrorRecord.message := message;
                          ErrorRecord.stack := stack;
                          ErrorRecord.agent := agent;
                          ErrorRecord.phase :=
                            match last (Task.phases t) with
                            | Some p => Phase.type p
                            | None => "unknown"
                            end |}]) task) tr)) as (f & Hf & Hs & ->).
    eexists. split_and!; [| |by rewrite modify_modify].
    + apply growing_compose; [|done]. by apply growing_same_phases.
    + left. apply appending_compose; [|done]. intros x. by eexists.
  - exists (λ t, t). split_and!; [apply growing_id|by right|].
    by rewrite modify_absent.
Qed.



Lemma completeTask_absent rt taskId now tr :
  activeTasks tr !! taskId = None → (completeTask rt taskId now tr).1 = tr.
Proof. intros H. unfold completeTask. by rewrite H. Qed.

Lemma completeTask_present rt taskId now tr t :
  activeTasks tr !! taskId = Some t →
  activeTasks (completeTask rt taskId now tr).1 = delete taskId (activeTasks tr) ∧
  completedTasks (completeTask rt taskId now tr).1 = completedTasks tr ++ [t].
Proof. intros H. unfold completeTask. by rewrite H. Qed.

Lemma updateTaskStatus_shape rt taskId status agent now tr :
  ∃ f, growing f ∧ silent f ∧
    (updateTaskStatus rt taskId status agent now tr = modify taskId f tr ∨
     updateTaskStatus rt taskId status agent now tr
     = (completeTask rt taskId now (modify taskId f tr)).1).
Proof.
  unfold updateTaskStatus. destruct (activeTasks tr !! taskId) as [task|] eqn:Hl.
  - destruct (addTaskPhase_modify taskId "status_change"
                ("状态变更: " +:+ Task.status task +:+ " → " +:+ status)
                status agent now (modify taskId (set_status status) tr))
      as (f & Hf & Hs & ->).
    rewrite modify_modify.
    assert (growing (f ∘ set_status status)) as Hfs.
    { apply growing_compose; [|done]. by apply growing_same_phases. }
    assert (silent (f ∘ set_status status)) as Hss
      by (by apply silent_compose).
    destruct (String.eqb status "running").
    + exists ((λ task, if unset (Task.startTime task)
                       then set_startTime (Some now) task else task)
              ∘ (f ∘ set_status status)).
      split_and!; [| |left; by rewrite !modify_modify].
      * apply growing_compose; [exact Hfs|].
        apply (growing_if (λ task, unset (Task.startTime task))).
        by apply growing_same_phases.
      * apply silent_compose; [exact Hss|].
        by apply (silent_if (λ task, unset (Task.startTime task))).
    + destruct (String.eqb status "completed" || String.eqb status "failed").
      * exists ((λ task,
                   set_duration
                     (Some (now - num_or (Task.startTime task) (Task.createdAt task)))
                     (set_endTime (Some now) task))
                ∘ (f ∘ set_status status)).
        split_and!; [| |right; by rewrite !modify_modify].
        -- apply growing_compose; [exact Hfs|]. by apply growing_same_phases.
        -- by apply silent_compose.
      * exists (f ∘ set_status status).
        split_and!; [exact Hfs|exact Hss|left; by rewrite ?modify_modify].
  - exists (λ t, t). split_and!; [apply growing_id|done|left].
    by rewrite modify_absent.
Qed.

Lemma createTaskTracker_active taskId description priority now tr :
  ∃ t, activeTasks (createTaskTracker taskId description priority now tr).1
       = <[taskId := t]> (activeTasks tr) ∧
       (createTaskTracker taskId description priority now tr).2 = t ∧
       completedTasks (createTaskTracker taskId description priority now tr).1
       = completedTasks tr ∧
       Task.id t = taskId ∧ Task.errors t = [] ∧
       ∃ phase, Task.phases t = [phase] ∧ Phase.type phase = "initialization".
Proof.
  unfold createTaskTracker, addTaskPhase. cbn [fst snd activeTasks set_activeTasks].
  rewrite lookup_insert_eq. unfold modify.
  cbn [activeTasks set_activeTasks completedTasks].
  rewrite alter_insert_eq, lookup_insert_eq. cbn [default].
  eexists. split_and!; try reflexivity. by eexists.
Qed.

(** The shape of every call. *)
Lemma call_shape rt c tr :
  (∃ taskId f, growing f ∧
     ((silent f ∧ ∀ j, records c j → activeTasks tr !! j = None) ∨
      (records c taskId ∧ appending f)) ∧
     call rt c tr = modify taskId f tr) ∨
  (∃ taskId f now, growing f ∧ silent f ∧ (∀ j, ¬ records c j) ∧
     call rt c tr = (completeTask rt taskId now (modify taskId f tr)).1) ∨
  (∃ taskId, creates c taskId) ∨ cleans c.
Proof.
  destruct c as [taskId d p now|taskId ty d st a now|taskId st a now
                |taskId ty sz pt|taskId msg stk a now|taskId now|now]; simpl.
  - right. right. left. by exists taskId.
  - left. destruct (addTaskPhase_modify taskId ty d st a now tr) as (f & ? & ? & ?).
    exists taskId, f. split_and!; [done| |done]. left. by split.
  - destruct (updateTaskStatus_shape rt taskId st a now tr) as (f & ? & ? & [?|?]).
    + left. exists taskId, f. split_and!; [done| |done]. left. by split.
    + right. left. exists taskId, f, now. split_and!; [done..|tauto|done].
  - left.
    destruct (recordSensorDataUsage_modify taskId ty sz pt tr) as (f & ? & ? & ?).
    exists taskId, f. split_and!; [done| |done]. left. by split.
  - left.
    destruct (recordError_modify taskId msg stk a now tr) as (f & ? & [?|Hnone] & ?).
    + exists taskId, f. split_and!; [done| |done]. right. by split.
    + exists taskId, (λ t, t). split_and!; [apply growing_id| |].
      * left. split; [done|]. by intros j <-.
      * unfold recordError. rewrite Hnone. by rewrite modify_absent.
  - right. left. exists taskId, (λ t, t), now.
    split_and!; [apply growing_id|done|tauto|].
    unfold modify. rewrite alter_id by done. by destruct tr.
  - by right; right; right.
Qed.

Lemma records_same c i j : records c i → records c j → i = j.
Proof. destruct c; simpl; try done. congruence. Qed.

(** *** The invariant *)

Lemma Forall_List_filter {A} (P : A → Prop) (f : A → bool) l :
  Forall P l → Forall P (List.filter f l).
Proof.
  induction 1 as [|x l Hx Hl IH]; simpl; [constructor|].
  destruct (f x); [by constructor|done].
Qed.

Lemma modify_inv taskId f tr : growing f → TInv tr → TInv (modify taskId f tr).
Proof.
  intros Hf [Ha Hc]. split; [|done]. intros i t. simpl. rewrite lookup_alter.
  case_decide; [subst i|by apply Ha].
  destruct (activeTasks tr !! taskId) as [t0|] eqn:Hl; simpl; [|done].
  intros [= <-]. eapply extends_initialized; [apply Hf|by eapply Ha].
Qed.

Lemma completeTask_inv rt taskId now tr :
  TInv tr → TInv (completeTask rt taskId now tr).1.
Proof.
  intros [Ha Hc]. destruct (activeTasks tr !! taskId) as [t|] eqn:Hl.
  - destruct (completeTask_present rt taskId now tr t Hl) as [Hact Hcom].
    split.
    + intros i t'. rewrite Hact. intros [_ ?]%lookup_delete_Some. by eapply Ha.
    + rewrite Hcom. apply Forall_app. split; [done|].
      constructor; [by eapply Ha|constructor].
  - by rewrite completeTask_absent.
Qed.

Lemma call_inv rt c tr : TInv tr → TInv (call rt c tr).
Proof.
  intros HI.
  destruct (call_shape rt c tr)
    as [(i & f & Hf & _ & ->)|[(i & f & now & Hf & _ & _ & ->)|[(i & Hc)|Hc]]].
  - by apply modify_inv.
  - by apply completeTask_inv, modify_inv.
  - destruct c; try done. cbn [creates] in Hc. subst. cbn [call].
    destruct (createTaskTracker_active i description priority now tr)
      as (t & Hact & _ & Hcom & _ & _ & phase & Hph & Hty).
    destruct HI as [Ha Hcm]. split.
    + intros j t'. rewrite Hact, lookup_insert. case_decide.
      * intros [= <-]. by exists phase, [].
      * by apply Ha.
    + by rewrite Hcom.
  - destruct c; try done. cbn [call]. destruct HI as [Ha Hcm]. split; [done|].
    unfold cleanupOldTasks. cbn [completedTasks]. by apply Forall_List_filter.
Qed.

Lemma run_inv rt calls tr : TInv tr → TInv (run rt calls tr).
Proof.
  revert tr. induction calls as [|c calls IH]; intros tr HI; [done|].
  simpl. apply IH. by apply call_inv.
Qed.

Lemma constructor_inv : TInv constructor.
Proof. split; [|constructor]. intros i t. simpl. by rewrite lookup_empty. Qed.

Lemma elem_of_tracked t tr :
  t ∈ tracked tr ↔
  (∃ taskId, activeTasks tr !! taskId = Some t) ∨ t ∈ completedTasks tr.
Proof.
  unfold tracked, getActiveTasks. rewrite elem_of_app, list_elem_of_fmap.
  split; intros [H|H]; auto; left.
  - destruct H as ([i t'] & -> & Hin%elem_of_map_to_list). by exists i.
  - destruct H as (i & Hi). exists (i, t). split; [done|].
    by apply elem_of_map_to_list.
Qed.



Lemma modify_carried i f tr taskId t :
  growing f → activeTasks tr !! taskId = Some t →
  ∃ t', activeTasks (modify i f tr) !! taskId = Some t' ∧ extends t t' ∧
        t' = (if decide (i = taskId) then f t else t).
Proof.
  intros Hf Hl. cbn [modify activeTasks set_activeTasks]. rewrite lookup_alter.
  case_decide; [subst i|].
  - rewrite Hl. exists (f t). split_and!; [done|apply Hf|done].
  - exists t. split_and!; [done|apply extends_refl|done].
Qed.

Lemma completeTask_carried rt i now tr taskId t :
  activeTasks tr !! taskId = Some t →
  t ∈ tracked (completeTask rt i now tr).1.
Proof.
  intros Hl. apply elem_of_tracked.
  destruct (activeTasks tr !! i) as [x|] eqn:Hi.
  - destruct (completeTask_present rt i now tr x Hi) as [-> ->].
    destruct (decide (i = taskId)) as [->|Hne].
    + right. apply elem_of_app. right. apply list_elem_of_singleton. congruence.
    + left. exists taskId. by rewrite lookup_delete_ne.
  - rewrite completeTask_absent by done. left. by exists taskId.
Qed.

Lemma completeTask_archive rt i now tr t :
  t ∈ completedTasks tr → t ∈ completedTasks (completeTask rt i now tr).1.
Proof.
  intros Hin. destruct (activeTasks tr !! i) as [x|] eqn:Hi.
  - destruct (completeTask_present rt i now tr x Hi) as [_ ->].
    apply elem_of_app. by left.
  - by rewrite completeTask_absent.
Qed.

(** C10, as stated, fails: right after [createTaskTracker] the errors of
    the task are empty. *)
Lemma errors_empty_after_creation :
  Task.errors TrackerScenario.created = [] ∧
  ¬ (Task.errors TrackerScenario.created ≠ []).
Proof. split; [reflexivity|]. intros H. by apply H. Qed.

(** C10, amended. After any sequence of calls on a new tracker, every task
    the tracker holds has a non-empty [phases] whose first element has type
    ["initialization"]. Whatever is called next, unless it is
    [createTaskTracker] under the id of an active task, which replaces that
    task by a new one, every active task stays tracked, with the same id
    and with its former [phases] as a prefix of the new ones, so their
    length never decreases; and its [errors] are what they were unless the
    call is [recordError] for this task, which appends one record. A
    completed task is kept as it is until [cleanupOldTasks] drops it.
    [errors] is empty, and [phases] has one element, right after
    creation. *)
Theorem phases_audit_trail rt calls :
  let tr := run rt calls constructor in
  (∀ t, t ∈ tracked tr →
     ∃ first rest, Task.phases t = first :: rest ∧
                   Phase.type first = "initialization") ∧
  (∀ c taskId t, activeTasks tr !! taskId = Some t → ¬ creates c taskId →
     ∃ t', t' ∈ tracked (call rt c tr) ∧ Task.id t' = Task.id t ∧
           Task.phases t `prefix_of` Task.phases t' ∧
           (length (Task.phases t) ≤ length (Task.phases t'))%nat ∧
           (¬ records c taskId → Task.errors t' = Task.errors t) ∧
           (records c taskId → ∃ e, Task.errors t' = Task.errors t ++ [e])) ∧
  (∀ c t, t ∈ completedTasks tr → ¬ cleans c →
     t ∈ completedTasks (call rt c tr)) ∧
  (∀ taskId description priority now,
     let t := (createTaskTracker taskId description priority now tr).2 in
     activeTasks (createTaskTracker taskId description priority now tr).1 !! taskId
     = Some t ∧
     Task.errors t = [] ∧ length (Task.phases t) = 1%nat).
Proof.
  intros tr.
  assert (TInv tr) as [Ha Hc] by apply run_inv, constructor_inv.
  split_and!.
  - intros t [[i Hi]|Hin]%elem_of_tracked; [by eapply Ha|].
    by eapply Forall_forall in Hc.
  - intros c taskId t Hl Hnc.
    assert (∃ t', t' ∈ tracked (call rt c tr) ∧ extends t t' ∧
                  (¬ records c taskId → Task.errors t' = Task.errors t) ∧
                  (records c taskId → ∃ e, Task.errors t' = Task.errors t ++ [e]))
      as (t' & Hin & [Hid Hpre] & Hsame & Hrec).
    { destruct (call_shape rt c tr)
        as [(i & f & Hf & Hs & ->)|[(i & f & now & Hf & Hs & Hnr & ->)|[(i & Hcr)|Hcl]]].
      - destruct (modify_carried i f tr taskId t Hf Hl) as (t' & Hl' & He & ->).
        eexists. split_and!; [|done| |].
        + apply elem_of_tracked. left. by exists taskId.
        + intros Hnot. case_decide; [subst i|done].
          destruct Hs as [[Hs _]|[? _]]; [apply Hs|done].
        + intros Hyes. destruct Hs as [[_ Hnone]|[Hi Hs]].
          * specialize (Hnone taskId Hyes). congruence.
          * rewrite decide_True by (by eapply records_same). apply Hs.
      - destruct (modify_carried i f tr taskId t Hf Hl) as (t' & Hl' & He & ->).
        eexists. split_and!; [by eapply completeTask_carried|done| |].
        + intros _. case_decide; [apply Hs|done].
        + intros Hyes. by destruct (Hnr taskId).
      - destruct c; try done. cbn [creates] in *. subst. cbn [call].
        destruct (createTaskTracker_active i description priority now tr)
          as (x & Hact & _).
        exists t. split_and!; [|apply extends_refl|done|done].
        apply elem_of_tracked. left.
        exists taskId. by rewrite Hact, lookup_insert_ne.
      - destruct c; try done. cbn [call]. exists t.
        split_and!; [|apply extends_refl|done|done].
        apply elem_of_tracked. left. by exists taskId. }
    exists t'. split_and!; try done. by apply prefix_length.
  - intros c t Hin Hncl.
    destruct (call_shape rt c tr)
      as [(i & f & Hf & _ & ->)|[(i & f & now & Hf & _ & _ & ->)|[(i & Hcr)|Hcl]]];
      try done.
    + by apply completeTask_archive.
    + destruct c; try done. cbn [creates] in *. subst. cbn [call].
      destruct (createTaskTracker_active i description priority now tr)
        as (x & _ & _ & -> & _). done.
  - intros taskId description priority now.
    destruct (createTaskTracker_active taskId description priority now tr)
      as (x & Hact & -> & _ & _ & Herr & phase & Hph & _).
    cbn zeta. rewrite Hact, lookup_insert_eq, Herr, Hph. done.
Qed.

Lemma phases_audit_trail_witness :
  ∃ t', t' ∈ tracked (call ReferenceRuntime.runtime
                        (RecordError "task_0" "timeout" None "traffic" 500)
                        (run ReferenceRuntime.runtime
                           [CreateTaskTracker "task_0" "demo" None 0] constructor)) ∧
        Task.id t' = Task.id TrackerScenario.created ∧
        Task.phases TrackerScenario.created `prefix_of` Task.phases t' ∧
        (length (Task.phases TrackerScenario.created) ≤ length (Task.phases t'))%nat ∧
        ∃ e, Task.errors t' = Task.errors TrackerScenario.created ++ [e].
Proof.
  destruct (proj1 (proj2 (phases_audit_trail ReferenceRuntime.runtime
              [CreateTaskTracker "task_0" "demo" None 0]))
              (RecordError "task_0" "timeout" None "traffic" 500)
              "task_0" TrackerScenario.created)
    as (t' & Hin & Hid & Hpre & Hlen & _ & Hrec).
  - vm_compute. reflexivity.
  - simpl. tauto.
  - exists t'. split_and!; [done..|]. by apply Hrec.
Defined.



(** *** Reports *)




(** C9, as stated, fails: after 180 completed tasks and then 20 failed
    ones, the success rate over the last 20 completed tasks is 0, below 90%,
    and the health score of the system report is still 100. *)
Lemma recent_failures_keep_score :
  less (recentSuccessRate TrackerScenario.lateFailures) (9 # 10) = true ∧
  SystemHealth.score
    (SystemReport.systemHealth
       (generateSystemStatusReport ReferenceRuntime.runtime 2000000 2000001 2000003
          TrackerScenario.lateFailures)) = 100.
Proof. by vm_compute. Qed.

Lemma assessSystemHealth_score systemData :
  SystemHealth.score (ReportGenerator.assessSystemHealth systemData)
  = Z.max (100 - penalties (SystemData.performanceMetrics systemData)) 0.
Proof.
  unfold ReportGenerator.assessSystemHealth, penalties.
  destruct (greater _ (1 # 10)), (greater _ 20000), (less _ (9 # 10)); reflexivity.
Qed.

Lemma penalties_range m : 0 ≤ penalties m ≤ 75.
Proof.
  unfold penalties.
  destruct (greater _ (1 # 10)), (greater _ 20000), (less _ (9 # 10)); lia.
Qed.

(** C9, amended. The health score of the system status report is 100 minus
    30 when the error rate exceeds 10%, minus 20 when the average execution
    time exceeds 20 seconds, minus 25 when the success rate is below 90%; it
    is never below 25. Both rates are taken over all the tasks counted in the
    metrics: the score is at most 75 whenever
    [successfulTasks / totalTasks] is below 90%. It is 100 for metrics that
    count no task, and for a tracker on which no task has run. *)
Theorem health_score rt stamp now now' systemData :
  let m := SystemData.performanceMetrics systemData in
  let score :=
    SystemHealth.score
      (SystemReport.systemHealth
         (ReportGenerator.generateSystemStatusReport rt now now' systemData)) in
  score = Z.max (100 - penalties m) 0 ∧
  25 ≤ score ≤ 100 ∧
  (less (cumulativeSuccessRate m) (9 # 10) = true → score ≤ 75) ∧
  (PerformanceMetrics.totalTasks m = 0 →
   PerformanceMetrics.successfulTasks m = 0 →
   PerformanceMetrics.failedTasks m = 0 →
   greater (PerformanceMetrics.averageExecutionTime m) 20000 = false →
   score = 100) ∧
  SystemHealth.score
    (SystemReport.systemHealth
       (generateSystemStatusReport rt stamp now now' constructor))
  = 100.
Proof.
  intros m score.
  assert (score = Z.max (100 - penalties m) 0) as Hscore
    by apply assessSystemHealth_score.
  pose proof (penalties_range m) as Hrange.
  split_and!; [done|lia|lia| | |reflexivity].
  - intros Hlow. rewrite Hscore. unfold penalties, cumulativeSuccessRate in *.
    fold m. rewrite Hlow.
    destruct (greater _ (1 # 10)), (greater _ 20000); lia.
  - intros H0 Hs Hf Havg. rewrite Hscore. unfold penalties.
    rewrite H0, Hs, Hf, Havg. reflexivity.
Qed.

Lemma health_score_witness :
  SystemHealth.score
    (SystemReport.systemHealth
       (ReportGenerator.generateSystemStatusReport ReferenceRuntime.runtime 0 0
          {| SystemData.activeTasks := [];
             SystemData.completedTasks := [];
             SystemData.performanceMetrics :=
               {| PerformanceMetrics.totalTasks := 10;
                  PerformanceMetrics.successfulTasks := 8;
                  PerformanceMetrics.failedTasks := 2;
                  PerformanceMetrics.averageExecutionTime := Finite 1000;
                  PerformanceMetrics.agentUtilization := ∅ |};
             SystemData.timestamp := 0;
             SystemData.systemStartTime := None |})) ≤ 75.
Proof.
  refine (proj1 (proj2 (proj2 (health_score ReferenceRuntime.runtime 0 0 0 _))) _).
  vm_compute. reflexivity.
Defined.

End TrackerFacts.

(** ** Numbers and lists *)

Module NumberFacts.

Lemma inject_Z_pos n : 0 < n → (0 < inject_Z n)%Q.
Proof. intros H. change 0%Q with (inject_Z 0). by rewrite <- Zlt_Qlt. Qed.

Lemma divide_by n a : n ≠ 0 → divide a (inject_Z n) = Finite (a / inject_Z n).
Proof.
  intros Hn. unfold divide.
  destruct (Qeq_bool (inject_Z n) 0) eqn:E; [|done].
  apply Qeq_bool_iff in E. unfold Qeq in E. simpl in E. lia.
Qed.

Lemma divide_finite a n : n ≠ 0 → ∃ q, divide a (inject_Z n) = Finite q.
Proof. intros Hn. rewrite divide_by by done. by eexists. Qed.

(** The comparison of a ratio of integers with a fraction. *)
Lemma ratio_le a t n d :
  0 < t → (inject_Z a / inject_Z t <= n # d)%Q ↔ a * Z.pos d ≤ n * t.
Proof.
  intros Ht. pose proof (inject_Z_pos t Ht) as Hpos. split.
  - intros H. apply (Qmult_le_compat_r _ _ (inject_Z t)) in H; [|by apply Qlt_le_weak].
    rewrite Qmult_comm, Qmult_div_r in H
      by (intros H0; rewrite H0 in Hpos; by apply Qlt_irrefl in Hpos).
    unfold Qle in H. simpl in H. lia.
  - intros H. apply Qle_shift_div_r; [done|].
    unfold Qle. simpl. lia.
Qed.

Lemma greater_ratio a t n d :
  0 < t →
  greater (divide (inject_Z a) (inject_Z t)) (n # d) = (n * t <? a * Z.pos d).
Proof.
  intros Ht. rewrite divide_by by lia. cbn [greater].
  destruct (Qle_bool _ _) eqn:E; cbn [negb]; symmetry.
  - apply Qle_bool_iff in E. apply (proj1 (ratio_le a t n d Ht)) in E.
    apply Z.ltb_ge. lia.
  - apply Z.ltb_lt.
    destruct (Z.lt_ge_cases (n * t) (a * Z.pos d)) as [?|Hge]; [done|].
    assert (Qle_bool (inject_Z a / inject_Z t) (n # d) = true); [|congruence].
    apply Qle_bool_iff. apply (proj2 (ratio_le a t n d Ht)). lia.
Qed.

Lemma ratio_ge a t n d :
  0 < t → (n # d <= inject_Z a / inject_Z t)%Q ↔ n * t ≤ a * Z.pos d.
Proof.
  intros Ht. pose proof (inject_Z_pos t Ht) as Hpos. split.
  - intros H. apply (Qmult_le_compat_r _ _ (inject_Z t)) in H; [|by apply Qlt_le_weak].
    rewrite (Qmult_comm (_ / _)), Qmult_div_r in H
      by (intros H0; rewrite H0 in Hpos; by apply Qlt_irrefl in Hpos).
    unfold Qle in H. simpl in H. lia.
  - intros H. apply Qle_shift_div_l; [done|].
    unfold Qle. simpl. lia.
Qed.

Lemma less_ratio a t n d :
  0 < t →
  less (divide (inject_Z a) (inject_Z t)) (n # d) = (a * Z.pos d <? n * t).
Proof.
  intros Ht. rewrite divide_by by lia. cbn [less].
  destruct (Qle_bool _ _) eqn:E; cbn [negb]; symmetry.
  - apply Qle_bool_iff in E. apply (proj1 (ratio_ge a t n d Ht)) in E.
    apply Z.ltb_ge. lia.
  - apply Z.ltb_lt.
    destruct (Z.lt_ge_cases (a * Z.pos d) (n * t)) as [?|Hge]; [done|].
    assert (Qle_bool (n # d) (inject_Z a / inject_Z t) = true); [|congruence].
    apply Qle_bool_iff. apply (proj2 (ratio_ge a t n d Ht)). lia.
Qed.

(** A share of [c] in [c + f], as a percentage. *)
Lemma rate_range (c f : Z) :
  0 ≤ c → 0 ≤ f → 0 < c + f →
  ∃ q, scale (divide (inject_Z c) (inject_Z (c + f))) 100 = Finite q ∧
       (0 <= q)%Q ∧ (q <= 100)%Q ∧ ((q == 100)%Q ↔ f = 0) ∧
       (0 < c → (0 < q)%Q).
Proof.
  intros Hc Hf Ht. rewrite divide_by by lia.
  eexists. split; [reflexivity|].
  pose proof (inject_Z_pos (c + f) Ht) as Hpos.
  assert (inject_Z c / inject_Z (c + f) <= 1)%Q as Hle.
  { apply Qle_shift_div_r; [done|]. rewrite Qmult_1_l, <- Zle_Qle. lia. }
  assert (0 <= inject_Z c / inject_Z (c + f))%Q as Hge.
  { apply Qle_shift_div_l; [done|]. rewrite Qmult_0_l.
    change 0%Q with (inject_Z 0). rewrite <- Zle_Qle. lia. }
  split_and!.
  - apply Qmult_le_0_compat; [done|]. unfold Qle; simpl; lia.
  - eapply Qle_trans; [apply Qmult_le_compat_r; [exact Hle|]|];
      unfold Qle; simpl; lia.
  - split.
    + intros Heq.
      assert (inject_Z c / inject_Z (c + f) == 1)%Q as H1.
      { apply (Qmult_inj_r _ _ 100); [|by rewrite Heq]. unfold Qeq; simpl; lia. }
      assert (inject_Z c == inject_Z (c + f))%Q as H2.
      { rewrite <- (Qmult_div_r (inject_Z c) (inject_Z (c + f))).
        - fold (Qdiv (inject_Z c) (inject_Z (c + f))). rewrite H1. ring.
        - intros H0. rewrite H0 in Hpos. by apply Qlt_irrefl in Hpos. }
      unfold Qeq in H2. simpl in H2. lia.
    + intros ->. rewrite Z.add_0_r.
      rewrite Z.add_0_r in Hpos.
      field. intros H0. rewrite H0 in Hpos. by apply Qlt_irrefl in Hpos.
  - intros Hcpos. apply Qmult_lt_0_compat; [|unfold Qlt; simpl; lia].
    apply Qlt_shift_div_l; [done|]. rewrite Qmult_0_l. by apply inject_Z_pos.
Qed.

End NumberFacts.

Module ListFacts.

Lemma filter_filter_implied {A} (f g : A → bool) l :
  (∀ x, g x = true → f x = true) →
  List.filter g (List.filter f l) = List.filter g l.
Proof.
  intros H. induction l as [|x l IH]; simpl; [done|].
  destruct (f x) eqn:Hf; simpl.
  - by rewrite IH.
  - destruct (g x) eqn:Hg; [|done]. apply H in Hg. congruence.
Qed.

Lemma elem_of_List_filter {A} (f : A → bool) l x :
  x ∈ List.filter f l ↔ x ∈ l ∧ f x = true.
Proof. by rewrite !list_elem_of_In, filter_In. Qed.

Lemma sublist_List_filter {A} (f : A → bool) l : List.filter f l `sublist_of` l.
Proof.
  induction l as [|x l IH]; simpl; [done|].
  destruct (f x); [by apply sublist_skip|by apply sublist_cons].
Qed.

Lemma filter_snoc {A} (f : A → bool) l x :
  List.filter f (l ++ [x]) = List.filter f l ++ (if f x then [x] else []).
Proof.
  induction l as [|y l IH]; simpl; [by destruct (f x)|].
  rewrite IH. by destruct (f y).
Qed.

Lemma filter_fmap {A B} (g : A → B) (f : B → bool) l :
  List.filter f (g <$> l) = g <$> List.filter (λ x, f (g x)) l.
Proof.
  induction l as [|x l IH]; [done|].
  rewrite fmap_cons. cbn [List.filter]. rewrite IH.
  destruct (f (g x)); by rewrite ?fmap_cons.
Qed.

Lemma filter_partition {A} (f : A → bool) l :
  List.filter f l ++ List.filter (λ x, negb (f x)) l ≡ₚ l.
Proof.
  induction l as [|x l IH]; simpl; [done|].
  destruct (f x); simpl.
  - by rewrite IH.
  - by rewrite <- Permutation_middle, IH.
Qed.

Lemma NoDup_List_filter {A} (f : A → bool) l : NoDup l → NoDup (List.filter f l).
Proof. intros H. eapply sublist_NoDup; [exact H|apply sublist_List_filter]. Qed.

Lemma sorted_strictly (l : list N) :
  NoDup l → StronglySorted N.le l → StronglySorted N.lt l.
Proof.
  intros Hnd Hs. induction Hs as [|x l Hs IH Hall]; [constructor|].
  apply NoDup_cons in Hnd as [Hx Hnd]. constructor; [by apply IH|].
  apply Forall_forall. intros y Hy.
  assert (x ≤ y)%N by (by eapply Forall_forall in Hall).
  assert (x ≠ y) by (by intros ->). lia.
Qed.

End ListFacts.

(** ** Plain objects *)

Module ObjectFacts.
Import ListFacts.

Lemma arrayIndex_Some key n : arrayIndex key = Some n → key = pretty n.
Proof.
  unfold arrayIndex. destruct (numeral key 0) as [m|]; [|done].
  destruct (_ <? _)%N; [|done]. cbn [andb].
  destruct (String.eqb_spec (pretty m) key); [|done]. by intros [= <-].
Qed.

Lemma assign_fresh {A} key (v : A) o :
  key ≠ "__proto__" → key ∉ o.*1 → assign key v o = o ++ [(key, v)].
Proof.
  intros Hkey Hfresh. unfold assign.
  destruct (String.eqb_spec key "__proto__"); [done|].
  assert (existsb (λ e : string * A, String.eqb e.1 key) o = false) as ->; [|done].
  apply not_true_is_false. intros (e & Hin & He%String.eqb_eq)%existsb_exists.
  apply Hfresh. rewrite <- He. apply list_elem_of_fmap. exists e.
  split; [done|]. by apply list_elem_of_In.
Qed.

(** The object that is filled under distinct names holds an entry for each
    of them but [__proto__], in their order. *)
Lemma fold_assign {A} (f : string → A) names :
  NoDup names →
  fold_left (λ o a, assign a (f a) o) names []
  = (λ a, (a, f a)) <$>
      List.filter (λ a, negb (String.eqb a "__proto__")) names.
Proof.
  induction names as [|a names IH] using rev_ind; intros Hnd; [done|].
  apply NoDup_app in Hnd as (Hnd & Hnotin & _).
  rewrite fold_left_app, filter_snoc, fmap_app. cbn [fold_left].
  rewrite IH by done. destruct (String.eqb_spec a "__proto__") as [->|Hne].
  - cbn. by rewrite app_nil_r.
  - cbn. apply assign_fresh; [done|].
    rewrite <- list_fmap_compose. intros Hin.
    apply list_elem_of_fmap in Hin as (b & -> & Hb%elem_of_List_filter).
    destruct Hb as [Hb _]. apply (Hnotin b Hb). by left.
Qed.

Lemma indexed_entries {A} (o : list (string * A)) :
  (omap (λ e, (λ n : N, (n, e)) <$> arrayIndex e.1) o).*2
  = List.filter (λ e, isIndex e.1) o ∧
  Forall (λ x : N * (string * A), arrayIndex x.2.1 = Some x.1)
    (omap (λ e, (λ n : N, (n, e)) <$> arrayIndex e.1) o).
Proof.
  induction o as [|e o [IH1 IH2]]; [by split; [|constructor]|].
  cbn [omap list_omap List.filter]. unfold isIndex at 1.
  destruct (arrayIndex e.1) as [n|] eqn:He; cbn [fmap option_fmap option_map].
  - split; [by rewrite fmap_cons, IH1|]. by constructor.
  - done.
Qed.

(** The entries an object shows are its own properties: those under array
    indices first, by ascending index, then the others as they were
    created. *)
Lemma ownEntries_shape {A} (o : list (string * A)) :
  NoDup o.*1 →
  ∃ indexed : list (N * (string * A)),
    ownEntries o = indexed.*2 ++ List.filter (λ e, negb (isIndex e.1)) o ∧
    indexed.*2 ≡ₚ List.filter (λ e, isIndex e.1) o ∧
    Forall (λ x, arrayIndex x.2.1 = Some x.1) indexed ∧
    StronglySorted N.lt indexed.*1.
Proof.
  intros Hnd.
  set (indexed := omap (λ e : string * A, (λ n : N, (n, e)) <$> arrayIndex e.1) o).
  destruct (indexed_entries o) as [Hfilter Hall]. fold indexed in Hfilter, Hall.
  pose proof (merge_sort_Permutation byIndex indexed) as Hperm.
  exists (merge_sort byIndex indexed). split_and!.
  - done.
  - by rewrite Hperm, Hfilter.
  - by rewrite Hperm.
  - assert (Forall (λ x : N * (string * A), arrayIndex x.2.1 = Some x.1)
              (merge_sort byIndex indexed)) as Hall' by (by rewrite Hperm).
    apply sorted_strictly.
    + assert (NoDup (merge_sort byIndex indexed).*2.*1) as Hkeys.
      { rewrite Hperm, Hfilter, <- (filter_fmap fst isIndex).
        by apply NoDup_List_filter. }
      revert Hkeys Hall'. generalize (merge_sort byIndex indexed).
      intros l. induction l as [|x l IH]; [constructor|].
      rewrite !fmap_cons. intros [Hx Hl]%NoDup_cons [Hax Hal]%Forall_cons.
      apply NoDup_cons. split; [|by apply IH].
      intros Hin. apply Hx. apply list_elem_of_fmap in Hin as (y & Hy & Hin).
      apply list_elem_of_fmap. exists y.2. split.
      * eapply Forall_forall in Hal; [|exact Hin].
        apply arrayIndex_Some in Hax, Hal. congruence.
      * apply list_elem_of_fmap. by exists y.
    + eapply (StronglySorted_fmap fst byIndex); [by intros x y|].
      apply StronglySorted_merge_sort.
      * intros x y z. unfold byIndex. lia.
      * intros x y. unfold byIndex. lia.
Qed.

End ObjectFacts.

(** ** The scheduler's books *)

Module SchedulerLedger.
Import TaskScheduler SchedulerSpec LedgerSpec SchedulerFacts NumberFacts.

(** *** Where the task objects are kept *)

Lemma placed_stays m m' l t t' :
  stays m m' l → status t' = status t → priority t' = priority t →
  placed m l t → placed m' l t'.
Proof.
  intros [Hq Hl Hc Hf] Hs Hp. unfold placed. rewrite Hs, Hp.
  destruct (status t); auto.
Qed.

Lemma stays_refl m l : stays m m l.
Proof. by constructor. Qed.

Lemma executing_keep s s' ls i c c' l :
  ls !! i = Some c → current c ≠ Some l ∨ current c' = Some l →
  executing {| sched := s; loops := ls |} l →
  executing {| sched := s'; loops := <[i := c']> ls |} l.
Proof.
  intros Hi Hc (c0 & Hin & Hcur). cbn [loops] in Hin.
  apply list_elem_of_lookup_1 in Hin as [j Hj].
  destruct (decide (i = j)) as [->|Hne].
  - assert (c0 = c) as -> by congruence.
    destruct Hc as [?|Hc]; [done|]. exists c'. split; [|done].
    eapply list_elem_of_lookup_2. apply list_lookup_insert_eq.
    by eapply lookup_lt_Some.
  - exists c0. split; [|done]. eapply list_elem_of_lookup_2.
    cbn [loops]. by rewrite list_lookup_insert_ne.
Qed.

(** One object is written; every other object stays where it is. *)
Lemma placed_touch s ls s' ls' x t0 t' :
  Placed {| sched := s; loops := ls |} →
  heap s !! x = Some t0 →
  heap s' = <[x := t']> (heap s) →
  (∀ l, l ≠ x → stays {| sched := s; loops := ls |} {| sched := s'; loops := ls' |} l) →
  placed {| sched := s'; loops := ls' |} x t' →
  Placed {| sched := s'; loops := ls' |}.
Proof.
  intros HP Hx Hheap Hstays Hplaced l t. cbn [sched]. rewrite Hheap. intros Hl.
  destruct (lookup_mutate _ _ _ _ _ _ Hx Hl) as [[-> ->]|[Hne Hold]]; [done|].
  eapply placed_stays; [by apply Hstays|done..|]. by apply HP.
Qed.

(** No object is written. *)
Lemma placed_same s ls s' ls' :
  Placed {| sched := s; loops := ls |} →
  heap s' = heap s →
  (∀ l, stays {| sched := s; loops := ls |} {| sched := s'; loops := ls' |} l) →
  Placed {| sched := s'; loops := ls' |}.
Proof.
  intros HP Hheap Hstays l t. cbn [sched]. rewrite Hheap. intros Hl.
  eapply placed_stays; [by apply Hstays|done..|]. by apply HP.
Qed.

Lemma placed_scheduleTask s ls task now fresh :
  Placed {| sched := s; loops := ls |} →
  Placed {| sched := (scheduleTask task now fresh s).1; loops := ls |}.
Proof.
  intros HP l t. cbn [sched].
  destruct (scheduleTask_heap task now fresh s)
    as (tn & Hheap & _ & Hst & _ & Hpr & _).
  destruct (scheduleTask_other task now fresh s)
    as (Hr & Hc & Hf & Ht & _). cbn zeta in *.
  rewrite Hheap. intros [[-> ->]|[Hlt Hl]]%lookup_alloc.
  - unfold placed. rewrite Hst, Hpr. cbn [sched].
    rewrite scheduleTask_queue, decide_True by done.
    apply elem_of_app. right. by left.
  - eapply placed_stays; [|done..|by apply HP]. constructor; cbn [sched].
    + intros p Hin. rewrite scheduleTask_queue. case_decide; [|done].
      apply elem_of_app. by left.
    + by intros (c & Hin & Hcur); exists c.
    + by rewrite Hc.
    + by rewrite Ht, Hf.
Qed.

Lemma elem_of_delete_other (ts : list (Z * nat)) k due x l :
  ts !! k = Some (due, x) → l ≠ x → l ∈ ts.*2 → l ∈ (delete k ts).*2.
Proof.
  intros Hk Hne ([d l'] & -> & Hin)%list_elem_of_fmap. cbn [snd] in *.
  apply list_elem_of_lookup_1 in Hin as [j Hj].
  apply list_elem_of_fmap. exists (d, l'). split; [done|].
  destruct (decide (j < k)%nat).
  - eapply list_elem_of_lookup_2. by rewrite list_lookup_delete_lt.
  - assert (j ≠ k) by (intros ->; congruence).
    apply (list_elem_of_lookup_2 _ (j - 1)).
    rewrite list_lookup_delete_ge by lia. rewrite <- Hj. f_equal. lia.
Qed.

Lemma placed_move cfg m m' : Inv cfg m → Placed m → move m m' → Placed m'.
Proof.
  intros HI HP Hmove.
  destruct Hmove as [s ls task now fresh|s ls k due l now fresh Hk|s ls b|s ls|
    s ls i c rest priority rest' task agents now Hi Hc Hscan|
    s ls i c task message now Hi Hc|s ls i rest task agent drawn Hi|
    s ls i rest task agent drawn resolved now Hi|s ls k key l now Hk|
    s ls i c c' Hi Hc Hc'].
  - by apply placed_scheduleTask.
  - assert (l ∈ (timers s).*2) as Hin.
    { apply list_elem_of_fmap. exists (due, l). split; [done|].
      by eapply list_elem_of_lookup_2. }
    destruct (inv_held _ _ HI l) as (t & Hl & Hst);
      [apply elem_of_held; cbn [sched]; by auto|]. cbn [sched] in Hl.
    unfold retry, update. cbn [heap set_timers]. rewrite Hl. cbn [heap set_heap].
    rewrite list_lookup_insert_eq by (by eapply lookup_lt_Some).
    apply placed_scheduleTask.
    apply (placed_touch s ls _ ls l t (set_status retrying t));
      [done|done|reflexivity| |done].
    intros x Hx. constructor; cbn [sched loops]; try done.
    cbn [timers failedTasks set_heap set_timers].
    intros [Ht|?]; [left|by right]. by eapply elem_of_delete_other.
  - apply (placed_same s ls); [done..|]. intros l. by constructor.
  - apply (placed_same s ls); [done..|]. intros l. constructor; try done.
    intros (c & Hin & Hcur). exists c. split; [|done]. apply elem_of_app. by left.
  - destruct (scan_Some _ _ _ _ _ Hscan) as (Hcan & [queue Hq] & _).
    destruct (inv_queue _ _ HI priority task) as (t & Hl & Hst & Hkey);
      [cbn [sched]; rewrite Hq; by left|]. cbn [sched] in Hl.
    assert (heap (shift priority s) !! task = Some t) as Hl' by done.
    destruct (executeTask_enter_effect agents task now _ t Hl')
      as (t' & Hh & Hs' & _ & _ & _ & _ & _ & _ & Hqs & _ & Hc' & Hf & Htm & _).
    set (r := executeTask_enter agents task now (shift priority s)) in *.
    assert (current c = None) as Hidle by (by destruct Hc as [->|[-> _]]).
    apply (placed_touch s ls _ _ task t t'); [done|done|exact Hh| |].
    + intros l Hne. constructor; cbn [sched loops].
      * intros p. rewrite (queue_of_queues _ _ _ Hqs), queue_of_shift.
        case_decide; [subst p|done]. rewrite Hq.
        intros [?|?]%elem_of_cons; [done|]. by cbn.
      * apply (executing_keep s _ ls i c); [done|]. left. by rewrite Hidle.
      * by rewrite Hc'.
      * by rewrite Htm, Hf.
    + unfold placed. rewrite Hs'. exists (Selecting (priority :: rest') task r.2).
      split; [|done]. cbn [loops]. eapply list_elem_of_lookup_2.
      apply list_lookup_insert_eq. by eapply lookup_lt_Some.
  - destruct (inv_held _ _ HI task) as (t & Hl & Hst).
    { apply elem_of_held. left. by eapply executing_lookup. }
    cbn [sched] in Hl.
    destruct (handleTaskFailure_effect task message now s t Hl)
      as (t' & Hh & Hs' & _ & _ & _ & _ & _ & Hq & _ & Hc' & _ & _ & Hcase).
    apply (placed_touch s ls _ _ task t t'); [done|done|exact Hh| |].
    + intros l Hne. constructor; cbn [sched loops].
      * intros p. by rewrite (queue_of_queues _ _ _ Hq).
      * apply (executing_keep s _ ls i c); [done|]. left. rewrite Hc. congruence.
      * by rewrite Hc'.
      * destruct Hcase as [(_ & -> & ->)|(_ & -> & ->)];
          rewrite ?fmap_app, ?elem_of_app; tauto.
    + unfold placed. rewrite Hs'. cbn [sched].
      destruct Hcase as [(_ & -> & _)|(_ & _ & ->)].
      * left. rewrite fmap_app. apply elem_of_app. right. by left.
      * right. apply elem_of_app. right. by left.
  - destruct (inv_held _ _ HI task) as (t & Hl & Hst).
    { apply elem_of_held. left. by eapply executing_lookup. }
    cbn [sched] in Hl.
    destruct (executeTask_assign_effect task agent s t Hl)
      as (t' & Hh & Hs' & _ & Hpr & _ & _ & Hq & _ & Hc' & Hf & Htm & _).
    assert (∀ l, stays {| sched := s; loops := ls |}
                   {| sched := executeTask_assign task agent s;
                      loops := <[i := Executing rest task agent drawn]> ls |} l)
      as Hstays.
    { intros l. constructor; cbn [sched loops].
      - intros p. by rewrite (queue_of_queues _ _ _ Hq).
      - apply (executing_keep s _ ls i (Selecting rest task (Some agent))); [done|].
        cbn [current]. destruct (decide (task = l)) as [->|?]; [by right|left].
        congruence.
      - by rewrite Hc'.
      - by rewrite Htm, Hf. }
    apply (placed_touch s ls _ _ task t t'); [done|done|exact Hh|by intros|].
    eapply placed_stays; [apply Hstays|done..|]. by apply HP.
  - destruct (inv_held _ _ HI task) as (t & Hl & Hst).
    { apply elem_of_held. left. by eapply executing_lookup. }
    cbn [sched] in Hl.
    destruct (executeTask_completed_effect task drawn resolved now s t Hl)
      as (t' & Hh & Hs' & _ & _ & _ & Hq & _ & Hc' & Hf & Htm & _).
    apply (placed_touch s ls _ _ task t t'); [done|done|exact Hh| |].
    + intros l Hne. constructor; cbn [sched loops].
      * intros p. by rewrite (queue_of_queues _ _ _ Hq).
      * apply (executing_keep s _ ls i (Executing rest task agent drawn)); [done|].
        left. cbn [current]. congruence.
      * rewrite Hc'. intros ?. apply elem_of_app. by left.
      * by rewrite Htm, Hf.
    + unfold placed. rewrite Hs'. cbn [sched]. rewrite Hc'.
      apply elem_of_app. right. by left.
  - destruct (inv_held _ _ HI l) as (t & Hl & Hst).
    { apply elem_of_held. right. left. cbn [sched].
      apply list_elem_of_fmap. exists (key, l). split; [done|].
      by eapply list_elem_of_lookup_2. }
    cbn [sched] in Hl.
    destruct (handleTaskFailure_effect l timeoutMessage now s t Hl)
      as (t' & Hh & Hs' & _ & _ & _ & _ & _ & Hq & _ & Hc' & _ & _ & Hcase).
    apply (placed_touch s ls _ _ l t t'); [done|done|exact Hh| |].
    + intros x Hne. constructor; cbn [sched loops].
      * intros p. by rewrite (queue_of_queues _ _ _ Hq).
      * done.
      * by rewrite Hc'.
      * destruct Hcase as [(_ & -> & ->)|(_ & -> & ->)];
          rewrite ?fmap_app, ?elem_of_app; tauto.
    + unfold placed. rewrite Hs'. cbn [sched].
      destruct Hcase as [(_ & -> & _)|(_ & _ & ->)].
      * left. rewrite fmap_app. apply elem_of_app. right. by left.
      * right. apply elem_of_app. right. by left.
  - apply (placed_same s ls); [done..|]. intros l. constructor; try done.
    apply (executing_keep s s ls i c); [done|]. left. by rewrite Hc.
Qed.

Lemma reachable_placed cfg m :
  0 ≤ maxConcurrentTasks cfg → reachable cfg m → Inv cfg m ∧ Placed m.
Proof.
  intros Hmax Hreach. induction Hreach as [|m m' _ [HI HP] [e He]].
  - split; [by apply inv_initial|]. by intros l t ?.
  - apply fire_moves in He. clear -HI HP He.
    induction He as [|m1 m2 m3 Hmove _ IH]; [done|].
    apply IH; [by eapply inv_move|by eapply placed_move].
Qed.

(** X7. The scheduler never loses a task, however many loops are under way.
    In every state it can reach, an object with status [queued] is in the
    queue of its priority, an object with status [running] is the task
    that some loop is executing, an object with status [completed] is in
    [completedTasks], and an object with status [failed] is waiting for
    its retry or is in [failedTasks]. *)
Theorem no_task_is_lost cfg m l t :
  0 ≤ maxConcurrentTasks cfg →
  reachable cfg m →
  heap (sched m) !! l = Some t →
  match status t with
  | queued => l ∈ queue_of (str_or (priority t) "medium") (sched m)
  | running => ∃ c, c ∈ loops m ∧ current c = Some l
  | completed => l ∈ completedTasks (sched m)
  | failed => l ∈ (timers (sched m)).*2 ∨ l ∈ failedTasks (sched m)
  | retrying => True
  end.
Proof.
  intros Hcfg Hreach Hl.
  destruct (reachable_placed cfg m Hcfg Hreach) as [_ HP]. by apply HP.
Qed.

Lemma no_task_is_lost_witness :
  status <$> heap (sched oneFailedOneRunning) = [failed; running] ∧
  (0%nat ∈ (timers (sched oneFailedOneRunning)).*2 ∨
   0%nat ∈ failedTasks (sched oneFailedOneRunning)) ∧
  ∃ c, c ∈ loops oneFailedOneRunning ∧ current c = Some 1%nat.
Proof.
  assert (0 ≤ maxConcurrentTasks (schedulerConfig constructor)) as Hmax
    by (vm_compute; discriminate).
  assert (reachable (schedulerConfig constructor) oneFailedOneRunning) as Hreach.
  { eapply reachable_run; [apply reachable_initial|].
    apply after_run. vm_compute. by eexists. }
  split; [reflexivity|]. split.
  - destruct (heap (sched oneFailedOneRunning) !! 0%nat) as [t|] eqn:Ht;
      [|by vm_compute in Ht].
    pose proof (no_task_is_lost _ _ 0%nat t Hmax Hreach Ht) as H.
    vm_compute in Ht. injection Ht as <-. exact H.
  - destruct (heap (sched oneFailedOneRunning) !! 1%nat) as [t|] eqn:Ht;
      [|by vm_compute in Ht].
    pose proof (no_task_is_lost _ _ 1%nat t Hmax Hreach Ht) as H.
    vm_compute in Ht. injection Ht as <-. exact H.
Defined.

(** *** One task a loop *)

Lemma filter_within {A} (f : A → bool) (h : list A) (refs : list nat) :
  (∀ l t, h !! l = Some t → f t = true → l ∈ refs) →
  (length (List.filter f h) ≤ length refs)%nat.
Proof.
  revert refs. induction h as [|t h IH] using rev_ind; intros refs Hin.
  { simpl. lia. }
  rewrite ListFacts.filter_snoc, length_app.
  assert (∀ refs', (∀ l t', h !! l = Some t' → f t' = true → l ∈ refs') →
                   (length (List.filter f h) ≤ length refs')%nat) as IH'
    by (intros refs'; apply IH).
  destruct (f t) eqn:Hf; simpl.
  - assert (length h ∈ refs) as Hlast.
    { apply (Hin _ t); [|done]. by apply list_lookup_middle. }
    apply list_elem_of_split in Hlast as (r1 & r2 & ->).
    rewrite length_app. simpl.
    specialize (IH' (r1 ++ r2)). rewrite length_app in IH'.
    enough (length (List.filter f h) ≤ length r1 + length r2)%nat by lia.
    apply IH'. intros l t' Hl Hft.
    assert (l ∈ r1 ++ length h :: r2) as Hmem.
    { apply (Hin _ t'); [|done]. by apply lookup_app_l_Some. }
    apply lookup_lt_Some in Hl.
    rewrite elem_of_app, elem_of_cons in Hmem. rewrite elem_of_app.
    destruct Hmem as [?|[->|?]]; [by left|lia|by right].
  - enough (length (List.filter f h) ≤ length refs)%nat by lia.
    apply IH'. intros l t' Hl Hft. apply (Hin _ t'); [|done].
    by apply lookup_app_l_Some.
Qed.

Lemma length_omap {A B} (f : A → option B) (l : list A) :
  (length (omap f l) ≤ length l)%nat.
Proof.
  induction l as [|x l IH]; [done|].
  change (omap f (x :: l))
    with (match f x with Some y => y :: omap f l | None => omap f l end).
  destruct (f x); cbn [length]; lia.
Qed.

(** X1. A loop executes one task at a time, whatever [maxConcurrentTasks]
    allows: [processQueues] awaits [executeTask] before it shifts the next
    task. In every state the scheduler can reach, the task objects with
    status [running] are no more than the loops that are executing a task,
    which are no more than the calls of [scheduleLoop] that were begun.
    With [start()] called once, at most one task is running. *)
Theorem one_task_a_loop cfg m :
  0 ≤ maxConcurrentTasks cfg →
  reachable cfg m →
  (runningCount (sched m) ≤ length (omap current (loops m)))%nat ∧
  (length (omap current (loops m)) ≤ length (loops m))%nat ∧
  ((length (loops m) ≤ 1)%nat → (runningCount (sched m) ≤ 1)%nat).
Proof.
  intros Hcfg Hreach.
  destruct (reachable_placed cfg m Hcfg Hreach) as [_ HP].
  assert (runningCount (sched m) ≤ length (omap current (loops m)))%nat as Hle.
  { apply filter_within. intros l t Hl Hrun.
    specialize (HP l t Hl). unfold placed in HP.
    unfold isRunningStatus in Hrun.
    destruct (status t); try discriminate Hrun.
    destruct HP as (c & Hc & Hcur).
    apply list_elem_of_omap. by exists c. }
  pose proof (length_omap current (loops m)). split_and!; [done..|lia].
Qed.

Lemma one_task_a_loop_witness :
  let m := Scenario.afterRestarts Scenario.boundOfTwo 3 in
  let single := oneFailedOneRunning in
  (runningCount (sched m) = 3%nat ∧ length (loops m) = 3%nat) ∧
  (status <$> heap (sched single) = [failed; running] ∧
   length (loops single) = 1%nat ∧
   (runningCount (sched single) ≤ 1)%nat).
Proof.
  cbn zeta. split; [split; vm_compute; reflexivity|].
  split; [reflexivity|]. split; [reflexivity|].
  refine (proj2 (proj2 (one_task_a_loop (schedulerConfig constructor)
                          oneFailedOneRunning _ _)) _).
  - vm_compute. discriminate.
  - eapply reachable_run; [apply reachable_initial|].
    apply after_run. vm_compute. by eexists.
  - vm_compute. lia.
Defined.

(** *** The entries of the running map *)

Lemma keys_map_set k v m x : x ∈ (map_set k v m).*1 → x = k ∨ x ∈ m.*1.
Proof.
  induction m as [|[k' v'] m IH]; simpl.
  - intros ->%list_elem_of_singleton. by left.
  - case_decide as Heq; simpl.
    + intros [->|Hx]%elem_of_cons; [by left|]. right. by right.
    + intros [->|Hx]%elem_of_cons; [right; by left|].
      destruct (IH Hx) as [->|?]; [by left|]. right. by right.
Qed.

Lemma keys_map_delete k m x : x ∈ (map_delete k m).*1 → x ∈ m.*1.
Proof.
  induction m as [|[k' v'] m IH]; simpl; [done|].
  case_decide; simpl.
  - intros Hx. by right.
  - intros [->|Hx]%elem_of_cons; [by left|]. right. by apply IH.
Qed.

Lemma NoDup_map_set k v m : NoDup m.*1 → NoDup (map_set k v m).*1.
Proof.
  induction m as [|[k' v'] m IH]; intros Hm; simpl.
  - apply NoDup_singleton.
  - apply NoDup_cons in Hm as [Hk Hm]. cbn [fst] in Hk.
    case_decide as Heq; simpl.
    + subst k'. by apply NoDup_cons.
    + apply NoDup_cons. split; [|by apply IH].
      intros [->|?]%keys_map_set; done.
Qed.

Lemma NoDup_map_delete k m : NoDup m.*1 → NoDup (map_delete k m).*1.
Proof.
  induction m as [|[k' v'] m IH]; intros Hm; simpl; [done|].
  apply NoDup_cons in Hm as [Hk Hm]. cbn [fst] in Hk.
  case_decide; simpl; [done|].
  apply NoDup_cons. split; [|by apply IH]. by intros ?%keys_map_delete.
Qed.

Lemma elem_of_map_set_pair k v m e :
  NoDup m.*1 → e ∈ map_set k v m → e = (k, v) ∨ (e ∈ m ∧ e.1 ≠ k).
Proof.
  induction m as [|[k' v'] m IH]; intros Hm; simpl.
  - intros ->%list_elem_of_singleton. by left.
  - apply NoDup_cons in Hm as [Hk Hm]. cbn [fst] in Hk.
    case_decide as Heq.
    + subst k'. intros [->|Hin]%elem_of_cons; [by left|].
      right. split; [by right|]. intros E. apply Hk.
      apply list_elem_of_fmap. by exists e.
    + intros [->|Hin]%elem_of_cons.
      * right. split; [by left|]. cbn. congruence.
      * destruct (IH Hm Hin) as [->|[? ?]]; [by left|].
        right. split; [by right|done].
Qed.

Lemma elem_of_map_delete_pair k m e :
  NoDup m.*1 → e ∈ map_delete k m → e ∈ m ∧ e.1 ≠ k.
Proof.
  induction m as [|[k' v'] m IH]; intros Hm; simpl.
  - by intros ?%elem_of_nil.
  - apply NoDup_cons in Hm as [Hk Hm]. cbn [fst] in Hk.
    case_decide as Heq.
    + subst k'. intros Hin. split; [by right|]. intros E. apply Hk.
      apply list_elem_of_fmap. by exists e.
    + intros [->|Hin]%elem_of_cons.
      * split; [by left|]. cbn. congruence.
      * destruct (IH Hm Hin) as [? ?]. split; [by right|done].
Qed.

(** One object is written. *)
Lemma mapped_touch s s' x t0 t' :
  Mapped s →
  heap s !! x = Some t0 →
  heap s' = <[x := t']> (heap s) →
  NoDup (runningTasks s').*1 →
  (∀ key l, (key, l) ∈ runningTasks s' →
     (l = x ∧ status t' = running ∧ id t' = key) ∨
     (l ≠ x ∧ (key, l) ∈ runningTasks s)) →
  (∀ l, l ∈ (timers s').*2 →
     (l = x ∧ status t' ≠ running) ∨ (l ≠ x ∧ l ∈ (timers s).*2)) →
  Mapped s'.
Proof.
  intros [Hk He Ht] Hx Hh Hk' He' Ht'. constructor; [done| |].
  - intros key l Hin. rewrite Hh.
    destruct (He' key l Hin) as [(-> & ? & ?)|[Hne Hold]].
    + exists t'. split; [|done].
      apply list_lookup_insert_eq. by eapply lookup_lt_Some.
    + destruct (He key l Hold) as (t & ? & ?). exists t.
      by rewrite list_lookup_insert_ne.
  - intros l Hin. rewrite Hh.
    destruct (Ht' l Hin) as [(-> & ?)|[Hne Hold]].
    + exists t'. split; [|done].
      apply list_lookup_insert_eq. by eapply lookup_lt_Some.
    + destruct (Ht l Hold) as (t & ? & ?). exists t.
      by rewrite list_lookup_insert_ne.
Qed.

(** An object is allocated. *)
Lemma mapped_alloc s s' t :
  Mapped s →
  heap s' = heap s ++ [t] →
  runningTasks s' = runningTasks s →
  timers s' = timers s →
  Mapped s'.
Proof.
  intros [Hk He Ht] Hh Hr Htm. constructor; rewrite ?Hr, ?Htm, ?Hh; [done| |].
  - intros key l Hin. destruct (He key l Hin) as (t1 & ? & ?).
    exists t1. split; [|done]. by apply lookup_app_l_Some.
  - intros l Hin. destruct (Ht l Hin) as (t1 & ? & ?).
    exists t1. split; [|done]. by apply lookup_app_l_Some.
Qed.

(** The execution of the task [x] ends: its entry is deleted. *)
Lemma mapped_end s s' x t t' :
  Mapped s →
  heap s !! x = Some t →
  heap s' = <[x := t']> (heap s) →
  status t' ≠ running →
  runningTasks s' = map_delete (id t) (runningTasks s) →
  (∀ l, l ∈ (timers s').*2 → l = x ∨ l ∈ (timers s).*2) →
  Mapped s'.
Proof.
  intros HM Hx Hh Hst Hr Htm.
  apply (mapped_touch s s' x t t'); [done..| | |].
  - rewrite Hr. apply NoDup_map_delete, (mapped_keys _ HM).
  - intros key l. rewrite Hr.
    intros [Hin Hkey]%elem_of_map_delete_pair; [|apply (mapped_keys _ HM)].
    right. split; [|done]. intros ->.
    destruct (mapped_entry _ HM key x Hin) as (t1 & Hx1 & _ & Hid).
    cbn [fst] in Hkey. congruence.
  - intros l Hl. destruct (decide (l = x)) as [->|Hne]; [by left|].
    right. split; [done|]. by destruct (Htm l Hl).
Qed.

Lemma mapped_move cfg m m' :
  Inv cfg m → Mapped (sched m) → move m m' → Mapped (sched m').
Proof.
  intros HI HM Hmove.
  destruct Hmove as [s ls task now fresh|s ls k due l now fresh Hk|s ls b|s ls|
    s ls i c rest priority rest' task agents now Hi Hc Hscan|
    s ls i c task message now Hi Hc|s ls i rest task agent drawn Hi|
    s ls i rest task agent drawn resolved now Hi|s ls k key l now Hk|
    s ls i c c' Hi Hc Hc']; cbn [sched] in *.
  - destruct (scheduleTask_heap task now fresh s) as (tn & Hheap & _).
    destruct (scheduleTask_other task now fresh s) as (Hr & _ & _ & Ht & _).
    by apply (mapped_alloc s _ tn).
  - assert (l ∈ (timers s).*2) as Hin.
    { apply list_elem_of_fmap. exists (due, l). split; [done|].
      by eapply list_elem_of_lookup_2. }
    destruct (mapped_timers _ HM l Hin) as (t & Hl & Hst).
    unfold retry, update. cbn [heap set_timers]. rewrite Hl. cbn [heap set_heap].
    rewrite list_lookup_insert_eq by (by eapply lookup_lt_Some).
    match goal with
    | |- Mapped (scheduleTask ?a ?b ?c ?d).1 =>
        destruct (scheduleTask_heap a b c d) as (tn & Hheap & _);
        destruct (scheduleTask_other a b c d) as (Hr & _ & _ & Ht & _);
        apply (mapped_alloc d _ tn); [|done..]
    end.
    apply (mapped_touch s _ l t (set_status retrying t)); [done|done|done|..].
    + apply (mapped_keys _ HM).
    + intros key x Hx. cbn [runningTasks set_heap set_timers] in Hx.
      right. split; [|done]. intros ->.
      destruct (mapped_entry _ HM key l Hx) as (t1 & Hl1 & Hrun & _).
      congruence.
    + intros x Hx. cbn [timers set_heap set_timers] in Hx.
      destruct (decide (x = l)) as [->|Hne]; [by left|].
      right. split; [done|]. rewrite list_fmap_delete in Hx.
      by eapply list_elem_of_delete_inv.
  - by destruct HM.
  - done.
  - destruct (scan_Some _ _ _ _ _ Hscan) as (Hcan & [queue Hq] & _).
    destruct (inv_queue _ _ HI priority task) as (t & Hl & Hst & Hkey);
      [cbn [sched]; rewrite Hq; by left|]. cbn [sched] in Hl.
    assert (heap (shift priority s) !! task = Some t) as Hl' by done.
    destruct (executeTask_enter_effect agents task now _ t Hl')
      as (t' & Hh & Hs' & Hid & _ & _ & _ & _ & _ & _ & Hr & _ & _ & Htm & _).
    set (r := executeTask_enter agents task now (shift priority s)) in *.
    apply (mapped_touch s r.1 task t t'); [done|done|exact Hh|..].
    + rewrite Hr. apply NoDup_map_set, (mapped_keys _ HM).
    + intros key l. rewrite Hr.
      intros [[= -> ->]|[Hin Hne]]%elem_of_map_set_pair;
        [by left| |apply (mapped_keys _ HM)].
      right. split; [|done]. intros ->.
      destruct (mapped_entry _ HM key task Hin) as (t1 & Hl1 & Hrun & _).
      congruence.
    + intros l. rewrite Htm. intros Hin. right. split; [|done]. intros ->.
      destruct (inv_held _ _ HI task) as (t1 & Hl1 & Hstarted);
        [apply elem_of_held; cbn [sched]; by auto|].
      cbn [sched] in Hl1. apply Hstarted. congruence.
  - destruct (inv_held _ _ HI task) as (t & Hl & Hst).
    { apply elem_of_held. left. by eapply executing_lookup. }
    cbn [sched] in Hl.
    destruct (handleTaskFailure_effect task message now s t Hl)
      as (t' & Hh & Hs' & _ & _ & _ & _ & _ & _ & Hr & _ & _ & _ & Hcase).
    apply (mapped_end s _ task t t'); [done|done|exact Hh| |exact Hr|].
    + by rewrite Hs'.
    + intros l. destruct Hcase as [(_ & -> & _)|(_ & -> & _)]; [|by right].
      rewrite fmap_app, elem_of_app.
      intros [?| ->%list_elem_of_singleton]; [by right|by left].
  - destruct (inv_held _ _ HI task) as (t & Hl & Hst).
    { apply elem_of_held. left. by eapply executing_lookup. }
    cbn [sched] in Hl.
    destruct (executeTask_assign_effect task agent s t Hl)
      as (t' & Hh & Hs' & Hid & _ & _ & _ & _ & Hr & _ & _ & Htm & _).
    apply (mapped_touch s _ task t t'); [done|done|exact Hh|..].
    + rewrite Hr. apply (mapped_keys _ HM).
    + intros key l. rewrite Hr. intros Hin.
      destruct (decide (l = task)) as [->|Hne]; [left|by right].
      destruct (mapped_entry _ HM key task Hin) as (t1 & Hl1 & Hrun & Hkey).
      assert (t1 = t) as -> by congruence. split_and!; congruence.
    + intros l. rewrite Htm. intros Hin.
      destruct (decide (l = task)) as [->|Hne]; [left|by right].
      destruct (mapped_timers _ HM task Hin) as (t1 & Hl1 & Hrun).
      assert (t1 = t) as -> by congruence. split; congruence.
  - destruct (inv_held _ _ HI task) as (t & Hl & Hst).
    { apply elem_of_held. left. by eapply executing_lookup. }
    cbn [sched] in Hl.
    destruct (executeTask_completed_effect task drawn resolved now s t Hl)
      as (t' & Hh & Hs' & _ & _ & _ & _ & Hr & _ & _ & Htm & _).
    apply (mapped_end s _ task t t'); [done|done|exact Hh| |exact Hr|].
    + by rewrite Hs'.
    + intros l. rewrite Htm. by right.
  - assert ((key, l) ∈ runningTasks s) as Hin
      by (by eapply list_elem_of_lookup_2).
    destruct (mapped_entry _ HM key l Hin) as (t & Hl & _).
    destruct (handleTaskFailure_effect l timeoutMessage now s t Hl)
      as (t' & Hh & Hs' & _ & _ & _ & _ & _ & _ & Hr & _ & _ & _ & Hcase).
    apply (mapped_end s _ l t t'); [done|done|exact Hh| |exact Hr|].
    + by rewrite Hs'.
    + intros x. destruct Hcase as [(_ & -> & _)|(_ & -> & _)]; [|by right].
      rewrite fmap_app, elem_of_app.
      intros [?| ->%list_elem_of_singleton]; [by right|by left].
  - done.
Qed.

Lemma reachable_mapped cfg m :
  0 ≤ maxConcurrentTasks cfg → reachable cfg m → Mapped (sched m).
Proof.
  intros Hmax Hreach.
  enough (Inv cfg m ∧ Mapped (sched m)) as [_ ?] by done.
  induction Hreach as [|m m' _ [HI HM] [e He]].
  - split; [by apply inv_initial|].
    constructor; cbn;
      [apply NoDup_nil_2|by intros ?? ?%elem_of_nil|by intros ? ?%elem_of_nil].
  - apply fire_moves in He. clear -HI HM He.
    induction He as [|m1 m2 m3 Hmove _ IH]; [done|].
    apply IH; [by eapply inv_move|by eapply mapped_move].
Qed.

(** X2. The entries of the running map, and what [checkRunningTasks] finds.
    In every state the scheduler can reach, the keys of the running map
    are distinct, and each entry is a task object with status [running],
    under its id, that some loop is executing. So while no loop is
    executing a task the map is empty and [checkRunningTasks] changes
    nothing; with [start()] called once, [checkRunningTasks] never fails
    a task, because the loop that calls it has awaited every execution. *)
Theorem running_map_entries cfg m :
  0 ≤ maxConcurrentTasks cfg →
  reachable cfg m →
  NoDup (runningTasks (sched m)).*1 ∧
  (∀ key l, (key, l) ∈ runningTasks (sched m) →
     (∃ t, heap (sched m) !! l = Some t ∧ status t = running ∧ id t = key) ∧
     ∃ c, c ∈ loops m ∧ current c = Some l) ∧
  (Forall idle (loops m) →
   runningTasks (sched m) = [] ∧
   ∀ now, checkRunningTasks now (sched m) = sched m) ∧
  ((length (loops m) ≤ 1)%nat →
   ∀ i k now, fire (TimeOut i k now) m = None).
Proof.
  intros Hcfg Hreach.
  pose proof (reachable_mapped cfg m Hcfg Hreach) as HM.
  destruct (reachable_placed cfg m Hcfg Hreach) as [_ HP].
  assert (∀ key l, (key, l) ∈ runningTasks (sched m) →
            (∃ t, heap (sched m) !! l = Some t ∧ status t = running ∧ id t = key) ∧
            ∃ c, c ∈ loops m ∧ current c = Some l) as Hentry.
  { intros key l Hin.
    destruct (mapped_entry _ HM key l Hin) as (t & Hl & Hrun & Hid).
    split; [by exists t|]. specialize (HP l t Hl). unfold placed in HP.
    by rewrite Hrun in HP. }
  assert (Forall idle (loops m) → runningTasks (sched m) = []) as Hempty.
  { intros Hidle. destruct (runningTasks (sched m)) as [|[key l] rest] eqn:E;
      [done|].
    destruct (Hentry key l) as [_ (c & Hc & Hcur)]; [by left|].
    rewrite Forall_forall in Hidle. apply Hidle, idle_current in Hc. congruence. }
  split_and!; [apply (mapped_keys _ HM)|exact Hentry| |].
  - intros Hidle. split; [by apply Hempty|]. intros now.
    apply checkRunningTasks_idle. by apply Hempty.
  - intros Hone i k now. unfold fire.
    destruct (loops m !! i) as [c|] eqn:Hi; [|done].
    destruct c; try done.
    rewrite Hempty; [done|].
    destruct (loops m) as [|c0 [|c1 ls]]; simpl in Hone; [done| |lia].
    destruct i as [|i]; [|done]. cbn in Hi. injection Hi as ->.
    by apply Forall_singleton.
Qed.

Lemma running_map_entries_witness :
  (runningTasks (sched oneFailedOneRunning) = [(Some "t2", 1%nat)] ∧
   (∃ t, heap (sched oneFailedOneRunning) !! 1%nat = Some t ∧
         status t = running ∧ id t = Some "t2") ∧
   (∃ c, c ∈ loops oneFailedOneRunning ∧ current c = Some 1%nat) ∧
   ∀ i k now, fire (TimeOut i k now) oneFailedOneRunning = None) ∧
  (length (loops secondLoopChecks) = 2%nat ∧
   status <$> heap (sched secondLoopChecks) = [running] ∧
   ∃ m', fire (TimeOut 1 0 300012) secondLoopChecks = Some m' ∧
         status <$> heap (sched m') = [failed]).
Proof.
  assert (0 ≤ maxConcurrentTasks (schedulerConfig constructor)) as Hmax
    by (vm_compute; discriminate).
  assert (reachable (schedulerConfig constructor) oneFailedOneRunning) as Hreach.
  { eapply reachable_run; [apply reachable_initial|].
    apply after_run. vm_compute. by eexists. }
  destruct (running_map_entries _ _ Hmax Hreach) as (_ & Hentry & _ & Hone).
  split.
  - split; [reflexivity|].
    destruct (Hentry (Some "t2") 1%nat) as [Ht Hc]; [vm_compute; by left|].
    split_and!; [exact Ht|exact Hc|]. apply Hone. vm_compute. lia.
  - split; [reflexivity|]. split; [reflexivity|].
    eexists. split; [vm_compute; reflexivity|reflexivity].
Defined.

(** *** What the task objects carry *)

Lemma grows_refl t : grows t t.
Proof. by constructor. Qed.

Lemma grows_entered c t t' : grows t t' → entered c t → entered c t'.
Proof. intros [Hs _ _ Ha]. destruct c; cbn; [done| |by intros [? ?]; auto|done..]. auto. Qed.

Lemma grows_finished t t' : grows t t' → finished t → finished t'.
Proof. intros [? ? ? ?] [? ? ? ?]. constructor; auto. Qed.

(** One object grows; what the loops of [ls'] execute is entered. *)
Lemma carried_touch s ls s' ls' x t0 t' :
  Carried {| sched := s; loops := ls |} →
  heap s !! x = Some t0 → grows t0 t' →
  heap s' = <[x := t']> (heap s) →
  (∀ c l, c ∈ ls' → current c = Some l →
     (c ∈ ls) ∨ (l = x ∧ entered c t')) →
  (∀ l, l ∈ completedTasks s' → l ∈ completedTasks s ∨ (l = x ∧ finished t')) →
  Carried {| sched := s'; loops := ls' |}.
Proof.
  intros [Hloops Hcompleted] Hx Hgrows Hheap Hls Hcs.
  assert (∀ l t, heap s !! l = Some t →
            ∃ t1, heap s' !! l = Some t1 ∧ grows t t1) as Hkeep.
  { intros l t Hl. rewrite Hheap. destruct (decide (x = l)) as [->|Hne].
    - exists t'. split; [|congruence].
      apply list_lookup_insert_eq. by eapply lookup_lt_Some.
    - exists t. split; [by rewrite list_lookup_insert_ne|apply grows_refl]. }
  constructor; cbn [sched loops] in *.
  - intros c l Hc Hcur. destruct (Hls c l Hc Hcur) as [Hold|[-> He]].
    + destruct (Hloops c l Hold Hcur) as (t & Hl & Hen).
      destruct (Hkeep l t Hl) as (t1 & Hl1 & Hg). exists t1.
      split; [done|]. by eapply grows_entered.
    + exists t'. split; [|done]. rewrite Hheap.
      apply list_lookup_insert_eq. by eapply lookup_lt_Some.
  - intros l Hl. destruct (Hcs l Hl) as [Hold|[-> Hf]].
    + destruct (Hcompleted l Hold) as (t & Ht & Hfin).
      destruct (Hkeep l t Ht) as (t1 & Hl1 & Hg). exists t1.
      split; [done|]. by eapply grows_finished.
    + exists t'. split; [|done]. rewrite Hheap.
      apply list_lookup_insert_eq. by eapply lookup_lt_Some.
Qed.

Lemma carried_same s ls s' ls' :
  Carried {| sched := s; loops := ls |} →
  heap s' = heap s → completedTasks s' = completedTasks s →
  (∀ c l, c ∈ ls' → current c = Some l → c ∈ ls) →
  Carried {| sched := s'; loops := ls' |}.
Proof.
  intros [Hloops Hcompleted] Hheap Hc Hls. constructor; cbn [sched loops] in *.
  - intros c l Hin Hcur. rewrite Hheap. apply Hloops; [by eapply Hls|done].
  - by rewrite Hheap, Hc.
Qed.

Lemma carried_scheduleTask s ls task now fresh :
  Carried {| sched := s; loops := ls |} →
  Carried {| sched := (scheduleTask task now fresh s).1; loops := ls |}.
Proof.
  intros [Hloops Hcompleted].
  destruct (scheduleTask_heap task now fresh s) as (tn & Hheap & _).
  destruct (scheduleTask_other task now fresh s) as (_ & Hc & _). cbn zeta in *.
  constructor; cbn [sched loops] in *.
  - intros c l Hin Hcur. destruct (Hloops c l Hin Hcur) as (t & Hl & He).
    exists t. split; [|done]. rewrite Hheap, lookup_app_l; [done|].
    by eapply lookup_lt_Some.
  - rewrite Hheap, Hc. by apply all_at_alloc.
Qed.

Lemma loops_kept (ls : list Pc) i c' c l :
  current c' = None → c ∈ <[i := c']> ls → current c = Some l → c ∈ ls.
Proof. intros Hc' [->|?]%elem_of_insert_inv Hcur; [congruence|done]. Qed.

Lemma handleTaskFailure_grows l message now s t t' :
  heap s !! l = Some t →
  heap (handleTaskFailure l message now s) = <[l := t']> (heap s) →
  grows t t'.
Proof.
  intros Hl Hheap.
  assert (heap (handleTaskFailure l message now s) !! l = Some t') as Hl'.
  { rewrite Hheap. apply list_lookup_insert_eq. by eapply lookup_lt_Some. }
  unfold handleTaskFailure in Hl'. rewrite Hl in Hl'. cbn zeta in Hl'.
  destruct (canRetry _); cbn in Hl';
    rewrite list_lookup_insert_eq in Hl' by (by eapply lookup_lt_Some);
    injection Hl' as <-; constructor; cbn; by eauto.
Qed.

Lemma carried_move cfg m m' : Inv cfg m → Carried m → move m m' → Carried m'.
Proof.
  intros HI HC Hmove.
  destruct Hmove as [s ls task now fresh|s ls k due l now fresh Hk|s ls b|s ls|
    s ls i c rest priority rest' task agents now Hi Hc Hscan|
    s ls i c task message now Hi Hc|s ls i rest task agent drawn Hi|
    s ls i rest task agent drawn resolved now Hi|s ls k key l now Hk|
    s ls i c c' Hi Hc Hc'].
  - by apply carried_scheduleTask.
  - assert (l ∈ (timers s).*2) as Hin.
    { apply list_elem_of_fmap. exists (due, l). split; [done|].
      by eapply list_elem_of_lookup_2. }
    destruct (inv_held _ _ HI l) as (t & Hl & Hst);
      [apply elem_of_held; cbn [sched]; by auto|]. cbn [sched] in Hl.
    unfold retry, update. cbn [heap set_timers]. rewrite Hl. cbn [heap set_heap].
    rewrite list_lookup_insert_eq by (by eapply lookup_lt_Some).
    apply carried_scheduleTask.
    apply (carried_touch s ls _ ls l t (set_status retrying t));
      [done|done|by constructor|reflexivity|by left; auto|by left].
  - by apply (carried_same s ls).
  - apply (carried_same s ls); [done..|].
    intros c l [?| ->%list_elem_of_singleton]%elem_of_app; done.
  - destruct (scan_Some _ _ _ _ _ Hscan) as (Hcan & [queue Hq] & _).
    destruct (inv_queue _ _ HI priority task) as (t & Hl & Hst & Hkey);
      [cbn [sched]; rewrite Hq; by left|]. cbn [sched] in Hl.
    assert (heap (shift priority s) !! task = Some t) as Hl' by done.
    destruct (executeTask_enter_effect agents task now _ t Hl')
      as (t' & Hh & _ & _ & _ & _ & _ & _ & Hstart & _ & _ & Hc' & _).
    set (r := executeTask_enter agents task now (shift priority s)) in *.
    assert (heap r.1 !! task = Some t') as Ht'.
    { rewrite Hh. apply list_lookup_insert_eq. by eapply lookup_lt_Some. }
    assert (grows t t') as Hg.
    { unfold r, executeTask_enter, update in Ht'. rewrite Hl' in Ht'.
      cbn [heap set_heap] in Ht'.
      rewrite list_lookup_insert_eq in Ht' by (by eapply lookup_lt_Some).
      cbn in Ht'. rewrite list_lookup_insert_eq in Ht' by (by eapply lookup_lt_Some).
      injection Ht' as <-. constructor; cbn; by eauto. }
    apply (carried_touch s ls _ _ task t t'); [done|done|done|exact Hh| |].
    + intros c0 l [->|?]%elem_of_insert_inv Hcur; [|by left].
      right. cbn in Hcur. injection Hcur as <-. split; [done|].
      cbn. by rewrite Hstart.
    + intros l. rewrite Hc'. by left.
  - destruct (inv_held _ _ HI task) as (t & Hl & Hst).
    { apply elem_of_held. left. by eapply executing_lookup. }
    cbn [sched] in Hl.
    destruct (handleTaskFailure_effect task message now s t Hl)
      as (t' & Hh & _ & _ & _ & _ & _ & _ & _ & _ & Hc' & _).
    apply (carried_touch s ls _ _ task t t');
      [done|done|by eapply handleTaskFailure_grows|exact Hh| |].
    + intros c0 l Hin Hcur. left.
      by apply (loops_kept ls i (Polling (remaining c)) c0 l).
    + intros l. rewrite Hc'. by left.
  - destruct (inv_held _ _ HI task) as (t & Hl & Hst).
    { apply elem_of_held. left. by eapply executing_lookup. }
    cbn [sched] in Hl.
    destruct (executeTask_assign_fields task agent s t Hl)
      as (t' & Hh & _ & Hstart & Hend & Hres & Hag).
    destruct (executeTask_assign_effect task agent s t Hl)
      as (_ & _ & _ & _ & _ & _ & _ & _ & _ & Hc' & _).
    destruct (carried_loops _ HC (Selecting rest task (Some agent)) task)
      as (t0 & Hl0 & He0); [by eapply list_elem_of_lookup_2|done|].
    cbn [sched] in Hl0. assert (t0 = t) as -> by congruence. cbn in He0.
    apply (carried_touch s ls _ _ task t t'); [done|done| |exact Hh| |].
    + constructor; rewrite ?Hstart, ?Hend, ?Hres, ?Hag; by eauto.
    + intros c0 l [->|?]%elem_of_insert_inv Hcur; [|by left].
      right. cbn in Hcur. injection Hcur as <-. split; [done|].
      cbn. rewrite Hstart, Hag. by eauto.
    + intros l. rewrite Hc'. by left.
  - destruct (inv_held _ _ HI task) as (t & Hl & Hst).
    { apply elem_of_held. left. by eapply executing_lookup. }
    cbn [sched] in Hl.
    destruct (executeTask_completed_effect task drawn resolved now s t Hl)
      as (t' & Hh & _ & _ & _ & _ & _ & _ & Hc' & _).
    destruct (carried_loops _ HC (Executing rest task agent drawn) task)
      as (t0 & Hl0 & He0); [by eapply list_elem_of_lookup_2|done|].
    cbn [sched] in Hl0. assert (t0 = t) as -> by congruence.
    destruct He0 as [Hstart Hag].
    assert (heap (executeTask_completed task drawn resolved now s) !! task = Some t')
      as Ht'.
    { rewrite Hh. apply list_lookup_insert_eq. by eapply lookup_lt_Some. }
    unfold executeTask_completed in Ht'. rewrite Hl in Ht'. cbn in Ht'.
    rewrite list_lookup_insert_eq in Ht' by (by eapply lookup_lt_Some).
    injection Ht' as Ht'.
    apply (carried_touch s ls _ _ task t t'); [done|done| |exact Hh| |].
    + rewrite <- Ht'. constructor; cbn; by eauto.
    + intros c0 l Hin Hcur. left.
      by apply (loops_kept ls i (Polling rest) c0 l).
    + intros l. rewrite Hc'. intros [?| ->%list_elem_of_singleton]%elem_of_app;
        [by left|right]. split; [done|].
      rewrite <- Ht'. constructor; cbn; by eauto.
  - destruct (inv_held _ _ HI l) as (t & Hl & Hst).
    { apply elem_of_held. right. left. cbn [sched].
      apply list_elem_of_fmap. exists (key, l). split; [done|].
      by eapply list_elem_of_lookup_2. }
    cbn [sched] in Hl.
    destruct (handleTaskFailure_effect l timeoutMessage now s t Hl)
      as (t' & Hh & _ & _ & _ & _ & _ & _ & _ & _ & Hc' & _).
    apply (carried_touch s ls _ _ l t t');
      [done|done|by eapply handleTaskFailure_grows|exact Hh|by left; auto|].
    intros x. rewrite Hc'. by left.
  - apply (carried_same s ls); [done..|].
    intros c0 l Hin Hcur. apply (loops_kept ls i c' c0 l); [|done..].
    by apply idle_current.
Qed.

Lemma reachable_carried cfg m :
  0 ≤ maxConcurrentTasks cfg → reachable cfg m → Inv cfg m ∧ Carried m.
Proof.
  intros Hmax Hreach. induction Hreach as [|m m' _ [HI HC] [e He]].
  - split; [by apply inv_initial|]. constructor.
    + by intros c l ?%elem_of_nil.
    + by intros l ?%elem_of_nil.
  - apply fire_moves in He. clear -HI HC He.
    induction He as [|m1 m2 m3 Hmove _ IH]; [done|].
    apply IH; [by eapply inv_move|by eapply carried_move].
Qed.

Lemma fold_addTime (h : list Task) refs acc :
  all_at h finished refs →
  ∃ total, fold_left (λ sum task, addTime sum (h !! task ≫= executionTimeOf))
             refs (Some acc) = Some total.
Proof.
  revert acc. induction refs as [|l refs IH]; intros acc Hall; simpl; [by eexists|].
  destruct (Hall l) as (t & Hl & [[b Hb] [e He] _ _]); [by left|].
  rewrite Hl. cbn. unfold executionTimeOf. rewrite Hb, He. cbn.
  apply IH. intros x Hx. apply Hall. by right.
Qed.

(** X4. In every state the scheduler can reach, with any number of loops,
    every member of [completedTasks] is an object that carries a start
    time, an end time, a result and an assigned agent: a loop pushes a task
    there after it has entered [executeTask] for it, has assigned an agent
    and has seen [runTask] resolve, and these fields are never unset. So
    [getAverageExecutionTime] is a finite number, never [NaN], in every
    such state. *)
Theorem completed_tasks_are_final cfg m :
  0 ≤ maxConcurrentTasks cfg →
  reachable cfg m →
  (∀ l, l ∈ completedTasks (sched m) →
     ∃ t, heap (sched m) !! l = Some t ∧
          is_Some (startTime t) ∧ is_Some (endTime t) ∧
          is_Some (result t) ∧ is_Some (assignedAgent t)) ∧
  ∃ average, getAverageExecutionTime (sched m) = Finite average.
Proof.
  intros Hcfg Hreach.
  destruct (reachable_carried cfg m Hcfg Hreach) as [_ [_ Hcom]].
  split.
  - intros l Hin. destruct (Hcom l Hin) as (t & Hl & [? ? ? ?]). by exists t.
  - unfold getAverageExecutionTime.
    set (recent := drop _ (completedTasks (sched m))).
    destruct recent as [|l recent'] eqn:Hrec; [by eexists|].
    rewrite <- Hrec.
    destruct (fold_addTime (heap (sched m)) recent 0) as (total & ->).
    + eapply all_at_sublist; [|exact Hcom]. apply subseteq_drop.
    + apply divide_finite. rewrite Hrec. simpl. lia.
Qed.

Lemma completed_tasks_are_final_witness :
  completedTasks (sched oneCompleted) = [0%nat] ∧
  getAverageExecutionTime (sched oneCompleted) = Finite 2002 ∧
  ∃ average, getAverageExecutionTime (sched oneCompleted) = Finite average.
Proof.
  split; [reflexivity|]. split; [reflexivity|].
  refine (proj2 (completed_tasks_are_final (schedulerConfig constructor)
            oneCompleted _ _)).
  - vm_compute. discriminate.
  - eapply reachable_run; [apply reachable_initial|].
    apply after_run. vm_compute. by eexists.
Defined.

(** *** Statistics *)

(** X5. [getTaskStats] counts the tasks that ended: [total] is [completed] plus
    [failed]; the success rate is a finite number between 0 and 100, and it
    is 100 exactly when no task has reached [failedTasks], in particular when
    no task has ended at all. *)
Theorem getTaskStats_successRate s :
  let stats := getTaskStats s in
  TaskStats.completed stats = Z.of_nat (length (completedTasks s)) ∧
  TaskStats.failed stats = Z.of_nat (length (failedTasks s)) ∧
  TaskStats.total stats = TaskStats.completed stats + TaskStats.failed stats ∧
  ∃ rate, TaskStats.successRate stats = Finite rate ∧
          (0 <= rate)%Q ∧ (rate <= 100)%Q ∧
          ((rate == 100)%Q ↔ failedTasks s = []).
Proof.
  cbn zeta. split_and!; [reflexivity..|].
  unfold getTaskStats. cbn [TaskStats.successRate].
  set (c := Z.of_nat (length (completedTasks s))).
  set (f := Z.of_nat (length (failedTasks s))).
  assert (f = 0 ↔ failedTasks s = []) as Hnil.
  { unfold f. destruct (failedTasks s); simpl; [done|]. split; [lia|done]. }
  destruct (Z.gtb_spec (c + f) 0) as [Hpos|Hzero].
  - destruct (rate_range c f) as (q & -> & ? & ? & Hq & _); [lia..|].
    exists q. split_and!; try done. by rewrite Hq.
  - exists 100%Q. split_and!; try done.
    split; [|done]. intros _. apply Hnil. lia.
Qed.

(** *** One call of processQueues, continued *)

Lemma executeTask_heap agents run l s t :
  heap s !! l = Some t →
  ∃ t', heap (executeTask agents run l s) = <[l := t']> (heap s) ∧
        (status t' = completed ∨ status t' = failed).
Proof.
  intros Hl. unfold executeTask.
  destruct (executeTask_enter_effect agents l (enteredAt run) s t Hl)
    as (t1 & Hh1 & _). cbn zeta in Hh1.
  destruct (executeTask_enter agents l (enteredAt run) s) as [s1 choice].
  cbn [fst] in Hh1.
  assert (heap s1 !! l = Some t1) as Hl1.
  { rewrite Hh1. apply list_lookup_insert_eq. by eapply lookup_lt_Some. }
  destruct choice as [agent|].
  - destruct (executeTask_assign_effect l agent s1 t1 Hl1) as (t2 & Hh2 & _).
    cbn zeta in Hh2.
    assert (heap (executeTask_assign l agent s1) !! l = Some t2) as Hl2.
    { rewrite Hh2. apply list_lookup_insert_eq. by eapply lookup_lt_Some. }
    destruct (succeeds run).
    + destruct (executeTask_completed_effect l (drawnTime run) (resolvedAt run)
                  (settledAt run) _ t2 Hl2) as (t3 & Hh3 & Hs3 & _).
      cbn zeta in Hh3. exists t3. split; [|by left].
      by rewrite Hh3, Hh2, Hh1, !list_insert_insert_eq.
    + destruct (handleTaskFailure_effect l runFailedMessage (settledAt run)
                  _ t2 Hl2) as (t3 & Hh3 & Hs3 & _).
      cbn zeta in Hh3. exists t3. split; [|by right].
      by rewrite Hh3, Hh2, Hh1, !list_insert_insert_eq.
  - destruct (handleTaskFailure_effect l noAgentMessage (enteredAt run)
                _ t1 Hl1) as (t3 & Hh3 & Hs3 & _).
    cbn zeta in Hh3. exists t3. split; [|by right].
    by rewrite Hh3, Hh1, !list_insert_insert_eq.
Qed.

Lemma executeTask_ended agents run l p s x :
  is_Some (heap s !! l) →
  x = l ∨ ended (heap s) x →
  ended (heap (executeTask agents run l (shift p s))) x ∧
  length (heap (executeTask agents run l (shift p s))) = length (heap s).
Proof.
  intros [t Hl] Hx.
  destruct (executeTask_heap agents run l (shift p s) t Hl) as (t' & -> & Hst).
  split; [|by rewrite length_insert]. cbn [heap shift set_queues].
  destruct (decide (l = x)) as [->|Hne].
  - exists t'. split; [|done].
    apply list_lookup_insert_eq. by eapply lookup_lt_Some.
  - destruct Hx as [->|(tx & Htx & Hsx)]; [done|]. exists tx.
    by rewrite list_lookup_insert_ne.
Qed.

Lemma drain_ended fuel agents world p s :
  (∀ x, x ∈ queue_of p s → is_Some (heap s !! x)) →
  let r := drain fuel agents world p s in
  length (heap r.1) = length (heap s) ∧
  ∀ x, x ∈ r.2 ∨ ended (heap s) x → ended (heap r.1) x.
Proof.
  revert s. induction fuel as [|fuel IH]; intros s Hvalid; simpl.
  - split; [done|]. by intros x [?%elem_of_nil|?].
  - destruct (queue_of p s) as [|task q] eqn:Hq.
    { split; [done|]. by intros x [?%elem_of_nil|?]. }
    destruct (canExecuteMoreTasks s).
    2: { split; [done|]. by intros x [?%elem_of_nil|?]. }
    cbn [fst snd].
    assert (is_Some (heap s !! task)) as Htask by (apply Hvalid; by left).
    destruct (IH (executeTask agents (world task) task (shift p s))) as [Hlen Hall].
    { intros x. rewrite queue_of_executeTask, decide_True, Hq by done. cbn.
      rewrite drop_0. intros Hx.
      destruct (executeTask_ended agents (world task) task p s task Htask)
        as [_ Hl]; [by left|].
      apply lookup_lt_is_Some. rewrite Hl. apply lookup_lt_is_Some.
      apply Hvalid. by right. }
    destruct (executeTask_ended agents (world task) task p s task Htask)
      as [_ Hl]; [by left|].
    split; [by rewrite Hlen|]. intros x Hx. apply Hall.
    destruct Hx as [[->|Hx]%elem_of_cons|Hx]; [right| by left|right].
    + by apply executeTask_ended; [|left].
    + by apply executeTask_ended; [|right].
Qed.

Lemma pass_ended agents world ps acc :
  (∀ p x, p ∈ ps → x ∈ queue_of p acc.1 → is_Some (heap acc.1 !! x)) →
  (∀ x, x ∈ acc.2 → ended (heap acc.1) x) →
  let r :=
    foldl (λ acc priority,
             let r := drain (length (queue_of priority acc.1)) agents world
                        priority acc.1 in
             (r.1, acc.2 ++ r.2)) acc ps in
  ∀ x, x ∈ r.2 → ended (heap r.1) x.
Proof.
  revert acc. induction ps as [|p ps IH]; intros acc Hvalid Hlog; [done|].
  cbn [foldl]. apply IH; cbn [fst snd].
  - intros p' x Hp' Hx.
    destruct (drain_ended (length (queue_of p acc.1)) agents world p acc.1)
      as [Hlen _]; [intros y; apply Hvalid; by left|].
    apply lookup_lt_is_Some. rewrite Hlen. apply lookup_lt_is_Some.
    destruct (canExecuteMoreTasks acc.1) eqn:Hcan.
    + destruct (drain_all (length (queue_of p acc.1)) agents world p acc.1)
        as (_ & Hempty & Hother & _); [done..|].
      destruct (decide (p' = p)) as [->|Hne].
      * rewrite Hempty in Hx. by apply elem_of_nil in Hx.
      * rewrite Hother in Hx by done. apply (Hvalid p'); [by right|done].
    + rewrite drain_idle in Hx by done. apply (Hvalid p'); [by right|done].
  - intros x Hx.
    destruct (drain_ended (length (queue_of p acc.1)) agents world p acc.1)
      as [_ Hall]; [intros y; apply Hvalid; by left|].
    apply Hall. apply elem_of_app in Hx as [Hx|Hx]; [right|by left].
    by apply Hlog.
Qed.

Lemma processQueues_blocked agents world s :
  canExecuteMoreTasks s = false → processQueues agents world s = (s, []).
Proof.
  intros Hcan. unfold processQueues, priorityOrder. cbn [foldl fst snd].
  rewrite !(drain_idle _ agents world "critical" s Hcan). cbn [fst snd].
  rewrite !(drain_idle _ agents world "high" s Hcan). cbn [fst snd].
  rewrite !(drain_idle _ agents world "medium" s Hcan). cbn [fst snd].
  by rewrite !(drain_idle _ agents world "low" s Hcan).
Qed.

Lemma processQueues_drained agents world s :
  canExecuteMoreTasks s = true →
  let s' := (processQueues agents world s).1 in
  (∀ p, p ∈ priorityOrder → queue_of p s' = []) ∧
  (∀ p, p ∉ priorityOrder → queue_of p s' = queue_of p s) ∧
  canExecuteMoreTasks s' = true.
Proof.
  intros Hcan. unfold processQueues, priorityOrder. cbn [foldl fst snd].
  destruct (drain_all (length (queue_of "critical" s)) agents world "critical" s)
    as (_ & E1 & Q1 & C1); [done..|].
  set (s1 := (drain _ agents world "critical" s).1) in *.
  destruct (drain_all (length (queue_of "high" s1)) agents world "high" s1)
    as (_ & E2 & Q2 & C2); [done..|].
  set (s2 := (drain _ agents world "high" s1).1) in *.
  destruct (drain_all (length (queue_of "medium" s2)) agents world "medium" s2)
    as (_ & E3 & Q3 & C3); [done..|].
  set (s3 := (drain _ agents world "medium" s2).1) in *.
  destruct (drain_all (length (queue_of "low" s3)) agents world "low" s3)
    as (_ & E4 & Q4 & C4); [done..|].
  set (s4 := (drain _ agents world "low" s3).1) in *.
  split_and!; [| |done].
  - intros p Hp.
    apply elem_of_cons in Hp as [->|Hp]; [|
    apply elem_of_cons in Hp as [->|Hp]; [|
    apply elem_of_cons in Hp as [->|Hp]; [|
    apply list_elem_of_singleton in Hp as ->]]].
    + by rewrite (Q4 "critical"), (Q3 "critical"), (Q2 "critical").
    + by rewrite (Q4 "high"), (Q3 "high").
    + by rewrite (Q4 "medium").
    + done.
  - intros p Hp.
    assert (p ≠ "critical" ∧ p ≠ "high" ∧ p ≠ "medium" ∧ p ≠ "low")
      as (N1 & N2 & N3 & N4).
    { split_and!; intros ->; apply Hp; repeat first [by left|right]. }
    by rewrite (Q4 p), (Q3 p), (Q2 p), (Q1 p).
Qed.

(** X6. One call of [processQueues] with nothing else scheduled in between
    does all or nothing. When the running map is below
    [maxConcurrentTasks] on entry, the call executes every task of the four
    queues, in their order, and leaves the four queues empty, whether or
    not an agent was found for a task; the queues under other keys are left
    as they are; and [executeTask] has run to its end for every task
    executed, which has status [completed] or [failed] when the call
    returns. Otherwise the call changes nothing. *)
Theorem processQueues_all_or_nothing agents world s :
  (canExecuteMoreTasks s = true →
   let r := processQueues agents world s in
   r.2 = queue_of "critical" s ++ queue_of "high" s ++
         queue_of "medium" s ++ queue_of "low" s ∧
   (∀ p, p ∈ priorityOrder → queue_of p r.1 = []) ∧
   (∀ p, p ∉ priorityOrder → queue_of p r.1 = queue_of p s) ∧
   canExecuteMoreTasks r.1 = true ∧
   ((∀ p x, p ∈ priorityOrder → x ∈ queue_of p s → is_Some (heap s !! x)) →
    ∀ l, l ∈ r.2 →
      ∃ t, heap r.1 !! l = Some t ∧ (status t = completed ∨ status t = failed))) ∧
  (canExecuteMoreTasks s = false → processQueues agents world s = (s, [])).
Proof.
  split.
  - intros Hcan r. unfold r.
    destruct (processQueues_drained agents world s Hcan) as (H1 & H2 & H3).
    split_and!; [|done..|]; [by rewrite processQueues_log, Hcan|].
    intros Hvalid. apply (pass_ended agents world priorityOrder (s, [])).
    + exact Hvalid.
    + by intros x ?%elem_of_nil.
  - apply processQueues_blocked.
Qed.

Lemma processQueues_all_or_nothing_witness :
  let r := processQueues [Scenario.worker] Scenario.firstFails Scenario.lowThenHigh in
  status <$> heap Scenario.lowThenHigh = [queued; queued] ∧
  r.2 = [1; 0]%nat ∧
  status <$> heap r.1 = [failed; completed] ∧
  ∀ l, l ∈ r.2 →
    ∃ t, heap r.1 !! l = Some t ∧ (status t = completed ∨ status t = failed).
Proof.
  cbn zeta. split_and!; [reflexivity..|].
  refine (proj2 (proj2 (proj2 (proj2 (proj1 (processQueues_all_or_nothing
            [Scenario.worker] Scenario.firstFails Scenario.lowThenHigh) _)))) _).
  - vm_compute. reflexivity.
  - intros p x Hp Hx. apply lookup_lt_is_Some.
    assert (x ∈ [0; 1]%nat) as Hin.
    { repeat (apply elem_of_cons in Hp as [->|Hp];
              [vm_compute in Hx;
               repeat (apply elem_of_cons in Hx as [->|Hx];
                       [repeat first [by left|right]|]);
               by apply elem_of_nil in Hx|]).
      by apply elem_of_nil in Hp. }
    repeat (apply elem_of_cons in Hin as [->|Hin]; [vm_compute; lia|]).
    by apply elem_of_nil in Hin.
Defined.

End SchedulerLedger.

(** ** The resource pool *)

Module PoolFacts.
Import ResourcePool PoolSpec ListFacts.

Lemma fold_share type (l : list Allocation) acc :
  fold_left (λ sum alloc, sum + share type alloc) l acc
  = acc + fold_left (λ sum alloc, sum + share type alloc) l 0.
Proof.
  revert acc. induction l as [|a l IH]; intros acc; simpl; [lia|].
  rewrite (IH (acc + share type a)), (IH (0 + share type a)). lia.
Qed.

Lemma usage_cons type k alloc m :
  exactUsage type {| allocations := (k, alloc) :: m |}
  = share type alloc + exactUsage type {| allocations := m |}.
Proof.
  unfold exactUsage. cbn [allocations fmap list_fmap snd fold_left].
  rewrite fold_share. lia.
Qed.

Lemma usage_nil type : exactUsage type {| allocations := [] |} = 0.
Proof. reflexivity. Qed.

Lemma usage_set_fresh type k alloc m :
  k ∉ m.*1 →
  exactUsage type {| allocations := map_set k alloc m |}
  = exactUsage type {| allocations := m |} + share type alloc.
Proof.
  induction m as [|[k' v'] m IH]; intros Hk; cbn [map_set].
  - rewrite usage_cons, usage_nil. lia.
  - rewrite fmap_cons in Hk. cbn [fst] in Hk.
    apply not_elem_of_cons in Hk as [Hne Hk].
    rewrite decide_False by done. rewrite !usage_cons, IH by done. lia.
Qed.






(** *** Sums of doubles *)


















End PoolFacts.

(** ** The agent selection of the workflow engine *)

Module EngineFacts.
Import TaskScheduler SchedulerSpec SchedulerFacts WorkflowEngine ListFacts.

Lemma firstLeastLoaded_elem l a : firstLeastLoaded l = Some a → a ∈ l.
Proof.
  intros (before & after & -> & _)%firstLeastLoaded_spec.
  apply elem_of_app. right. by left.
Qed.

Lemma firstLeastLoaded_capacity bound l a :
  firstLeastLoaded (List.filter (λ b, load b <? bound) l) = Some a →
  firstLeastLoaded l = Some a.
Proof.
  revert a. induction l as [|x l IH]; intros a; [done|]. cbn [List.filter].
  destruct (Z.ltb_spec (load x) bound) as [Hx|Hx]; cbn [firstLeastLoaded].
  - destruct (firstLeastLoaded (List.filter _ l)) as [b|] eqn:Hb.
    + by rewrite (IH b eq_refl).
    + intros [= <-]. apply firstLeastLoaded_None in Hb.
      destruct (firstLeastLoaded l) as [b|] eqn:Hl; [|done].
      destruct (Z.leb_spec (load x) (load b)) as [|Hlt]; [done|].
      assert (b ∈ List.filter (λ b, load b <? bound) l) as Hin.
      { apply elem_of_List_filter. split; [by apply firstLeastLoaded_elem|].
        apply Z.ltb_lt. lia. }
      rewrite Hb in Hin. by apply elem_of_nil in Hin.
  - intros Ha. rewrite (IH a Ha).
    apply firstLeastLoaded_elem, elem_of_List_filter in Ha as [_ Hlt%Z.ltb_lt].
    destruct (Z.leb_spec (load x) (load a)); [lia|done].
Qed.

Lemma filter_available cfg task agents :
  List.filter (available cfg task) agents
  = List.filter (λ b, load b <? maxTasksPerAgent cfg)
      (List.filter (λ agent, String.eqb (agent_status agent) "ready") agents).
Proof.
  induction agents as [|a agents IH]; [done|]. cbn [List.filter].
  unfold available at 1. rewrite orb_true_r, andb_true_r.
  destruct (String.eqb (agent_status a) "ready"); cbn [andb List.filter].
  - destruct (load a <? maxTasksPerAgent cfg); by rewrite IH.
  - done.
Qed.

Lemma selectOptimalAgent_firstLeastLoaded agents :
  selectOptimalAgent agents
  = agent_id <$> firstLeastLoaded
      (List.filter (λ agent, String.eqb (agent_status agent) "ready") agents).
Proof. unfold selectOptimalAgent. by rewrite head_sort_by_load. Qed.

(** X11. The agent the workflow engine selects is the least loaded ready agent,
    the first one among equals, whatever its load. It is the agent the
    scheduler selects whenever the scheduler finds one; where the scheduler
    finds none although an agent is ready, the engine selects an agent that
    has reached [maxTasksPerAgent]. The engine finds none only when no
    agent is ready. *)
Theorem selectOptimalAgent_agrees cfg agents task :
  (∀ a, selectAgent cfg agents task = Some a →
        selectOptimalAgent agents = Some (agent_id a)) ∧
  (selectAgent cfg agents task = None →
   ∀ chosen, selectOptimalAgent agents = Some chosen →
     ∃ a, a ∈ agents ∧ agent_id a = chosen ∧ agent_status a = "ready" ∧
          maxTasksPerAgent cfg ≤ load a) ∧
  (selectOptimalAgent agents = None ↔
   ∀ a, a ∈ agents → agent_status a ≠ "ready").
Proof.
  rewrite selectOptimalAgent_firstLeastLoaded, selectAgent_firstLeastLoaded,
    filter_available.
  split_and!.
  - intros a Ha. by rewrite (firstLeastLoaded_capacity _ _ _ Ha).
  - intros Hnone%firstLeastLoaded_None chosen Hc.
    destruct (firstLeastLoaded (List.filter _ agents)) as [a|] eqn:Ha; [|done].
    injection Hc as <-. exists a.
    apply firstLeastLoaded_elem in Ha as Hin.
    apply elem_of_List_filter in Hin as [Hin Hr%String.eqb_eq].
    split_and!; try done.
    destruct (Z.le_gt_cases (maxTasksPerAgent cfg) (load a)) as [|Hlt]; [done|].
    assert (a ∈ List.filter (λ b, load b <? maxTasksPerAgent cfg)
                  (List.filter (λ agent, String.eqb (agent_status agent) "ready")
                     agents)) as Hin'.
    { apply elem_of_List_filter. split; [|by apply Z.ltb_lt].
      apply elem_of_List_filter. split; [done|by apply String.eqb_eq]. }
    rewrite Hnone in Hin'. by apply elem_of_nil in Hin'.
  - split.
    + intros Hn a Hin Hr.
      destruct (firstLeastLoaded (List.filter _ agents)) as [b|] eqn:Hb; [done|].
      apply firstLeastLoaded_None in Hb.
      assert (a ∈ List.filter (λ agent, String.eqb (agent_status agent) "ready")
                    agents) as Hin'
        by (apply elem_of_List_filter; split; [done|by apply String.eqb_eq]).
      rewrite Hb in Hin'. by apply elem_of_nil in Hin'.
    + intros Hno.
      destruct (firstLeastLoaded (List.filter _ agents)) as [b|] eqn:Hb; [|done].
      apply firstLeastLoaded_elem, elem_of_List_filter in Hb as [Hin Hr%String.eqb_eq].
      by destruct (Hno b Hin).
Qed.

Lemma selectOptimalAgent_agrees_witness :
  selectOptimalAgent [Scenario.worker] = Some "dataprocessor-01".
Proof.
  exact (proj1 (selectOptimalAgent_agrees (schedulerConfig constructor)
                  [Scenario.worker] Scenario.visionTask) Scenario.worker eq_refl).
Defined.

End EngineFacts.

(** ** The log collector *)

Module LogFacts.
Import LogCollector LogSpec ListFacts.
Import ReportGenerator (lastN).

Lemma length_lastN {A} n (l : list A) : length (lastN n l) = (length l `min` n)%nat.
Proof. unfold lastN. rewrite length_drop. lia. Qed.

Lemma lastN_push {A} (bound : Z) (l : list A) x :
  0 < bound →
  (if Z.of_nat (length (lastN (Z.to_nat bound) l ++ [x])) >? bound
   then tail (lastN (Z.to_nat bound) l ++ [x]) else lastN (Z.to_nat bound) l ++ [x])
  = lastN (Z.to_nat bound) (l ++ [x]).
Proof.
  intros Hn. rewrite length_app, length_lastN. cbn [length].
  unfold lastN. rewrite length_app. cbn [length].
  set (n := Z.to_nat bound). assert (bound = Z.of_nat n) as Hb by lia.
  clearbody n. subst bound.
  destruct (decide (length l < n)%nat) as [Hlt|Hge].
  - destruct (Z.gtb_spec (Z.of_nat (length l `min` n + 1)) (Z.of_nat n)); [lia|].
    replace (length l - n)%nat with 0%nat by lia.
    by replace (length l + 1 - n)%nat with 0%nat by lia.
  - destruct (Z.gtb_spec (Z.of_nat (length l `min` n + 1)) (Z.of_nat n)); [|lia].
    replace (length l + 1 - n)%nat with (length l - n + 1)%nat by lia.
    rewrite drop_app_le by lia. rewrite <- drop_drop.
    destruct (drop (length l - n) l) as [|y rest] eqn:Hd; [|done].
    apply (f_equal length) in Hd. rewrite length_drop in Hd. cbn in Hd. lia.
Qed.

Lemma lastN_lastN {A} (n m : nat) (l : list A) :
  (n ≤ m)%nat → lastN n (lastN m l) = lastN n l.
Proof.
  intros Hnm. unfold lastN. rewrite length_drop, drop_drop. f_equal. lia.
Qed.

Lemma call_entry k c :
  logs (call k c)
  = (if Z.of_nat (length (logs c ++ [entryOf k])) >? maxLogs c
     then tail (logs c ++ [entryOf k]) else logs c ++ [entryOf k]) ∧
  maxLogs (call k c) = maxLogs c.
Proof. done. Qed.

Lemma run_logs calls :
  logs (run calls constructor) = lastN (Z.to_nat 10000) (entryOf <$> calls) ∧
  maxLogs (run calls constructor) = 10000.
Proof.
  induction calls as [|k calls IH] using rev_ind; [done|].
  unfold run in *. rewrite fold_left_app. cbn [fold_left].
  destruct IH as [Hl Hm].
  destruct (call_entry k (fold_left (λ c k, call k c) calls constructor))
    as [-> ->].
  split; [|done]. rewrite Hl, Hm, fmap_app.
  by apply (lastN_push 10000).
Qed.

(** X12. The collector holds the entries of the last 10000 calls of [log], in
    the order of the calls, and never more: each call appends its entry and
    drops the oldest one once there are more than [maxLogs]. The entry
    carries the level, the message and the metadata of the call, where
    [source], [sessionId] and [userId] are set by the collector. *)
Theorem log_keeps_recent calls :
  let c := run calls constructor in
  logs c = lastN (Z.to_nat 10000) (entryOf <$> calls) ∧
  Z.of_nat (length (logs c)) = Z.of_nat (length calls) `min` 10000 ∧
  (∀ e, e ∈ logs c →
     metadata e !! "source" = Some "multi-agent-platform" ∧
     is_Some (metadata e !! "sessionId") ∧ is_Some (metadata e !! "userId")).
Proof.
  cbn zeta. destruct (run_logs calls) as [Hl _]. rewrite Hl.
  split_and!; [done| |].
  - rewrite length_lastN, length_fmap. lia.
  - intros e He.
    assert (e ∈ entryOf <$> calls) as (k & -> & _)%list_elem_of_fmap.
    { eapply subseteq_drop. exact He. }
    cbn [entryOf metadata]. split_and!.
    + by rewrite !lookup_insert_ne, lookup_insert_eq by done.
    + rewrite lookup_insert_ne, lookup_insert_eq by done. by eexists.
    + rewrite lookup_insert_eq. by eexists.
Qed.

Lemma layer_elem {A B} (o : option B) (f : B → A → bool) (l : list A) e :
  e ∈ match o with Some x => List.filter (f x) l | None => l end →
  e ∈ l ∧ ∀ x, o = Some x → f x e = true.
Proof.
  destruct o as [x|]; [|done].
  intros [Hin Hf]%elem_of_List_filter. split; [done|]. by intros ? [= <-].
Qed.

Lemma layer_sublist {A B} (o : option B) (f : B → A → bool) (l : list A) :
  match o with Some x => List.filter (f x) l | None => l end `sublist_of` l.
Proof. destruct o; [apply sublist_List_filter|done]. Qed.

Lemma layer_nil {A B} (o : option B) (f : B → A → bool) (l : list A) :
  l = [] → match o with Some x => List.filter (f x) l | None => l end = [].
Proof. intros ->. by destruct o. Qed.

Lemma filter_nothing {A} (l : list A) : List.filter (λ _, false) l = [].
Proof. by induction l. Qed.

Lemma given_Some x w : x = Some w → w ≠ "" → given x = Some w.
Proof. intros -> Hne. cbn. by destruct (String.eqb_spec w ""). Qed.

(** X13. [getLogs] returns at most 1000 entries of the collector, in their
    order: the most recent ones among those every given filter accepts. An
    entry it returns has the level asked for, and lies between the start and
    the end time where these are truthy; a truthy start or end time that is
    no valid date leaves no entry. A start or end time that is falsy, which
    [0], [NaN] and the empty string are, sets no bound. Without filters
    [getLogs] returns the last 1000 entries, which are the entries of the
    last 1000 calls of [log]. *)
Theorem getLogs_recent_matching toLowerCase parseDate :
  (∀ filters c,
     let result := getLogs toLowerCase parseDate filters c in
     (length result ≤ 1000)%nat ∧
     result `sublist_of` logs c ∧
     (∀ e, e ∈ result →
        (∀ wanted, filter_level filters = Some wanted → wanted ≠ "" →
                   level e = wanted) ∧
        (truthy (filter_startTime filters) = true →
         ∃ t, toDate parseDate (filter_startTime filters) = At t ∧ t ≤ timestamp e) ∧
        (truthy (filter_endTime filters) = true →
         ∃ t, toDate parseDate (filter_endTime filters) = At t ∧ timestamp e ≤ t)) ∧
     ((truthy (filter_startTime filters) = true ∧
       toDate parseDate (filter_startTime filters) = Invalid) ∨
      (truthy (filter_endTime filters) = true ∧
       toDate parseDate (filter_endTime filters) = Invalid) →
      result = [])) ∧
  (∀ level startTime endTime search c,
     truthy startTime = false → truthy endTime = false →
     getLogs toLowerCase parseDate
       {| filter_level := level; filter_startTime := startTime;
          filter_endTime := endTime; filter_search := search |} c
     = getLogs toLowerCase parseDate
         {| filter_level := level; filter_startTime := NoTime;
            filter_endTime := NoTime; filter_search := search |} c) ∧
  (truthy (TimeNumber 0) = false ∧ truthy TimeNaN = false ∧
   truthy (TimeString "") = false ∧ truthy (TimeDate Invalid) = true) ∧
  (timestamp <$> getLogs toLowerCase parseDate
                   (between (TimeNumber 10) (TimeNumber 20)) threeEntries = [15] ∧
   timestamp <$> getLogs toLowerCase parseDate
                   (between (TimeNumber 10) (TimeNumber 0)) threeEntries = [15; 25] ∧
   timestamp <$> getLogs toLowerCase parseDate
                   (between (TimeNumber 0) (TimeNumber 20)) threeEntries = [5; 15] ∧
   timestamp <$> getLogs toLowerCase parseDate
                   (between TimeNaN (TimeString "")) threeEntries = [5; 15; 25] ∧
   getLogs toLowerCase parseDate
     (between (TimeDate Invalid) NoTime) threeEntries = []) ∧
  (∀ c, getLogs toLowerCase parseDate noFilter c = lastN 1000 (logs c)) ∧
  (∀ calls, getLogs toLowerCase parseDate noFilter (run calls constructor)
            = lastN 1000 (entryOf <$> calls)).
Proof.
  split_and!; try done.
  - intros filters c. cbn zeta. split_and!.
    + unfold getLogs. cbn zeta. rewrite length_drop. lia.
    + unfold getLogs. cbn zeta. etransitivity; [apply sublist_drop|].
      etransitivity; [apply layer_sublist|].
      etransitivity; [apply layer_sublist|].
      etransitivity; [apply layer_sublist|]. apply layer_sublist.
    + intros e He. unfold getLogs in He. cbn zeta in He.
      apply subseteq_drop in He.
      apply layer_elem in He as [He _].
      apply layer_elem in He as [He Hend].
      apply layer_elem in He as [He Hstart].
      apply layer_elem in He as [He Hlevel].
      split_and!.
      * intros wanted Hw Hne.
        by apply String.eqb_eq, Hlevel, given_Some.
      * intros Ht. unfold bound in Hstart. rewrite Ht in Hstart.
        specialize (Hstart _ eq_refl).
        destruct (toDate parseDate (filter_startTime filters)) as [|t]; [done|].
        exists t. split; [done|]. by apply Z.leb_le.
      * intros Ht. unfold bound in Hend. rewrite Ht in Hend.
        specialize (Hend _ eq_refl).
        destruct (toDate parseDate (filter_endTime filters)) as [|t]; [done|].
        exists t. split; [done|]. by apply Z.leb_le.
    + unfold getLogs, bound. cbn zeta. intros [[-> H]|[-> H]]; rewrite H.
      * rewrite filter_nothing.
        rewrite (layer_nil (if truthy (filter_endTime filters) then _ else _))
          by done.
        by rewrite layer_nil.
      * rewrite filter_nothing. by rewrite layer_nil.
  - intros level startTime endTime search c Hs He.
    unfold getLogs, bound. cbn [filter_startTime filter_endTime]. by rewrite Hs, He.
  - intros calls. unfold getLogs. cbn.
    destruct (run_logs calls) as [-> _].
    apply (lastN_lastN 1000 (Z.to_nat 10000)). lia.
Qed.

End LogFacts.

(** ** The tracker and the reports, task by task *)

Module TrackerViews.
Import TaskTracker TrackerSpec TaskView TrackerSpec2 UsageSpec TrackerFacts.
Import NumberFacts ListFacts.

(** *** The methods as functions on the task *)

Lemma modify_ext taskId f g tr :
  (∀ t, activeTasks tr !! taskId = Some t → f t = g t) →
  modify taskId f tr = modify taskId g tr.
Proof. intros H. unfold modify. f_equal. by apply alter_ext. Qed.

Lemma modify_id taskId tr : modify taskId (λ t, t) tr = tr.
Proof. unfold modify. rewrite alter_id by done. by destruct tr. Qed.

Lemma set_agentsInvolved_same t : set_agentsInvolved (Task.agentsInvolved t) t = t.
Proof. by destruct t. Qed.

Lemma addTaskPhase_view taskId phaseType description status agent now tr :
  addTaskPhase taskId phaseType description status agent now tr
  = modify taskId (phaseAdded phaseType description status agent now) tr.
Proof.
  unfold addTaskPhase. destruct (activeTasks tr !! taskId) as [task0|] eqn:Hl.
  - destruct agent as [a|].
    + rewrite modify_modify. apply modify_ext. intros t _.
      unfold phaseAdded, involve, phase, compose. destruct t. cbn.
      by destruct (negb (String.eqb a "") && negb _).
    + apply modify_ext. intros t _. unfold phaseAdded, involve, phase. by destruct t.
  - by rewrite modify_absent.
Qed.

Lemma createTaskTracker_view taskId description priority now tr :
  createTaskTracker taskId description priority now tr
  = (set_activeTasks (<[taskId := newTask taskId description priority now]>
                        (activeTasks tr)) tr,
     newTask taskId description priority now).
Proof.
  unfold createTaskTracker. rewrite addTaskPhase_view. unfold modify.
  cbn [activeTasks set_activeTasks]. rewrite alter_insert_eq, lookup_insert_eq.
  cbn [default]. by destruct tr.
Qed.

Lemma updateTaskStatus_view rt taskId status agent now tr :
  updateTaskStatus rt taskId status agent now tr
  = let tr' := modify taskId (statusUpdated status agent now) tr in
    if finishing status then (completeTask rt taskId now tr').1 else tr'.
Proof.
  unfold updateTaskStatus. cbn zeta.
  destruct (activeTasks tr !! taskId) as [task|] eqn:Hl.
  - rewrite addTaskPhase_view.
    destruct (String.eqb_spec status "running") as [->|Hnr].
    + change (finishing "running") with false. cbn iota.
      rewrite !modify_modify. apply modify_ext. intros t Ht.
      assert (t = task) as -> by congruence. reflexivity.
    + unfold finishing.
      destruct (String.eqb status "completed" || String.eqb status "failed") eqn:Hfin.
      * do 2 f_equal. rewrite !modify_modify. apply modify_ext. intros t Ht.
        assert (t = task) as -> by congruence.
        unfold statusUpdated, finishing. rewrite Hfin.
        by destruct (String.eqb_spec status "running").
      * rewrite !modify_modify. apply modify_ext. intros t Ht.
        assert (t = task) as -> by congruence.
        unfold statusUpdated, finishing. rewrite Hfin.
        by destruct (String.eqb_spec status "running").
  - rewrite modify_absent by done.
    destruct (finishing status); [|done]. by rewrite completeTask_absent.
Qed.

Lemma recordSensorDataUsage_view taskId sensorType dataSize processingTime tr :
  recordSensorDataUsage taskId sensorType dataSize processingTime tr
  = modify taskId (sensorUsed sensorType dataSize processingTime) tr.
Proof.
  unfold recordSensorDataUsage.
  destruct (activeTasks tr !! taskId) as [task0|] eqn:Hl; [done|].
  by rewrite modify_absent.
Qed.

Lemma recordError_view taskId message stack agent now tr :
  recordError taskId message stack agent now tr
  = modify taskId (errorRecorded message stack agent now) tr.
Proof.
  unfold recordError. destruct (activeTasks tr !! taskId) as [task|] eqn:Hl.
  - rewrite addTaskPhase_view, modify_modify. apply modify_ext. intros t Ht.
    assert (t = task) as -> by congruence. done.
  - by rewrite modify_absent.
Qed.

(** Every call writes the task it names and then, for some calls, completes
    it; [createTaskTracker] stores a new task and [cleanupOldTasks] filters
    the archive. *)
Lemma call_view rt c tr :
  call rt c tr =
  match c with
  | CreateTaskTracker taskId description priority now =>
      set_activeTasks (<[taskId := newTask taskId description priority now]>
                         (activeTasks tr)) tr
  | CleanupOldTasks now => cleanupOldTasks now tr
  | _ =>
      let tr' := modify (target c) (written c) tr in
      match completes c with
      | Some now => (completeTask rt (target c) now tr').1
      | None => tr'
      end
  end.
Proof.
  destruct c; cbn [call target written completes].
  - by rewrite createTaskTracker_view.
  - apply addTaskPhase_view.
  - rewrite updateTaskStatus_view. cbn zeta. by destruct (finishing status).
  - apply recordSensorDataUsage_view.
  - apply recordError_view.
  - cbn zeta. by rewrite modify_id.
  - done.
Qed.

(** *** What every task keeps *)

Lemma includes_spec l a : includes l a = true ↔ a ∈ l.
Proof.
  unfold includes. rewrite existsb_exists. split.
  - intros (x & Hin & ->%String.eqb_eq). by apply list_elem_of_In.
  - intros Hin. exists a. split; [by apply list_elem_of_In|apply String.eqb_refl].
Qed.

Lemma count_snoc {A} (f : A → bool) l x :
  count f (l ++ [x]) = count f l + (if f x then 1 else 0).
Proof.
  unfold count. rewrite List.filter_app, length_app. cbn [List.filter].
  destruct (f x); simpl; lia.
Qed.

Lemma count_nonneg {A} (f : A → bool) l : 0 ≤ count f l.
Proof. unfold count. lia. Qed.

Lemma count_le_length {A} (f : A → bool) l : count f l ≤ Z.of_nat (length l).
Proof.
  unfold count. pose proof (List.filter_length_le f l). lia.
Qed.

Lemma count_positive {A} (f : A → bool) l x : x ∈ l → f x = true → 0 < count f l.
Proof.
  intros Hin Hf. unfold count.
  assert (In x (List.filter f l)) as Hx.
  { apply filter_In. split; [by apply list_elem_of_In|done]. }
  destruct (List.filter f l); [done|]. simpl. lia.
Qed.

Lemma involve_spec agent involved a :
  a ∈ involve agent involved ↔
  a ∈ involved ∨ (agent = Some a ∧ a ≠ "").
Proof.
  unfold involve. destruct agent as [b|].
  - destruct (String.eqb_spec b "") as [->|Hb]; cbn [negb andb].
    + split; [by left|]. intros [?|[[= <-] ?]]; done.
    + destruct (includes involved b) eqn:Hinc; cbn [negb].
      * apply includes_spec in Hinc. split; [by left|].
        intros [?|[[= <-] ?]]; done.
      * rewrite elem_of_app, list_elem_of_singleton. split.
        -- intros [?| ->]; [by left|by right].
        -- intros [?|[[= <-] ?]]; [by left|by right].
  - split; [by left|]. intros [?|[? ?]]; done.
Qed.

Lemma involve_NoDup agent involved :
  NoDup involved → NoDup (involve agent involved).
Proof.
  intros Hnd. unfold involve. destruct agent as [b|]; [|done].
  destruct (String.eqb b ""); cbn [negb andb]; [done|].
  destruct (includes involved b) eqn:Hinc; cbn [negb]; [done|].
  apply NoDup_app. split_and!; [done| |apply NoDup_singleton].
  intros x Hx ->%list_elem_of_singleton.
  apply includes_spec in Hx. congruence.
Qed.

(** A task with one more phase, and with one more error when the phase
    reports one. *)
Lemma sound_phase t t' phaseType description status agent now :
  Sound t →
  Task.phases t' = Task.phases t ++ [phase phaseType description status agent now] →
  Task.agentsInvolved t' = involve agent (Task.agentsInvolved t) →
  (Task.errors t' = Task.errors t ∨
   ∃ e a, agent = Some a ∧ status = "error" ∧
          Task.errors t' = Task.errors t ++ [e] ∧ ErrorRecord.agent e = a) →
  Sound t'.
Proof.
  intros [(first & rest & Hph & Hty & Hst) Hnd Hnamed Hinv Hag Herr Hrep] Hp Ha He.
  constructor.
  - exists first, (rest ++ [phase phaseType description status agent now]).
    by rewrite Hp, Hph.
  - rewrite Ha. by apply involve_NoDup.
  - rewrite Ha, involve_spec. intros [?|[_ ?]]; done.
  - intros a. rewrite Ha, Hp, involve_spec, Hinv. split.
    + intros [[Hne (p & Hin & Hd)]|[Heq Hne]].
      * split; [done|]. exists p. split; [|done]. apply elem_of_app. by left.
      * subst agent. split; [done|].
        eexists. split; [apply elem_of_app; right; by left|done].
    + intros [Hne (p & [Hin| ->%list_elem_of_singleton]%elem_of_app & Hd)].
      * left. split; [done|]. by exists p.
      * right. done.
  - intros p. rewrite Hp. intros [Hin| ->%list_elem_of_singleton]%elem_of_app;
      [by apply Hag|done].
  - intros a Hne. specialize (Herr a Hne). unfold errorsOf, phasesOf in *.
    rewrite Hp, count_snoc. cbn [phase Phase.agent].
    destruct He as [->|(e & b & -> & _ & -> & Hb)].
    + destruct (String.eqb _ a); lia.
    + rewrite count_snoc, Hb. cbn [str_or].
      destruct (String.eqb_spec b a) as [->|Hba].
      * destruct (String.eqb_spec a ""); [done|]. rewrite String.eqb_refl. lia.
      * destruct (String.eqb _ a); lia.
  - unfold errorPhases in *. rewrite Hp, count_snoc. cbn [phase Phase.status].
    destruct He as [->|(e & b & _ & -> & -> & _)].
    + destruct (String.eqb status "error"); lia.
    + rewrite length_app. cbn. lia.
Qed.

Lemma sound_same t t' :
  Sound t → Task.phases t' = Task.phases t →
  Task.agentsInvolved t' = Task.agentsInvolved t →
  Task.errors t' = Task.errors t → Sound t'.
Proof.
  intros [Hop Hnd Hnamed Hinv Hag Herr Hrep] Hp Ha He.
  constructor; unfold errorsOf, phasesOf, errorPhases in *;
    rewrite ?Hp, ?Ha, ?He; done.
Qed.

Lemma phaseAdded_sound phaseType description status agent now t :
  Sound t → Sound (phaseAdded phaseType description status agent now t).
Proof. intros Hs. eapply sound_phase; [done|done|done|by left]. Qed.

Lemma statusUpdated_sound status agent now t :
  Sound t → Sound (statusUpdated status agent now t).
Proof.
  intros Hs. unfold statusUpdated.
  set (t1 := phaseAdded _ _ _ _ _ _).
  assert (Sound t1) as H1.
  { apply phaseAdded_sound. by eapply sound_same. }
  destruct (String.eqb status "running").
  - destruct (unset _); [by eapply sound_same|done].
  - destruct (finishing status); [by eapply sound_same|done].
Qed.

Lemma sensorUsed_sound sensorType dataSize processingTime t :
  Sound t → Sound (sensorUsed sensorType dataSize processingTime t).
Proof. intros Hs. by eapply sound_same. Qed.

Lemma errorRecorded_sound message stack agent now t :
  Sound t → Sound (errorRecorded message stack agent now t).
Proof.
  intros Hs. unfold errorRecorded. eapply sound_phase; [exact Hs|done|done|].
  right. by eexists _, _.
Qed.

Lemma written_sound c t : Sound t → Sound (written c t).
Proof.
  destruct c; cbn [written]; auto using phaseAdded_sound, statusUpdated_sound,
    sensorUsed_sound, errorRecorded_sound.
Qed.

Lemma newTask_sound taskId description priority now :
  Sound (newTask taskId description priority now).
Proof.
  constructor; cbn.
  - by eexists _, _.
  - apply NoDup_nil_2.
  - by intros ?%elem_of_nil.
  - intros a. split; [by intros ?%elem_of_nil|].
    intros [_ (p & ->%list_elem_of_singleton & Hd)]. done.
  - by intros p ->%list_elem_of_singleton.
  - intros a _. unfold errorsOf, phasesOf, count. cbn. lia.
  - unfold errorPhases, count. cbn. lia.
Qed.

(** *** Invariants of the tracker *)

Lemma every_modify (P : Task.t → Prop) taskId f tr :
  (∀ t, P t → P (f t)) → every P tr → every P (modify taskId f tr).
Proof.
  intros Hf [Ha Hc]. split; [|done]. intros i t. simpl. rewrite lookup_alter.
  case_decide; [subst i|by apply Ha].
  destruct (activeTasks tr !! taskId) as [t0|] eqn:Hl; simpl; [|done].
  intros [= <-]. apply Hf. by eapply Ha.
Qed.

Lemma every_completeTask (P : Task.t → Prop) rt taskId now tr :
  every P tr → every P (completeTask rt taskId now tr).1.
Proof.
  intros [Ha Hc]. destruct (activeTasks tr !! taskId) as [t|] eqn:Hl.
  - destruct (completeTask_present rt taskId now tr t Hl) as [Hact Hcom].
    split.
    + intros i t'. rewrite Hact. intros [_ ?]%lookup_delete_Some. by eapply Ha.
    + rewrite Hcom. apply Forall_app. split; [done|].
      constructor; [by eapply Ha|constructor].
  - by rewrite completeTask_absent.
Qed.

Lemma every_call_when (Q : Call → Prop) (P : Task.t → Prop) rt c tr :
  (∀ c t, Q c → P t → P (written c t)) →
  (∀ taskId description priority now, P (newTask taskId description priority now)) →
  Q c → every P tr → every P (call rt c tr).
Proof.
  intros Hw Hn HQ HP. rewrite call_view.
  assert (every P (modify (target c) (written c) tr)) as Hm
    by (apply every_modify; [intros t; by apply Hw|done]).
  destruct c; cbn zeta;
    try (destruct (completes _); [by apply every_completeTask|done]).
  - destruct HP as [Ha Hc]. split; [|done]. intros i t. simpl.
    rewrite lookup_insert. case_decide; [intros [= <-]; apply Hn|apply Ha].
  - destruct HP as [Ha Hc]. split; [exact Ha|].
    unfold cleanupOldTasks. cbn [completedTasks]. by apply Forall_List_filter.
Qed.

Lemma every_run_when (Q : Call → Prop) (P : Task.t → Prop) rt calls tr :
  (∀ c t, Q c → P t → P (written c t)) →
  (∀ taskId description priority now, P (newTask taskId description priority now)) →
  Forall Q calls → every P tr → every P (run rt calls tr).
Proof.
  intros Hw Hn HQ. revert tr.
  induction HQ as [|c calls Hc HQ IH]; intros tr HP; [done|].
  simpl. apply IH. by eapply every_call_when.
Qed.

Lemma every_call (P : Task.t → Prop) rt c tr :
  (∀ c t, P t → P (written c t)) →
  (∀ taskId description priority now, P (newTask taskId description priority now)) →
  every P tr → every P (call rt c tr).
Proof.
  intros Hw Hn. apply (every_call_when (λ _, True)); [|done|done].
  intros ? ? _. apply Hw.
Qed.

Lemma every_run (P : Task.t → Prop) rt calls tr :
  (∀ c t, P t → P (written c t)) →
  (∀ taskId description priority now, P (newTask taskId description priority now)) →
  every P tr → every P (run rt calls tr).
Proof.
  intros Hw Hn. apply (every_run_when (λ _, True)); [|done|by apply Forall_true].
  intros ? ? _. apply Hw.
Qed.

Lemma every_constructor (P : Task.t → Prop) : every P constructor.
Proof. split; [|constructor]. intros i t. simpl. by rewrite lookup_empty. Qed.

Lemma run_sound rt calls : every Sound (run rt calls constructor).
Proof.
  apply every_run; [apply written_sound|apply newTask_sound|apply every_constructor].
Qed.

Lemma every_tracked (P : Task.t → Prop) tr t : every P tr → t ∈ tracked tr → P t.
Proof.
  intros [Ha Hc] [[i Hi]|Hin]%elem_of_tracked; [by eapply Ha|].
  by eapply Forall_forall in Hc.
Qed.

(** *** The metrics *)

Lemma fold_bump (l : list string) (u : gmap string Z) a :
  NoDup l →
  fold_left (λ u agent, match u !! agent with
                        | Some n => <[agent := n + 1]> u
                        | None => u
                        end) l u !! a
  = if includes l a then (λ n, n + 1) <$> u !! a else u !! a.
Proof.
  revert u. induction l as [|b l IH]; intros u Hnd; [done|].
  apply NoDup_cons in Hnd as [Hb Hnd]. cbn [fold_left].
  rewrite IH by done. unfold includes. cbn [existsb].
  fold (includes l a).
  destruct (String.eqb_spec a b) as [->|Hne]; cbn [orb].
  - assert (includes l b = false) as ->.
    { destruct (includes l b) eqn:E; [|done]. by apply includes_spec in E. }
    destruct (u !! b) as [n|] eqn:Hu; [by rewrite lookup_insert_eq|by rewrite Hu].
  - assert (match u !! b with
            | Some n => <[b := n + 1]> u
            | None => u
            end !! a = u !! a) as ->; [|done].
    destruct (u !! b); [by rewrite lookup_insert_ne|done].
Qed.

Lemma completeTask_metrics rt taskId now tr t :
  activeTasks tr !! taskId = Some t →
  let tr' := (completeTask rt taskId now tr).1 in
  let m := performanceMetrics tr in
  let m' := performanceMetrics tr' in
  completedTasks tr' = completedTasks tr ++ [t] ∧
  taskHistory tr' = taskHistory tr ++ [(t, now)] ∧
  PerformanceMetrics.totalTasks m' = PerformanceMetrics.totalTasks m + 1 ∧
  PerformanceMetrics.successfulTasks m'
  = PerformanceMetrics.successfulTasks m +
    (if String.eqb (Task.status t) "completed" then 1 else 0) ∧
  PerformanceMetrics.failedTasks m'
  = PerformanceMetrics.failedTasks m +
    (if String.eqb (Task.status t) "failed" then 1 else 0) ∧
  PerformanceMetrics.averageExecutionTime m'
  = meanDuration (completedTasks tr ++ [t]) ∧
  (NoDup (Task.agentsInvolved t) → ∀ a,
     PerformanceMetrics.agentUtilization m' !! a
     = if includes (Task.agentsInvolved t) a
       then (λ n, n + 1) <$> PerformanceMetrics.agentUtilization m !! a
       else PerformanceMetrics.agentUtilization m !! a).
Proof.
  intros Hl. unfold completeTask. rewrite Hl.
  cbn [fst updatePerformanceMetrics completedTasks taskHistory performanceMetrics
       PerformanceMetrics.totalTasks PerformanceMetrics.successfulTasks
       PerformanceMetrics.failedTasks PerformanceMetrics.averageExecutionTime
       PerformanceMetrics.agentUtilization].
  split_and!; try reflexivity.
  - destruct (String.eqb (Task.status t) "completed"); lia.
  - destruct (String.eqb_spec (Task.status t) "completed") as [->|_];
      [cbn|destruct (String.eqb _ "failed")]; lia.
  - intros Hnd a. by apply fold_bump.
Qed.

Lemma completeTask_tallied rt taskId now tr :
  every Sound tr → Tallied tr → Tallied (completeTask rt taskId now tr).1.
Proof.
  intros [Ha _] [Hs Hf Ht Hc Hag].
  destruct (activeTasks tr !! taskId) as [t|] eqn:Hl;
    [|by rewrite completeTask_absent].
  destruct (completeTask_metrics rt taskId now tr t Hl)
    as (Ec & _ & Et & Es & Ef & _ & Eu). cbn zeta in *.
  specialize (Eu (sound_nodup _ (Ha _ _ Hl))).
  constructor; rewrite ?Ec, ?Et, ?Es, ?Ef.
  - destruct (String.eqb _ "completed"); lia.
  - destruct (String.eqb _ "failed"); lia.
  - destruct (String.eqb_spec (Task.status t) "completed") as [->|_];
      [cbn|destruct (String.eqb _ "failed")]; lia.
  - rewrite length_app. simpl. lia.
  - intros a Hin. destruct (Hag a Hin) as (n & Hn & Hrange). rewrite Eu, Hn.
    destruct (includes _ a); eexists; (split; [reflexivity|lia]).
Qed.

Lemma modify_metrics taskId f tr :
  completedTasks (modify taskId f tr) = completedTasks tr ∧
  taskHistory (modify taskId f tr) = taskHistory tr ∧
  performanceMetrics (modify taskId f tr) = performanceMetrics tr.
Proof. done. Qed.

Lemma tallied_same tr tr' :
  (length (completedTasks tr') ≤ length (completedTasks tr))%nat →
  performanceMetrics tr' = performanceMetrics tr →
  Tallied tr → Tallied tr'.
Proof.
  intros Hc Hm [Hs Hf Ht Hcm Hag]. constructor; rewrite ?Hm; try done. lia.
Qed.

Lemma call_tallied rt c tr :
  every Sound tr → Tallied tr → Tallied (call rt c tr).
Proof.
  intros HS HT. rewrite call_view.
  assert (every Sound (modify (target c) (written c) tr)) as HS'
    by (apply every_modify; [apply written_sound|done]).
  assert (Tallied (modify (target c) (written c) tr)) as HT'
    by (by eapply tallied_same; [..|exact HT]).
  destruct c; cbn zeta;
    try (destruct (completes _); [by apply completeTask_tallied|done]).
  - by eapply tallied_same; [..|exact HT].
  - eapply tallied_same; [..|exact HT]; [|done].
    unfold cleanupOldTasks. cbn [completedTasks]. apply List.filter_length_le.
Qed.

Lemma constructor_tallied : Tallied constructor.
Proof.
  constructor; cbn; try lia.
  intros a Hin. exists 0. split; [|lia].
  repeat (apply elem_of_cons in Hin as [->|Hin]; [reflexivity|]).
  by apply elem_of_nil in Hin.
Qed.

Lemma run_tallied rt calls tr :
  every Sound tr → Tallied tr →
  every Sound (run rt calls tr) ∧ Tallied (run rt calls tr).
Proof.
  revert tr. induction calls as [|c calls IH]; intros tr HS HT; [done|].
  simpl. apply IH.
  - apply every_call; [apply written_sound|apply newTask_sound|done].
  - by apply call_tallied.
Qed.

Lemma completeTask_exact rt taskId now tr :
  every Sound tr → Exact tr → Exact (completeTask rt taskId now tr).1.
Proof.
  intros [Ha _] [Et Eh Es Ef Eavg Eag].
  destruct (activeTasks tr !! taskId) as [t|] eqn:Hl;
    [|by rewrite completeTask_absent].
  destruct (completeTask_metrics rt taskId now tr t Hl)
    as (Hc & Hh & Ht & Hs & Hf & Havg & Hu). cbn zeta in *.
  specialize (Hu (sound_nodup _ (Ha _ _ Hl))).
  constructor; rewrite ?Hc, ?Hh, ?Ht, ?Hs, ?Hf, ?Havg, ?count_snoc.
  - rewrite length_app. simpl. lia.
  - by rewrite fmap_app, Eh.
  - by rewrite Es.
  - by rewrite Ef.
  - by destruct (completedTasks tr).
  - intros a Hin. rewrite Hu, (Eag a Hin), count_snoc.
    destruct (includes _ a); cbn; f_equal; lia.
Qed.

Lemma call_exact rt c tr :
  ¬ cleans c → every Sound tr → Exact tr → Exact (call rt c tr).
Proof.
  intros Hcl HS HE. rewrite call_view.
  assert (every Sound (modify (target c) (written c) tr)) as HS'
    by (apply every_modify; [apply written_sound|done]).
  assert (Exact (modify (target c) (written c) tr)) as HE'
    by (by destruct HE).
  destruct c; cbn zeta; try done;
    try (destruct (completes _); [by apply completeTask_exact|done]).
  by destruct HE.
Qed.

Lemma constructor_exact : Exact constructor.
Proof.
  constructor; try reflexivity.
  intros a Hin.
  repeat (apply elem_of_cons in Hin as [->|Hin]; [reflexivity|]).
  by apply elem_of_nil in Hin.
Qed.

Lemma run_exact rt calls tr :
  Forall (λ c, ¬ cleans c) calls → every Sound tr → Exact tr →
  Exact (run rt calls tr).
Proof.
  revert tr. induction calls as [|c calls IH]; intros tr Hcl HS HE; [done|].
  apply Forall_cons in Hcl as [Hc Hcl]. simpl. apply IH; [done| |].
  - apply every_call; [apply written_sound|apply newTask_sound|done].
  - by apply call_exact.
Qed.

(** *** Agents *)

(** X14. Whatever is called on a new tracker, [agentsInvolved] of every task it
    holds names each agent once and never the empty name, and it names
    exactly the agents that some phase of the task was added for with a
    non-empty [data.agent]; the [agent] of a phase is its [data.agent], or
    ["system"] when that is missing or empty. *)
Theorem agents_involved_once rt calls t :
  t ∈ tracked (run rt calls constructor) →
  NoDup (Task.agentsInvolved t) ∧
  ("" ∉ Task.agentsInvolved t) ∧
  (∀ a, a ∈ Task.agentsInvolved t ↔
        a ≠ "" ∧ ∃ p, p ∈ Task.phases t ∧ Phase.data_agent p = Some a) ∧
  (∀ p, p ∈ Task.phases t →
        Phase.agent p = str_or (Phase.data_agent p) "system").
Proof.
  intros Hin.
  destruct (every_tracked Sound _ t (run_sound rt calls) Hin)
    as [_ Hnd Hnamed Hinv Hag _ _].
  done.
Qed.

Lemma agents_involved_once_witness :
  Task.agentsInvolved TrackerScenario.busyTask = ["traffic"; "10"; "__proto__"; "9"] ∧
  NoDup (Task.agentsInvolved TrackerScenario.busyTask) ∧
  ("traffic" ∈ Task.agentsInvolved TrackerScenario.busyTask ↔
   "traffic" ≠ "" ∧
   ∃ p, p ∈ Task.phases TrackerScenario.busyTask ∧ Phase.data_agent p = Some "traffic").
Proof.
  destruct (agents_involved_once ReferenceRuntime.runtime TrackerScenario.busyCalls
              TrackerScenario.busyTask) as (Hnd & _ & Hin & _).
  - vm_compute. by left.
  - split_and!; [reflexivity|exact Hnd|exact (Hin "traffic")].
Defined.

Lemma involved_phases t a :
  Sound t → a ∈ Task.agentsInvolved t → 0 < phasesOf a t.
Proof.
  intros HS Hin. apply (sound_involved _ HS) in Hin as [Hne (p & Hp & Hd)].
  apply (count_positive _ _ p Hp). rewrite (sound_agent _ HS p Hp), Hd.
  cbn [str_or]. destruct (String.eqb_spec a ""); [done|]. apply String.eqb_refl.
Qed.

(** X15. The rows of [agentPerformance] in the report of a task the tracker
    holds. [agentPerformance] is a plain object with a property for each
    agent of [agentsInvolved] but [__proto__], for which the assignment
    creates none. A reader finds the rows under distinct names: first those
    whose names are array indices, by ascending index, then the others in
    the order of [agentsInvolved]; so the rows are in the order of
    [agentsInvolved] when no name is an array index or [__proto__]. The
    agent of a row handled at least one phase and produced no more errors
    than it handled phases, so its success rate is a number between 0 and
    100 and never ['N/A']. *)
Theorem agent_performance_rows rt calls t :
  t ∈ tracked (run rt calls constructor) →
  let rows := ReportGenerator.analyzeAgentPerformance rt t in
  let named :=
    List.filter (λ a, negb (String.eqb a "__proto__")) (Task.agentsInvolved t) in
  rows.*1 ≡ₚ named ∧ NoDup rows.*1 ∧
  (∃ indices : list (N * string),
     rows.*1 = indices.*2 ++ List.filter (λ a, negb (isIndex a)) named ∧
     Forall (λ x, arrayIndex x.2 = Some x.1) indices ∧
     StronglySorted N.lt indices.*1) ∧
  ((∀ a, a ∈ Task.agentsInvolved t → isIndex a = false ∧ a ≠ "__proto__") →
   rows.*1 = Task.agentsInvolved t) ∧
  ∀ a row, (a, row) ∈ rows →
    a ∈ Task.agentsInvolved t ∧
    AgentStats.phasesHandled row = phasesOf a t ∧
    AgentStats.errorsGenerated row = errorsOf a t ∧
    1 ≤ AgentStats.phasesHandled row ∧
    0 ≤ AgentStats.errorsGenerated row ≤ AgentStats.phasesHandled row ∧
    ∃ rate, AgentStats.successRate row = toFixed rt 1 (Finite rate) +:+ "%" ∧
            (0 <= rate)%Q ∧ (rate <= 100)%Q.
Proof.
  intros Hin rows named.
  pose proof (every_tracked Sound _ t (run_sound rt calls) Hin) as HS.
  set (entry := λ a, (a, ReportGenerator.agentStatsOf rt t a)).
  assert (rows = ownEntries (entry <$> named)) as Hrows.
  { unfold rows, ReportGenerator.analyzeAgentPerformance.
    by rewrite (ObjectFacts.fold_assign (ReportGenerator.agentStatsOf rt t))
      by apply (sound_nodup _ HS). }
  assert ((entry <$> named).*1 = named) as Hkeys.
  { rewrite <- list_fmap_compose. apply list_fmap_id. }
  assert (NoDup named) as Hnd
    by (apply NoDup_List_filter, (sound_nodup _ HS)).
  destruct (ObjectFacts.ownEntries_shape (entry <$> named))
    as (indexed & Hshape & Hperm & Hall & Hsorted); [by rewrite Hkeys|].
  rewrite <- Hrows in Hshape.
  assert (rows ≡ₚ entry <$> named) as Hp.
  { rewrite Hshape, Hperm. apply filter_partition. }
  assert (rows.*1 ≡ₚ named) as Hp1 by (by rewrite Hp, Hkeys).
  assert (List.filter (λ e : string * AgentStats.t, negb (isIndex e.1))
            (entry <$> named)
          = entry <$> List.filter (λ a, negb (isIndex a)) named) as Hrest
    by exact (filter_fmap entry (λ e, negb (isIndex e.1)) named).
  split_and!.
  - done.
  - by rewrite Hp1.
  - exists ((λ x : N * (string * AgentStats.t), (x.1, x.2.1)) <$> indexed).
    split_and!.
    + rewrite Hshape, Hrest, fmap_app, <- !list_fmap_compose. f_equal.
      apply list_fmap_id.
    + apply Forall_fmap. eapply Forall_impl; [exact Hall|]. by intros [n [k v]].
    + by rewrite <- list_fmap_compose.
  - intros Hplain. rewrite Hshape, Hrest.
    assert (named = Task.agentsInvolved t) as Hnamed.
    { unfold named. clear -Hplain.
      induction (Task.agentsInvolved t) as [|a l IH]; [done|]. cbn [List.filter].
      destruct (Hplain a) as [_ Ha]; [by left|].
      destruct (String.eqb_spec a "__proto__"); [done|]. cbn [negb]. f_equal.
      apply IH. intros b Hb. apply Hplain. by right. }
    assert (List.filter (λ a, negb (isIndex a)) named = named) as ->.
    { rewrite Hnamed. clear -Hplain.
      induction (Task.agentsInvolved t) as [|a l IH]; [done|]. cbn [List.filter].
      destruct (Hplain a) as [-> _]; [by left|]. cbn [negb]. f_equal.
      apply IH. intros b Hb. apply Hplain. by right. }
    assert (indexed = []) as ->.
    { destruct indexed as [|x indexed]; [done|]. exfalso.
      assert (x.2 ∈ List.filter (λ e : string * AgentStats.t, isIndex e.1)
                      (entry <$> named)) as Hx.
      { rewrite <- Hperm. rewrite fmap_cons. by left. }
      apply elem_of_List_filter in Hx as [Hx Hi].
      apply list_elem_of_fmap in Hx as (a & Hxa & Ha). rewrite Hxa in Hi.
      cbn in Hi. rewrite Hnamed in Ha. destruct (Hplain a Ha). congruence. }
    cbn. by rewrite Hkeys.
  - intros a row Hrow. rewrite Hp in Hrow.
    apply list_elem_of_fmap in Hrow as (a' & [= <- ->] & Ha).
    apply elem_of_List_filter in Ha as [Ha _].
    unfold ReportGenerator.agentStatsOf.
    cbn [AgentStats.phasesHandled AgentStats.errorsGenerated AgentStats.successRate].
    change (Z.of_nat (length (List.filter
              (λ phase, String.eqb (Phase.agent phase) a) (Task.phases t))))
      with (phasesOf a t).
    change (Z.of_nat (length (List.filter
              (λ error, String.eqb (ErrorRecord.agent error) a) (Task.errors t))))
      with (errorsOf a t).
    assert (a ≠ "") as Hne by (intros ->; by apply (sound_named _ HS)).
    pose proof (involved_phases t a HS Ha) as Hpos.
    pose proof (sound_errors _ HS a Hne) as Hle.
    pose proof (count_nonneg (λ e, String.eqb (ErrorRecord.agent e) a) (Task.errors t))
      as Hge. fold (errorsOf a t) in Hge.
    split_and!; try done; try lia.
    destruct (Z.gtb_spec (phasesOf a t) 0) as [_|?]; [|lia].
    destruct (rate_range (phasesOf a t - errorsOf a t) (errorsOf a t))
      as (q & Hq & ? & ? & _); [lia..|].
    replace (phasesOf a t - errorsOf a t + errorsOf a t) with (phasesOf a t) in Hq by lia.
    exists q. by rewrite Hq.
Qed.

Lemma agent_performance_rows_witness :
  let rows :=
    ReportGenerator.analyzeAgentPerformance ReferenceRuntime.runtime
      TrackerScenario.busyTask in
  Task.agentsInvolved TrackerScenario.busyTask = ["traffic"; "10"; "__proto__"; "9"] ∧
  rows.*1 = ["9"; "10"; "traffic"] ∧
  (AgentStats.successRate <$> rows.*2) = ["100.0%"; "100.0%"; "50.0%"] ∧
  NoDup rows.*1.
Proof.
  cbn zeta. split_and!; [reflexivity..|].
  refine (proj1 (proj2 (agent_performance_rows ReferenceRuntime.runtime
            TrackerScenario.busyCalls TrackerScenario.busyTask _))).
  vm_compute. by left.
Defined.

(** *** The success rate of a task *)

(** X16. The success rate in the metadata of the report of a task the tracker
    holds: ['100%'] when no error was recorded; otherwise the share of the
    phases whose status is not ['error'], a number above 0, the first phase
    being the initialization, and below 100, each recorded error having
    added a phase with status ['error']. *)
Theorem task_success_rate rt calls now t :
  t ∈ tracked (run rt calls constructor) →
  let rate :=
    Metadata.successRate
      (TaskReport.metadata (ReportGenerator.generateTaskReport rt now t)) in
  (Task.errors t = [] → rate = "100%") ∧
  (Task.errors t ≠ [] →
   ∃ q, rate = toFixed rt 1 (Finite q) +:+ "%" ∧ (0 < q)%Q ∧ (q < 100)%Q) ∧
  errorPhases t < Z.of_nat (length (Task.phases t)).
Proof.
  intros Hin rate.
  pose proof (every_tracked Sound _ t (run_sound rt calls) Hin) as HS.
  assert (errorPhases t < Z.of_nat (length (Task.phases t))) as Hlt.
  { destruct (sound_opening _ HS) as (first & rest & Hp & _ & Hst).
    unfold errorPhases, count. rewrite Hp. cbn [List.filter]. rewrite Hst.
    cbn. pose proof (List.filter_length_le
      (λ p, String.eqb (Phase.status p) "error") rest). lia. }
  unfold rate, ReportGenerator.generateTaskReport.
  cbn [TaskReport.metadata Metadata.successRate].
  split_and!; [by intros ->| |done].
  intros Hne.
  assert (0 < Z.of_nat (length (Task.errors t))) as Hpos.
  { destruct (Task.errors t); [done|]. simpl. lia. }
  destruct (Z.eqb_spec (Z.of_nat (length (Task.errors t))) 0); [lia|].
  pose proof (sound_reported _ HS) as Hrep.
  pose proof (count_nonneg (λ p, String.eqb (Phase.status p) "error") (Task.phases t))
    as Hge. fold (errorPhases t) in Hge.
  unfold ReportGenerator.calculateSuccessRate. cbn zeta.
  change (Z.of_nat (length (List.filter
            (λ p, String.eqb (Phase.status p) "error") (Task.phases t))))
    with (errorPhases t).
  destruct (rate_range (Z.of_nat (length (Task.phases t)) - errorPhases t)
              (errorPhases t)) as (q & Hq & H0 & H100 & Heq & Hqpos); [lia..|].
  replace (Z.of_nat (length (Task.phases t)) - errorPhases t + errorPhases t)
    with (Z.of_nat (length (Task.phases t))) in Hq by lia.
  exists q. rewrite Hq. split_and!; [done|apply Hqpos; lia|].
  apply Qle_lteq in H100 as [?|Heq100]; [done|]. apply Heq in Heq100. lia.
Qed.

Lemma task_success_rate_witness :
  Metadata.successRate
    (TaskReport.metadata
       (ReportGenerator.generateTaskReport ReferenceRuntime.runtime 7
          TrackerScenario.created)) = "100%".
Proof.
  refine (proj1 (task_success_rate ReferenceRuntime.runtime
            [CreateTaskTracker "task_0" "demo" None 0] 7 TrackerScenario.created _)
            eq_refl).
  vm_compute. by left.
Defined.

(** X17. The counters of [performanceMetrics], whatever is called on a new
    tracker: none is negative, the successful and the failed tasks together
    are at most [totalTasks], and so is the length of the archive. As long
    as [cleanupOldTasks] has not been called the counters count the archive:
    [totalTasks] is its length, [successfulTasks] and [failedTasks] are the
    numbers of its tasks with status ['completed'] and ['failed'],
    [taskHistory] lists the same tasks, and [averageExecutionTime] is the
    mean of their durations (0 before the first task is completed). *)
Theorem metrics_follow_the_archive rt calls :
  let tr := run rt calls constructor in
  let m := performanceMetrics tr in
  (0 ≤ PerformanceMetrics.successfulTasks m ∧
   0 ≤ PerformanceMetrics.failedTasks m ∧
   PerformanceMetrics.successfulTasks m + PerformanceMetrics.failedTasks m
   ≤ PerformanceMetrics.totalTasks m ∧
   Z.of_nat (length (completedTasks tr)) ≤ PerformanceMetrics.totalTasks m) ∧
  (Forall (λ c, ¬ cleans c) calls →
   PerformanceMetrics.totalTasks m = Z.of_nat (length (completedTasks tr)) ∧
   (taskHistory tr).*1 = completedTasks tr ∧
   PerformanceMetrics.successfulTasks m
   = count (λ t, String.eqb (Task.status t) "completed") (completedTasks tr) ∧
   PerformanceMetrics.failedTasks m
   = count (λ t, String.eqb (Task.status t) "failed") (completedTasks tr) ∧
   PerformanceMetrics.averageExecutionTime m
   = match completedTasks tr with
     | [] => Finite 0
     | tasks => meanDuration tasks
     end).
Proof.
  intros tr m.
  destruct (run_tallied rt calls constructor) as [HS [Hs Hf Ht Hc _]];
    [apply every_constructor|apply constructor_tallied|].
  split; [done|]. intros Hcl.
  destruct (run_exact rt calls constructor Hcl) as [Et Eh Es Ef Ea _];
    [apply every_constructor|apply constructor_exact|].
  done.
Qed.

Lemma metrics_follow_the_archive_witness :
  PerformanceMetrics.totalTasks
    (performanceMetrics
       (run ReferenceRuntime.runtime (TrackerScenario.lifecycle "completed" 0)
          constructor))
  = Z.of_nat (length (completedTasks
       (run ReferenceRuntime.runtime (TrackerScenario.lifecycle "completed" 0)
          constructor))).
Proof.
  refine (proj1 (proj2 (metrics_follow_the_archive ReferenceRuntime.runtime
            (TrackerScenario.lifecycle "completed" 0)) _)).
  repeat (constructor; [intros []|]). constructor.
Defined.

(** X18. The counters of [agentUtilization] for the four agents it is created
    with: each is between 0 and [totalTasks], a completed task counting once
    for an agent however many of its phases the agent handled; as long as
    [cleanupOldTasks] has not been called, the counter of an agent is the
    number of archived tasks that involve it. *)
Theorem utilization_counts_tasks rt calls a :
  a ∈ agents →
  let tr := run rt calls constructor in
  let m := performanceMetrics tr in
  (∃ n, PerformanceMetrics.agentUtilization m !! a = Some n ∧
        0 ≤ n ≤ PerformanceMetrics.totalTasks m) ∧
  (Forall (λ c, ¬ cleans c) calls →
   PerformanceMetrics.agentUtilization m !! a
   = Some (count (λ t, includes (Task.agentsInvolved t) a) (completedTasks tr))).
Proof.
  intros Ha tr m.
  destruct (run_tallied rt calls constructor) as [HS [_ _ _ _ Hag]];
    [apply every_constructor|apply constructor_tallied|].
  split; [by apply Hag|]. intros Hcl.
  destruct (run_exact rt calls constructor Hcl) as [_ _ _ _ _ Eag];
    [apply every_constructor|apply constructor_exact|].
  by apply Eag.
Qed.

Lemma utilization_counts_tasks_witness :
  let m :=
    performanceMetrics
      (run ReferenceRuntime.runtime TrackerScenario.trafficCalls constructor) in
  PerformanceMetrics.agentUtilization m !! "traffic" = Some 1 ∧
  PerformanceMetrics.totalTasks m = 1 ∧
  ∃ n, PerformanceMetrics.agentUtilization m !! "traffic" = Some n ∧
       0 ≤ n ≤ PerformanceMetrics.totalTasks m.
Proof.
  cbn zeta.
  destruct (utilization_counts_tasks ReferenceRuntime.runtime
              TrackerScenario.trafficCalls "traffic") as [Hrange Hcount];
    [by left|].
  split_and!; [|reflexivity|exact Hrange].
  rewrite Hcount; [reflexivity|].
  repeat (constructor; [intros []|]). constructor.
Defined.

(** *** The health of a tracker *)

Lemma tallied_rates m :
  0 ≤ PerformanceMetrics.successfulTasks m →
  0 ≤ PerformanceMetrics.failedTasks m →
  PerformanceMetrics.successfulTasks m + PerformanceMetrics.failedTasks m
  ≤ PerformanceMetrics.totalTasks m →
  greater (divide (inject_Z (PerformanceMetrics.failedTasks m))
                  (inject_Z (PerformanceMetrics.totalTasks m))) (1 # 10) = true →
  less (divide (inject_Z (PerformanceMetrics.successfulTasks m))
               (inject_Z (PerformanceMetrics.totalTasks m))) (9 # 10) = true.
Proof.
  intros Hs Hf Ht.
  destruct (Z.eq_dec (PerformanceMetrics.totalTasks m) 0) as [H0|Hne].
  - assert (PerformanceMetrics.failedTasks m = 0) as -> by lia.
    by rewrite H0.
  - rewrite greater_ratio, less_ratio by lia.
    intros He%Z.ltb_lt. apply Z.ltb_lt. lia.
Qed.

(** X19. The health score of the system status report of a tracker. The
    penalty for the error rate never comes alone: when more than 10% of the
    counted tasks failed, fewer than 90% succeeded. So the score of a
    tracker is one of 100, 80, 75, 55, 45 and 25, and never 70 or 50. *)
Theorem error_penalty_never_alone rt calls stamp now now' :
  let tr := run rt calls constructor in
  let m := performanceMetrics tr in
  let score :=
    SystemHealth.score
      (SystemReport.systemHealth
         (generateSystemStatusReport rt stamp now now' tr)) in
  (greater (divide (inject_Z (PerformanceMetrics.failedTasks m))
                   (inject_Z (PerformanceMetrics.totalTasks m))) (1 # 10) = true →
   less (cumulativeSuccessRate m) (9 # 10) = true) ∧
  score ∈ [100; 80; 75; 55; 45; 25].
Proof.
  intros tr m score.
  destruct (run_tallied rt calls constructor) as [HS [Hs Hf Ht _ _]];
    [apply every_constructor|apply constructor_tallied|].
  fold tr in Hs, Hf, Ht. fold m in Hs, Hf, Ht.
  pose proof (tallied_rates m Hs Hf Ht) as Himp.
  split; [done|].
  assert (score = Z.max (100 - penalties m) 0) as ->
    by apply assessSystemHealth_score.
  unfold penalties. unfold cumulativeSuccessRate in Himp.
  destruct (greater (divide (inject_Z (PerformanceMetrics.failedTasks m)) _) _);
    [rewrite Himp by done|];
    destruct (greater (PerformanceMetrics.averageExecutionTime m) _);
    try destruct (less _ _); cbn; repeat first [by left|right].
Qed.

Lemma error_penalty_never_alone_witness :
  less (cumulativeSuccessRate
          (performanceMetrics
             (run ReferenceRuntime.runtime (TrackerScenario.lifecycle "failed" 0)
                constructor))) (9 # 10) = true.
Proof.
  refine (proj1 (error_penalty_never_alone ReferenceRuntime.runtime
            (TrackerScenario.lifecycle "failed" 0) 0 1 2) _).
  vm_compute. reflexivity.
Defined.

(** *** Tasks that are not active *)

Lemma completeTask_closes rt taskId now tr :
  activeTasks (completeTask rt taskId now tr).1 !! taskId = None.
Proof.
  destruct (activeTasks tr !! taskId) as [t|] eqn:Hl.
  - destruct (completeTask_present rt taskId now tr t Hl) as [-> _].
    apply lookup_delete_eq.
  - by rewrite completeTask_absent.
Qed.

Lemma updateTaskStatus_closes rt taskId status agent now tr :
  finishing status = true →
  activeTasks (updateTaskStatus rt taskId status agent now tr) !! taskId = None.
Proof.
  intros Hfin. rewrite updateTaskStatus_view. cbn zeta. rewrite Hfin.
  apply completeTask_closes.
Qed.

(** X20. A method called for a task that is not active does nothing:
    [addTaskPhase], [updateTaskStatus], [recordSensorDataUsage] and
    [recordError] leave the tracker as it is, and [completeTask] returns no
    report. A task stops being active when it is completed, by
    [completeTask] or by [updateTaskStatus] with the status ['completed'] or
    ['failed']. So a caller that reports the status ['completed'] and then
    calls [completeTask], as [processUserRequest] does, gets no report from
    the second call. *)
Theorem finished_task_is_closed rt taskId tr :
  (activeTasks tr !! taskId = None →
   (∀ phaseType description status agent now,
      addTaskPhase taskId phaseType description status agent now tr = tr) ∧
   (∀ status agent now, updateTaskStatus rt taskId status agent now tr = tr) ∧
   (∀ sensorType dataSize processingTime,
      recordSensorDataUsage taskId sensorType dataSize processingTime tr = tr) ∧
   (∀ message stack agent now,
      recordError taskId message stack agent now tr = tr) ∧
   (∀ now, completeTask rt taskId now tr = (tr, None))) ∧
  (∀ now, activeTasks (completeTask rt taskId now tr).1 !! taskId = None) ∧
  (∀ status agent now, status = "completed" ∨ status = "failed" →
     activeTasks (updateTaskStatus rt taskId status agent now tr) !! taskId = None) ∧
  (∀ agent now now',
     completeTask rt taskId now' (updateTaskStatus rt taskId "completed" agent now tr)
     = (updateTaskStatus rt taskId "completed" agent now tr, None)).
Proof.
  split_and!.
  - intros Hl. split_and!.
    + intros. by rewrite addTaskPhase_view, modify_absent.
    + intros. unfold updateTaskStatus. by rewrite Hl.
    + intros. by rewrite recordSensorDataUsage_view, modify_absent.
    + intros. by rewrite recordError_view, modify_absent.
    + intros. unfold completeTask. by rewrite Hl.
  - intros now. apply completeTask_closes.
  - intros status agent now [-> | ->]; by apply updateTaskStatus_closes.
  - intros agent now now'. unfold completeTask at 1.
    by rewrite updateTaskStatus_closes.
Qed.

Lemma finished_task_is_closed_witness :
  completeTask ReferenceRuntime.runtime "task_0" 7 constructor = (constructor, None).
Proof.
  refine (proj2 (proj2 (proj2 (proj2 (proj1 (finished_task_is_closed
            ReferenceRuntime.runtime "task_0" constructor) _)))) 7).
  reflexivity.
Defined.

(** *** cleanupOldTasks *)

(** X21. [cleanupOldTasks] keeps, in their order, the archived tasks that ended
    (or, without an end time, were created) less than a week before the
    reading of the clock, and the entries of [taskHistory] completed less
    than a week before; it touches neither the active tasks nor the metrics,
    whose counters go on counting the tasks it drops. A later cleanup
    subsumes an earlier one, and a cleanup repeated at the same reading
    changes nothing. *)
Theorem cleanup_keeps_the_last_week now tr :
  let week := 7 * 24 * 60 * 60 * 1000 in
  let tr' := cleanupOldTasks now tr in
  activeTasks tr' = activeTasks tr ∧
  performanceMetrics tr' = performanceMetrics tr ∧
  completedTasks tr' `sublist_of` completedTasks tr ∧
  taskHistory tr' `sublist_of` taskHistory tr ∧
  (∀ t, t ∈ completedTasks tr' ↔
        t ∈ completedTasks tr ∧
        now - week < num_or (Task.endTime t) (Task.createdAt t)) ∧
  (∀ t completedAt, (t, completedAt) ∈ taskHistory tr' ↔
        (t, completedAt) ∈ taskHistory tr ∧ now - week < completedAt) ∧
  (∀ earlier, earlier ≤ now →
     cleanupOldTasks now (cleanupOldTasks earlier tr) = tr') ∧
  cleanupOldTasks now tr' = tr'.
Proof.
  intros week tr'.
  assert (∀ earlier, earlier ≤ now →
            cleanupOldTasks now (cleanupOldTasks earlier tr) = tr') as Hlater.
  { intros earlier Hle. unfold tr', cleanupOldTasks.
    cbn [activeTasks completedTasks taskHistory performanceMetrics].
    f_equal; apply filter_filter_implied.
    - intros t Ht%Z.gtb_lt. apply Z.gtb_lt. lia.
    - intros e He%Z.gtb_lt. apply Z.gtb_lt. lia. }
  split_and!; try done.
  - apply sublist_List_filter.
  - apply sublist_List_filter.
  - intros t. unfold tr', cleanupOldTasks. cbn [completedTasks].
    rewrite elem_of_List_filter, Z.gtb_lt. unfold week. by split; intros [? ?].
  - intros t completedAt. unfold tr', cleanupOldTasks. cbn [taskHistory].
    rewrite elem_of_List_filter, Z.gtb_lt. unfold week. by split; intros [? ?].
  - unfold tr' at 1. by apply Hlater.
Qed.

Lemma cleanup_keeps_the_last_week_witness :
  let tr := TrackerScenario.oldAndNew in
  Task.id <$> completedTasks tr = ["old"; "new"] ∧
  Task.id <$> completedTasks (cleanupOldTasks 700002000 tr) = ["new"] ∧
  (Task.id ∘ fst) <$> taskHistory (cleanupOldTasks 700002000 tr) = ["new"] ∧
  cleanupOldTasks 700002000 (cleanupOldTasks 1500 tr) = cleanupOldTasks 700002000 tr ∧
  performanceMetrics (cleanupOldTasks 700002000 tr) = performanceMetrics tr.
Proof.
  cbn zeta.
  destruct (cleanup_keeps_the_last_week 700002000 TrackerScenario.oldAndNew)
    as (_ & Hmetrics & _ & _ & _ & _ & Hlater & _).
  split_and!; [reflexivity..| |exact Hmetrics].
  apply Hlater. lia.
Defined.

(** *** getTaskStatus *)

Lemma find_snoc_none {A} (f : A → bool) l x :
  List.find f l = None → List.find f (l ++ [x]) = if f x then Some x else None.
Proof.
  induction l as [|y l IH]; simpl; [done|].
  destruct (f y); [done|]. apply IH.
Qed.

(** X22. [getTaskStatus] after the other methods. It returns the task
    [createTaskTracker] has just returned; for an id that is neither active
    nor in the archive it returns nothing. After [updateTaskStatus] has
    completed an active task whose id is not in the archive yet, it returns
    the archived task: its status is the reported one, its end time the
    reading of the clock, and its duration is counted from the start time
    or, for a task that never ran, from its creation. An active task hides
    the archived tasks of the same id. *)
Theorem getTaskStatus_finds rt taskId tr :
  (∀ description priority now,
     getTaskStatus taskId (createTaskTracker taskId description priority now tr).1
     = Some (createTaskTracker taskId description priority now tr).2) ∧
  (∀ t, activeTasks tr !! taskId = Some t → getTaskStatus taskId tr = Some t) ∧
  (activeTasks tr !! taskId = None →
   Forall (λ t, Task.id t ≠ taskId) (completedTasks tr) →
   getTaskStatus taskId tr = None) ∧
  (∀ t status agent now,
     activeTasks tr !! taskId = Some t → Task.id t = taskId →
     Forall (λ t, Task.id t ≠ taskId) (completedTasks tr) →
     status = "completed" ∨ status = "failed" →
     ∃ t', getTaskStatus taskId (updateTaskStatus rt taskId status agent now tr)
           = Some t' ∧
           Task.status t' = status ∧ Task.endTime t' = Some now ∧
           Task.duration t'
           = Some (now - num_or (Task.startTime t) (Task.createdAt t)) ∧
           length (Task.phases t') = S (length (Task.phases t))).
Proof.
  split_and!.
  - intros description priority now. rewrite createTaskTracker_view.
    unfold getTaskStatus. cbn [fst snd activeTasks set_activeTasks].
    by rewrite lookup_insert_eq.
  - intros t Hl. unfold getTaskStatus. by rewrite Hl.
  - intros Hl Hnone. unfold getTaskStatus. rewrite Hl.
    induction Hnone as [|t l Ht _ IH]; simpl; [done|].
    destruct (String.eqb_spec (Task.id t) taskId); [done|]. apply IH.
  - intros t status agent now Hl Hid Hnone Hfin.
    assert (finishing status = true) as Hf by (by destruct Hfin as [-> | ->]).
    assert (String.eqb status "running" = false) as Hnr
      by (by destruct Hfin as [-> | ->]).
    rewrite updateTaskStatus_view. cbn zeta. rewrite Hf.
    set (t' := statusUpdated status agent now t).
    assert (activeTasks (modify taskId (statusUpdated status agent now) tr) !! taskId
            = Some t') as Hl'.
    { unfold modify. cbn [activeTasks set_activeTasks].
      by rewrite lookup_alter_eq, Hl. }
    destruct (completeTask_present rt taskId now _ t' Hl') as [Hact Hcom].
    exists t'. unfold getTaskStatus. rewrite Hact, lookup_delete_eq, Hcom.
    cbn [completedTasks modify set_activeTasks].
    assert (List.find (λ task, String.eqb (Task.id task) taskId) (completedTasks tr)
            = None) as Hfind.
    { induction Hnone as [|x l Hx _ IH]; simpl; [done|].
      destruct (String.eqb_spec (Task.id x) taskId); [done|]. apply IH. }
    rewrite (find_snoc_none _ _ _ Hfind).
    assert (Task.id t' = taskId) as Hid'.
    { unfold t', statusUpdated. rewrite Hnr, Hf. exact Hid. }
    rewrite Hid', String.eqb_refl. split; [done|].
    unfold t', statusUpdated. rewrite Hnr, Hf. cbn.
    split_and!; try done. rewrite length_app. simpl. lia.
Qed.

Lemma getTaskStatus_finds_witness :
  let tr := run ReferenceRuntime.runtime TrackerScenario.runningCalls constructor in
  ∃ t', getTaskStatus "task_0"
          (updateTaskStatus ReferenceRuntime.runtime "task_0" "completed" None 3000 tr)
        = Some t' ∧
        Task.status t' = "completed" ∧ Task.endTime t' = Some 3000 ∧
        Task.duration t' = Some 2000 ∧ length (Task.phases t') = 3%nat.
Proof.
  cbn zeta.
  destruct (activeTasks (run ReferenceRuntime.runtime TrackerScenario.runningCalls
                           constructor) !! "task_0") as [t|] eqn:Ht;
    [|by vm_compute in Ht].
  destruct (proj2 (proj2 (proj2 (getTaskStatus_finds ReferenceRuntime.runtime
              "task_0"
              (run ReferenceRuntime.runtime TrackerScenario.runningCalls constructor))))
              t "completed" None 3000 Ht)
    as (t' & Hfound & Hstatus & Hend & Hduration & Hphases).
  - vm_compute in Ht. by injection Ht as <-.
  - constructor.
  - by left.
  - exists t'. split_and!; [done..| |].
    + rewrite Hduration. vm_compute in Ht. by injection Ht as <-.
    + rewrite Hphases. vm_compute in Ht. by injection Ht as <-.
Defined.

(** *** The reports *)

(** X23. The status of [assessSystemHealth] follows from the score alone; the
    status the branches assign on the way is not returned. It is
    ['excellent'] exactly when no penalty applies, and then the only issue
    listed is that the system runs normally; one penalty alone, be it the
    one for a success rate below 90%, gives ['good']; two or three give
    ['poor']. Otherwise [issues] has one entry for each penalty.
    [generateSystemRecommendations] asks for an optimization, with these
    issues as its actions, exactly when the score is below 80. *)
Theorem health_status_follows_score systemData :
  let health := ReportGenerator.assessSystemHealth systemData in
  let penalty := penalties (SystemData.performanceMetrics systemData) in
  let advice := ReportGenerator.generateSystemRecommendations systemData in
  SystemHealth.score health = 100 - penalty ∧
  SystemHealth.status health
  = (if penalty =? 0 then "excellent"
     else if penalty <? 40 then "good" else "poor") ∧
  (penalty = 0 ↔ SystemHealth.issues health = ["系统运行正常"]) ∧
  (0 < length (SystemHealth.issues health) ≤ 3)%nat ∧
  ((∃ r, r ∈ advice ∧ SystemRecommendation.category r = "system_optimization")
   ↔ SystemHealth.score health < 80) ∧
  (∀ r, r ∈ advice → SystemRecommendation.category r = "system_optimization" →
        SystemRecommendation.actions r = SystemHealth.issues health).
Proof.
  cbn zeta.
  unfold ReportGenerator.generateSystemRecommendations,
    ReportGenerator.assessSystemHealth, penalties.
  destruct (greater _ (1 # 10)), (greater _ 20000), (less _ (9 # 10));
    destruct (Z.of_nat (length (SystemData.activeTasks systemData)) >? 10);
    cbn; split_and!;
    first
      [ reflexivity
      | lia
      | simpl; lia
      | by split
      | split; [intros ?; lia|intros ?; discriminate]
      | split; [intros _; lia|intros _; eexists; split; [by left|reflexivity]]
      | split; [|intros ?; lia];
        intros (r & Hr & Hc);
        repeat (apply elem_of_cons in Hr as [->|Hr]; [discriminate Hc|]);
        by apply elem_of_nil in Hr
      | intros r Hr Hc;
        repeat (apply elem_of_cons in Hr as [->|Hr];
                [first [reflexivity|discriminate Hc]|]);
        by apply elem_of_nil in Hr ].
Qed.

Lemma div_minutes ms : ms / 1000 / 60 = ms / 60000.
Proof. by rewrite Z.div_div by lia. Qed.

Lemma div_hours ms : ms / 1000 / 60 / 60 = ms / 3600000.
Proof. by rewrite !Z.div_div by lia. Qed.

Lemma formatDuration_short ms :
  ms < 60000 → ms ≠ 0 →
  ReportGenerator.formatDuration (Some ms) = pretty (ms / 1000) +:+ "秒" ∧
  (0 < ms → 0 ≤ ms / 1000 ≤ 59) ∧ (ms < 0 → ms / 1000 < 0).
Proof.
  intros Hlt Hne. unfold ReportGenerator.formatDuration.
  destruct (Z.eqb_spec ms 0); [done|]. cbn zeta. rewrite div_hours, div_minutes.
  assert (ms / 3600000 < 1) by (apply Z.div_lt_upper_bound; lia).
  assert (ms / 60000 < 1) by (apply Z.div_lt_upper_bound; lia).
  destruct (Z.gtb_spec (ms / 3600000) 0); [lia|].
  destruct (Z.gtb_spec (ms / 60000) 0); [lia|].
  split_and!; [done| |].
  - intros Hpos. split; [apply Z.div_pos; lia|].
    assert (ms / 1000 < 60); [apply Z.div_lt_upper_bound; lia|lia].
  - intros Hneg. apply Z.div_lt_upper_bound; lia.
Qed.

(** X24. [formatDuration] by the size of the duration. A missing duration and a
    duration of 0 are both printed as ['N/A']. Below a minute the whole
    seconds are printed, [0] for less than a second; a negative duration is
    printed as its whole seconds, rounded down, however long it is. From a
    minute on the minutes, 1 to 59, and the seconds, 0 to 59, are printed,
    and from an hour on the hours and the minutes, 0 to 59, without the
    seconds. *)
Theorem formatDuration_cases (ms : Z) :
  ReportGenerator.formatDuration None = "N/A" ∧
  ReportGenerator.formatDuration (Some 0) = "N/A" ∧
  (ms < 60000 → ms ≠ 0 →
   ReportGenerator.formatDuration (Some ms) = pretty (ms / 1000) +:+ "秒" ∧
   (0 < ms → 0 ≤ ms / 1000 ≤ 59) ∧ (ms < 0 → ms / 1000 < 0)) ∧
  (60000 ≤ ms < 3600000 →
   ReportGenerator.formatDuration (Some ms)
   = pretty (ms / 60000) +:+ "分钟" +:+ pretty ((ms / 1000) mod 60) +:+ "秒" ∧
   1 ≤ ms / 60000 ≤ 59 ∧ 0 ≤ (ms / 1000) mod 60 ≤ 59) ∧
  (3600000 ≤ ms →
   ReportGenerator.formatDuration (Some ms)
   = pretty (ms / 3600000) +:+ "小时" +:+ pretty ((ms / 60000) mod 60) +:+ "分钟" ∧
   1 ≤ ms / 3600000 ∧ 0 ≤ (ms / 60000) mod 60 ≤ 59).
Proof.
  pose proof (div_minutes ms) as Hm. pose proof (div_hours ms) as Hh.
  split_and!; try reflexivity.
  - apply formatDuration_short.
  - intros [Hlo Hhi]. unfold ReportGenerator.formatDuration.
    destruct (Z.eqb_spec ms 0); [lia|]. cbn zeta. rewrite Hh, Hm.
    assert (ms / 3600000 = 0) as -> by (apply Z.div_small; lia).
    assert (1 ≤ ms / 60000) by (apply Z.div_le_lower_bound; lia).
    assert (ms / 60000 < 60) by (apply Z.div_lt_upper_bound; lia).
    destruct (Z.gtb_spec 0 0); [lia|].
    destruct (Z.gtb_spec (ms / 60000) 0); [|lia].
    assert (0 ≤ ms / 1000) by (apply Z.div_pos; lia).
    rewrite Z.rem_mod_nonneg by lia.
    pose proof (Z.mod_pos_bound (ms / 1000) 60). split_and!; try done; lia.
  - intros Hlo. unfold ReportGenerator.formatDuration.
    destruct (Z.eqb_spec ms 0); [lia|]. cbn zeta. rewrite Hh, Hm.
    assert (1 ≤ ms / 3600000) by (apply Z.div_le_lower_bound; lia).
    destruct (Z.gtb_spec (ms / 3600000) 0); [|lia].
    assert (0 ≤ ms / 60000) by (apply Z.div_pos; lia).
    rewrite Z.rem_mod_nonneg by lia.
    pose proof (Z.mod_pos_bound (ms / 60000) 60). split_and!; try done; lia.
Qed.

Lemma formatDuration_cases_witness :
  ReportGenerator.formatDuration (Some 90000)
  = pretty (90000 / 60000) +:+ "分钟" +:+ pretty ((90000 / 1000) mod 60) +:+ "秒".
Proof.
  refine (proj1 (proj1 (proj2 (proj2 (proj2 (formatDuration_cases 90000)))) _)).
  lia.
Defined.

(** X25. The uptime of the system status report. [systemStartTime] is not a
    field the tracker sets, so the uptime is the difference of two readings
    of the clock taken one after the other: it is printed as ['N/A'] when
    the readings agree and as a negative number of seconds otherwise, never
    as a time the system has been up. That is so for the report of the
    tracker, whatever it holds and whenever it has read the clock for the
    time stamp before. *)
Theorem uptime_is_never_reported rt now now' systemData :
  SystemData.systemStartTime systemData = None →
  now ≤ now' →
  let uptime :=
    Overview.systemUptime
      (SystemReport.overview
         (ReportGenerator.generateSystemStatusReport rt now now' systemData)) in
  (now = now' → uptime = "N/A") ∧
  (now < now' →
   uptime = pretty ((now - now') / 1000) +:+ "秒" ∧ (now - now') / 1000 < 0) ∧
  (∀ stamp tr,
     Overview.systemUptime
       (SystemReport.overview (generateSystemStatusReport rt stamp now now' tr))
     = uptime).
Proof.
  intros Hstart Hle uptime.
  assert (uptime = ReportGenerator.formatDuration (Some (now - now'))) as ->.
  { unfold uptime, ReportGenerator.generateSystemStatusReport.
    cbn [SystemReport.overview Overview.systemUptime]. by rewrite Hstart. }
  split_and!.
  - intros ->. by rewrite Z.sub_diag.
  - intros Hlt.
    destruct (formatDuration_short (now - now')) as (Heq & _ & Hneg); [lia..|].
    split; [done|]. apply Hneg. lia.
  - done.
Qed.

Lemma uptime_is_never_reported_witness :
  Overview.systemUptime
    (SystemReport.overview
       (generateSystemStatusReport ReferenceRuntime.runtime 5 6 2007
          TrackerScenario.lateFailures)) = "-3秒".
Proof.
  pose proof (uptime_is_never_reported ReferenceRuntime.runtime 6 2007
                {| SystemData.activeTasks := [];
                   SystemData.completedTasks := [];
                   SystemData.performanceMetrics := performanceMetrics constructor;
                   SystemData.timestamp := 5;
                   SystemData.systemStartTime := None |} eq_refl) as H.
  destruct H as (_ & Hlate & Htracker); [lia|].
  rewrite (Htracker 5 TrackerScenario.lateFailures).
  destruct Hlate as [-> _]; [lia|]. reflexivity.
Defined.

(** *** Sensor data *)

Lemma sumZ_insert {A} (g : A → Z) i x (m : gmap string A) :
  m !! i = None →
  ReportGenerator.sumZ g (<[i:=x]> m) = ReportGenerator.sumZ g m + g x.
Proof.
  intros Hi. unfold ReportGenerator.sumZ.
  rewrite map_fold_insert_L; [done| |done]. intros. lia.
Qed.

Lemma sumZ_alter {A} (g : A → Z) h i x (m : gmap string A) :
  m !! i = Some x →
  ReportGenerator.sumZ g (alter h i m) = ReportGenerator.sumZ g m - g x + g (h x).
Proof.
  intros Hi.
  rewrite <- (insert_delete_id m i x Hi) at 1 2.
  rewrite alter_insert_eq.
  rewrite !sumZ_insert by apply lookup_delete_eq. lia.
Qed.

Lemma sensorUsed_metered sensorType dataSize processingTime t :
  Metered t → Metered (sensorUsed sensorType dataSize processingTime t).
Proof.
  intros [Hc Ht Hu]. unfold sensorUsed.
  destruct (Task.sensorDataUsed t !! sensorType) as [d|] eqn:Hl.
  - constructor; cbn.
    + rewrite (sumZ_alter _ _ _ d) by done. cbn. lia.
    + rewrite (sumZ_alter _ _ _ d) by done. cbn. lia.
    + intros s data. rewrite lookup_alter. case_decide as Hs.
      * subst s. rewrite Hl. cbn. intros [= <-]. cbn.
        specialize (Hu _ _ Hl). lia.
      * apply Hu.
  - constructor; cbn.
    + rewrite alter_insert_eq, sumZ_insert by done. cbn. lia.
    + rewrite alter_insert_eq, sumZ_insert by done. cbn. lia.
    + intros s data. rewrite alter_insert_eq, lookup_insert. case_decide as Hs.
      * intros [= <-]. cbn. lia.
      * apply Hu.
Qed.

Lemma metered_same t t' :
  Metered t → Task.metrics t' = Task.metrics t →
  Task.sensorDataUsed t' = Task.sensorDataUsed t → Metered t'.
Proof. intros [Hc Ht Hu] Hm Hs. constructor; rewrite ?Hm, ?Hs; done. Qed.

Lemma written_metered c t : Metered t → Metered (written c t).
Proof.
  intros Hm. destruct c; cbn [written]; try done.
  - by eapply metered_same.
  - unfold statusUpdated. cbn zeta.
    destruct (String.eqb _ "running"); [destruct (unset _)|destruct (finishing _)];
      by eapply metered_same.
  - by apply sensorUsed_metered.
  - by eapply metered_same.
Qed.

Lemma newTask_metered taskId description priority now :
  Metered (newTask taskId description priority now).
Proof.
  constructor; cbn; [done|done|]. intros s d. by rewrite lookup_empty.
Qed.

(** X26. Whatever is called on a new tracker, with sensor types that are no
    inherited property names, the metrics of every task agree with its
    per-sensor records: [metrics.apiCalls] is the sum of their [calls],
    [metrics.dataProcessingTime] the sum of their [totalProcessingTime], and
    every record counts at least one call, so the average processing time
    of the report is a quotient by a positive number. The report advises
    data optimization exactly when [apiCalls] is above 10. *)
Theorem sensor_usage_totals rt calls t :
  Forall plain calls →
  t ∈ tracked (run rt calls constructor) →
  TaskMetrics.apiCalls (Task.metrics t)
  = ReportGenerator.sumZ SensorData.calls (Task.sensorDataUsed t) ∧
  TaskMetrics.dataProcessingTime (Task.metrics t)
  = ReportGenerator.sumZ SensorData.totalProcessingTime (Task.sensorDataUsed t) ∧
  (∀ sensorType data, Task.sensorDataUsed t !! sensorType = Some data →
     1 ≤ SensorData.calls data ∧
     ∃ average,
       divide (inject_Z (SensorData.totalProcessingTime data))
              (inject_Z (SensorData.calls data)) = Finite average) ∧
  ("data_optimization" ∈ Recommendation.type <$> ReportGenerator.generateRecommendations t
   ↔ 10 < TaskMetrics.apiCalls (Task.metrics t)).
Proof.
  intros Hplain Hin.
  assert (Metered t) as [Hc Ht Hu].
  { eapply every_tracked; [|exact Hin].
    apply (every_run_when plain); [|apply newTask_metered|done|apply every_constructor].
    intros c t' _. apply written_metered. }
  split_and!; [done|done| |].
  - intros s d Hl. specialize (Hu s d Hl). split; [done|].
    apply divide_finite. lia.
  - rewrite Hc. unfold ReportGenerator.generateRecommendations.
    destruct (Z.of_nat (length (Task.errors t)) >? 0);
      destruct (ReportGenerator.longRunning t);
      destruct (Z.gtb_spec (ReportGenerator.sumZ SensorData.calls
                              (Task.sensorDataUsed t)) 10) as [Hgt|Hle];
      cbn; split; intros H; try lia; try done;
      repeat (first [apply elem_of_cons; (by left) || right | by apply elem_of_nil in H]);
      repeat (apply elem_of_cons in H as [H|H]; [discriminate H|]);
      by apply elem_of_nil in H.
Qed.

Lemma sensor_usage_totals_witness :
  let t :=
    default TrackerScenario.created
      (activeTasks
         (run ReferenceRuntime.runtime
            [CreateTaskTracker "task_0" "demo" None 0;
             RecordSensorDataUsage "task_0" "camera" 5 10;
             RecordSensorDataUsage "task_0" "camera" 7 20] constructor) !! "task_0") in
  TaskMetrics.apiCalls (Task.metrics t)
  = ReportGenerator.sumZ SensorData.calls (Task.sensorDataUsed t).
Proof.
  refine (proj1 (sensor_usage_totals ReferenceRuntime.runtime
            [CreateTaskTracker "task_0" "demo" None 0;
             RecordSensorDataUsage "task_0" "camera" 5 10;
             RecordSensorDataUsage "task_0" "camera" 7 20] _ _ _)).
  - repeat constructor;
      intros H; repeat (apply elem_of_cons in H as [H|H]; [discriminate H|]);
      by apply elem_of_nil in H.
  - vm_compute. by left.
Defined.

(** *** Error patterns *)

Lemma countUp_keys key c :
  (countUp key c).*1 = if decide (key ∈ c.*1) then c.*1 else c.*1 ++ [key].
Proof.
  induction c as [|[k n] c IH]; cbn.
  - rewrite decide_False; [done|]. by intros ?%elem_of_nil.
  - destruct (decide (key = k)) as [->|Hk]; cbn.
    + rewrite decide_True; [done|by left].
    + rewrite IH. destruct (decide (key ∈ c.*1)) as [Hin|Hin].
      * rewrite decide_True; [done|by right].
      * rewrite decide_False; [done|]. by intros [?|?]%elem_of_cons.
Qed.

Lemma countUp_elem key c k n :
  NoDup c.*1 →
  (k, n) ∈ countUp key c ↔
  (k ≠ key ∧ (k, n) ∈ c) ∨
  (k = key ∧ ((∃ m, (key, m) ∈ c ∧ n = m + 1) ∨ ((key ∉ c.*1) ∧ n = 1))).
Proof.
  induction c as [|[k0 n0] c IH]; cbn; intros Hnd.
  - rewrite list_elem_of_singleton. split.
    + intros [= -> ->]. right. split; [done|]. right. split; [|done].
      by intros ?%elem_of_nil.
    + intros [[_ []%elem_of_nil]|[-> [(m & []%elem_of_nil & _)|[_ ->]]]]. done.
  - apply NoDup_cons in Hnd as [Hk0 Hnd]. specialize (IH Hnd).
    assert (∀ x, (k0, x) ∉ c) as Hfresh.
    { intros x Hx. apply Hk0. apply list_elem_of_fmap. by exists (k0, x). }
    destruct (decide (key = k0)) as [->|Hk].
    + rewrite !elem_of_cons. split.
      * intros [[= -> ->]|Hin].
        -- right. split; [done|]. left. exists n0. split; [by left|done].
        -- left. split; [|by right]. intros ->. by eapply Hfresh.
      * intros [[Hne [[= ? ?]|Hin]]|[-> [(m & Hm & ->)|[Hno _]]]].
        -- done.
        -- by right.
        -- apply elem_of_cons in Hm as [[= ->]|Hm]; [by left|]. by destruct (Hfresh m).
        -- destruct Hno. by left.
    + rewrite !elem_of_cons, IH. split.
      * intros [[= -> ->]|[[Hne Hin]|[-> Hcase]]].
        -- left. split; [done|by left].
        -- left. split; [done|by right].
        -- right. split; [done|]. destruct Hcase as [(m & Hm & ->)|[Hno ->]].
           ++ left. exists m. split; [by right|done].
           ++ right. split; [|done]. by intros [?|?].
      * intros [[Hne [[= -> ->]|Hin]]|[-> Hcase]].
        -- by left.
        -- right. left. done.
        -- right. right. split; [done|].
           destruct Hcase as [(m & Hm & ->)|[Hno ->]].
           ++ apply elem_of_cons in Hm as [[= ? ?]|Hm]; [done|]. left. by exists m.
           ++ right. split; [|done]. intros Hin. apply Hno. by right.
Qed.

Lemma errorCounts_flat tasks counts :
  fold_left
    (λ errorCounts task,
       fold_left (λ errorCounts error, countUp (patternKey error) errorCounts)
         (Task.errors task) errorCounts) tasks counts
  = fold_left (λ errorCounts error, countUp (patternKey error) errorCounts)
      (flat_map Task.errors tasks) counts.
Proof.
  revert counts. induction tasks as [|t tasks IH]; intros counts; [done|].
  cbn. by rewrite fold_left_app, IH.
Qed.

Lemma errorCounts_spec errors :
  let counts :=
    fold_left (λ errorCounts error, countUp (patternKey error) errorCounts) errors [] in
  NoDup counts.*1 ∧
  ∀ key n, (key, n) ∈ counts ↔
    n = count (λ error, String.eqb (patternKey error) key) errors ∧ 0 < n.
Proof.
  induction errors as [|e errors IH] using rev_ind; cbn zeta.
  - split; [apply NoDup_nil_2|]. intros key n. cbn. split.
    + by intros ?%elem_of_nil.
    + unfold count. cbn. lia.
  - rewrite fold_left_app. cbn [fold_left].
    set (counts := fold_left _ errors []) in *. cbn zeta in IH.
    destruct IH as [Hnd Hc]. split.
    + rewrite countUp_keys. case_decide as Hin; [done|].
      apply NoDup_app. split_and!; [done| |apply NoDup_singleton].
      intros x Hx ->%list_elem_of_singleton. done.
    + intros key n. rewrite countUp_elem by done. rewrite count_snoc.
      pose proof (count_nonneg (λ error, String.eqb (patternKey error) key) errors)
        as Hnn.
      destruct (String.eqb_spec (patternKey e) key) as [<-|Hne].
      * split.
        -- intros [[? _]|[_ [(m & Hm & ->)|[Hno ->]]]]; [done| |].
           ++ apply Hc in Hm. lia.
           ++ split; [|lia].
              destruct (decide (count (λ error, String.eqb (patternKey error)
                                         (patternKey e)) errors = 0)) as [->|Hpos];
                [done|].
              destruct Hno. apply list_elem_of_fmap.
              exists (patternKey e, count (λ error, String.eqb (patternKey error)
                                            (patternKey e)) errors).
              split; [done|]. apply Hc. lia.
        -- intros [-> Hpos]. right. split; [done|].
           destruct (decide (count (λ error, String.eqb (patternKey error)
                                      (patternKey e)) errors = 0)) as [Hz|Hnz].
           ++ right. split; [|lia].
              intros ([k m] & Hk & Hm)%list_elem_of_fmap. cbn in Hk. subst k.
              apply Hc in Hm. lia.
           ++ left. eexists. split; [|done]. apply Hc. lia.
      * split.
        -- intros [[_ Hin]|[? _]]; [|done]. apply Hc in Hin. lia.
        -- intros [-> Hpos]. left. split; [done|]. apply Hc. lia.
Qed.

(** X27. [analyzeErrorPatterns] reports a pattern [agent:phase] exactly when at
    least two of the errors of the given tasks carry it, once, with the
    number of those errors as its frequency. *)
Theorem error_patterns_count tasks :
  let patterns := analyzeErrorPatterns tasks in
  NoDup (ErrorPattern.pattern <$> patterns) ∧
  (∀ p, p ∈ patterns ↔
        ErrorPattern.frequency p = occurrences (ErrorPattern.pattern p) tasks ∧
        2 ≤ ErrorPattern.frequency p).
Proof.
  cbn zeta. unfold analyzeErrorPatterns, occurrences. rewrite errorCounts_flat.
  destruct (errorCounts_spec (flat_map Task.errors tasks)) as [Hnd Hc].
  cbn zeta in Hnd, Hc. set (counts := fold_left _ _ []) in *.
  split.
  - change (map ?f ?l) with (f <$> l). rewrite <- list_fmap_compose.
    assert (((ErrorPattern.pattern
                ∘ (λ entry : string * Z,
                     {| ErrorPattern.pattern := entry.1;
                        ErrorPattern.frequency := entry.2 |}))
             <$> List.filter (λ entry : string * Z, 2 <=? entry.2) counts)
            `sublist_of` counts.*1) as Hsub
      by apply (fmap_sublist fst), sublist_List_filter.
    revert Hnd Hsub. apply sublist_NoDup.
  - intros [pat freq]. cbn. change (map ?f ?l) with (f <$> l).
    rewrite list_elem_of_fmap. split.
    + intros ([k n] & [= -> ->] & Hin). cbn in Hin.
      apply elem_of_List_filter in Hin as [Hin Hge]. cbn in Hge.
      apply Hc in Hin as [-> _]. split; [done|]. by apply Z.leb_le.
    + intros [Hf Hge]. exists (pat, freq). split; [done|].
      apply elem_of_List_filter. split; [|by apply Z.leb_le].
      apply Hc. split; [exact Hf|lia].
Qed.

Lemma error_patterns_count_witness :
  {| ErrorPattern.pattern := "traffic:initialization";
     ErrorPattern.frequency := 2 |}
  ∈ analyzeErrorPatterns
      [errorRecorded "timeout" None "traffic" 5 TrackerScenario.created;
       errorRecorded "timeout" None "traffic" 9 TrackerScenario.created].
Proof.
  refine (proj2 (proj2 (error_patterns_count
            [errorRecorded "timeout" None "traffic" 5 TrackerScenario.created;
             errorRecorded "timeout" None "traffic" 9 TrackerScenario.created])
            {| ErrorPattern.pattern := "traffic:initialization";
               ErrorPattern.frequency := 2 |}) _).
  split; [reflexivity|]. cbn. lia.
Defined.

End TrackerViews.
